(** * Sudomoji: the 6x6 Sudoku core (validator, candidates, hints, generator)

    A shallow embedding of [src/shared/utils/sudoku.ts],
    [candidate-calculator.ts], [solving-techniques.ts], [hint-engine.ts] and
    [move-history.ts], with the properties the specification states about
    them.

    Conventions.
    - A cell [number | null] is [option Z]: [None] is [null].
    - A grid is a list of rows.  Reading [grid[r]?.[c]] gives an
      [option Cell]: the outer [None] is JavaScript's [undefined].
    - Row and column indices are naturals (the callers pass loop counters).
    - Pure code is embedded as functions; code that mutates a local copy is
      embedded by state passing; the frame properties (who may observe a
      write) are settled in the object-store embedding of [Module Store]. *)

From Stdlib Require Import ZArith String DecimalString Sorted.
From stdpp Require Import base list gmap.

#[local] Open Scope Z_scope.

(** ** Types ([types/sudoku.ts]) *)

Abbreviation Cell := (option Z).
Abbreviation Grid := (list (list Cell)).

Definition GRID_SIZE : nat := 6.
Definition BOX_WIDTH : nat := 3.
Definition BOX_HEIGHT : nat := 2.

(** [grid[r]?.[c]] *)
Definition cellAt (g : Grid) (r c : nat) : option Cell :=
  match g !! r with
  | Some currentRow => currentRow !! c
  | None => None
  end.

(** [row[col] = x] on an array.  Past the end JavaScript grows the array and
    leaves holes; every read of such a hole in this code base is filtered
    like [null], so the embedding pads with [None]. *)
Definition arraySet (row : list Cell) (col : nat) (x : Cell) : list Cell :=
  if decide (col < length row)%nat then <[col := x]> row
  else row ++ replicate (col - length row) None ++ [x].

(** [grid[r][c] = x] when [grid[r]] exists (no write otherwise). *)
Definition setCell (g : Grid) (r c : nat) (x : Cell) : Grid :=
  match g !! r with
  | Some currentRow => <[r := arraySet currentRow c x]> g
  | None => g
  end.

(** ** SudokuValidator ([utils/sudoku.ts]) *)

(** [unit.filter(v => v !== null)] *)
Definition nonNull (unit : list Cell) : list Z := omap id unit.

(** [new Set(values).size] *)
Definition setSize (values : list Z) : nat := length (remove_dups values).

Definition isValidUnit (unit : list Cell) : bool :=
  let values := nonNull unit in
  Nat.eqb (setSize values) (length values).

(** [grid.map(row => row?.[col]).filter(cell => cell !== undefined)] *)
Definition column (g : Grid) (col : nat) : list Cell :=
  omap (fun row : list Cell => row !! col) g.

Definition getBox (g : Grid) (boxRow boxCol : nat) : list Cell :=
  let startRow := (boxRow * BOX_HEIGHT)%nat in
  let startCol := (boxCol * BOX_WIDTH)%nat in
  flat_map
    (fun row =>
       match g !! row with
       | Some currentRow =>
           omap (fun col => currentRow !! col) (seq startCol BOX_WIDTH)
       | None => []
       end)
    (seq startRow BOX_HEIGHT).

Definition isValidGrid (g : Grid) : bool :=
  if negb (Nat.eqb (length g) GRID_SIZE)
     || existsb (fun row => negb (Nat.eqb (length row) GRID_SIZE)) g
  then false
  else
    forallb
      (fun row => match g !! row with
                  | Some currentRow => isValidUnit currentRow
                  | None => false
                  end)
      (seq 0 GRID_SIZE)
    && forallb (fun col => isValidUnit (column g col)) (seq 0 GRID_SIZE)
    && forallb
         (fun boxRow =>
            forallb (fun boxCol => isValidUnit (getBox g boxRow boxCol))
                    (seq 0 (GRID_SIZE / BOX_WIDTH)))
         (seq 0 (GRID_SIZE / BOX_HEIGHT)).

Definition isValidMove (g : Grid) (row col : nat) (value : Z) : bool :=
  if (value <? 1) || (6 <? value) then false
  else
    match g !! row with
    | None => false
    | Some r0 =>
        let targetRow := arraySet r0 col (Some value) in
        let testGrid := <[row := targetRow]> g in
        let rowValues := nonNull targetRow in
        if negb (Nat.eqb (setSize rowValues) (length rowValues)) then false
        else
          let colValues := nonNull (column testGrid col) in
          if negb (Nat.eqb (setSize colValues) (length colValues)) then false
          else
            let boxRow := (row / BOX_HEIGHT)%nat in
            let boxCol := (col / BOX_WIDTH)%nat in
            let boxValues := nonNull (getBox testGrid boxRow boxCol) in
            if negb (Nat.eqb (setSize boxValues) (length boxValues)) then false
            else true
    end.

Definition isSolved (g : Grid) : bool :=
  forallb
    (fun row =>
       match g !! row with
       | None => false
       | Some currentRow =>
           forallb
             (fun col => match currentRow !! col with
                         | Some None => false
                         | _ => true
                         end)
             (seq 0 GRID_SIZE)
       end)
    (seq 0 GRID_SIZE)
  && isValidGrid g.

(** A complete grid used in examples. *)
Definition sampleSolution : Grid :=
  map (map Some)
    [ [1; 2; 3; 4; 5; 6];
      [4; 5; 6; 1; 2; 3];
      [2; 3; 1; 5; 6; 4];
      [5; 6; 4; 2; 3; 1];
      [3; 1; 2; 6; 4; 5];
      [6; 4; 5; 3; 1; 2] ].


(** ** CandidateCalculator ([utils/candidate-calculator.ts])

    A [Set<number>] is the list of its elements in insertion order, without
    duplicates. *)

Abbreviation CandidateSet := (list Z).

Definition setDelete (v : Z) (s : CandidateSet) : CandidateSet :=
  filter (fun x => x ≠ v) s.

Definition setHas (v : Z) (s : CandidateSet) : bool := bool_decide (v ∈ s).

(** [if (value !== null) candidates.delete(value)], where [value] was read
    with optional chaining; deleting [undefined] removes nothing. *)
Definition deleteSeen (s : CandidateSet) (value : option Cell) : CandidateSet :=
  match value with
  | Some (Some v) => setDelete v s
  | Some None => s
  | None => s
  end.

Definition calculateCellCandidates (g : Grid) (row col : nat) : CandidateSet :=
  match cellAt g row col with
  | Some None =>
      let candidates : CandidateSet := [1; 2; 3; 4; 5; 6] in
      let candidates :=
        match g !! row with
        | Some currentRow =>
            foldl (fun s value => deleteSeen s (Some value)) candidates currentRow
        | None => candidates
        end in
      let candidates :=
        foldl (fun s r => deleteSeen s (cellAt g r col)) candidates
              (seq 0 GRID_SIZE) in
      let startRow := (row / BOX_HEIGHT * BOX_HEIGHT)%nat in
      let startCol := (col / BOX_WIDTH * BOX_WIDTH)%nat in
      foldl
        (fun s r =>
           foldl (fun s c => deleteSeen s (cellAt g r c)) s
                 (seq startCol BOX_WIDTH))
        candidates (seq startRow BOX_HEIGHT)
  | _ => []
  end.

(** [{ [row: number]: { [col: number]: Set<number> } }] *)
Abbreviation CandidateGrid := (gmap nat (gmap nat CandidateSet)).

(** [candidates[row]?.[col]] *)
Definition candAt (candidates : CandidateGrid) (row col : nat)
  : option CandidateSet :=
  match candidates !! row with
  | Some rowCandidates => rowCandidates !! col
  | None => None
  end.

Definition calculateAllCandidates (g : Grid) : CandidateGrid :=
  foldl
    (fun candidates row =>
       <[row :=
           foldl
             (fun rowCandidates col =>
                match cellAt g row col with
                | Some None =>
                    <[col := calculateCellCandidates g row col]> rowCandidates
                | _ => <[col := []]> rowCandidates
                end)
             (∅ : gmap nat CandidateSet) (seq 0 GRID_SIZE)]> candidates)
    (∅ : CandidateGrid) (seq 0 GRID_SIZE).

(** All 36 positions in row-major order: the order of the nested
    [for (row) for (col)] loops. *)
Definition allPositions : list (nat * nat) :=
  flat_map (fun row => map (fun col => (row, col)) (seq 0 GRID_SIZE))
           (seq 0 GRID_SIZE).

Definition findCellsWithNoCandidates (candidates : CandidateGrid)
  : list (nat * nat) :=
  flat_map
    (fun '(row, col) =>
       match candAt candidates row col with
       | Some cellCandidates =>
           if Nat.eqb (length cellCandidates) 0 then [(row, col)] else []
       | None => []
       end)
    allPositions.

Record Single := mkSingle { s_row : nat; s_col : nat; s_value : Z }.

Definition findNakedSingles (candidates : CandidateGrid) : list Single :=
  flat_map
    (fun '(row, col) =>
       match candAt candidates row col with
       | Some cellCandidates =>
           if Nat.eqb (length cellCandidates) 1 then
             match head cellCandidates with
             | Some value => [mkSingle row col value]
             | None => []
             end
           else []
       | None => []
       end)
    allPositions.

Inductive UnitKind := UnitRow | UnitColumn | UnitBox.

Record HiddenSingle :=
  mkHidden { h_row : nat; h_col : nat; h_value : Z; h_unit : UnitKind }.

(** [grid[r]?.[c] === null && candidates[r]?.[c]?.has(value)] *)
Definition canHold (g : Grid) (candidates : CandidateGrid)
    (r c : nat) (value : Z) : bool :=
  match cellAt g r c with
  | Some None =>
      match candAt candidates r c with
      | Some s => setHas value s
      | None => false
      end
  | _ => false
  end.

Definition values1to6 : list Z := [1; 2; 3; 4; 5; 6].

Definition findHiddenSingles (g : Grid) (candidates : CandidateGrid)
  : list HiddenSingle :=
  let rows :=
    flat_map
      (fun row =>
         flat_map
           (fun value =>
              let possibleCols :=
                filter (fun col => canHold g candidates row col value = true)
                       (seq 0 GRID_SIZE) in
              match possibleCols with
              | [col] => [mkHidden row col value UnitRow]
              | _ => []
              end)
           values1to6)
      (seq 0 GRID_SIZE) in
  let cols :=
    flat_map
      (fun col =>
         flat_map
           (fun value =>
              let possibleRows :=
                filter (fun row => canHold g candidates row col value = true)
                       (seq 0 GRID_SIZE) in
              match possibleRows with
              | [row] => [mkHidden row col value UnitColumn]
              | _ => []
              end)
           values1to6)
      (seq 0 GRID_SIZE) in
  let boxes :=
    flat_map
      (fun boxRow =>
         flat_map
           (fun boxCol =>
              flat_map
                (fun value =>
                   let startRow := (boxRow * BOX_HEIGHT)%nat in
                   let startCol := (boxCol * BOX_WIDTH)%nat in
                   let possibleCells :=
                     flat_map
                       (fun r =>
                          flat_map
                            (fun c =>
                               if canHold g candidates r c value
                               then [(r, c)] else [])
                            (seq startCol BOX_WIDTH))
                       (seq startRow BOX_HEIGHT) in
                   match possibleCells with
                   | [(r, c)] => [mkHidden r c value UnitBox]
                   | _ => []
                   end)
                values1to6)
           (seq 0 (GRID_SIZE / BOX_WIDTH)))
      (seq 0 (GRID_SIZE / BOX_HEIGHT)) in
  rows ++ cols ++ boxes.

(** ** SolvingTechniques and TechniquePriority ([utils/solving-techniques.ts]) *)

Inductive SolvingTechnique := NAKED_SINGLE | HIDDEN_SINGLE.

#[global] Instance SolvingTechnique_eq_dec : EqDecision SolvingTechnique.
Proof. solve_decision. Defined.

Inductive MoveType := Place | Eliminate.

(** [confidence] is the literal [1.0] in both techniques; it is kept as an
    integer. *)
Record HintMove := mkHintMove {
  m_type : MoveType;
  m_row : nat;
  m_col : nat;
  m_value : Z;
  m_technique : SolvingTechnique;
  m_explanation : string;
  m_confidence : Z
}.

Definition showNat (n : nat) : string := NilZero.string_of_uint (Nat.to_uint n).
Definition showZ (z : Z) : string := NilZero.string_of_int (Z.to_int z).

Definition getCellName (row col : nat) : string :=
  String.append "R" (String.append (showNat (row + 1))
    (String.append "C" (showNat (col + 1)))).

Definition getUnitName (row col : nat) (unit : UnitKind) : string :=
  match unit with
  | UnitRow => String.append "row " (showNat (row + 1))
  | UnitColumn => String.append "column " (showNat (col + 1))
  | UnitBox =>
      String.append "box "
        (String.append (showNat (row / 2 + 1))
           (String.append "-" (showNat (col / 3 + 1))))
  end.

(** The methods of the class [SolvingTechniques]; the finders wrap those of
    [CandidateCalculator] above. *)
Module SolvingTechniques.

Definition explainNakedSingle (row col : nat) (value : Z) : string :=
  String.append (getCellName row col)
    (String.append " can only be "
       (String.append (showZ value)
          ". This is the only number that fits in this cell based on the numbers already placed in its row, column, and box.")).

Definition explainHiddenSingle (row col : nat) (value : Z) (unit : UnitKind)
  : string :=
  String.append (getCellName row col)
    (String.append " must be "
       (String.append (showZ value)
          (String.append ". This is the only place where "
             (String.append (showZ value)
                (String.append " can go in "
                   (String.append (getUnitName row col unit) ".")))))).

Definition findNakedSingles (g : Grid) (candidates : CandidateGrid)
  : list HintMove :=
  map (fun single =>
         mkHintMove Place (s_row single) (s_col single) (s_value single)
           NAKED_SINGLE
           (explainNakedSingle (s_row single) (s_col single) (s_value single))
           1)
      (findNakedSingles candidates).

Definition findHiddenSingles (g : Grid) (candidates : CandidateGrid)
  : list HintMove :=
  map (fun single =>
         mkHintMove Place (h_row single) (h_col single) (h_value single)
           HIDDEN_SINGLE
           (explainHiddenSingle (h_row single) (h_col single) (h_value single)
              (h_unit single))
           1)
      (findHiddenSingles g candidates).

End SolvingTechniques.

(** [TECHNIQUE_ORDER.indexOf(technique)] *)
Definition techniqueIndex (t : SolvingTechnique) : Z :=
  match t with
  | NAKED_SINGLE => 0
  | HIDDEN_SINGLE => 1
  end.

(** The comparator handed to [Array.prototype.sort]. *)
Definition compareMoves (a b : HintMove) : Z :=
  let priorityA := techniqueIndex (m_technique a) in
  let priorityB := techniqueIndex (m_technique b) in
  if negb (priorityA =? priorityB) then priorityA - priorityB
  else m_confidence b - m_confidence a.

(** [Array.prototype.sort] is stable (ECMAScript 2019): a stable insertion
    sort gives the same result for any comparator that is a total preorder. *)
Fixpoint insertMove (m : HintMove) (sorted : list HintMove) : list HintMove :=
  match sorted with
  | [] => [m]
  | x :: rest =>
      if compareMoves m x <=? 0 then m :: x :: rest
      else x :: insertMove m rest
  end.

Definition sortMovesByPriority (moves : list HintMove) : list HintMove :=
  foldr insertMove [] moves.

(** ** HintEngine ([utils/hint-engine.ts]) *)

Inductive ErrorKind := Contradiction | InvalidMove | NoSolution.

#[global] Instance ErrorKind_eq_dec : EqDecision ErrorKind.
Proof. solve_decision. Defined.

Record ErrorLocation := mkError {
  e_row : nat;
  e_col : nat;
  e_type : ErrorKind;
  e_description : string;
  e_suggestedAction : string
}.

Record BoardAnalysis := mkAnalysis {
  availableMoves : list HintMove;
  candidateGrid : CandidateGrid;
  errors : list ErrorLocation;
  isValid : bool;
  isSolvable : bool
}.

Definition HINT_PENALTY_SECONDS : Z := 20.

Definition getHintPenalty : Z := HINT_PENALTY_SECONDS.

(** The key [`${row}-${col}-${value}`] identifies the triple. *)
Definition moveKey (m : HintMove) : nat * nat * Z :=
  (m_row m, m_col m, m_value m).

Definition removeDuplicateMoves (moves : list HintMove) : list HintMove :=
  snd
    (foldl
       (fun '(seen, uniqueMoves) move =>
          if bool_decide (moveKey move ∈ seen) then (seen, uniqueMoves)
          else (moveKey move :: seen, uniqueMoves ++ [move]))
       (([] : list (nat * nat * Z)), ([] : list HintMove)) moves).

Definition findAllAvailableMoves (g : Grid) (candidates : CandidateGrid)
  : list HintMove :=
  removeDuplicateMoves
    (SolvingTechniques.findNakedSingles g candidates
     ++ SolvingTechniques.findHiddenSingles g candidates).

Definition noSolutionError (row col : nat) : ErrorLocation :=
  mkError row col NoSolution
    (String.append "Cell "
       (String.append (getCellName row col) " has no possible values."))
    "Check recent moves for errors and consider undoing them.".

Definition invalidMoveError (row col : nat) (value : Z) : ErrorLocation :=
  mkError row col InvalidMove
    (String.append "Value "
       (String.append (showZ value)
          (String.append " at "
             (String.append (getCellName row col) " violates Sudoku rules."))))
    "This cell contains an invalid value and should be corrected.".

(** [detectErrors(grid, candidateGrid?)] *)
Definition detectErrors (g : Grid) (candidateGrid : option CandidateGrid)
  : list ErrorLocation :=
  let candidates :=
    match candidateGrid with
    | Some cg => cg
    | None => calculateAllCandidates g
    end in
  let emptyCells := findCellsWithNoCandidates candidates in
  let noSolution := map (fun '(row, col) => noSolutionError row col) emptyCells in
  let invalid :=
    flat_map
      (fun row =>
         match g !! row with
         | None => []
         | Some currentRow =>
             flat_map
               (fun col =>
                  match currentRow !! col with
                  | Some (Some value) =>
                      let testGrid := setCell g row col None in
                      if negb (isValidMove testGrid row col value)
                      then [invalidMoveError row col value]
                      else []
                  | _ => []
                  end)
               (seq 0 (length currentRow))
         end)
      (seq 0 (length g)) in
  noSolution ++ invalid.

Definition analyzeBoard (g : Grid) : BoardAnalysis :=
  let candidateGrid := calculateAllCandidates g in
  let availableMoves := findAllAvailableMoves g candidateGrid in
  let errors := detectErrors g (Some candidateGrid) in
  let isValid := isValidGrid g && Nat.eqb (length errors) 0 in
  let isSolvable :=
    isValid && (Nat.ltb 0 (length availableMoves) || isSolved g) in
  mkAnalysis availableMoves candidateGrid errors isValid isSolvable.

Definition findNextMove (g : Grid) : option HintMove :=
  let analysis := analyzeBoard g in
  if Nat.ltb 0 (length (errors analysis)) then None
  else if Nat.eqb (length (availableMoves analysis)) 0 then None
  else head (sortMovesByPriority (availableMoves analysis)).

(** Scenario C: the sample solution with the cell at row 2, column 4 cleared. *)
Definition scenarioC : Grid := setCell sampleSolution 2 4 None.

(** Scenario E: six locally legal placements leave row 0, column 0 without a
    candidate. *)
Definition scenarioE : Grid :=
  [ [None; Some 1; Some 2; Some 3; None; None];
    [None; None; None; None; None; None];
    [Some 4; None; None; None; None; None];
    [Some 5; None; None; None; None; None];
    [Some 6; None; None; None; None; None];
    [None; None; None; None; None; None] ].

(** ** SudokuGenerator ([utils/sudoku.ts]) *)

Inductive Difficulty := Easy | Medium | Hard.

Definition getCellsToRemove (difficulty : Difficulty) : nat :=
  match difficulty with
  | Easy => 18
  | Medium => 22
  | Hard => 26
  end.

Definition getMinimumClues (difficulty : Difficulty) : nat :=
  match difficulty with
  | Easy => 16
  | Medium => 12
  | Hard => 8
  end.

(** [puzzle.flat().filter(cell => cell !== null).length] *)
Definition countFilled (g : Grid) : nat :=
  length (filter (fun cell : Cell => cell ≠ None) (concat g)).

(** *** The uniqueness checker *)

(** The recursive closure [solve(row, col)] of [findAllSolutions]: the state
    is the working copy [grid] and the list [solutions] collected so far.
    The recursion visits the 36 cells once and stops at [row === 6], so 37
    units of [fuel] are never used up (see [solve_fuel_irrelevant]). *)
Fixpoint solve (maxSolutions : nat) (fuel : nat) (row col : nat)
    (st : Grid * list Grid) : Grid * list Grid :=
  match fuel with
  | O => st
  | S fuel' =>
      let '(grid, solutions) := st in
      if Nat.leb maxSolutions (length solutions) then st
      else if Nat.eqb row GRID_SIZE then (grid, solutions ++ [grid])
      else
        let nextRow := if Nat.eqb col (GRID_SIZE - 1) then (row + 1)%nat else row in
        let nextCol := if Nat.eqb col (GRID_SIZE - 1) then 0%nat else (col + 1)%nat in
        match grid !! row with
        | None => st
        | Some currentRow =>
            match currentRow !! col with
            | Some None =>
                foldl
                  (fun (st : Grid * list Grid) (num : Z) =>
                     let '(grid, solutions) := st in
                     if isValidMove grid row col num then
                       let '(grid', solutions') :=
                         solve maxSolutions fuel' nextRow nextCol
                               (setCell grid row col (Some num), solutions) in
                       (setCell grid' row col None, solutions')
                     else st)
                  st values1to6
            | _ => solve maxSolutions fuel' nextRow nextCol st
            end
        end
  end.

Definition solveFuel : nat := 37.

Definition findAllSolutions (puzzle : Grid) (maxSolutions : nat) : list Grid :=
  snd (solve maxSolutions solveFuel 0 0 (puzzle, [])).

(** [JSON.stringify(a) === JSON.stringify(b)] on grids of integers and
    [null]s is structural equality. *)
Definition hasUniqueSolution (puzzle expectedSolution : Grid) : bool :=
  let solutions := findAllSolutions puzzle 2 in
  match solutions with
  | [found] => bool_decide (found = expectedSolution)
  | _ => false
  end.

(** *** [hasNextLogicalMove] *)

(** [if (typeof cellValue === 'number' && cellValue !== 0)
       candidates.delete(cellValue)] *)
Definition deleteNumber (s : CandidateSet) (cellValue : option Cell)
  : CandidateSet :=
  match cellValue with
  | Some (Some v) => if bool_decide (v = 0) then s else setDelete v s
  | _ => s
  end.

Definition getCandidates (g : Grid) (r c : nat) : list Z :=
  let size := length g in
  match g !! r with
  | None => []
  | Some currentRow =>
      let proceed :=
        match currentRow !! c with
        | Some None => true
        | Some (Some v) => bool_decide (v = 0)
        | None => false
        end in
      if negb proceed then []
      else
        let candidates : CandidateSet := map Z.of_nat (seq 1 size) in
        let candidates :=
          foldl (fun s i => deleteNumber s (currentRow !! i)) candidates
                (seq 0 size) in
        let candidates :=
          foldl (fun s i => deleteNumber s (cellAt g i c)) candidates
                (seq 0 size) in
        let br := (r / BOX_HEIGHT * BOX_HEIGHT)%nat in
        let bc := (c / BOX_WIDTH * BOX_WIDTH)%nat in
        foldl
          (fun s i =>
             foldl (fun s j => deleteNumber s (cellAt g (br + i) (bc + j))) s
                   (seq 0 BOX_WIDTH))
          candidates (seq 0 BOX_HEIGHT)
  end.

Definition hasNextLogicalMove (g : Grid) : bool :=
  let size := length g in
  existsb
    (fun r =>
       existsb (fun c => Nat.eqb (length (getCandidates g r c)) 1)
               (seq 0 size))
    (seq 0 size).

(** *** Randomised parts

    [Math.random] is an oracle: [oracle n] is the outcome of the [n]-th
    draw, and [Math.floor(Math.random() * k)] is [oracle n mod k], which
    ranges over all of [0 .. k-1].  The number of draws made so far is
    threaded through the code. *)

Section Generator.

Variable oracle : nat -> nat.

Definition randomBelow (n k : nat) : nat := (oracle n mod k)%nat.

(** The loop [for (i = length - 1; i > 0; i--)] of [shuffleArray]. *)
Fixpoint shuffleLoop {A} (i : nat) (shuffled : list A) (n : nat)
  : list A * nat :=
  match i with
  | O => (shuffled, n)
  | S i' =>
      let j := randomBelow n (i + 1) in
      let shuffled' :=
        match shuffled !! i, shuffled !! j with
        | Some temp, Some swapItem =>
            <[j := temp]> (<[i := swapItem]> shuffled)
        | _, _ => shuffled
        end in
      shuffleLoop i' shuffled' (S n)
  end.

Definition shuffleArray {A} (array : list A) (n : nat) : list A * nat :=
  shuffleLoop (length array - 1) array n.

(** The first [null] cell in the scan [for (row) for (col)] of [fillGrid]. *)
Definition firstNull (g : Grid) : option (nat * nat) :=
  List.find
    (fun '(row, col) =>
       match cellAt g row col with
       | Some None => true
       | _ => false
       end)
    allPositions.

(** The loop [for (const num of numbers)] of [fillGrid]; [recurse] is the
    recursive call [this.fillGrid(grid)]. *)
Fixpoint tryNumbers (recurse : Grid -> nat -> bool * Grid * nat)
    (row col : nat) (numbers : list Z) (g : Grid) (n : nat)
  : bool * Grid * nat :=
  match numbers with
  | [] => (false, g, n)
  | num :: rest =>
      if isValidMove g row col num then
        let '(ok, g', n') := recurse (setCell g row col (Some num)) n in
        if ok then (true, g', n')
        else tryNumbers recurse row col rest (setCell g' row col None) n'
      else tryNumbers recurse row col rest g n
  end.

(** [fillGrid] returns its boolean, the grid as the call leaves it, and the
    number of draws.  Every nested call fills one more cell, so the depth is
    at most 37; [fuel] bounds it (see [fillGrid_fuel_irrelevant]). *)
Fixpoint fillGrid (fuel : nat) (g : Grid) (n : nat) : bool * Grid * nat :=
  match fuel with
  | O => (false, g, n)
  | S fuel' =>
      match firstNull g with
      | None => (true, g, n)
      | Some (row, col) =>
          let '(numbers, n1) := shuffleArray values1to6 n in
          tryNumbers (fillGrid fuel') row col numbers g n1
      end
  end.

Definition fillFuel : nat := 37.

Definition emptyGrid : Grid := replicate GRID_SIZE (replicate GRID_SIZE None).

Definition generateCompleteSolution (n : nat) : Grid * nat :=
  let '(_, grid, n') := fillGrid fillFuel emptyGrid n in
  (grid, n').

Definition removeCells (solution : Grid) (cellsToRemove : nat) (n : nat)
  : Grid * nat :=
  let '(shuffledPositions, n') := shuffleArray allPositions n in
  (foldl (fun puzzle '(row, col) => setCell puzzle row col None)
         solution (take cellsToRemove shuffledPositions),
   n').

Definition maxConsecutiveFailures : nat := 10.

(** The loop [for (const [row, col] of shuffledPositions)] of
    [createGuidedPuzzle]; the state is
    [(puzzle, removedCells, consecutiveFailures)]. *)
Fixpoint guidedInner (solution : Grid) (difficulty : Difficulty)
    (positions : list (nat * nat)) (st : Grid * nat * nat)
  : Grid * nat * nat :=
  match positions with
  | [] => st
  | (row, col) :: rest =>
      let '(puzzle, removedCells, consecutiveFailures) := st in
      if Nat.leb (getCellsToRemove difficulty) removedCells then st
      else if Nat.leb maxConsecutiveFailures consecutiveFailures then st
      else
        match cellAt puzzle row col with
        | Some (Some originalValue) =>
            let puzzle' := setCell puzzle row col None in
            let hasUnique := hasUniqueSolution puzzle' solution in
            let hasLogical := hasNextLogicalMove puzzle' in
            let filledCells := countFilled puzzle' in
            let meetsMinimum :=
              Nat.leb (getMinimumClues difficulty) filledCells in
            if hasUnique && hasLogical && meetsMinimum then
              guidedInner solution difficulty rest
                (puzzle', S removedCells, O)
            else
              guidedInner solution difficulty rest
                (setCell puzzle' row col (Some originalValue),
                 removedCells, S consecutiveFailures)
        | _ => guidedInner solution difficulty rest st
        end
  end.

(** The loop [for (pass = 0; pass < 3 && removedCells < targetCells; pass++)]. *)
Fixpoint guidedPasses (solution : Grid) (difficulty : Difficulty)
    (passes : nat) (st : Grid * nat * nat) (n : nat)
  : Grid * nat * nat * nat :=
  match passes with
  | O => (st, n)
  | S passes' =>
      let '(puzzle, removedCells, consecutiveFailures) := st in
      if Nat.ltb removedCells (getCellsToRemove difficulty) then
        let '(shuffledPositions, n1) := shuffleArray allPositions n in
        guidedPasses solution difficulty passes'
          (guidedInner solution difficulty shuffledPositions st) n1
      else (st, n)
  end.

Definition createGuidedPuzzle (solution : Grid) (difficulty : Difficulty)
    (n : nat) : option Grid * nat :=
  let '(puzzle, _, _, n') :=
    guidedPasses solution difficulty 3 (solution, O, O) n in
  if negb (hasNextLogicalMove puzzle) then (None, n')
  else (Some puzzle, n').

(** The removal loop of [createValidPuzzle]; the state is
    [(puzzle, removedCells)]. *)
Fixpoint validInner (solution : Grid) (difficulty : Difficulty)
    (positions : list (nat * nat)) (st : Grid * nat) : Grid * nat :=
  match positions with
  | [] => st
  | (row, col) :: rest =>
      let '(puzzle, removedCells) := st in
      if Nat.leb (getCellsToRemove difficulty) removedCells then st
      else
        match cellAt puzzle row col with
        | Some (Some originalValue) =>
            let puzzle' := setCell puzzle row col None in
            if hasUniqueSolution puzzle' solution && hasNextLogicalMove puzzle'
            then validInner solution difficulty rest (puzzle', S removedCells)
            else
              validInner solution difficulty rest
                (setCell puzzle' row col (Some originalValue), removedCells)
        | _ => validInner solution difficulty rest st
        end
  end.

Definition createValidPuzzle (solution : Grid) (difficulty : Difficulty)
    (n : nat) : option Grid * nat :=
  let '(shuffledPositions, n') := shuffleArray allPositions n in
  let '(puzzle, _) :=
    validInner solution difficulty shuffledPositions (solution, O) in
  if Nat.ltb (countFilled puzzle) (getMinimumClues difficulty) then (None, n')
  else if negb (hasNextLogicalMove puzzle) then (None, n')
  else (Some puzzle, n').

(** The loop [while (!hasNextLogicalMove(puzzle) && fallbackAttempts < 5)];
    [left] counts the iterations still allowed. *)
Fixpoint fallbackLoop (solution : Grid) (conservativeCellsToRemove : nat)
    (left : nat) (fallbackAttempts : nat) (puzzle : Grid) (n : nat)
  : Grid * nat :=
  match left with
  | O => (puzzle, n)
  | S left' =>
      if negb (hasNextLogicalMove puzzle) then
        let fallbackAttempts := S fallbackAttempts in
        let adjustedCellsToRemove :=
          Nat.max 1 (conservativeCellsToRemove - fallbackAttempts) in
        let '(puzzle', n') := removeCells solution adjustedCellsToRemove n in
        fallbackLoop solution conservativeCellsToRemove left'
                     fallbackAttempts puzzle' n'
      else (puzzle, n)
  end.

Definition generateFallbackPuzzle (difficulty : Difficulty) (n : nat)
  : Grid * Grid * nat :=
  let '(solution, n1) := generateCompleteSolution n in
  let conservativeCellsToRemove :=
    Nat.max 1 (getCellsToRemove difficulty - 4) in
  let '(puzzle, n2) := removeCells solution conservativeCellsToRemove n1 in
  let '(puzzle', n3) :=
    fallbackLoop solution conservativeCellsToRemove 5 0 puzzle n2 in
  (puzzle', solution, n3).

Definition maxAttempts : nat := 15.

(** The loop [while (attempts < maxAttempts)] of [generatePuzzle], followed
    by the fallback; [left] counts the attempts still allowed.  The test
    [if (!solution)] never fires: an array is truthy. *)
Fixpoint generateLoop (left : nat) (difficulty : Difficulty) (n : nat)
  : Grid * Grid * nat :=
  match left with
  | O => generateFallbackPuzzle difficulty n
  | S left' =>
      let '(solution, n1) := generateCompleteSolution n in
      let '(puzzle, n2) :=
        match createGuidedPuzzle solution difficulty n1 with
        | (Some p, n2) => (Some p, n2)
        | (None, n2) => createValidPuzzle solution difficulty n2
        end in
      match puzzle with
      | Some p =>
          if hasUniqueSolution p solution && hasNextLogicalMove p
          then (p, solution, n2)
          else generateLoop left' difficulty n2
      | None => generateLoop left' difficulty n2
      end
  end.

(** Returns [{ puzzle, solution }] and the number of draws made. *)
Definition generatePuzzle (difficulty : Difficulty) (n : nat)
  : Grid * Grid * nat :=
  generateLoop maxAttempts difficulty n.

End Generator.

(** ** The object store

    [isValidMove], [MoveHistoryManager] and [updateCandidatesAfterMove] work
    on copies of mutable arrays, objects and [Set]s.  Who can observe a write
    is settled here: rows, grids, sets and plain objects live in a store, a
    reference is an index into it, [new]/[map]/spread allocate at the end,
    and an assignment replaces the object at its reference.  A function
    returns [None] where JavaScript throws a [TypeError] or the store is
    ill-typed. *)

Module Store.

Abbreviation loc := nat.

Inductive obj :=
| ORow (cells : list Cell)          (* a row: (number | null)[] *)
| OGrid (rows : list loc)           (* a grid: an array of rows *)
| OSet (elems : CandidateSet)       (* Set<number> *)
| ORec (fields : gmap nat loc).     (* an object with numeric keys *)

Abbreviation heap := (list obj).

Definition alloc (h : heap) (o : obj) : heap * loc := (h ++ [o], length h).

Definition readRow (h : heap) (l : loc) : option (list Cell) :=
  match h !! l with
  | Some (ORow cells) => Some cells
  | _ => None
  end.

Definition readGrid (h : heap) (l : loc) : option (list loc) :=
  match h !! l with
  | Some (OGrid rows) => Some rows
  | _ => None
  end.

Definition readSet (h : heap) (l : loc) : option CandidateSet :=
  match h !! l with
  | Some (OSet elems) => Some elems
  | _ => None
  end.

Definition readRec (h : heap) (l : loc) : option (gmap nat loc) :=
  match h !! l with
  | Some (ORec fields) => Some fields
  | _ => None
  end.

(** The grid a reference denotes. *)
Definition loadGrid (h : heap) (grid : loc) : option Grid :=
  rows ← readGrid h grid;
  mapM (readRow h) rows.

(** [rows.map(r => [...r])]: one fresh row per row. *)
Fixpoint copyRows (h : heap) (rows : list loc) : option (heap * list loc) :=
  match rows with
  | [] => Some (h, [])
  | r :: rest =>
      cells ← readRow h r;
      let '(h1, r') := alloc h (ORow cells) in
      '(h2, rest') ← copyRows h1 rest;
      Some (h2, r' :: rest')
  end.

(** [grid.map(r => [...r])] *)
Definition copyGrid (h : heap) (grid : loc) : option (heap * loc) :=
  rows ← readGrid h grid;
  '(h1, rows') ← copyRows h rows;
  Some (alloc h1 (OGrid rows')).

(** [rowRef[col] = x] *)
Definition writeRow (h : heap) (rowRef : loc) (col : nat) (x : Cell)
  : option heap :=
  cells ← readRow h rowRef;
  Some (<[rowRef := ORow (arraySet cells col x)]> h).

(** [grid[row][col] = x]; a missing row throws. *)
Definition writeCell (h : heap) (grid : loc) (row col : nat) (x : Cell)
  : option heap :=
  rows ← readGrid h grid;
  rowRef ← rows !! row;
  writeRow h rowRef col x.

(** A store holding just the grid [g]: its rows, then the array of rows.
    The grid's reference is [length g]. *)
Definition storeOf (g : Grid) : heap :=
  map ORow g ++ [OGrid (seq 0 (length g))].

(** *** [SudokuValidator.isValidMove] on references *)

Definition isValidMove (h : heap) (grid : loc) (row col : nat) (value : Z)
  : option (bool * heap) :=
  if (value <? 1) || (6 <? value) then Some (false, h)
  else
    '(h1, testGrid) ← copyGrid h grid;
    rows ← readGrid h1 testGrid;
    match rows !! row with
    | None => Some (false, h1)
    | Some targetRow =>
        h2 ← writeRow h1 targetRow col (Some value);
        rowCells ← readRow h2 targetRow;
        let rowValues := nonNull rowCells in
        if negb (Nat.eqb (setSize rowValues) (length rowValues))
        then Some (false, h2)
        else
          test ← loadGrid h2 testGrid;
          let colValues := nonNull (column test col) in
          if negb (Nat.eqb (setSize colValues) (length colValues))
          then Some (false, h2)
          else
            let boxRow := (row / BOX_HEIGHT)%nat in
            let boxCol := (col / BOX_WIDTH)%nat in
            let boxValues := nonNull (getBox test boxRow boxCol) in
            if negb (Nat.eqb (setSize boxValues) (length boxValues))
            then Some (false, h2)
            else Some (true, h2)
    end.

(** *** [MoveHistoryManager] ([utils/move-history.ts]) *)

Record PlayerMove := mkMove {
  pm_row : nat;
  pm_col : nat;
  pm_value : option Z;          (* null for clearing a cell *)
  pm_isUndo : option bool
}.

Record MoveHistoryEntry := mkEntry {
  move : PlayerMove;
  timestamp : Z;
  boardStateBefore : loc;
  wasHintUsed : bool;
  technique : option SolvingTechnique
}.

(** The manager's private state is its [history] array;
    [maxHistorySize] is never reassigned. *)
Record MoveHistoryManager := mkManager {
  history : list MoveHistoryEntry
}.

Definition maxHistorySize : nat := 100.

Definition newManager : MoveHistoryManager := mkManager [].

Definition deepCopyGrid (h : heap) (grid : loc) : option (heap * loc) :=
  copyGrid h grid.

(** [now] is the value of [Date.now()]. *)
Definition addMove (h : heap) (mgr : MoveHistoryManager) (mv : PlayerMove)
    (board : loc) (hintUsed : bool) (tech : option SolvingTechnique)
    (now : Z) : option (heap * MoveHistoryManager) :=
  '(h1, snapshot) ← deepCopyGrid h board;
  let entry := mkEntry mv now snapshot hintUsed tech in
  let pushed := history mgr ++ [entry] in
  let trimmed :=
    if Nat.ltb maxHistorySize (length pushed)
    then drop (length pushed - maxHistorySize) pushed
    else pushed in
  Some (h1, mkManager trimmed).

Definition getHistory (mgr : MoveHistoryManager) : list MoveHistoryEntry :=
  history mgr.

(** [history.slice(-count)]: [slice(-0)] is [slice(0)], the whole array. *)
Definition getRecentMoves (mgr : MoveHistoryManager) (count : nat)
  : list MoveHistoryEntry :=
  if Nat.eqb count 0 then history mgr
  else drop (length (history mgr) - count) (history mgr).

Definition getLastMove (mgr : MoveHistoryManager) : option MoveHistoryEntry :=
  last (history mgr).

Definition clearHistory (mgr : MoveHistoryManager) : MoveHistoryManager :=
  mkManager [].

Definition removeLastMove (mgr : MoveHistoryManager)
  : option MoveHistoryEntry * MoveHistoryManager :=
  (last (history mgr),
   mkManager (take (length (history mgr) - 1) (history mgr))).

Definition getBoardStateAtIndex (h : heap) (mgr : MoveHistoryManager)
    (index : nat) : option (heap * option loc) :=
  match history mgr !! index with
  | Some entry =>
      '(h1, copy) ← deepCopyGrid h (boardStateBefore entry);
      Some (h1, Some copy)
  | None => Some (h, None)
  end.

Definition isPlayerStuck (mgr : MoveHistoryManager) : bool :=
  let recentMoves := getRecentMoves mgr 5 in
  if Nat.ltb (length recentMoves) 5 then false
  else
    forallb
      (fun entry =>
         wasHintUsed entry
         || match pm_isUndo (move entry) with
            | Some b => b
            | None => false
            end)
      recentMoves.

(** The caller goes on editing its own grid: a sequence of assignments
    [grid[row][col] = x]. *)
Fixpoint writeCells (h : heap) (grid : loc) (writes : list (nat * nat * Cell))
  : option heap :=
  match writes with
  | [] => Some h
  | (row, col, x) :: rest =>
      h1 ← writeCell h grid row col x;
      writeCells h1 grid rest
  end.

(** *** [CandidateCalculator.updateCandidatesAfterMove] on references

    A candidate map is an object whose fields are row objects whose fields
    are sets. *)

(** [candidates[row]?.[col]]: the inner [None] is [undefined]. *)
Definition candRef (h : heap) (candidates : loc) (row col : nat)
  : option (option loc) :=
  fields ← readRec h candidates;
  match fields !! row with
  | None => Some None
  | Some rowRef =>
      rowFields ← readRec h rowRef;
      Some (rowFields !! col)
  end.

(** The content of the entry at [(row, col)], if there is one. *)
Definition candEntry (h : heap) (candidates : loc) (row col : nat)
  : option CandidateSet :=
  match candRef h candidates row col with
  | Some (Some setRef) => readSet h setRef
  | _ => None
  end.

(** [object[key] = value] *)
Definition setField (h : heap) (object : loc) (key : nat) (value : loc)
  : option heap :=
  fields ← readRec h object;
  Some (<[object := ORec (<[key := value]> fields)]> h).

(** [newCandidates[row][col] = value]; a missing row object throws. *)
Definition setEntry (h : heap) (candidates : loc) (row col : nat)
    (value : loc) : option heap :=
  fields ← readRec h candidates;
  rowRef ← fields !! row;
  setField h rowRef col value.

(** The inner loop of [deepCopyCandidates] for one row. *)
Definition copyRowCandidates (candidates copy : loc) (row : nat) (h : heap)
  : option heap :=
  foldl
    (fun (acc : option heap) (col : nat) =>
       h0 ← acc;
       cellCandidates ← candRef h0 candidates row col;
       elems ←
         match cellCandidates with
         | Some setRef => readSet h0 setRef
         | None => Some []
         end;
       let '(h1, fresh) := alloc h0 (OSet elems) in
       setEntry h1 copy row col fresh)
    (Some h) (seq 0 GRID_SIZE).

Definition deepCopyCandidates (h : heap) (candidates : loc)
  : option (heap * loc) :=
  let '(h0, copy) := alloc h (ORec ∅) in
  h' ←
    foldl
      (fun (acc : option heap) (row : nat) =>
         h1 ← acc;
         let '(h2, rowObj) := alloc h1 (ORec ∅) in
         h3 ← setField h2 copy row rowObj;
         copyRowCandidates candidates copy row h3)
      (Some h0) (seq 0 GRID_SIZE);
  Some (h', copy).

(** [if (cond && newCandidates[r]?.[c]) newCandidates[r][c].delete(value)] *)
Definition deleteAt (candidates : loc) (value : Z) (cond : bool)
    (r c : nat) (h : heap) : option heap :=
  if cond then
    entry ← candRef h candidates r c;
    match entry with
    | Some setRef =>
        elems ← readSet h setRef;
        Some (<[setRef := OSet (setDelete value elems)]> h)
    | None => Some h
    end
  else Some h.

Definition updateCandidatesAfterMove (g : Grid) (h : heap) (candidates : loc)
    (mv : PlayerMove) : option (heap * loc) :=
  '(h1, newCandidates) ← deepCopyCandidates h candidates;
  match pm_value mv with
  | None =>
      let '(h2, fresh) :=
        alloc h1 (OSet (calculateCellCandidates g (pm_row mv) (pm_col mv))) in
      h3 ← setEntry h2 newCandidates (pm_row mv) (pm_col mv) fresh;
      Some (h3, newCandidates)
  | Some value =>
      let '(h2, fresh) := alloc h1 (OSet []) in
      h3 ← setEntry h2 newCandidates (pm_row mv) (pm_col mv) fresh;
      h4 ←
        foldl
          (fun (acc : option heap) (col : nat) =>
             h0 ← acc;
             deleteAt newCandidates value
               (negb (Nat.eqb col (pm_col mv))) (pm_row mv) col h0)
          (Some h3) (seq 0 GRID_SIZE);
      h5 ←
        foldl
          (fun (acc : option heap) (row : nat) =>
             h0 ← acc;
             deleteAt newCandidates value
               (negb (Nat.eqb row (pm_row mv))) row (pm_col mv) h0)
          (Some h4) (seq 0 GRID_SIZE);
      let startRow := (pm_row mv / BOX_HEIGHT * BOX_HEIGHT)%nat in
      let startCol := (pm_col mv / BOX_WIDTH * BOX_WIDTH)%nat in
      h6 ←
        foldl
          (fun (acc : option heap) (r : nat) =>
             foldl
               (fun (acc : option heap) (c : nat) =>
                  h0 ← acc;
                  deleteAt newCandidates value
                    (negb (Nat.eqb r (pm_row mv))
                     || negb (Nat.eqb c (pm_col mv))) r c h0)
               acc (seq startCol BOX_WIDTH))
          (Some h5) (seq startRow BOX_HEIGHT);
      Some (h6, newCandidates)
  end.

End Store.

(** ** Specification vocabulary *)

(** A 6x6 array of rows. *)
Definition shape66 (g : Grid) : Prop :=
  length g = 6%nat ∧ Forall (fun row : list Cell => length row = 6%nat) g.

(** Every filled cell holds one of 1..6. *)
Definition inRange (g : Grid) : Prop :=
  ∀ r c v, cellAt g r c = Some (Some v) → 1 ≤ v ≤ 6.

(** The specification's [Grid]: 6x6, each cell 1..6 or empty. *)
Definition wellFormed (g : Grid) : Prop := shape66 g ∧ inRange g.

Definition isFull (g : Grid) : Prop :=
  ∀ r c, (r < 6)%nat → (c < 6)%nat → ∃ v, cellAt g r c = Some (Some v).

(** [s] keeps every filled cell of [p]. *)
Definition extends (p s : Grid) : Prop :=
  ∀ r c v, cellAt p r c = Some (Some v) → cellAt s r c = Some (Some v).

(** [s] is a completion of [p] into a full valid grid. *)
Definition completion (p s : Grid) : Prop :=
  wellFormed s ∧ isFull s ∧ isValidGrid s = true ∧ extends p s.

(** [p] has exactly one completion, and it is [s]. *)
Definition uniqueCompletion (p s : Grid) : Prop :=
  completion p s ∧ ∀ t, completion p t → t = s.

(** The validator on grid values, as opposed to [Store.isValidMove]. *)
Abbreviation isValidMoveOfGrid := isValidMove.

(** *** Candidate maps in the store *)

Module StoreSpec.
Import Store.

(** The store is well typed at a candidate map: the map is an object, its
    fields are objects, and their fields are sets. *)
Definition wfCand (h : heap) (candidates : loc) : Prop :=
  ∃ fields, readRec h candidates = Some fields
    ∧ ∀ row rowRef, fields !! row = Some rowRef →
        ∃ rowFields, readRec h rowRef = Some rowFields
          ∧ ∀ col setRef, rowFields !! col = Some setRef →
              is_Some (readSet h setRef).

(** What the copy holds for a cell: the input's set, or the empty set
    where the input has no entry. *)
Definition candDefault (h : heap) (candidates : loc) (r c : nat)
  : CandidateSet :=
  default [] (candEntry h candidates r c).

(** In the store [hc], row [r] of the copy under construction (whose
    fields are [cf]) is a row object allocated after [h] and holds the
    right sets in its columns below [C]. *)
Definition rowCopied (h : heap) (candidates : loc) (hc : heap)
    (cf : gmap nat loc) (r C : nat) : Prop :=
  ∃ ro rf, cf !! r = Some ro
    ∧ (length h < ro < length hc)%nat
    ∧ readRec hc ro = Some rf
    ∧ ∀ c, (c < C)%nat →
        ∃ so, rf !! c = Some so
              ∧ readSet hc so = Some (candDefault h candidates r c).

(** Invariant of [deepCopyCandidates] inside row [R], before column [C]:
    nothing allocated before the call has changed, rows below [R] are
    complete, row [R] is complete below [C], the copy has no row beyond
    [R], and no two rows of the copy share their row object. *)
Definition rowInv (h : heap) (candidates : loc) (hc : heap) (R C : nat)
  : Prop :=
  (∀ l o, h !! l = Some o → hc !! l = Some o)
  ∧ ∃ cf, readRec hc (length h) = Some cf
      ∧ (∀ r, (r < R)%nat → rowCopied h candidates hc cf r 6)
      ∧ rowCopied h candidates hc cf R C
      ∧ (∀ r ro, cf !! r = Some ro → (r ≤ R)%nat)
      ∧ (∀ r r' ro, cf !! r = Some ro → cf !! r' = Some ro → r = r').

(** Invariant of [deepCopyCandidates] between rows: rows below [R] are
    complete and the copy has no other row yet. *)
Definition copyInv (h : heap) (candidates : loc) (hc : heap) (R : nat)
  : Prop :=
  (∀ l o, h !! l = Some o → hc !! l = Some o)
  ∧ ∃ cf, readRec hc (length h) = Some cf
      ∧ (∀ r, (r < R)%nat → rowCopied h candidates hc cf r 6)
      ∧ (∀ r ro, cf !! r = Some ro → (r < R)%nat)
      ∧ (∀ r r' ro, cf !! r = Some ro → cf !! r' = Some ro → r = r').

(** C7 as it is stated, at one input: the call returns a map whose entry
    at the cleared cell is the recomputed set, whose every other entry
    equals the input's entry, and the input is unmodified. *)
Definition clearingUpdateAsStated (g : Grid) (h : heap) (candidates : loc)
    (mv : PlayerMove) : Prop :=
  ∃ h' newCandidates,
    updateCandidatesAfterMove g h candidates mv = Some (h', newCandidates)
    ∧ candEntry h' newCandidates (pm_row mv) (pm_col mv)
      = Some (calculateCellCandidates g (pm_row mv) (pm_col mv))
    ∧ (∀ r c, (r, c) ≠ (pm_row mv, pm_col mv) →
              candEntry h' newCandidates r c = candEntry h candidates r c)
    ∧ (∀ l o, h !! l = Some o → h' !! l = Some o).

End StoreSpec.

(** *** Units as lists of positions *)

Definition rowPositions (r : nat) : list (nat * nat) :=
  map (fun c => (r, c)) (seq 0 6).

Definition colPositions (c : nat) : list (nat * nat) :=
  map (fun r => (r, c)) (seq 0 6).

Definition boxPositions (boxRow boxCol : nat) : list (nat * nat) :=
  flat_map (fun r => map (fun c => (r, c)) (seq (boxCol * 3) 3))
           (seq (boxRow * 2) 2).

(** The 18 units: six rows, six columns, six 3x2 boxes. *)
Definition allUnits : list (list (nat * nat)) :=
  map rowPositions (seq 0 6)
  ++ map colPositions (seq 0 6)
  ++ flat_map (fun boxRow => map (boxPositions boxRow) (seq 0 2)) (seq 0 3).

(** The cells of a unit, in the order of its positions. *)
Definition unitCells (g : Grid) (unit : list (nat * nat)) : list Cell :=
  omap (fun p : nat * nat => cellAt g p.1 p.2) unit.

(** No unit has a duplicate filled value. *)
Definition validUnits (g : Grid) : Prop :=
  Forall (fun unit => isValidUnit (unitCells g unit) = true) allUnits.

(** Cell [a] is empty or holds what [b] holds. *)
Definition cellSub (a b : Cell) : Prop := a = None ∨ a = b.

(** The number of empty cells of the board. *)
Definition countNull (g : Grid) : nat :=
  length (filter (fun p : nat * nat => cellAt g p.1 p.2 = Some None)
                 allPositions).

(** The position of cell [(row, col)] in the row-major scan. *)
Definition scanIndex (row col : nat) : nat := (6 * row + col)%nat.

(** Every cell the scan has passed before position [k] is filled. *)
Definition filledBefore (g : Grid) (k : nat) : Prop :=
  ∀ r c, (r < 6)%nat → (c < 6)%nat → (scanIndex r c < k)%nat →
         ∃ v, cellAt g r c = Some (Some v).

(** What a call of [solve] on the state [(g, sols)] does: it restores the
    grid and appends distinct completions of [g]; unless the bound
    [maxSolutions] is reached, it appends all of them. *)
Definition solveSpec (maxSolutions : nat) (g : Grid) (sols : list Grid)
    (result : Grid * list Grid) : Prop :=
  ∃ extra,
    result = (g, sols ++ extra)
    ∧ NoDup extra
    ∧ (∀ s, s ∈ extra → completion g s)
    ∧ ((length (sols ++ extra) < maxSolutions)%nat →
       ∀ s, completion g s → s ∈ extra).

(** The same for the loop over the values tried at cell [(row, col)]: after
    the values [vals], the completions appended are those holding one of
    [vals] in that cell. *)
Definition solveSpecAt (maxSolutions : nat) (g : Grid) (row col : nat)
    (vals : list Z) (sols : list Grid) (result : Grid * list Grid) : Prop :=
  ∃ extra,
    result = (g, sols ++ extra)
    ∧ NoDup extra
    ∧ (∀ s, s ∈ extra →
            completion g s
            ∧ ∃ v, v ∈ vals ∧ cellAt s row col = Some (Some v))
    ∧ ((length (sols ++ extra) < maxSolutions)%nat →
       ∀ s v, completion g s → v ∈ vals →
              cellAt s row col = Some (Some v) → s ∈ extra).

(** A full grid that breaks every unit constraint. *)
Definition allOnes : Grid := replicate 6 (replicate 6 (Some 1)).

(** A check of [inRange] by evaluation. *)
Definition inRangeB (g : Grid) : bool :=
  forallb
    (forallb (fun cell : Cell =>
                match cell with
                | Some v => (1 <=? v) && (v <=? 6)
                | None => true
                end))
    g.

(** What a call of [fillGrid] on [g] returns: [true] with a full valid grid
    that keeps the cells of [g], or [false] with [g] restored, and then [g]
    has no completion. *)
Definition fillSpec (g : Grid) (result : bool * Grid * nat) : Prop :=
  let '(ok, g', _) := result in
  if ok then wellFormed g' ∧ isFull g' ∧ validUnits g' ∧ extends g g'
  else g' = g ∧ ∀ s, ¬ completion g s.

(** The same for the loop over the shuffled [numbers] at cell
    [(row, col)]: on [false], no completion holds one of [numbers] there. *)
Definition trySpec (g : Grid) (row col : nat) (numbers : list Z)
    (result : bool * Grid * nat) : Prop :=
  let '(ok, g', _) := result in
  if ok then wellFormed g' ∧ isFull g' ∧ validUnits g' ∧ extends g g'
  else g' = g
       ∧ ∀ s v, completion g s → v ∈ numbers →
                cellAt s row col ≠ Some (Some v).

(** Invariant of the carving loops of [createGuidedPuzzle] on the solution
    [s]: the working copy only keeps cells of [s], and once a cell has been
    removed it passes the uniqueness test and has a logical next move. *)
Definition carveInv (s puzzle : Grid) (removedCells : nat) : Prop :=
  wellFormed puzzle
  ∧ extends puzzle s
  ∧ ((removedCells = 0%nat ∧ puzzle = s)
     ∨ ((0 < removedCells)%nat
        ∧ hasUniqueSolution puzzle s = true
        ∧ hasNextLogicalMove puzzle = true)).

(** ** The rest of [utils/sudoku.ts] *)

(** *** Single-move validation ([SudokuGenerator]) *)

(** [{ row, col, value }] *)
Record CellMove := mkCellMove { cm_row : nat; cm_col : nat; cm_value : Z }.

#[global] Instance CellMove_eq_dec : EqDecision CellMove.
Proof. solve_decision. Defined.

Definition findAvailableMoves (g : Grid) : list CellMove :=
  flat_map
    (fun row =>
       match g !! row with
       | None => []
       | Some currentRow =>
           flat_map
             (fun col =>
                match currentRow !! col with
                | Some None =>
                    flat_map
                      (fun value =>
                         if isValidMove g row col value
                         then [mkCellMove row col value] else [])
                      values1to6
                | _ => []
                end)
             (seq 0 GRID_SIZE)
       end)
    (seq 0 GRID_SIZE).

Definition validateSingleMove (g : Grid) : bool :=
  Nat.eqb (length (findAvailableMoves g)) 1.

Definition countAvailableMoves (g : Grid) : nat :=
  length (findAvailableMoves g).

Definition hasValidMoves (g : Grid) : bool :=
  Nat.ltb 0 (length (findAvailableMoves g)).

Definition maxSteps : nat := 36.

(** The loop [while (!SudokuValidator.isSolved(testGrid))] of
    [ensureSingleMoveProgression].  [stepCount] grows by one in every
    iteration and the loop gives up once it exceeds [maxSteps], so the body
    runs at most 37 times; [fuel] bounds it. *)
Fixpoint progressionLoop (fuel : nat) (testGrid : Grid) (stepCount : nat)
  : bool :=
  match fuel with
  | O => false
  | S fuel' =>
      if isSolved testGrid then true
      else
        let stepCount := S stepCount in
        if Nat.ltb maxSteps stepCount then false
        else
          match findAvailableMoves testGrid with
          | [] => false
          | [move] =>
              progressionLoop fuel'
                (setCell testGrid (cm_row move) (cm_col move)
                         (Some (cm_value move)))
                stepCount
          | _ => false
          end
  end.

Definition progressionFuel : nat := 38.

Definition ensureSingleMoveProgression (puzzle : Grid) : bool :=
  progressionLoop progressionFuel puzzle 0.

(** *** Emoji conversion *)

Abbreviation EmojiGrid := (list (list (option string))).

(** [emojis[cell - 1] || null]: an index that is negative or past the end
    reads [undefined], and the empty string is falsy. *)
Definition emojiAt (emojis : list string) (cell : Z) : option string :=
  if cell - 1 <? 0 then None
  else
    match emojis !! Z.to_nat (cell - 1) with
    | Some emoji => if String.eqb emoji EmptyString then None else Some emoji
    | None => None
    end.

Definition convertGridToEmojis (g : Grid) (emojis : list string) : EmojiGrid :=
  map (map (fun cell : Cell =>
              match cell with
              | None => None
              | Some value => emojiAt emojis value
              end))
      g.

(** [emojis.indexOf(cell)]; [None] is [-1]. *)
Fixpoint indexOf (emojis : list string) (cell : string) : option nat :=
  match emojis with
  | [] => None
  | emoji :: rest =>
      if String.eqb emoji cell then Some O
      else
        match indexOf rest cell with
        | Some index => Some (S index)
        | None => None
        end
  end.

Definition convertEmojisToGrid (emojiGrid : EmojiGrid) (emojis : list string)
  : Grid :=
  map (map (fun cell : option string =>
              match cell with
              | None => None
              | Some emoji =>
                  match indexOf emojis emoji with
                  | None => None
                  | Some index => Some (Z.of_nat index + 1)
                  end
              end))
      emojiGrid.

(** ** The rest of [CandidateCalculator] *)

(** [candidates[row]?.[col] || new Set()]: a [Set] is always truthy. *)
Definition validateCandidates (g : Grid) (candidates : CandidateGrid) : bool :=
  forallb
    (fun '(row, col) =>
       match cellAt g row col with
       | Some None =>
           let expectedCandidates := calculateCellCandidates g row col in
           let actualCandidates := default [] (candAt candidates row col) in
           if negb (Nat.eqb (length expectedCandidates)
                            (length actualCandidates))
           then false
           else forallb (fun candidate => setHas candidate actualCandidates)
                        expectedCandidates
       | _ => true
       end)
    allPositions.

(** ** The rest of [TechniquePriority] and [SolvingTechniques] *)

Definition TECHNIQUE_ORDER : list SolvingTechnique :=
  [NAKED_SINGLE; HIDDEN_SINGLE].

Definition getAllTechniques : list SolvingTechnique :=
  [NAKED_SINGLE; HIDDEN_SINGLE].

(** [index === -1 ? 999 : index]; both techniques are in [TECHNIQUE_ORDER]. *)
Definition getTechniquePriority (t : SolvingTechnique) : Z :=
  let index := techniqueIndex t in
  if index =? -1 then 999 else index.

Definition isEasyTechnique (t : SolvingTechnique) : bool :=
  bool_decide (t ∈ TECHNIQUE_ORDER).

Definition getMaxTechniqueLevel (moves : list HintMove) : SolvingTechnique :=
  fst
    (foldl
       (fun '(maxLevel, maxPriority) move =>
          let priority := getTechniquePriority (m_technique move) in
          if maxPriority <? priority then (m_technique move, priority)
          else (maxLevel, maxPriority))
       (NAKED_SINGLE, -1) moves).

(** ** The rest of [HintEngine] *)

Inductive MoveErrorType := ErrRow | ErrColumn | ErrBox | ErrContradiction.

Record MoveValidation := mkValidation {
  mv_isValid : bool;
  mv_violatesConstraints : bool;
  mv_errorType : option MoveErrorType;
  mv_errorMessage : option string
}.

Definition createTestGrid (g : Grid) (row col : nat) (value : Z) : Grid :=
  setCell g row col (Some value).

(** [currentRow.includes(value)], then [grid[r]?.[col] === value] for every
    row, else ['box']. *)
Definition determineConstraintViolationType (g : Grid) (row col : nat)
    (value : Z) : UnitKind :=
  if match g !! row with
     | Some currentRow => bool_decide (Some value ∈ currentRow)
     | None => false
     end
  then UnitRow
  else if existsb (fun r => bool_decide (cellAt g r col = Some (Some value)))
                  (seq 0 (length g))
  then UnitColumn
  else UnitBox.

Definition generateConstraintErrorMessage (g : Grid) (row col : nat)
    (value : Z) : string :=
  match determineConstraintViolationType g row col value with
  | UnitRow =>
      String.append (showZ value)
        (String.append " already appears in row "
           (String.append (showNat (row + 1))
              ". Each number can only appear once per row."))
  | UnitColumn =>
      String.append (showZ value)
        (String.append " already appears in column "
           (String.append (showNat (col + 1))
              ". Each number can only appear once per column."))
  | UnitBox =>
      String.append (showZ value)
        (String.append " already appears in box "
           (String.append (showNat (row / 2 + 1))
              (String.append "-"
                 (String.append (showNat (col / 3 + 1))
                    ". Each number can only appear once per box."))))
  end.

Definition errorTypeOfUnit (unit : UnitKind) : MoveErrorType :=
  match unit with
  | UnitRow => ErrRow
  | UnitColumn => ErrColumn
  | UnitBox => ErrBox
  end.

Definition validateMove (g : Grid) (row col : nat) (value : Z)
  : MoveValidation :=
  if negb (isValidMove g row col value) then
    mkValidation false true
      (Some (errorTypeOfUnit
               (determineConstraintViolationType g row col value)))
      (Some (generateConstraintErrorMessage g row col value))
  else
    let testGrid := createTestGrid g row col value in
    let testAnalysis := analyzeBoard testGrid in
    if Nat.ltb 0 (length (errors testAnalysis)) then
      mkValidation false false (Some ErrContradiction)
        (Some "This move would create a contradiction and make the puzzle unsolvable."%string)
    else mkValidation true false None None.

(** ** PathValidatedGenerator ([utils/path-validated-generator.ts]) *)

Module PathValidatedGenerator.

Record MoveTrail := mkTrail {
  moves : list HintMove;
  isComplete : bool;
  maxTechniqueLevel : SolvingTechnique;
  startState : Grid;
  endState : Grid
}.

(** The private [isSolved]: no cell of the board reads [null]. *)
Definition isSolved (g : Grid) : bool :=
  forallb
    (fun '(row, col) =>
       match cellAt g row col with
       | Some None => false
       | _ => true
       end)
    allPositions.

(** The loop [while (!this.isSolved(currentGrid))] of [createMoveTrail]; the
    state is [(currentGrid, moves, maxTechniqueLevel)].  The loop gives up
    once [moves] holds more than 36 moves, so the body runs at most 37
    times; [fuel] bounds it. *)
Fixpoint trailLoop (fuel : nat) (minMovesRequired : nat) (currentGrid : Grid)
    (moves : list HintMove) (maxTechniqueLevel : SolvingTechnique)
  : option (Grid * list HintMove * SolvingTechnique) :=
  match fuel with
  | O => None
  | S fuel' =>
      if isSolved currentGrid
      then Some (currentGrid, moves, maxTechniqueLevel)
      else
        let analysis := analyzeBoard currentGrid in
        if Nat.ltb 0 (length (errors analysis)) then None
        else if Nat.eqb (length (availableMoves analysis)) 0 then None
        else if Nat.ltb (length (availableMoves analysis)) minMovesRequired
        then None
        else
          match availableMoves analysis with
          | [] => None
          | nextMove :: _ =>
              let currentGrid :=
                setCell currentGrid (m_row nextMove) (m_col nextMove)
                        (Some (m_value nextMove)) in
              let moves := moves ++ [nextMove] in
              let moveLevel := getTechniquePriority (m_technique nextMove) in
              let currentMaxLevel := getTechniquePriority maxTechniqueLevel in
              let maxTechniqueLevel :=
                if currentMaxLevel <? moveLevel then m_technique nextMove
                else maxTechniqueLevel in
              if Nat.ltb (GRID_SIZE * GRID_SIZE) (length moves) then None
              else trailLoop fuel' minMovesRequired currentGrid moves
                             maxTechniqueLevel
          end
  end.

Definition trailFuel : nat := 38.

(** [createMoveTrail(puzzle, solution)]; [solution] is not read.
    [minMovesRequired] is the field of the generator (2 unless set). *)
Definition createMoveTrail (minMovesRequired : nat) (puzzle : Grid)
    (solution : option Grid) : option MoveTrail :=
  match trailLoop trailFuel minMovesRequired puzzle [] NAKED_SINGLE with
  | Some (currentGrid, moves, maxTechniqueLevel) =>
      Some (mkTrail moves true maxTechniqueLevel puzzle currentGrid)
  | None => None
  end.

Definition validateSolvabilityPath (minMovesRequired : nat) (puzzle : Grid)
  : option MoveTrail :=
  createMoveTrail minMovesRequired puzzle None.

Definition ensureEasyDifficulty (minMovesRequired : nat) (puzzle : Grid)
  : bool :=
  match createMoveTrail minMovesRequired puzzle None with
  | None => false
  | Some moveTrail =>
      forallb (fun move => isEasyTechnique (m_technique move))
              (moves moveTrail)
  end.

(** The loop of [validateMultipleMovesRequirement].  Every iteration fills
    a cell of the board that was empty, so it runs at most 36 times; [fuel]
    bounds it. *)
Fixpoint multipleMovesLoop (fuel : nat) (minMovesRequired : nat)
    (currentGrid : Grid) : bool :=
  match fuel with
  | O => false
  | S fuel' =>
      if isSolved currentGrid then true
      else
        let analysis := analyzeBoard currentGrid in
        if Nat.ltb 0 (length (errors analysis)) then false
        else if Nat.ltb (length (availableMoves analysis)) minMovesRequired
        then false
        else
          match availableMoves analysis with
          | [] => false
          | nextMove :: _ =>
              multipleMovesLoop fuel' minMovesRequired
                (setCell currentGrid (m_row nextMove) (m_col nextMove)
                         (Some (m_value nextMove)))
          end
  end.

Definition multipleMovesFuel : nat := 37.

Definition validateMultipleMovesRequirement (minMovesRequired : nat)
    (puzzle : Grid) : bool :=
  multipleMovesLoop multipleMovesFuel minMovesRequired puzzle.

(** [puzzle.flat().filter(cell => cell === null).length] *)
Definition countEmpty (g : Grid) : nat :=
  length (filter (fun cell : Cell => cell = None) (concat g)).

Definition isValidPuzzle (puzzle : Grid) : bool :=
  if negb (Nat.eqb (length puzzle) GRID_SIZE) then false
  else if existsb (fun row => negb (Nat.eqb (length row) GRID_SIZE)) puzzle
  then false
  else
    let emptyCells := countEmpty puzzle in
    if Nat.eqb emptyCells 0 then false
    else if Nat.ltb (GRID_SIZE * GRID_SIZE - 8) emptyCells then false
    else true.

Definition validatePuzzleRequirements (minMovesRequired : nat)
    (puzzle : Grid) : bool :=
  if negb (isValidPuzzle puzzle) then false
  else if negb (ensureEasyDifficulty minMovesRequired puzzle) then false
  else if negb (validateMultipleMovesRequirement minMovesRequired puzzle)
  then false
  else true.

(** [this.minMovesRequired = Math.max(1, count)] *)
Definition setMinimumMovesRequired (count : nat) : nat := Nat.max 1 count.

End PathValidatedGenerator.

(** ** Specification vocabulary, continued *)

(** The three units through the cell [(r, c)]. *)
Definition unitsOf (r c : nat) : list (list (nat * nat)) :=
  [rowPositions r; colPositions c; boxPositions (r / 2) (c / 3)].

(** The value [v] is filled in somewhere in the row, the column or the box
    of the cell [(r, c)]. *)
Definition seenFrom (g : Grid) (r c : nat) (v : Z) : Prop :=
  ∃ unit q, unit ∈ unitsOf r c ∧ q ∈ unit
            ∧ cellAt g q.1 q.2 = Some (Some v).

(** The filled value of a position, if any. *)
Definition valueAt (g : Grid) (p : nat * nat) : option Z :=
  match cellAt g p.1 p.2 with
  | Some (Some v) => Some v
  | _ => None
  end.

(** The counters of the carving loops: the working copy is a 6x6 grid, the
    cells removed so far are the ones missing from it, and no more than the
    target have been removed. *)
Definition carveCount (difficulty : Difficulty) (puzzle : Grid)
    (removedCells : nat) : Prop :=
  shape66 puzzle
  ∧ (countFilled puzzle + removedCells = 36)%nat
  ∧ (removedCells ≤ getCellsToRemove difficulty)%nat.

(** Six distinct strings standing for the emojis of a theme, and an emoji
    grid over them, used in examples. *)
Definition sampleEmojis : list string :=
  ["fox"; "frog"; "unicorn"; "bee"; "penguin"; "panda"]%string.

Definition sampleEmojiGrid : EmojiGrid :=
  [[Some "fox"; None]; [Some "bee"; Some "fox"]]%string.

(** ** Candidate maps in the store, continued *)

Module CandidateStore.
Import Store StoreSpec.

(** [{ row: number; col: number; value: number }] *)
Record Elimination := mkElimination {
  e_row : nat;
  e_col : nat;
  e_value : Z
}.

(** [CandidateCalculator.eliminateCandidates] ([utils/candidate-calculator.ts]):
    [newCandidates[e.row]?.[e.col]] is deleted from where it is a set. *)
Definition eliminateCandidates (h : heap) (candidates : loc)
    (eliminations : list Elimination) : option (heap * loc) :=
  '(h1, newCandidates) ← deepCopyCandidates h candidates;
  h2 ←
    foldl
      (fun (acc : option heap) (elimination : Elimination) =>
         h0 ← acc;
         deleteAt newCandidates (e_value elimination) true
           (e_row elimination) (e_col elimination) h0)
      (Some h1) eliminations;
  Some (h2, newCandidates).

(** Every set of the map [copy] in the store [hc] was allocated after the
    store [h] and is a set, and no two entries of the map share their
    set. *)
Definition setsApart (h hc : heap) (copy : loc) : Prop :=
  (∀ r c so, candRef hc copy r c = Some (Some so) →
             (length h < so < length hc)%nat ∧ is_Some (readSet hc so))
  ∧ ∀ r c r' c' so,
      candRef hc copy r c = Some (Some so) →
      candRef hc copy r' c' = Some (Some so) → r = r' ∧ c = c'.

(** The map [copy] can be updated in place in the store [hx]: reading an
    entry never throws, its sets are its own, and what [h] held is still
    there. *)
Definition ownsSets (h hx : heap) (copy : loc) : Prop :=
  (∀ l o, h !! l = Some o → hx !! l = Some o)
  ∧ (∀ r c, is_Some (candRef hx copy r c))
  ∧ setsApart h hx copy.

(** What is left of the set [s] of the cell [(r, c)] after the deletions
    [xs], each at the cell [(row x, col x)], of the value [val x], and
    skipped unless [cond x]. *)
Definition deletedBy {A} (cond : A → bool) (row col : A → nat) (val : A → Z)
    (xs : list A) (r c : nat) (s : CandidateSet) : CandidateSet :=
  foldl
    (fun s x =>
       if cond x && bool_decide (row x = r ∧ col x = c)
       then setDelete (val x) s else s)
    s xs.

(** The values that [eliminations] removes at the cell [(r, c)]. *)
Definition eliminatedAt (eliminations : list Elimination) (r c : nat)
  : list Z :=
  e_value <$> filter (fun e => e_row e = r ∧ e_col e = c) eliminations.

(** The map [candidates] holds, for every cell of the board, the set that
    [calculateAllCandidates] gives it on [g]. *)
Definition holdsCandidatesOf (h : heap) (candidates : loc) (g : Grid)
  : Prop :=
  ∀ r c, (r < 6)%nat → (c < 6)%nat →
    ∃ s s', candEntry h candidates r c = Some s
            ∧ candAt (calculateAllCandidates g) r c = Some s'
            ∧ s ≡ₚ s'.

(** A store holding just the candidate map [cg] over the board: the map at
    reference 0, then each row object followed by its six sets. *)
Definition storeOfCandidates (cg : CandidateGrid) : heap :=
  ORec (list_to_map ((fun r => (r, (1 + 7 * r)%nat)) <$> seq 0 6))
  :: flat_map
       (fun r =>
          ORec (list_to_map ((fun c => (c, (2 + 7 * r + c)%nat)) <$> seq 0 6))
          :: ((fun c => OSet (default [] (candAt cg r c))) <$> seq 0 6))
       (seq 0 6).

End CandidateStore.

(** * Properties *)

(** Give [lia] the quotient and remainder of [a] by the constant [b]. *)
Ltac nat_div a b :=
  pose proof (Nat.div_mod_eq a b);
  pose proof (Nat.mod_upper_bound a b ltac:(lia)).

(** ** The validator on the sample grid *)

Example sampleSolution_solved : isSolved sampleSolution = true.
Proof. vm_compute. reflexivity. Qed.

(** ** CandidateCalculator *)

Lemma elem_of_setDelete (x v : Z) (s : CandidateSet) :
  x ∈ setDelete v s ↔ x ∈ s ∧ x ≠ v.
Proof. unfold setDelete. rewrite list_elem_of_filter. tauto. Qed.

Lemma NoDup_setDelete (v : Z) (s : CandidateSet) :
  NoDup s → NoDup (setDelete v s).
Proof. apply NoDup_filter. Qed.

Lemma elem_of_deleteSeen (x : Z) (s : CandidateSet) (value : option Cell) :
  x ∈ deleteSeen s value ↔ x ∈ s ∧ value ≠ Some (Some x).
Proof.
  destruct value as [[v|]|]; simpl.
  - rewrite elem_of_setDelete.
    split; intros [? Hne]; (split; [done|]); intros Heq; apply Hne;
      congruence.
  - split; [intros ?; split; [done | discriminate] | tauto].
  - split; [intros ?; split; [done | discriminate] | tauto].
Qed.

Lemma NoDup_deleteSeen (s : CandidateSet) (value : option Cell) :
  NoDup s → NoDup (deleteSeen s value).
Proof. destruct value as [[v|]|]; simpl; auto using NoDup_setDelete. Qed.

(** Deleting along a scan: what survives was there and was never seen. *)
Lemma elem_of_foldl_deleteSeen {A} (f : A → option Cell) (l : list A)
    (s : CandidateSet) (x : Z) :
  x ∈ foldl (fun s a => deleteSeen s (f a)) s l
  ↔ x ∈ s ∧ ∀ a, a ∈ l → f a ≠ Some (Some x).
Proof.
  revert s. induction l as [|a l IH]; intros s; simpl.
  - split; [intros ?; split; [done|] | tauto]. intros a Ha. inversion Ha.
  - rewrite IH, elem_of_deleteSeen. split.
    + intros [[Hs Ha] Hl]. split; [done|].
      intros b Hb. apply elem_of_cons in Hb as [->|Hb]; auto.
    + intros [Hs Hl]. split; [split; [done|] |].
      * apply Hl. left.
      * intros b Hb. apply Hl. by right.
Qed.

Lemma NoDup_foldl_deleteSeen {A} (f : A → option Cell) (l : list A)
    (s : CandidateSet) :
  NoDup s → NoDup (foldl (fun s a => deleteSeen s (f a)) s l).
Proof.
  revert s. induction l as [|a l IH]; intros s Hs; simpl; [done|].
  apply IH. by apply NoDup_deleteSeen.
Qed.

(** Rewrite with [elem_of_foldl_deleteSeen] at a given scan. *)
Ltac rewrite_scan f :=
  let H := fresh "Hscan" in
  pose proof (elem_of_foldl_deleteSeen f) as H;
  cbv beta in H; rewrite H; clear H.

Lemma NoDup_values1to6 : NoDup values1to6.
Proof. apply (bool_decide_unpack _). by vm_compute. Qed.

Lemma elem_of_values1to6 (v : Z) : v ∈ values1to6 ↔ 1 ≤ v ≤ 6.
Proof.
  unfold values1to6. rewrite !elem_of_cons, elem_of_nil. lia.
Qed.

Lemma cellAt_outside_rows (g : Grid) (r c : nat) :
  (length g ≤ r)%nat → cellAt g r c = None.
Proof. intros H. unfold cellAt. by rewrite lookup_ge_None_2. Qed.

(** C6. For a 6x6 grid and an empty cell, [calculateCellCandidates] returns
    exactly the set 1..6 minus the values filled in the cell's row, column
    and 3x2 box: the result has no repetition, and a value belongs to it iff
    it is in 1..6 and appears nowhere in the row, the column or the box. *)
Theorem calculateCellCandidates_exact (g : Grid) (row col : nat) :
  shape66 g →
  cellAt g row col = Some None →
  NoDup (calculateCellCandidates g row col)
  ∧ ∀ v : Z,
      v ∈ calculateCellCandidates g row col
      ↔ 1 ≤ v ≤ 6
        ∧ (∀ c, cellAt g row c ≠ Some (Some v))
        ∧ (∀ r, cellAt g r col ≠ Some (Some v))
        ∧ (∀ r c, (r / 2 = row / 2)%nat → (c / 3 = col / 3)%nat →
                  cellAt g r c ≠ Some (Some v)).
Proof.
  intros [Hlen Hrows] Hcell.
  unfold calculateCellCandidates. rewrite Hcell.
  assert (∃ currentRow, g !! row = Some currentRow) as [currentRow Hrow].
  { unfold cellAt in Hcell. destruct (g !! row); [eauto | done]. }
  rewrite Hrow. split.
  - set (step := fun s r => foldl _ s _).
    assert (∀ l s, NoDup s → NoDup (foldl step s l)) as Hbox.
    { induction l as [|a l IH]; intros s Hs; simpl; [done|].
      apply IH. unfold step. by apply NoDup_foldl_deleteSeen. }
    apply Hbox.
    apply (NoDup_foldl_deleteSeen (fun r => cellAt g r col)).
    apply (NoDup_foldl_deleteSeen (fun value : Cell => Some value)).
    apply NoDup_values1to6.
  - intros v.
    set (rowScan := foldl _ _ currentRow).
    set (colScan := foldl _ rowScan _).
    assert (∀ cs l s,
      v ∈ foldl (fun s r => foldl (fun s c => deleteSeen s (cellAt g r c)) s cs)
                s l
      ↔ v ∈ s ∧ ∀ r c, r ∈ l → c ∈ cs → cellAt g r c ≠ Some (Some v)) as Hbox.
    { intros cs. induction l as [|a l IH]; intros s; cbn [foldl].
      - split; [intros ?; split; [done|] | tauto]. intros r c Hr. inversion Hr.
      - rewrite IH. rewrite_scan (fun c => cellAt g a c). split.
        + intros [[Hs Ha] Hl]. split; [done|]. intros r c Hr Hc.
          apply elem_of_cons in Hr as [->|Hr]; eauto.
        + intros [Hs Hl]. split; [split; [done|] |].
          * intros c Hc. apply Hl; [left | done].
          * intros r c Hr Hc. apply Hl; [by right | done]. }
    rewrite Hbox. unfold colScan.
    rewrite_scan (fun r => cellAt g r col).
    unfold rowScan.
    rewrite_scan (fun value : Cell => Some value).
    fold values1to6. rewrite elem_of_values1to6.
    unfold BOX_WIDTH, BOX_HEIGHT, GRID_SIZE.
    split.
    + intros [[[Hv Hr] Hc] Hb]. split; [done|]. split; [|split].
      * intros c Hc'. unfold cellAt in Hc'. rewrite Hrow in Hc'.
        apply (Hr (Some v)); [|done]. by eapply list_elem_of_lookup_2.
      * intros r Hc'. destruct (decide (r < 6)%nat) as [Hlt|Hge].
        -- apply (Hc r); [|done]. apply elem_of_seq. lia.
        -- rewrite cellAt_outside_rows in Hc' by lia. done.
      * intros r c Hr' Hc'. nat_div r 2%nat. nat_div row 2%nat.
        nat_div c 3%nat. nat_div col 3%nat.
        apply Hb; apply elem_of_seq; lia.
    + intros (Hv & Hr & Hc & Hb). split; [split; [split; [done|] |] |].
      * intros value Hin Heq. injection Heq as ->.
        apply list_elem_of_lookup_1 in Hin as [c Hc'].
        apply (Hr c). unfold cellAt. by rewrite Hrow.
      * intros r _. apply Hc.
      * intros r c Hr' Hc'. apply elem_of_seq in Hr', Hc'.
        nat_div r 2%nat. nat_div row 2%nat. nat_div c 3%nat. nat_div col 3%nat.
        apply Hb; lia.
Qed.

Lemma calculateCellCandidates_exact_witness :
  shape66 scenarioE
  ∧ cellAt scenarioE 0 4 = Some None
  ∧ NoDup (calculateCellCandidates scenarioE 0 4)
  ∧ ∀ v : Z,
      v ∈ calculateCellCandidates scenarioE 0 4
      ↔ 1 ≤ v ≤ 6
        ∧ (∀ c, cellAt scenarioE 0 c ≠ Some (Some v))
        ∧ (∀ r, cellAt scenarioE r 4 ≠ Some (Some v))
        ∧ (∀ r c, (r / 2 = 0 / 2)%nat → (c / 3 = 4 / 3)%nat →
                  cellAt scenarioE r c ≠ Some (Some v)).
Proof.
  assert (shape66 scenarioE) as Hs.
  { split; [reflexivity|]. repeat constructor. }
  split; [exact Hs|]. split; [reflexivity|].
  exact (calculateCellCandidates_exact scenarioE 0 4 Hs eq_refl).
Defined.

(** ** Shape of grids *)

Lemma shape66_row (g : Grid) (r : nat) (currentRow : list Cell) :
  shape66 g → g !! r = Some currentRow → (r < 6)%nat ∧ length currentRow = 6%nat.
Proof.
  intros [Hlen Hrows] Hr. split.
  - apply lookup_lt_Some in Hr. lia.
  - rewrite Forall_forall in Hrows. apply Hrows.
    by eapply list_elem_of_lookup_2.
Qed.

Lemma cellAt_Some_bounds (g : Grid) (r c : nat) (x : Cell) :
  shape66 g → cellAt g r c = Some x → (r < 6)%nat ∧ (c < 6)%nat.
Proof.
  intros Hs Hc. unfold cellAt in Hc.
  destruct (g !! r) as [currentRow|] eqn:Hr; [|done].
  destruct (shape66_row g r currentRow Hs Hr) as [? Hlen].
  apply lookup_lt_Some in Hc. lia.
Qed.

Lemma cellAt_is_Some (g : Grid) (r c : nat) :
  shape66 g → (r < 6)%nat → (c < 6)%nat → ∃ x, cellAt g r c = Some x.
Proof.
  intros Hs Hr Hc. unfold cellAt.
  destruct (lookup_lt_is_Some_2 g r) as [currentRow Hrow];
    [destruct Hs; lia|].
  rewrite Hrow. apply lookup_lt_is_Some_2.
  destruct (shape66_row g r currentRow Hs Hrow). lia.
Qed.

(** Two 6x6 grids with the same cells are the same grid. *)
Lemma grid_ext (g1 g2 : Grid) :
  shape66 g1 → shape66 g2 →
  (∀ r c, (r < 6)%nat → (c < 6)%nat → cellAt g1 r c = cellAt g2 r c) →
  g1 = g2.
Proof.
  intros Hs1 Hs2 Hcells. apply list_eq. intros r.
  destruct (decide (r < 6)%nat) as [Hr|Hr].
  - destruct (lookup_lt_is_Some_2 g1 r) as [row1 H1]; [destruct Hs1; lia|].
    destruct (lookup_lt_is_Some_2 g2 r) as [row2 H2]; [destruct Hs2; lia|].
    rewrite H1, H2. f_equal. apply list_eq. intros c.
    destruct (shape66_row g1 r row1 Hs1 H1) as [_ Hl1].
    destruct (shape66_row g2 r row2 Hs2 H2) as [_ Hl2].
    destruct (decide (c < 6)%nat) as [Hc|Hc].
    + specialize (Hcells r c Hr Hc). unfold cellAt in Hcells.
      by rewrite H1, H2 in Hcells.
    + rewrite !lookup_ge_None_2 by lia. done.
  - destruct Hs1, Hs2. rewrite !lookup_ge_None_2 by lia. done.
Qed.

Lemma elem_of_allPositions (r c : nat) :
  (r, c) ∈ allPositions ↔ (r < 6)%nat ∧ (c < 6)%nat.
Proof.
  unfold allPositions. rewrite list_elem_of_In, in_flat_map. split.
  - intros (row & Hrow & Hin). apply in_map_iff in Hin as (col & Heq & Hcol).
    apply in_seq in Hrow, Hcol. injection Heq as <- <-.
    unfold GRID_SIZE in *. lia.
  - intros [Hr Hc]. exists r. split; [apply in_seq; unfold GRID_SIZE; lia|].
    apply in_map_iff. exists c. split; [done|].
    apply in_seq. unfold GRID_SIZE. lia.
Qed.

(** ** The candidate map of a grid *)

Lemma foldl_pointwise {A B} (f f' : A → B → A) (l : list B) (a : A) :
  (∀ x y, f x y = f' x y) → foldl f a l = foldl f' a l.
Proof.
  intros Hff'. revert a. induction l as [|b l IH]; intros a; simpl; [done|].
  by rewrite Hff', IH.
Qed.

(** The map built by the two nested loops of [calculateAllCandidates] has an
    entry for each of the 36 cells. *)
Lemma candAt_fill (F : nat → nat → CandidateSet) (r c : nat) :
  (r < 6)%nat → (c < 6)%nat →
  candAt
    (foldl
       (fun (candidates : CandidateGrid) row =>
          <[row := foldl (fun (rowCandidates : gmap nat CandidateSet) col =>
                            <[col := F row col]> rowCandidates)
                         ∅ (seq 0 GRID_SIZE)]> candidates)
       ∅ (seq 0 GRID_SIZE))
    r c
  = Some (F r c).
Proof.
  intros Hr Hc.
  do 6 (destruct r as [|r]; [
    do 6 (destruct c as [|c]; [vm_compute; reflexivity|]); lia |]).
  lia.
Qed.

Lemma candAt_calculateAllCandidates (g : Grid) (r c : nat) :
  (r < 6)%nat → (c < 6)%nat →
  candAt (calculateAllCandidates g) r c
  = Some (match cellAt g r c with
          | Some None => calculateCellCandidates g r c
          | _ => []
          end).
Proof.
  intros Hr Hc.
  rewrite <- (candAt_fill
    (fun row col => match cellAt g row col with
                    | Some None => calculateCellCandidates g row col
                    | _ => []
                    end) r c Hr Hc).
  unfold calculateAllCandidates. f_equal.
  apply foldl_pointwise. intros candidates row. f_equal.
  apply foldl_pointwise. intros rowCandidates col.
  by destruct (cellAt g row col) as [[?|]|].
Qed.

Lemma elem_of_findCellsWithNoCandidates (candidates : CandidateGrid) (r c : nat) :
  (r, c) ∈ findCellsWithNoCandidates candidates
  ↔ (r < 6)%nat ∧ (c < 6)%nat ∧ candAt candidates r c = Some [].
Proof.
  unfold findCellsWithNoCandidates.
  rewrite list_elem_of_In, in_flat_map. split.
  - intros ([row col] & Hpos & Hin).
    apply list_elem_of_In, elem_of_allPositions in Hpos.
    destruct (candAt candidates row col) as [[|x s]|] eqn:Hcand;
      simpl in Hin; try done.
    destruct Hin as [Heq|[]]. injection Heq as <- <-. tauto.
  - intros (Hr & Hc & Hcand). exists (r, c). split.
    + apply list_elem_of_In, elem_of_allPositions. done.
    + rewrite Hcand. simpl. by left.
Qed.

(** The defect behind Scenarios C and E: [calculateAllCandidates] gives every
    filled cell the empty set, and [findCellsWithNoCandidates] does not look
    at the grid, so [detectErrors] reports every filled cell as a cell
    without possible values. *)
Lemma detectErrors_reports_filled_cells (g : Grid) (r c : nat) (v : Z) :
  shape66 g → cellAt g r c = Some (Some v) →
  noSolutionError r c ∈ detectErrors g None.
Proof.
  intros Hs Hcell.
  destruct (cellAt_Some_bounds g r c _ Hs Hcell) as [Hr Hc].
  unfold detectErrors. apply elem_of_app. left.
  apply (list_elem_of_fmap_2' (fun '(row, col) => noSolutionError row col)
           _ (r, c)); [|done].
  apply elem_of_findCellsWithNoCandidates. repeat split; try done.
  rewrite candAt_calculateAllCandidates by done. by rewrite Hcell.
Qed.

(** ** HintEngine *)

(** C4. [analyzeBoard] computes its two flags from the rest of the analysis:
    [isValid] holds iff [isValidGrid] holds and the error list is empty, and
    [isSolvable] holds iff [isValid] holds and a move is available or the
    grid is solved; the error list and the move list are those of
    [detectErrors] and of the two techniques on the grid's candidates. *)
Theorem analyzeBoard_flags (g : Grid) :
  let analysis := analyzeBoard g in
  errors analysis = detectErrors g (Some (calculateAllCandidates g))
  ∧ availableMoves analysis
    = findAllAvailableMoves g (calculateAllCandidates g)
  ∧ (isValid analysis = true
     ↔ isValidGrid g = true ∧ errors analysis = [])
  ∧ (isSolvable analysis = true
     ↔ isValid analysis = true
       ∧ (availableMoves analysis ≠ [] ∨ isSolved g = true)).
Proof.
  simpl. split; [done|]. split; [done|]. split.
  - rewrite andb_true_iff, Nat.eqb_eq, length_zero_iff_nil. done.
  - rewrite andb_true_iff, orb_true_iff, Nat.ltb_lt.
    destruct (findAllAvailableMoves g (calculateAllCandidates g)); simpl.
    + split; intros [? [?|?]]; (split; [done|]); (done || lia || auto).
    + split; intros [? _]; (split; [done|left]); (done || lia).
Qed.

Lemma findNextMove_errors (g : Grid) :
  errors (analyzeBoard g) ≠ [] → findNextMove g = None.
Proof.
  intros Hne. unfold findNextMove.
  destruct (errors (analyzeBoard g)); [done|]. done.
Qed.

Lemma findNextMove_no_moves (g : Grid) :
  availableMoves (analyzeBoard g) = [] → findNextMove g = None.
Proof.
  intros Hnil. unfold findNextMove. rewrite Hnil.
  by destruct (Nat.ltb 0 (length (errors (analyzeBoard g)))).
Qed.

(** With equal confidences the stable sort lists the naked singles in scan
    order, then the hidden singles in scan order. *)
Lemma sortMovesByPriority_stable (moves : list HintMove) :
  Forall (fun m => m_confidence m = 1) moves →
  sortMovesByPriority moves
  = filter (fun m => m_technique m = NAKED_SINGLE) moves
    ++ filter (fun m => m_technique m = HIDDEN_SINGLE) moves.
Proof.
  induction 1 as [|m moves Hm Hall IH]; [done|].
  cbn [sortMovesByPriority foldr]. fold (sortMovesByPriority moves).
  rewrite IH. clear IH.
  assert (∀ hs : list HintMove,
    Forall (fun x => m_confidence x = 1) hs →
    m_technique m = NAKED_SINGLE →
    insertMove m hs = m :: hs) as Hfront.
  { intros [|x hs] Hconf Htech; [done|]. simpl.
    apply Forall_cons in Hconf as [Hx _].
    unfold compareMoves. rewrite Htech, Hm, Hx.
    by destruct (m_technique x). }
  assert (∀ hs : list HintMove,
    Forall (fun x => m_confidence x = 1) hs →
    Forall (fun x => m_technique x = HIDDEN_SINGLE) hs →
    m_technique m = HIDDEN_SINGLE →
    insertMove m hs = m :: hs) as Hhidden.
  { intros [|x hs] Hconf Hhs Htech; [done|]. simpl.
    apply Forall_cons in Hconf as [Hx _]. apply Forall_cons in Hhs as [Hx' _].
    unfold compareMoves. by rewrite Htech, Hm, Hx, Hx'. }
  assert (∀ ns hs : list HintMove,
    Forall (fun x => m_technique x = NAKED_SINGLE) ns →
    m_technique m = HIDDEN_SINGLE →
    insertMove m (ns ++ hs) = ns ++ insertMove m hs) as Hskip.
  { induction ns as [|x ns IHns]; intros hs Hns Htech; [done|]. simpl.
    apply Forall_cons in Hns as [Hx Hns].
    unfold compareMoves at 1. rewrite Htech, Hx. simpl.
    by rewrite IHns. }
  assert (Forall (fun x => m_confidence x = 1)
            (filter (fun m => m_technique m = NAKED_SINGLE) moves
             ++ filter (fun m => m_technique m = HIDDEN_SINGLE) moves)) as Hc.
  { apply Forall_app. split;
      (eapply Forall_impl; [|by intros x Hx; exact Hx]);
      rewrite Forall_forall in Hall |- *; intros x Hx;
      apply Hall; by apply list_elem_of_filter in Hx as [_ ?]. }
  assert (Forall (fun x => m_confidence x = 1)
            (filter (fun m => m_technique m = HIDDEN_SINGLE) moves)) as Hch.
  { by apply Forall_app in Hc as [_ ?]. }
  destruct (m_technique m) eqn:Htech.
  - rewrite filter_cons_True by done.
    rewrite (filter_cons_False (fun m => m_technique m = HIDDEN_SINGLE))
      by (rewrite Htech; done).
    by rewrite Hfront.
  - rewrite filter_cons_False by (rewrite Htech; done).
    rewrite (filter_cons_True (fun m => m_technique m = HIDDEN_SINGLE)) by done.
    rewrite Hskip; [|apply Forall_forall; intros x Hx;
                     by apply list_elem_of_filter in Hx as [? _] | done].
    f_equal. apply Hhidden; [done| |done].
    apply Forall_forall. intros x Hx.
    by apply list_elem_of_filter in Hx as [? _].
Qed.

Lemma shape66_emptyGrid : shape66 emptyGrid.
Proof. split; [done|]. repeat constructor. Qed.

(** On a 6x6 grid [findNextMove] never suggests a move: a grid with a filled
    cell has that cell in its error list, and the grid without any filled
    cell has neither a naked nor a hidden single. *)
Lemma findNextMove_null_on_6x6 (g : Grid) :
  shape66 g → findNextMove g = None.
Proof.
  intros Hs.
  destruct (decide (Forall (fun p : nat * nat => cellAt g p.1 p.2 = Some None)
                           allPositions)) as [Hall|Hex].
  - assert (g = emptyGrid) as ->; [|by vm_compute].
    apply grid_ext; [done | apply shape66_emptyGrid |].
    intros r c Hr Hc. rewrite Forall_forall in Hall.
    assert (cellAt g r c = Some None) as ->.
    { apply (Hall (r, c)). by apply elem_of_allPositions. }
    destruct (cellAt_is_Some emptyGrid r c shape66_emptyGrid Hr Hc) as [x Hx].
    rewrite Hx. f_equal.
    do 6 (destruct r as [|r]; [
      do 6 (destruct c as [|c]; [by vm_compute in Hx; simplify_eq|]); lia |]).
    lia.
  - apply not_Forall_Exists in Hex; [|apply _].
    apply Exists_exists in Hex as ([r c] & Hpos & Hcell). simpl in Hcell.
    apply elem_of_allPositions in Hpos as [Hr Hc].
    destruct (cellAt_is_Some g r c Hs Hr Hc) as [[v|] Hx]; [|done].
    apply findNextMove_errors. intros Hnil.
    pose proof (detectErrors_reports_filled_cells g r c v Hs Hx) as Hin.
    change (detectErrors g None) with (errors (analyzeBoard g)) in Hin.
    rewrite Hnil in Hin. by apply elem_of_nil in Hin.
Qed.

(** C5, at Scenario C.  [scenarioC] is a valid grid whose only empty cell,
    row 2 column 4, sees the other five values; the analysis finds the naked
    single 6 there with confidence 1, but it also lists the 35 filled cells
    as errors, so [findNextMove] answers [null] where the claim promises the
    naked single. *)
Theorem findNextMove_scenarioC :
  isValidGrid scenarioC = true
  ∧ filter (fun p : nat * nat => cellAt scenarioC p.1 p.2 = Some None)
           allPositions = [(2, 4)%nat]
  ∧ calculateCellCandidates scenarioC 2 4 = [6]
  ∧ map (fun m => (m_row m, m_col m, m_value m, m_technique m, m_confidence m))
        (availableMoves (analyzeBoard scenarioC))
    = [(2%nat, 4%nat, 6, NAKED_SINGLE, 1)]
  ∧ length (errors (analyzeBoard scenarioC)) = 35%nat
  ∧ Forall (fun e => e_type e = NoSolution) (errors (analyzeBoard scenarioC))
  ∧ findNextMove scenarioC = None.
Proof.
  repeat split; try (by vm_compute).
  apply (bool_decide_unpack _). by vm_compute.
Qed.

(** C8, at Scenario E.  [scenarioE] is a valid grid, none of its six filled
    cells breaks a unit constraint, and row 0 column 0 is its only empty cell
    without candidates; [detectErrors] returns seven [no_solution] errors,
    one for that cell and one for each filled cell, where the claim promises
    exactly one. *)
Theorem detectErrors_scenarioE :
  isValidGrid scenarioE = true
  ∧ filter (fun p : nat * nat =>
              cellAt scenarioE p.1 p.2 = Some None
              ∧ calculateCellCandidates scenarioE p.1 p.2 = [])
           allPositions = [(0, 0)%nat]
  ∧ map (fun e => (e_row e, e_col e, e_type e)) (detectErrors scenarioE None)
    = [ (0, 0, NoSolution); (0, 1, NoSolution); (0, 2, NoSolution);
        (0, 3, NoSolution); (2, 0, NoSolution); (3, 0, NoSolution);
        (4, 0, NoSolution) ]%nat
  ∧ errors (analyzeBoard scenarioE) = detectErrors scenarioE None.
Proof. repeat split; by vm_compute. Qed.

(** ** The object store: frame properties *)

Module StoreFacts.

Import Store StoreSpec.

Lemma readRow_app (h k : heap) (l : loc) (cells : list Cell) :
  readRow h l = Some cells → readRow (h ++ k) l = Some cells.
Proof.
  unfold readRow. intros H.
  destruct (h !! l) as [o|] eqn:Hl; [|done].
  by rewrite (lookup_app_l_Some _ _ _ _ Hl).
Qed.

Lemma readGrid_app (h k : heap) (l : loc) (rows : list loc) :
  readGrid h l = Some rows → readGrid (h ++ k) l = Some rows.
Proof.
  unfold readGrid. intros H.
  destruct (h !! l) as [o|] eqn:Hl; [|done].
  by rewrite (lookup_app_l_Some _ _ _ _ Hl).
Qed.

Lemma readRow_lt (h : heap) (l : loc) (cells : list Cell) :
  readRow h l = Some cells → (l < length h)%nat.
Proof.
  unfold readRow. destruct (h !! l) eqn:Hl; [|done].
  intros _. by eapply lookup_lt_Some.
Qed.

Lemma readRows_app (h k : heap) (rows : list loc) (g : Grid) :
  mapM (readRow h) rows = Some g → mapM (readRow (h ++ k)) rows = Some g.
Proof.
  rewrite !mapM_Some. intros H.
  eapply Forall2_impl; [exact H|]. intros r cells. apply readRow_app.
Qed.

Lemma loadGrid_app (h k : heap) (grid : loc) (g : Grid) :
  loadGrid h grid = Some g → loadGrid (h ++ k) grid = Some g.
Proof.
  unfold loadGrid. intros H.
  destruct (readGrid h grid) as [rows|] eqn:Hrows; [|done]. simpl in H.
  rewrite (readGrid_app _ k _ _ Hrows). simpl. by apply readRows_app.
Qed.

(** The rows just allocated at the end of the store read back as they are. *)
Lemma readRows_fresh (h : heap) (g : Grid) (k : heap) :
  mapM (readRow (h ++ (ORow <$> g) ++ k)) (seq (length h) (length g)) = Some g.
Proof.
  apply mapM_Some. apply Forall2_same_length_lookup. split.
  - by rewrite length_seq.
  - intros i l cells Hl Hc.
    apply lookup_seq in Hl as [-> Hi].
    unfold readRow. rewrite lookup_app_r by lia.
    replace (length h + i - length h)%nat with i by lia.
    rewrite lookup_app_l by (rewrite length_fmap; lia).
    by rewrite list_lookup_fmap, Hc.
Qed.

(** [rows.map(r => [...r])] appends one copy of each row and nothing else. *)
Lemma copyRows_spec (rows : list loc) (h : heap) (g : Grid) :
  mapM (readRow h) rows = Some g →
  copyRows h rows
  = Some (h ++ (ORow <$> g), seq (length h) (length g)).
Proof.
  revert h g. induction rows as [|r rows IH]; intros h g Hg.
  - apply mapM_Some in Hg. apply Forall2_nil_inv_l in Hg as ->.
    simpl. by rewrite app_nil_r.
  - apply mapM_Some in Hg.
    apply Forall2_cons_inv_l in Hg as (cells & g' & Hr & Hg' & ->).
    cbn [copyRows]. rewrite Hr. simpl.
    rewrite (IH (h ++ [ORow cells]) g').
    + simpl. rewrite length_app. simpl.
      rewrite <- app_assoc. simpl.
      by replace (length h + 1)%nat with (S (length h)) by lia.
    + apply readRows_app. by apply mapM_Some.
Qed.

Lemma loadGrid_length (h : heap) (grid : loc) (g : Grid) (rows : list loc) :
  readGrid h grid = Some rows → loadGrid h grid = Some g →
  length rows = length g.
Proof.
  unfold loadGrid. intros -> H. simpl in H.
  apply mapM_Some in H. by eapply Forall2_length.
Qed.

(** [grid.map(r => [...r])]: the copies of the rows, then the new array. *)
Lemma copyGrid_spec (h : heap) (grid : loc) (g : Grid) :
  loadGrid h grid = Some g →
  copyGrid h grid
  = Some (h ++ (ORow <$> g) ++ [OGrid (seq (length h) (length g))],
          (length h + length g)%nat).
Proof.
  unfold loadGrid, copyGrid. intros H.
  destruct (readGrid h grid) as [rows|] eqn:Hrows; [|done]. simpl in *.
  rewrite (copyRows_spec rows h g H). simpl. unfold alloc.
  rewrite length_app, length_fmap. by rewrite <- app_assoc.
Qed.

Lemma loadGrid_copy (h : heap) (g : Grid) :
  loadGrid (h ++ (ORow <$> g) ++ [OGrid (seq (length h) (length g))])
           (length h + length g)
  = Some g.
Proof.
  unfold loadGrid, readGrid.
  rewrite lookup_app_r by lia.
  replace (length h + length g - length h)%nat with (length g) by lia.
  rewrite lookup_app_r by (rewrite length_fmap; lia).
  rewrite length_fmap, Nat.sub_diag. simpl.
  apply readRows_fresh.
Qed.

(** C9. [isValidMove] leaves its grid argument as it found it.  Run on a
    store in which [grid] denotes [g], it returns the boolean of the
    validator, every object that existed before the call is unchanged
    (the call only allocates), and [grid] still denotes [g]: every cell
    holds the value it held before, whatever the boolean. *)
Theorem isValidMove_leaves_grid_unchanged (h : heap) (grid : loc) (g : Grid)
    (row col : nat) (value : Z) :
  loadGrid h grid = Some g →
  ∃ (b : bool) (h' : heap),
    Store.isValidMove h grid row col value = Some (b, h')
    ∧ b = isValidMoveOfGrid g row col value
    ∧ (∀ l o, h !! l = Some o → h' !! l = Some o)
    ∧ loadGrid h' grid = Some g.
Proof.
  intros Hg. unfold Store.isValidMove, isValidMoveOfGrid.
  destruct ((value <? 1) || (6 <? value)) eqn:Hrange.
  { exists false, h. by repeat split. }
  rewrite (copyGrid_spec h grid g Hg). simpl.
  set (h1 := h ++ (ORow <$> g) ++ [OGrid (seq (length h) (length g))]).
  assert (readGrid h1 (length h + length g)
          = Some (seq (length h) (length g))) as ->.
  { unfold readGrid, h1. rewrite lookup_app_r by lia.
    replace (length h + length g - length h)%nat with (length g) by lia.
    rewrite lookup_app_r by (rewrite length_fmap; lia).
    by rewrite length_fmap, Nat.sub_diag. }
  simpl.
  assert (∀ k l o, h !! l = Some o → (h ++ k) !! l = Some o) as Hframe.
  { intros k l o Hl. by apply lookup_app_l_Some. }
  destruct (g !! row) as [r0|] eqn:Hrow.
  - assert (row < length g)%nat as Hlt by (by eapply lookup_lt_Some).
    rewrite (lookup_seq_lt _ _ _ Hlt).
    set (targetRow := arraySet r0 col (Some value)).
    assert (readRow h1 (length h + row) = Some r0) as Hread.
    { unfold readRow, h1. rewrite lookup_app_r by lia.
      replace (length h + row - length h)%nat with row by lia.
      rewrite lookup_app_l by (rewrite length_fmap; lia).
      by rewrite list_lookup_fmap, Hrow. }
    unfold writeRow. rewrite Hread. simpl. fold targetRow.
    set (h2 := <[(length h + row)%nat := ORow targetRow]> h1).
    assert (h2 = h ++ (ORow <$> <[row := targetRow]> g)
                   ++ [OGrid (seq (length h) (length g))]) as Hh2.
    { unfold h2, h1. rewrite insert_app_r_alt by lia.
      replace (length h + row - length h)%nat with row by lia.
      rewrite insert_app_l by (rewrite length_fmap; lia).
      by rewrite list_fmap_insert. }
    assert (readRow h2 (length h + row) = Some targetRow) as ->.
    { unfold readRow, h2. rewrite list_lookup_insert_eq; [done|].
      unfold h1. rewrite !length_app, length_fmap. lia. }
    assert (loadGrid h2 (length h + length g)
            = Some (<[row := targetRow]> g)) as ->.
    { rewrite Hh2.
      rewrite <- (length_insert g row targetRow).
      apply loadGrid_copy. }
    simpl.
    assert ((∀ l o, h !! l = Some o → h2 !! l = Some o)
            ∧ loadGrid h2 grid = Some g) as Hdone.
    { rewrite Hh2. split; [intros l o; apply Hframe|].
      by apply loadGrid_app. }
    destruct (negb _); [|destruct (negb _); [|destruct (negb _)]].
    all: eexists _, h2; (split; [reflexivity|]); split;
         [reflexivity | exact Hdone].
  - rewrite (lookup_seq_ge _ _ _) by (apply lookup_ge_None in Hrow; lia).
    exists false, h1. split; [done|]. split; [done|].
    split; [intros l o; apply Hframe|]. by apply loadGrid_app.
Qed.

Lemma isValidMove_leaves_grid_unchanged_witness :
  loadGrid (storeOf scenarioC) 6 = Some scenarioC
  ∧ ∃ (b : bool) (h' : heap),
      Store.isValidMove (storeOf scenarioC) 6 2 4 6 = Some (b, h')
      ∧ b = isValidMoveOfGrid scenarioC 2 4 6
      ∧ (∀ l o, storeOf scenarioC !! l = Some o → h' !! l = Some o)
      ∧ loadGrid h' 6 = Some scenarioC.
Proof.
  split; [reflexivity|].
  apply (isValidMove_leaves_grid_unchanged (storeOf scenarioC) 6 scenarioC
           2 4 6).
  reflexivity.
Defined.

(** *** MoveHistoryManager *)

Lemma loadGrid_inv (h : heap) (grid : loc) (g : Grid) :
  loadGrid h grid = Some g →
  ∃ rows, readGrid h grid = Some rows
          ∧ mapM (readRow h) rows = Some g
          ∧ Forall (fun r => (r < length h)%nat) rows.
Proof.
  unfold loadGrid. intros H.
  destruct (readGrid h grid) as [rows|] eqn:Hrows; [|done]. simpl in H.
  exists rows. split; [done|]. split; [done|].
  apply mapM_Some in H. apply Forall_forall. intros r Hr.
  apply list_elem_of_lookup in Hr as [i Hi].
  destruct (Forall2_lookup_l _ _ _ _ _ H Hi) as (cells & _ & Hread).
  by eapply readRow_lt.
Qed.

(** An assignment [grid[row][col] = x] replaces one row object of [grid]
    and touches nothing else. *)
Lemma writeCell_frame (h h' : heap) (n : nat) (grid : loc) (rows : list loc)
    (row col : nat) (x : Cell) :
  readGrid h grid = Some rows →
  Forall (fun r => (r < n)%nat) rows →
  writeCell h grid row col x = Some h' →
  readGrid h' grid = Some rows
  ∧ ∀ l, (n ≤ l)%nat → h' !! l = h !! l.
Proof.
  intros Hrows Hlt. unfold writeCell. rewrite Hrows. simpl.
  destruct (rows !! row) as [rowRef|] eqn:Hrow; [|done]. simpl.
  unfold writeRow.
  destruct (readRow h rowRef) as [cells|] eqn:Hcells; [|done]. simpl.
  intros [= <-].
  assert (rowRef < n)%nat as Href.
  { rewrite Forall_forall in Hlt. apply Hlt.
    by eapply list_elem_of_lookup_2. }
  split.
  - unfold readGrid in *. unfold readRow in Hcells.
    destruct (decide (rowRef = grid)) as [->|Hne].
    + destruct (h !! grid) as [[]|]; done.
    + by rewrite list_lookup_insert_ne.
  - intros l Hl. apply list_lookup_insert_ne. lia.
Qed.

Lemma writeCells_frame (writes : list (nat * nat * Cell)) (h h' : heap)
    (n : nat) (grid : loc) (rows : list loc) :
  readGrid h grid = Some rows →
  Forall (fun r => (r < n)%nat) rows →
  writeCells h grid writes = Some h' →
  ∀ l, (n ≤ l)%nat → h' !! l = h !! l.
Proof.
  revert h. induction writes as [|[[row col] x] writes IH];
    intros h Hrows Hlt Hw l Hl.
  - by injection Hw as <-.
  - cbn [writeCells] in Hw.
    destruct (writeCell h grid row col x) as [h1|] eqn:H1; [|done].
    simpl in Hw.
    destruct (writeCell_frame h h1 n grid rows row col x Hrows Hlt H1)
      as [Hrows1 Hsame].
    rewrite (IH h1 Hrows1 Hlt Hw l Hl). by apply Hsame.
Qed.

(** A grid whose array and rows all sit at or above [n] reads the same in
    two stores that agree from [n] on. *)
Lemma loadGrid_agree (h1 h2 : heap) (n : nat) (grid : loc) (rows : list loc)
    (g : Grid) :
  (∀ l, (n ≤ l)%nat → h2 !! l = h1 !! l) →
  (n ≤ grid)%nat →
  readGrid h1 grid = Some rows →
  Forall (fun r => (n ≤ r)%nat) rows →
  loadGrid h1 grid = Some g →
  loadGrid h2 grid = Some g.
Proof.
  intros Hsame Hgrid Hrows Hge. unfold loadGrid. rewrite Hrows. simpl.
  assert (readGrid h2 grid = Some rows) as ->.
  { unfold readGrid in *. by rewrite Hsame. }
  simpl. rewrite !mapM_Some. intros H.
  apply Forall2_same_length_lookup. split; [by eapply Forall2_length|].
  intros i r cells Hr Hc.
  destruct (Forall2_lookup_l _ _ _ _ _ H Hr) as (cells' & Hc' & Hread).
  assert (cells' = cells) as -> by congruence.
  unfold readRow in *. rewrite Hsame; [done|].
  rewrite Forall_forall in Hge. apply Hge. by eapply list_elem_of_lookup_2.
Qed.

(** C10. [addMove] stores a deep copy of the grid it is given.  On a store
    in which [board] denotes [g], [addMove] returns, its entry is the last
    one, and whatever cells the caller assigns in its own grid afterwards,
    the entry's [boardStateBefore] still denotes [g], and
    [getBoardStateAtIndex] at the entry's index returns a grid denoting
    [g]. *)
Theorem addMove_snapshot_is_isolated (h : heap) (mgr : MoveHistoryManager)
    (mv : PlayerMove) (board : loc) (g : Grid) (hintUsed : bool)
    (tech : option SolvingTechnique) (now : Z) :
  loadGrid h board = Some g →
  ∃ (h1 : heap) (mgr1 : MoveHistoryManager) (entry : MoveHistoryEntry),
    addMove h mgr mv board hintUsed tech now = Some (h1, mgr1)
    ∧ getLastMove mgr1 = Some entry
    ∧ move entry = mv
    ∧ ∀ (writes : list (nat * nat * Cell)) (h2 : heap),
        writeCells h1 board writes = Some h2 →
        loadGrid h2 (boardStateBefore entry) = Some g
        ∧ ∃ (h3 : heap) (copy : loc),
            getBoardStateAtIndex h2 mgr1 (length (history mgr1) - 1)
            = Some (h3, Some copy)
            ∧ loadGrid h3 copy = Some g.
Proof.
  intros Hg.
  destruct (loadGrid_inv h board g Hg) as (rows & Hrows & _ & Hlt).
  unfold addMove, deepCopyGrid. rewrite (copyGrid_spec h board g Hg). simpl.
  set (h1 := h ++ (ORow <$> g) ++ [OGrid (seq (length h) (length g))]).
  set (snapshot := (length h + length g)%nat).
  set (entry := mkEntry mv now snapshot hintUsed tech).
  set (trimmed := if Nat.ltb _ _ then _ else _).
  assert (last trimmed = Some entry) as Hlast.
  { unfold trimmed. destruct (Nat.ltb _ _).
    - rewrite length_app. simpl. unfold maxHistorySize.
      rewrite drop_app_le by lia.
      apply last_snoc.
    - apply last_snoc. }
  exists h1, (mkManager trimmed), entry.
  split; [done|]. split; [done|]. split; [done|].
  intros writes h2 Hw.
  assert (∀ l, (length h ≤ l)%nat → h2 !! l = h1 !! l) as Hsame.
  { eapply writeCells_frame; [|exact Hlt|exact Hw].
    by apply readGrid_app. }
  assert (loadGrid h2 snapshot = Some g) as Hsnap.
  { apply (loadGrid_agree h1 h2 (length h) snapshot
             (seq (length h) (length g))); try done.
    - unfold snapshot. lia.
    - unfold readGrid, h1, snapshot. rewrite lookup_app_r by lia.
      replace (length h + length g - length h)%nat with (length g) by lia.
      rewrite lookup_app_r by (rewrite length_fmap; lia).
      by rewrite length_fmap, Nat.sub_diag.
    - apply Forall_forall. intros r Hr. apply elem_of_seq in Hr. lia.
    - apply loadGrid_copy. }
  split; [done|].
  unfold getBoardStateAtIndex, deepCopyGrid. simpl.
  rewrite last_lookup in Hlast.
  replace (length trimmed - 1)%nat with (pred (length trimmed)) by lia.
  rewrite Hlast. simpl.
  rewrite (copyGrid_spec h2 snapshot g Hsnap). simpl.
  eexists _, _. split; [done|]. apply loadGrid_copy.
Qed.

Lemma addMove_snapshot_is_isolated_witness :
  loadGrid (storeOf scenarioC) 6 = Some scenarioC
  ∧ ∃ (h1 : heap) (mgr1 : MoveHistoryManager) (entry : MoveHistoryEntry),
      addMove (storeOf scenarioC) newManager (mkMove 2 4 (Some 6) None) 6
              false None 0
      = Some (h1, mgr1)
      ∧ getLastMove mgr1 = Some entry
      ∧ move entry = mkMove 2 4 (Some 6) None
      ∧ ∀ (writes : list (nat * nat * Cell)) (h2 : heap),
          writeCells h1 6 writes = Some h2 →
          loadGrid h2 (boardStateBefore entry) = Some scenarioC
          ∧ ∃ (h3 : heap) (copy : loc),
              getBoardStateAtIndex h2 mgr1 (length (history mgr1) - 1)
              = Some (h3, Some copy)
              ∧ loadGrid h3 copy = Some scenarioC.
Proof.
  split; [reflexivity|].
  apply (addMove_snapshot_is_isolated (storeOf scenarioC) newManager
           (mkMove 2 4 (Some 6) None) 6 scenarioC false None 0).
  reflexivity.
Defined.

(** *** updateCandidatesAfterMove *)

Lemma readRec_lt (h : heap) (l : loc) (f : gmap nat loc) :
  readRec h l = Some f → (l < length h)%nat.
Proof.
  unfold readRec. destruct (h !! l) eqn:Hl; [|done].
  intros _. by eapply lookup_lt_Some.
Qed.

Lemma readRec_le (h hc : heap) (l : loc) (f : gmap nat loc) :
  (∀ l o, h !! l = Some o → hc !! l = Some o) →
  readRec h l = Some f → readRec hc l = Some f.
Proof.
  intros Hle. unfold readRec.
  destruct (h !! l) as [o|] eqn:Hl; [|done]. by rewrite (Hle l o Hl).
Qed.

Lemma readSet_le (h hc : heap) (l : loc) (s : CandidateSet) :
  (∀ l o, h !! l = Some o → hc !! l = Some o) →
  readSet h l = Some s → readSet hc l = Some s.
Proof.
  intros Hle. unfold readSet.
  destruct (h !! l) as [o|] eqn:Hl; [|done]. by rewrite (Hle l o Hl).
Qed.

Lemma heap_le_app (h k : heap) : ∀ l o, h !! l = Some o → (h ++ k) !! l = Some o.
Proof. intros l o Hl. by apply lookup_app_l_Some. Qed.

Lemma readRec_insert_ne (h : heap) (x l : loc) (o : obj) :
  x ≠ l → readRec (<[x := o]> h) l = readRec h l.
Proof. intros Hne. unfold readRec. by rewrite list_lookup_insert_ne. Qed.

Lemma readRec_insert_eq (h : heap) (x : loc) (f : gmap nat loc) :
  (x < length h)%nat → readRec (<[x := ORec f]> h) x = Some f.
Proof. intros Hlt. unfold readRec. by rewrite list_lookup_insert_eq. Qed.

(** Replacing an object by an object leaves every set as it is. *)
Lemma readSet_insert_rec (h : heap) (x so : loc) (f0 f : gmap nat loc) :
  readRec h x = Some f0 →
  readSet (<[x := ORec f]> h) so = readSet h so.
Proof.
  intros Hx. unfold readSet. destruct (decide (x = so)) as [->|Hne].
  - rewrite list_lookup_insert_eq by (by eapply readRec_lt).
    unfold readRec in Hx. by destruct (h !! so) as [[]|].
  - by rewrite list_lookup_insert_ne.
Qed.

Lemma readRec_alloc (h : heap) (f : gmap nat loc) :
  readRec (h ++ [ORec f]) (length h) = Some f.
Proof.
  unfold readRec. rewrite lookup_app_r by lia. by rewrite Nat.sub_diag.
Qed.

Lemma readSet_alloc (h : heap) (s : CandidateSet) :
  readSet (h ++ [OSet s]) (length h) = Some s.
Proof.
  unfold readSet. rewrite lookup_app_r by lia. by rewrite Nat.sub_diag.
Qed.

(** Reading the input map during the copy gives what it held at the call. *)
Lemma candRef_source (h hc : heap) (candidates : loc) (r c : nat) :
  wfCand h candidates →
  (∀ l o, h !! l = Some o → hc !! l = Some o) →
  ∃ cellCandidates,
    candRef hc candidates r c = Some cellCandidates
    ∧ match cellCandidates with
      | Some setRef => readSet hc setRef
      | None => Some []
      end = Some (candDefault h candidates r c).
Proof.
  intros (fields & Hf & Hrows) Hle.
  unfold candDefault, candEntry, candRef.
  rewrite Hf, (readRec_le h hc _ _ Hle Hf). simpl.
  destruct (fields !! r) as [rowRef|] eqn:Hr; [|by eexists].
  destruct (Hrows r rowRef Hr) as (rowFields & Hrf & Hsets).
  rewrite Hrf, (readRec_le h hc _ _ Hle Hrf). simpl.
  eexists. split; [done|].
  destruct (rowFields !! c) as [setRef|] eqn:Hc; [|done].
  destruct (Hsets c setRef Hc) as [s Hs].
  by rewrite Hs, (readSet_le h hc _ _ Hle Hs).
Qed.

Lemma rowCopied_mono (h : heap) (candidates : loc) (hc hc' : heap)
    (cf cf' : gmap nat loc) (r C : nat) :
  rowCopied h candidates hc cf r C →
  cf' !! r = cf !! r →
  (length hc ≤ length hc')%nat →
  (∀ ro f, cf !! r = Some ro → readRec hc ro = Some f →
           readRec hc' ro = Some f) →
  (∀ so s, readSet hc so = Some s → readSet hc' so = Some s) →
  rowCopied h candidates hc' cf' r C.
Proof.
  intros (ro & rf & Hro & Hbounds & Hrf & Hsets) Hcf Hlen Hrec Hset.
  exists ro, rf. split; [by rewrite Hcf|]. split; [lia|].
  split; [by apply Hrec|].
  intros c Hc. destruct (Hsets c Hc) as (so & Hso & Hs).
  exists so. split; [done|]. by apply Hset.
Qed.

(** A loop [for (i = start; i < start + len; i++)] whose body may throw. *)
Lemma foldl_seq_inv {A} (body : option A → nat → option A)
    (Inv : A → nat → Prop) (len start : nat) (a : A) :
  (∀ a i, (start ≤ i < start + len)%nat → Inv a i →
          ∃ a', body (Some a) i = Some a' ∧ Inv a' (S i)) →
  Inv a start →
  ∃ a', foldl body (Some a) (seq start len) = Some a'
        ∧ Inv a' (start + len)%nat.
Proof.
  revert start a. induction len as [|len IH]; intros start a Hstep Ha.
  - exists a. simpl. by rewrite Nat.add_0_r.
  - destruct (Hstep a start ltac:(lia) Ha) as (a1 & Hbody & Ha1).
    destruct (IH (S start) a1) as (a' & Hfold & Ha'); [|done|].
    + intros a2 i Hi. apply Hstep. lia.
    + exists a'. simpl. rewrite Hbody.
      split; [done|]. by replace (start + S len)%nat with (S start + len)%nat by lia.
Qed.

(** One column of [deepCopyCandidates]. *)
Lemma copy_column_step (h : heap) (candidates : loc) (hc : heap) (R C : nat) :
  wfCand h candidates →
  rowInv h candidates hc R C →
  ∃ hc',
    (cellCandidates ← candRef hc candidates R C;
     elems ← match cellCandidates with
             | Some setRef => readSet hc setRef
             | None => Some []
             end;
     let '(h1, fresh) := alloc hc (OSet elems) in
     setEntry h1 (length h) R C fresh) = Some hc'
    ∧ rowInv h candidates hc' R (S C).
Proof.
  intros Hwf (Hle & cf & Hcf & Hdone & Hrow & Hkeys & Hinj).
  destruct (candRef_source h hc candidates R C Hwf Hle) as (cc & -> & Helems).
  simpl. rewrite Helems. simpl.
  destruct Hrow as (ro & rf & Hro & Hbounds & Hrf & Hsets).
  unfold setEntry, setField.
  rewrite (readRec_le hc _ _ _ (heap_le_app hc _) Hcf). simpl.
  rewrite Hro. simpl.
  rewrite (readRec_le hc _ _ _ (heap_le_app hc _) Hrf). simpl.
  eexists. split; [done|].
  set (elems := candDefault h candidates R C).
  set (ha := hc ++ [OSet elems]).
  assert (readRec ha ro = Some rf) as Hrfa
    by (apply (readRec_le hc); [apply heap_le_app | done]).
  assert (length ha = S (length hc)) as Hlen
    by (unfold ha; rewrite length_app; simpl; lia).
  assert (length h < length hc)%nat as Hn by (by eapply readRec_lt).
  split; [|exists cf; split; [|split; [|split; [|split]]]].
  - intros l o Hl. rewrite list_lookup_insert_ne.
    + apply heap_le_app. by apply Hle.
    + apply lookup_lt_Some in Hl. lia.
  - rewrite readRec_insert_ne by lia.
    apply (readRec_le hc); [apply heap_le_app | done].
  - intros r Hr.
    apply (rowCopied_mono h candidates hc _ cf cf r 6); try done.
    + by apply Hdone.
    + rewrite length_insert. lia.
    + intros ro' f Hro' Hf. rewrite readRec_insert_ne.
      * apply (readRec_le hc); [apply heap_le_app | done].
      * intros ->. assert (R = r) by (by eapply Hinj). lia.
    + intros so s Hs. rewrite (readSet_insert_rec ha ro so rf) by done.
      apply (readSet_le hc); [apply heap_le_app | done].
  - exists ro, (<[C := length hc]> rf).
    split; [done|]. split; [rewrite length_insert; lia|].
    split; [apply readRec_insert_eq; lia|].
    intros c Hc. destruct (decide (c = C)) as [->|Hne].
    + exists (length hc). split; [by rewrite lookup_insert_eq|].
      rewrite (readSet_insert_rec ha ro _ rf) by done.
      apply readSet_alloc.
    + destruct (Hsets c ltac:(lia)) as (so & Hso & Hs).
      exists so. split; [by rewrite lookup_insert_ne|].
      rewrite (readSet_insert_rec ha ro _ rf) by done.
      apply (readSet_le hc); [apply heap_le_app | done].
  - done.
  - done.
Qed.

(** One row of [deepCopyCandidates]. *)
Lemma copy_row_step (h : heap) (candidates : loc) (hc : heap) (R : nat) :
  wfCand h candidates →
  copyInv h candidates hc R →
  ∃ hc',
    (let '(h2, rowObj) := alloc hc (ORec ∅) in
     h3 ← setField h2 (length h) R rowObj;
     copyRowCandidates candidates (length h) R h3) = Some hc'
    ∧ copyInv h candidates hc' (S R).
Proof.
  intros Hwf (Hle & cf & Hcf & Hdone & Hkeys & Hinj).
  simpl. unfold setField.
  rewrite (readRec_le hc _ _ _ (heap_le_app hc _) Hcf). simpl.
  set (h2 := hc ++ [ORec ∅]).
  set (cf' := <[R := length hc]> cf).
  set (h3 := <[length h := ORec cf']> h2).
  assert (length h < length hc)%nat as Hn by (by eapply readRec_lt).
  assert (length h2 = S (length hc)) as Hlen2
    by (unfold h2; rewrite length_app; simpl; lia).
  assert (readRec h2 (length h) = Some cf) as Hcf2
    by (apply (readRec_le hc); [apply heap_le_app | done]).
  assert (cf !! R = None) as HR.
  { destruct (cf !! R) as [ro|] eqn:HcfR; [|done].
    specialize (Hkeys R ro HcfR). lia. }
  assert (rowInv h candidates h3 R 0) as Hinv0.
  { split; [|exists cf'; split; [|split; [|split; [|split]]]].
    - intros l o Hl. unfold h3. rewrite list_lookup_insert_ne.
      + apply heap_le_app. by apply Hle.
      + apply lookup_lt_Some in Hl. lia.
    - apply readRec_insert_eq. lia.
    - intros r Hr.
      apply (rowCopied_mono h candidates hc _ cf cf' r 6); try done.
      + by apply Hdone.
      + unfold cf'. rewrite lookup_insert_ne by lia. done.
      + unfold h3. rewrite length_insert. lia.
      + intros ro f Hro Hf.
        destruct (Hdone r Hr) as (ro' & _ & Hro' & Hb & _).
        assert (ro' = ro) as -> by congruence.
        unfold h3. rewrite readRec_insert_ne by lia.
        apply (readRec_le hc); [apply heap_le_app | done].
      + intros so s Hs. unfold h3.
        rewrite (readSet_insert_rec h2 _ so cf) by done.
        apply (readSet_le hc); [apply heap_le_app | done].
    - exists (length hc), ∅. split; [apply lookup_insert_eq|].
      split; [unfold h3; rewrite length_insert; lia|].
      split; [|intros c Hc; lia].
      unfold h3. rewrite readRec_insert_ne by lia. apply readRec_alloc.
    - intros r ro Hr. unfold cf' in Hr.
      destruct (decide (r = R)) as [->|HrR]; [done|].
      rewrite lookup_insert_ne in Hr by done.
      specialize (Hkeys r ro Hr). lia.
    - intros r r' ro Hr Hr'. unfold cf' in Hr, Hr'.
      destruct (decide (r = R)) as [->|HrR];
        destruct (decide (r' = R)) as [->|Hr'R]; [done| | |].
      + rewrite lookup_insert_eq in Hr. rewrite lookup_insert_ne in Hr' by done.
        injection Hr as <-.
        destruct (Hdone r' (Hkeys r' _ Hr')) as (ro' & _ & Hro' & Hb & _).
        assert (ro' = length hc) by congruence. lia.
      + rewrite lookup_insert_eq in Hr'. rewrite lookup_insert_ne in Hr by done.
        injection Hr' as <-.
        destruct (Hdone r (Hkeys r _ Hr)) as (ro' & _ & Hro' & Hb & _).
        assert (ro' = length hc) by congruence. lia.
      + rewrite lookup_insert_ne in Hr, Hr' by done. by eapply Hinj. }
  destruct (foldl_seq_inv
              (fun (acc : option heap) (col : nat) =>
                 h0 ← acc;
                 cellCandidates ← candRef h0 candidates R col;
                 elems ← match cellCandidates with
                         | Some setRef => readSet h0 setRef
                         | None => Some []
                         end;
                 let '(h1, fresh) := alloc h0 (OSet elems) in
                 setEntry h1 (length h) R col fresh)
              (fun hx C => rowInv h candidates hx R C) 6 0 h3)
    as (hc' & Hfold & Hinv6).
  { intros hx C _ Hx. simpl. by apply copy_column_step. }
  { exact Hinv0. }
  exists hc'. split; [exact Hfold|].
  destruct Hinv6 as (Hle' & cf6 & Hcf6 & Hdone6 & Hrow6 & Hkeys6 & Hinj6).
  split; [done|]. exists cf6. split; [done|]. split; [|split; [|done]].
  - intros r Hr. destruct (decide (r = R)) as [->|Hne]; [done|].
    apply Hdone6. lia.
  - intros r ro Hr. specialize (Hkeys6 r ro Hr). lia.
Qed.

(** [deepCopyCandidates] only allocates, and its result has, for each of
    the 36 cells, a fresh set with the input's elements (none where the
    input has no entry), in six distinct fresh row objects. *)
Lemma deepCopyCandidates_spec (h : heap) (candidates : loc) :
  wfCand h candidates →
  ∃ h', deepCopyCandidates h candidates = Some (h', length h)
        ∧ copyInv h candidates h' 6.
Proof.
  intros Hwf.
  destruct (foldl_seq_inv
              (fun (acc : option heap) (row : nat) =>
                 h1 ← acc;
                 let '(h2, rowObj) := alloc h1 (ORec ∅) in
                 h3 ← setField h2 (length h) row rowObj;
                 copyRowCandidates candidates (length h) row h3)
              (fun hx R => copyInv h candidates hx R) 6 0 (h ++ [ORec ∅]))
    as (h' & Hfold & Hinv).
  - intros hx R _ Hx. simpl. by apply copy_row_step.
  - split; [apply heap_le_app|]. exists ∅.
    split; [apply readRec_alloc|]. split; [intros r Hr; lia|].
    split; [intros r ro Hr; by rewrite lookup_empty in Hr|].
    intros r r' ro Hr. by rewrite lookup_empty in Hr.
  - exists h'. unfold deepCopyCandidates, GRID_SIZE.
    cbv beta iota delta [alloc] in Hfold |- *. by rewrite Hfold.
Qed.

(** The store of a candidate map: its entries, and that it is well typed. *)
Lemma storeOfCandidates_entry (cg : CandidateGrid) (r c : nat) :
  (r < 6)%nat → (c < 6)%nat →
  candEntry (CandidateStore.storeOfCandidates cg) 0 r c
  = Some (default [] (candAt cg r c)).
Proof.
  intros Hr Hc.
  destruct r as [|[|[|[|[|[|r]]]]]]; try lia;
    destruct c as [|[|[|[|[|[|c]]]]]]; try lia; reflexivity.
Qed.

Lemma storeOfCandidates_wf (cg : CandidateGrid) :
  wfCand (CandidateStore.storeOfCandidates cg) 0.
Proof.
  eexists. split; [reflexivity|].
  intros row rowRef Hrow.
  apply elem_of_list_to_map_2, list_elem_of_fmap in Hrow
    as (r & [= -> ->] & Hr).
  assert (r < 6)%nat as Hr6.
  { apply list_elem_of_In, in_seq in Hr. lia. }
  clear Hr.
  assert (∃ rowFields,
            readRec (CandidateStore.storeOfCandidates cg) (1 + 7 * r)
            = Some rowFields
            ∧ rowFields
              = list_to_map ((fun c => (c, (2 + 7 * r + c)%nat)) <$> seq 0 6))
    as (rowFields & Hrf & ->).
  { destruct r as [|[|[|[|[|[|r]]]]]]; try lia; by eexists. }
  exists (list_to_map ((fun c => (c, (2 + 7 * r + c)%nat)) <$> seq 0 6)).
  split; [done|].
  intros col setRef Hcol.
  apply elem_of_list_to_map_2, list_elem_of_fmap in Hcol
    as (c & [= -> ->] & Hc).
  assert (c < 6)%nat as Hc6.
  { apply list_elem_of_In, in_seq in Hc. lia. }
  destruct r as [|[|[|[|[|[|r]]]]]]; try lia;
    destruct c as [|[|[|[|[|[|c]]]]]]; try lia; by eexists.
Qed.

(** C7, amended.  For a clearing move in a row of the board, on a store
    that is well typed at the candidate map, [updateCandidatesAfterMove]
    returns a new map in which the cleared cell has the recomputed set and
    every other cell of the 6x6 board has the elements of the input's
    entry, or no element where the input has no entry; every object that
    existed before the call, the input map included, is unchanged. *)
Theorem updateCandidatesAfterMove_clear (g : Grid) (h : heap)
    (candidates : loc) (mv : PlayerMove) :
  wfCand h candidates →
  pm_value mv = None →
  (pm_row mv < 6)%nat →
  ∃ (h' : heap) (newCandidates : loc),
    updateCandidatesAfterMove g h candidates mv = Some (h', newCandidates)
    ∧ candEntry h' newCandidates (pm_row mv) (pm_col mv)
      = Some (calculateCellCandidates g (pm_row mv) (pm_col mv))
    ∧ (∀ r c, (r < 6)%nat → (c < 6)%nat →
              (r, c) ≠ (pm_row mv, pm_col mv) →
              candEntry h' newCandidates r c
              = Some (default [] (candEntry h candidates r c)))
    ∧ (∀ l o, h !! l = Some o → h' !! l = Some o).
Proof.
  intros Hwf Hclear Hrow.
  destruct (deepCopyCandidates_spec h candidates Hwf)
    as (h1 & Hcopy & Hle & cf & Hcf & Hrows & Hkeys & Hinj).
  unfold updateCandidatesAfterMove. rewrite Hcopy, Hclear. simpl.
  set (calc := calculateCellCandidates g (pm_row mv) (pm_col mv)).
  set (h2 := h1 ++ [OSet calc]).
  destruct (Hrows (pm_row mv) Hrow) as (ro & rf & Hro & Hb & Hrf & Hsets).
  assert (∀ l o, h1 !! l = Some o → h2 !! l = Some o) as Hle2
    by apply heap_le_app.
  unfold setEntry, setField.
  rewrite (readRec_le h1 h2 _ _ Hle2 Hcf). simpl. rewrite Hro. simpl.
  rewrite (readRec_le h1 h2 _ _ Hle2 Hrf). simpl.
  set (h3 := <[ro := ORec (<[pm_col mv := length h1]> rf)]> h2).
  assert (length h2 = S (length h1)) as Hlen2
    by (unfold h2; rewrite length_app; simpl; lia).
  assert (readRec h3 (length h) = Some cf) as Hcf3.
  { unfold h3. rewrite readRec_insert_ne by lia. by apply (readRec_le h1). }
  assert (∀ so s, readSet h1 so = Some s → readSet h3 so = Some s) as Hset3.
  { intros so s Hs. unfold h3.
    rewrite (readSet_insert_rec h2 ro so rf) by (by apply (readRec_le h1)).
    by apply (readSet_le h1). }
  exists h3, (length h). split; [done|]. split; [|split].
  - unfold candEntry, candRef. rewrite Hcf3. simpl. rewrite Hro.
    unfold h3 at 1. rewrite readRec_insert_eq by lia. simpl.
    rewrite lookup_insert_eq.
    unfold h3. rewrite (readSet_insert_rec h2 ro _ rf)
      by (by apply (readRec_le h1)).
    apply readSet_alloc.
  - intros r c Hr Hc Hne.
    destruct (Hrows r Hr) as (ro' & rf' & Hro' & Hb' & Hrf' & Hsets').
    destruct (Hsets' c Hc) as (so & Hso & Hs).
    unfold candEntry, candRef. rewrite Hcf3. simpl. rewrite Hro'.
    destruct (decide (r = pm_row mv)) as [->|Hnr].
    + assert (ro' = ro) as -> by congruence.
      assert (rf' = rf) as -> by congruence.
      unfold h3 at 1. rewrite readRec_insert_eq by lia. simpl.
      rewrite lookup_insert_ne by congruence.
      rewrite Hso. by apply Hset3.
    + assert (ro ≠ ro') as Hro_ne.
      { intros ->. apply Hnr. by eapply Hinj. }
      unfold h3 at 1. rewrite readRec_insert_ne by done.
      rewrite (readRec_le h1 h2 _ _ Hle2 Hrf'). simpl.
      rewrite Hso. by apply Hset3.
  - intros l o Hl. unfold h3. rewrite list_lookup_insert_ne.
    + apply Hle2. by apply Hle.
    + apply lookup_lt_Some in Hl. lia.
Qed.

(** The same on the map of [scenarioE], whose entries are populated:
    the entry at (0, 5), for one, holds 4, 5 and 6 and is kept. *)
Lemma updateCandidatesAfterMove_clear_witness :
  wfCand (CandidateStore.storeOfCandidates (calculateAllCandidates scenarioE))
         0
  ∧ candEntry
      (CandidateStore.storeOfCandidates (calculateAllCandidates scenarioE))
      0 0 5
    = Some [4; 5; 6]
  ∧ ∃ (h' : heap) (newCandidates : loc),
      updateCandidatesAfterMove scenarioE
        (CandidateStore.storeOfCandidates (calculateAllCandidates scenarioE))
        0 (mkMove 0 4 None None)
      = Some (h', newCandidates)
      ∧ candEntry h' newCandidates 0 4
        = Some (calculateCellCandidates scenarioE 0 4)
      ∧ (∀ r c, (r < 6)%nat → (c < 6)%nat → (r, c) ≠ (0, 4)%nat →
                candEntry h' newCandidates r c
                = Some (default []
                          (candEntry
                             (CandidateStore.storeOfCandidates
                                (calculateAllCandidates scenarioE))
                             0 r c)))
      ∧ (∀ l o,
           CandidateStore.storeOfCandidates (calculateAllCandidates scenarioE)
             !! l = Some o →
           h' !! l = Some o).
Proof.
  split; [apply storeOfCandidates_wf|].
  split; [reflexivity|].
  apply (updateCandidatesAfterMove_clear scenarioE
           (CandidateStore.storeOfCandidates
              (calculateAllCandidates scenarioE))
           0 (mkMove 0 4 None None) (storeOfCandidates_wf _) eq_refl).
  simpl. lia.
Defined.

(** C7 as stated fails where the input map lacks an entry: the copy holds
    the empty set there, not the input's missing entry. *)
Lemma updateCandidatesAfterMove_clear_fills_missing_entries :
  ¬ clearingUpdateAsStated emptyGrid [ORec ∅] 0 (mkMove 0 0 None None).
Proof.
  intros (h' & newCandidates & Hrun & _ & Hother & _).
  vm_compute in Hrun. injection Hrun as <- <-.
  specialize (Hother 0%nat 1%nat ltac:(simpl; congruence)).
  vm_compute in Hother. discriminate.
Qed.

End StoreFacts.

(** ** Grids as arrays of 36 cells *)

Ltac destruct_row row H :=
  destruct row as [|? [|? [|? [|? [|? [|? [|? ?]]]]]]];
  try discriminate H; clear H.

(** Replace a grid known to be 6x6 by its 36 cells. *)
Ltac destruct_grid g Hs :=
  let Hlen := fresh "Hlen" in
  let Hrows := fresh "Hrows" in
  destruct Hs as [Hlen Hrows];
  destruct g as [|?r [|?r [|?r [|?r [|?r [|?r [|? ?]]]]]]];
  try discriminate Hlen; clear Hlen;
  repeat match goal with
         | H : Forall _ (_ :: _) |- _ =>
             let H1 := fresh "Hrow" in
             apply Forall_cons in H as [H1 H]; simpl in H1
         end;
  clear Hrows;
  repeat match goal with
         | H : length ?row = 6%nat |- _ => destruct_row row H
         end.

(** Case analysis on a row or column index below 6. *)
Ltac cases6 r H :=
  let E := fresh "E" in
  assert (r = 0 ∨ r = 1 ∨ r = 2 ∨ r = 3 ∨ r = 4 ∨ r = 5)%nat as E by lia;
  clear H; destruct E as [->|[->|[->|[->|[->| ->]]]]].

Lemma length_remove_dups_le (l : list Z) :
  (length (remove_dups l) ≤ length l)%nat.
Proof.
  induction l as [|x l IH]; simpl; [done|].
  destruct (decide_rel _ x l); simpl; lia.
Qed.

Lemma setSize_NoDup (l : list Z) : setSize l = length l ↔ NoDup l.
Proof.
  unfold setSize. induction l as [|x l IH]; simpl.
  - split; [constructor | done].
  - pose proof (length_remove_dups_le l).
    destruct (decide_rel _ x l) as [Hin|Hnin]; simpl.
    + split; [lia|]. intros Hnd. apply NoDup_cons in Hnd as [? _]. done.
    + rewrite NoDup_cons. split.
      * intros Heq. split; [done|]. apply IH. lia.
      * intros [_ Hnd]. f_equal. by apply IH.
Qed.

Lemma isValidUnit_NoDup (unit : list Cell) :
  isValidUnit unit = true ↔ NoDup (nonNull unit).
Proof. unfold isValidUnit. rewrite Nat.eqb_eq. apply setSize_NoDup. Qed.

(** The validator reads each unit at the unit's positions. *)
Lemma row_unitCells (g : Grid) (r : nat) (currentRow : list Cell) :
  shape66 g → g !! r = Some currentRow →
  currentRow = unitCells g (rowPositions r).
Proof.
  intros Hs Hr. assert (r < 6)%nat as Hlt.
  { apply lookup_lt_Some in Hr. destruct Hs. lia. }
  destruct_grid g Hs. cases6 r Hlt; by injection Hr as <-.
Qed.

Lemma column_unitCells (g : Grid) (c : nat) :
  shape66 g → (c < 6)%nat → column g c = unitCells g (colPositions c).
Proof. intros Hs Hlt. destruct_grid g Hs. cases6 c Hlt; reflexivity. Qed.

Lemma getBox_unitCells (g : Grid) (boxRow boxCol : nat) :
  shape66 g → (boxRow < 3)%nat → (boxCol < 2)%nat →
  getBox g boxRow boxCol = unitCells g (boxPositions boxRow boxCol).
Proof.
  intros Hs Hr Hc. destruct_grid g Hs.
  do 3 (destruct boxRow as [|boxRow]; [
    do 2 (destruct boxCol as [|boxCol]; [reflexivity|]); lia |]).
  lia.
Qed.

Lemma isValidGrid_shape (g : Grid) : isValidGrid g = true → shape66 g.
Proof.
  unfold isValidGrid, GRID_SIZE.
  destruct (negb (Nat.eqb (length g) 6)) eqn:Hlen; [done|].
  destruct (existsb _ g) eqn:Hrows; [done|]. intros _. split.
  - apply negb_false_iff, Nat.eqb_eq in Hlen. done.
  - apply Forall_forall. intros row Hrow.
    destruct (decide (length row = 6%nat)) as [|Hne]; [done|].
    assert (existsb (fun row : list Cell => negb (Nat.eqb (length row) 6)) g
            = true) as Hex; [|congruence].
    apply existsb_exists. exists row. split; [by apply list_elem_of_In|].
    apply negb_true_iff, Nat.eqb_neq. done.
Qed.

(** [isValidGrid] is: 6x6, and no unit has a duplicate. *)
Lemma isValidGrid_units (g : Grid) :
  isValidGrid g = true ↔ shape66 g ∧ validUnits g.
Proof.
  split.
  - intros Hv. pose proof (isValidGrid_shape g Hv) as Hs. split; [done|].
    revert Hv. destruct_grid g Hs. unfold isValidGrid, validUnits.
    cbn -[isValidUnit]. rewrite !andb_true_iff.
    intros H. repeat (apply Forall_cons; split; [tauto|]). constructor.
  - intros [Hs Hu]. revert Hu. destruct_grid g Hs.
    unfold isValidGrid, validUnits. cbn -[isValidUnit].
    rewrite !Forall_cons, !andb_true_iff. tauto.
Qed.

(** ** Reading and writing cells *)

Lemma shape66_setCell (g : Grid) (r c : nat) (x : Cell) :
  shape66 g → (c < 6)%nat → shape66 (setCell g r c x).
Proof.
  intros Hs Hc. unfold setCell.
  destruct (g !! r) as [currentRow|] eqn:Hr; [|done].
  destruct (shape66_row g r currentRow Hs Hr) as [Hlt Hlen].
  destruct Hs as [Hg Hrows]. split; [by rewrite length_insert|].
  apply Forall_insert; [done|].
  unfold arraySet. rewrite decide_True by lia. by rewrite length_insert.
Qed.

Lemma cellAt_setCell (g : Grid) (r c r' c' : nat) (x : Cell) :
  shape66 g → (r < 6)%nat → (c < 6)%nat →
  cellAt (setCell g r c x) r' c'
  = if decide ((r', c') = (r, c)) then Some x else cellAt g r' c'.
Proof.
  intros Hs Hr Hc. unfold setCell, cellAt.
  destruct (lookup_lt_is_Some_2 g r) as [currentRow Hrow];
    [destruct Hs; lia|].
  destruct (shape66_row g r currentRow Hs Hrow) as [_ Hlen].
  rewrite Hrow. unfold arraySet. rewrite decide_True by lia.
  destruct (decide (r' = r)) as [->|Hne].
  - rewrite list_lookup_insert_eq by (by eapply lookup_lt_Some).
    rewrite Hrow. destruct (decide (c' = c)) as [->|Hnc].
    + rewrite decide_True by done. apply list_lookup_insert_eq. lia.
    + rewrite decide_False by congruence. by apply list_lookup_insert_ne.
  - rewrite list_lookup_insert_ne by done.
    rewrite decide_False by congruence. done.
Qed.

Lemma cellAt_setCell_eq (g : Grid) (r c : nat) (x : Cell) :
  shape66 g → (r < 6)%nat → (c < 6)%nat →
  cellAt (setCell g r c x) r c = Some x.
Proof. intros. rewrite cellAt_setCell by done. by rewrite decide_True. Qed.

Lemma cellAt_setCell_ne (g : Grid) (r c r' c' : nat) (x : Cell) :
  shape66 g → (r < 6)%nat → (c < 6)%nat → (r', c') ≠ (r, c) →
  cellAt (setCell g r c x) r' c' = cellAt g r' c'.
Proof. intros. rewrite cellAt_setCell by done. by rewrite decide_False. Qed.

(** Writing back what a cell held restores the grid. *)
Lemma setCell_restore (g : Grid) (r c : nat) (x y : Cell) :
  shape66 g → cellAt g r c = Some x →
  setCell (setCell g r c y) r c x = g.
Proof.
  intros Hs Hx. destruct (cellAt_Some_bounds g r c x Hs Hx) as [Hr Hc].
  apply grid_ext; [by repeat apply shape66_setCell | done |].
  intros r' c' _ _.
  rewrite cellAt_setCell by (by try apply shape66_setCell).
  destruct (decide ((r', c') = (r, c))) as [[= -> ->]|Hne]; [done|].
  by rewrite cellAt_setCell_ne.
Qed.

Lemma setCell_setCell (g : Grid) (r c : nat) (x y : Cell) :
  shape66 g → (r < 6)%nat → (c < 6)%nat →
  setCell (setCell g r c y) r c x = setCell g r c x.
Proof.
  intros Hs Hr Hc.
  apply grid_ext; [by repeat apply shape66_setCell
                  | by apply shape66_setCell |].
  intros r' c' _ _.
  rewrite !cellAt_setCell by (by try apply shape66_setCell).
  by destruct (decide ((r', c') = (r, c))).
Qed.

(** ** Units *)

Lemma allUnits_in_range :
  Forall (fun unit : list (nat * nat) =>
            Forall (fun p => (p.1 < 6)%nat ∧ (p.2 < 6)%nat) unit) allUnits.
Proof. apply (bool_decide_unpack _). by vm_compute. Qed.

(** A unit through a cell is the cell's row, column or box. *)
Lemma units_through_cell :
  Forall (fun p : nat * nat =>
            Forall (fun unit : list (nat * nat) =>
                      p ∈ unit →
                      unit = rowPositions p.1 ∨ unit = colPositions p.2
                      ∨ unit = boxPositions (p.1 / 2) (p.2 / 3))
                   allUnits)
         allPositions.
Proof. apply (bool_decide_unpack _). by vm_compute. Qed.

Lemma cell_units_in_allUnits :
  Forall (fun p : nat * nat =>
            rowPositions p.1 ∈ allUnits ∧ colPositions p.2 ∈ allUnits
            ∧ boxPositions (p.1 / 2) (p.2 / 3) ∈ allUnits
            ∧ p ∈ rowPositions p.1 ∧ p ∈ colPositions p.2
            ∧ p ∈ boxPositions (p.1 / 2) (p.2 / 3))
         allPositions.
Proof. apply (bool_decide_unpack _). by vm_compute. Qed.

Lemma unit_in_range (unit : list (nat * nat)) (p : nat * nat) :
  unit ∈ allUnits → p ∈ unit → (p.1 < 6)%nat ∧ (p.2 < 6)%nat.
Proof.
  intros Hu Hp. pose proof allUnits_in_range as H.
  rewrite Forall_forall in H. specialize (H unit Hu).
  rewrite Forall_forall in H. by apply H.
Qed.

(** The cells of a unit of a 6x6 grid, one per position. *)
Lemma unitCells_Forall2 (g : Grid) (unit : list (nat * nat)) :
  shape66 g →
  Forall (fun p : nat * nat => (p.1 < 6)%nat ∧ (p.2 < 6)%nat) unit →
  Forall2 (fun p x => cellAt g p.1 p.2 = Some x) unit (unitCells g unit).
Proof.
  intros Hs. unfold unitCells. induction 1 as [|p unit [Hr Hc] _ IH]; simpl.
  - constructor.
  - destruct (cellAt_is_Some g p.1 p.2 Hs Hr Hc) as [x Hx].
    rewrite Hx. by constructor.
Qed.

Lemma unitCells_ext (g g' : Grid) (unit : list (nat * nat)) :
  (∀ p, p ∈ unit → cellAt g' p.1 p.2 = cellAt g p.1 p.2) →
  unitCells g' unit = unitCells g unit.
Proof.
  intros H. unfold unitCells. induction unit as [|p unit IH]; simpl; [done|].
  rewrite H by left.
  assert (omap (fun p : nat * nat => cellAt g' p.1 p.2) unit
          = omap (fun p : nat * nat => cellAt g p.1 p.2) unit) as Htail.
  { apply IH. intros q Hq. apply H. by right. }
  destruct (cellAt g p.1 p.2); [f_equal|]; exact Htail.
Qed.

Lemma nonNull_sub (u1 u2 : list Cell) :
  Forall2 cellSub u1 u2 → nonNull u1 `sublist_of` nonNull u2.
Proof.
  unfold nonNull. induction 1 as [|a b u1 u2 [->| ->] _ IH]; simpl.
  - constructor.
  - destruct b; simpl; [by constructor | done].
  - destruct b; simpl; [by constructor | done].
Qed.

(** Emptying cells of a unit cannot create a duplicate. *)
Lemma isValidUnit_sub (u1 u2 : list Cell) :
  Forall2 cellSub u1 u2 → isValidUnit u2 = true → isValidUnit u1 = true.
Proof.
  rewrite !isValidUnit_NoDup. intros Hsub Hnd.
  eapply sublist_NoDup; [exact Hnd | by apply nonNull_sub].
Qed.

Lemma unitCells_sub (g s : Grid) (unit : list (nat * nat)) :
  shape66 g → shape66 s →
  Forall (fun p : nat * nat => (p.1 < 6)%nat ∧ (p.2 < 6)%nat) unit →
  extends g s →
  Forall2 cellSub (unitCells g unit) (unitCells s unit).
Proof.
  intros Hg Hs Hu Hext. unfold unitCells.
  induction Hu as [|p unit [Hr Hc] _ IH]; simpl; [constructor|].
  destruct (cellAt_is_Some g p.1 p.2 Hg Hr Hc) as [x Hx].
  destruct (cellAt_is_Some s p.1 p.2 Hs Hr Hc) as [y Hy].
  rewrite Hx, Hy. constructor; [|done].
  destruct x as [v|]; [right | by left].
  apply Hext in Hx. congruence.
Qed.

(** A grid that only keeps cells of a valid grid is valid. *)
Lemma validUnits_sub (g s : Grid) :
  shape66 g → shape66 s → extends g s → validUnits s → validUnits g.
Proof.
  intros Hg Hs Hext Hv. unfold validUnits in *.
  rewrite Forall_forall in Hv |- *. intros unit Hu.
  apply (isValidUnit_sub _ (unitCells s unit)); [|by apply Hv].
  apply unitCells_sub; try done.
  apply Forall_forall. intros p Hp. by eapply unit_in_range.
Qed.

(** ** Moves *)

(** [isValidMove] checks the value's range and the three units through the
    cell, on the grid with the value written. *)
Lemma isValidMove_units (g : Grid) (r c : nat) (v : Z) :
  shape66 g → (r < 6)%nat → (c < 6)%nat →
  isValidMove g r c v = true
  ↔ 1 ≤ v ≤ 6
    ∧ isValidUnit (unitCells (setCell g r c (Some v)) (rowPositions r)) = true
    ∧ isValidUnit (unitCells (setCell g r c (Some v)) (colPositions c)) = true
    ∧ isValidUnit (unitCells (setCell g r c (Some v))
                             (boxPositions (r / 2) (c / 3))) = true.
Proof.
  intros Hs Hr Hc.
  pose proof (shape66_setCell g r c (Some v) Hs Hc) as Hs'.
  destruct (lookup_lt_is_Some_2 g r) as [r0 Hrow]; [destruct Hs; lia|].
  assert (setCell g r c (Some v) !! r = Some (arraySet r0 c (Some v))) as Hrow'.
  { unfold setCell. rewrite Hrow. apply list_lookup_insert_eq.
    by eapply lookup_lt_Some. }
  rewrite <- (row_unitCells _ r _ Hs' Hrow').
  rewrite <- (column_unitCells _ c Hs' Hc).
  rewrite <- (getBox_unitCells _ (r / 2) (c / 3) Hs')
    by (nat_div r 2%nat; nat_div c 3%nat; lia).
  unfold isValidMove, setCell. rewrite Hrow.
  fold (isValidUnit (arraySet r0 c (Some v))).
  fold (isValidUnit (column (<[r:=arraySet r0 c (Some v)]> g) c)).
  fold (isValidUnit (getBox (<[r:=arraySet r0 c (Some v)]> g)
                            (r / BOX_HEIGHT) (c / BOX_WIDTH))).
  unfold BOX_HEIGHT, BOX_WIDTH.
  assert ((v <? 1) || (6 <? v) = false ↔ 1 ≤ v ≤ 6) as Hrange.
  { rewrite orb_false_iff, !Z.ltb_ge. lia. }
  destruct ((v <? 1) || (6 <? v));
    destruct (isValidUnit (arraySet r0 c (Some v)));
    destruct (isValidUnit (column _ c));
    destruct (isValidUnit (getBox _ _ _)); simpl;
    (split; [intros H; try discriminate H; repeat split; tauto
            | intros (H & ? & ? & ?); try done;
              apply Hrange in H; discriminate H]).
Qed.

Lemma position_in_allPositions (r c : nat) :
  (r < 6)%nat → (c < 6)%nat → (r, c) ∈ allPositions.
Proof. intros. by apply elem_of_allPositions. Qed.

(** A legal move keeps every unit free of duplicates. *)
Lemma validUnits_setCell (g : Grid) (r c : nat) (v : Z) :
  shape66 g → (r < 6)%nat → (c < 6)%nat →
  validUnits g → isValidMove g r c v = true →
  validUnits (setCell g r c (Some v)).
Proof.
  intros Hs Hr Hc Hv Hmove.
  apply isValidMove_units in Hmove as (_ & Hrow & Hcol & Hbox); try done.
  unfold validUnits in *. rewrite Forall_forall in Hv |- *. intros unit Hu.
  destruct (decide ((r, c) ∈ unit)) as [Hin|Hnin].
  - pose proof units_through_cell as Hthrough.
    rewrite Forall_forall in Hthrough.
    specialize (Hthrough (r, c) (position_in_allPositions r c Hr Hc)).
    rewrite Forall_forall in Hthrough.
    destruct (Hthrough unit Hu Hin) as [->|[->| ->]]; done.
  - rewrite (unitCells_ext g); [by apply Hv|].
    intros [r' c'] Hp. simpl. apply cellAt_setCell_ne; try done.
    intros [= -> ->]. done.
Qed.

Lemma inRange_setCell (g : Grid) (r c : nat) (x : Cell) :
  shape66 g → (r < 6)%nat → (c < 6)%nat → inRange g →
  (∀ v, x = Some v → 1 ≤ v ≤ 6) →
  inRange (setCell g r c x).
Proof.
  intros Hs Hr Hc Hin Hx r' c' v. rewrite cellAt_setCell by done.
  destruct (decide ((r', c') = (r, c))).
  - intros [= ->]. by apply Hx.
  - apply Hin.
Qed.

Lemma extends_refl (g : Grid) : extends g g.
Proof. by intros r c v. Qed.

Lemma extends_setCell (g s : Grid) (r c : nat) (v : Z) :
  shape66 g → (r < 6)%nat → (c < 6)%nat →
  extends g s → cellAt s r c = Some (Some v) →
  extends (setCell g r c (Some v)) s.
Proof.
  intros Hs Hr Hc Hext Hv r' c' w. rewrite cellAt_setCell by done.
  destruct (decide ((r', c') = (r, c))) as [[= -> ->]|Hne].
  - intros [= <-]. done.
  - apply Hext.
Qed.

Lemma extends_clear (g s : Grid) (r c : nat) :
  shape66 g → (r < 6)%nat → (c < 6)%nat →
  extends g s → extends (setCell g r c None) s.
Proof.
  intros Hs Hr Hc Hext r' c' w. rewrite cellAt_setCell by done.
  destruct (decide ((r', c') = (r, c))); [done | apply Hext].
Qed.

(** The value a completion holds in an empty cell is a legal move. *)
Lemma isValidMove_of_completion (g s : Grid) (r c : nat) (v : Z) :
  shape66 g → completion g s →
  cellAt g r c = Some None → cellAt s r c = Some (Some v) →
  isValidMove g r c v = true.
Proof.
  intros Hg ([Hs Hrange] & Hfull & Hvalid & Hext) Hnull Hv.
  destruct (cellAt_Some_bounds g r c _ Hg Hnull) as [Hr Hc].
  apply isValidGrid_units in Hvalid as [_ Hunits].
  pose proof (shape66_setCell g r c (Some v) Hg Hc) as Hg'.
  pose proof (extends_setCell g s r c v Hg Hr Hc Hext Hv) as Hext'.
  pose proof cell_units_in_allUnits as Hcell.
  rewrite Forall_forall in Hcell.
  destruct (Hcell (r, c) (position_in_allPositions r c Hr Hc))
    as (Hrow & Hcol & Hbox & _). simpl in Hrow, Hcol, Hbox.
  pose proof (validUnits_sub _ s Hg' Hs Hext' Hunits) as Hv'.
  unfold validUnits in Hv'. rewrite Forall_forall in Hv'.
  apply isValidMove_units; try done.
  split; [by eapply Hrange|]. repeat split; by apply Hv'.
Qed.

Lemma completion_setCell (g s : Grid) (r c : nat) (v : Z) :
  shape66 g → (r < 6)%nat → (c < 6)%nat →
  completion g s → cellAt s r c = Some (Some v) →
  completion (setCell g r c (Some v)) s.
Proof.
  intros Hg Hr Hc (Hwf & Hfull & Hvalid & Hext) Hv.
  split; [done|]. split; [done|]. split; [done|]. by apply extends_setCell.
Qed.

Lemma completion_of_setCell (g s : Grid) (r c : nat) (v : Z) :
  shape66 g → cellAt g r c = Some None →
  completion (setCell g r c (Some v)) s →
  completion g s ∧ cellAt s r c = Some (Some v).
Proof.
  intros Hg Hnull (Hwf & Hfull & Hvalid & Hext).
  destruct (cellAt_Some_bounds g r c _ Hg Hnull) as [Hr Hc].
  split; [|apply Hext; by apply cellAt_setCell_eq].
  split; [done|]. split; [done|]. split; [done|].
  intros r' c' w Hw. apply Hext. rewrite cellAt_setCell_ne; try done.
  intros [= -> ->]. congruence.
Qed.

(** A full valid grid is its own and only completion. *)
Lemma completion_of_full (g s : Grid) :
  wellFormed g → isFull g → isValidGrid g = true →
  completion g s ↔ s = g.
Proof.
  intros Hwf Hfull Hvalid. split.
  - intros ([Hs _] & _ & _ & Hext).
    apply grid_ext; [done | apply Hwf |]. intros r c Hr Hc.
    destruct (Hfull r c Hr Hc) as [v Hv]. rewrite Hv. by apply Hext.
  - intros ->. split; [done|]. split; [done|]. split; [done|].
    apply extends_refl.
Qed.

(** ** The uniqueness checker *)

Lemma scanIndex_inj (r c r' c' : nat) :
  (c < 6)%nat → (c' < 6)%nat → scanIndex r c = scanIndex r' c' →
  r = r' ∧ c = c'.
Proof. unfold scanIndex. lia. Qed.

(** The loop [for (num = 1; num <= 6; num++)] of [solve] at an empty cell,
    given that the recursive call behaves on every grid it is handed. *)
Lemma solve_values_loop (M : nat) (rec : Grid * list Grid → Grid * list Grid)
    (g : Grid) (row col : nat) (sols : list Grid) :
  wellFormed g → validUnits g → cellAt g row col = Some None →
  (∀ num sols', isValidMove g row col num = true →
                solveSpec M (setCell g row col (Some num)) sols'
                          (rec (setCell g row col (Some num), sols'))) →
  ∀ (todo done : list Z) (st : Grid * list Grid),
    NoDup (done ++ todo) →
    solveSpecAt M g row col done sols st →
    solveSpecAt M g row col (done ++ todo) sols
      (foldl
         (fun (st : Grid * list Grid) (num : Z) =>
            let '(grid, solutions) := st in
            if isValidMove grid row col num then
              let '(grid', solutions') :=
                rec (setCell grid row col (Some num), solutions) in
              (setCell grid' row col None, solutions')
            else st)
         st todo).
Proof.
  intros [Hs Hrange] Hunits Hnull Hrec.
  destruct (cellAt_Some_bounds g row col _ Hs Hnull) as [Hr Hc].
  induction todo as [|num todo IH]; intros done st Hnd Hst.
  { by rewrite app_nil_r. }
  cbn [foldl].
  replace (done ++ num :: todo) with ((done ++ [num]) ++ todo) in *
    by (by rewrite <- app_assoc).
  apply IH; [done|]. clear IH.
  assert (num ∉ done) as Hfresh.
  { apply NoDup_app in Hnd as [Hnd _]. apply NoDup_app in Hnd as (_ & Hd & _).
    intros Hin. apply (Hd num Hin). left. }
  destruct Hst as (extra & -> & Hnd_extra & Hsound & Hcomplete).
  destruct (isValidMove g row col num) eqn:Hmove.
  - destruct (Hrec num (sols ++ extra) Hmove)
      as (extra' & Heq & Hnd' & Hsound' & Hcomplete').
    rewrite Heq. rewrite (setCell_restore g row col None (Some num)) by done.
    exists (extra ++ extra'). rewrite app_assoc.
    split; [done|]. split; [|split].
    + apply NoDup_app. split; [done|]. split; [|done].
      intros s Hs1 Hs2.
      destruct (Hsound s Hs1) as (_ & v & Hv & Hcell).
      destruct (completion_of_setCell g s row col num Hs Hnull (Hsound' s Hs2))
        as [_ Hcell'].
      assert (v = num) as -> by congruence. done.
    + intros s Hin. apply elem_of_app in Hin as [Hin|Hin].
      * destruct (Hsound s Hin) as (Hcomp & v & Hv & Hcell).
        split; [done|]. exists v. split; [|done]. apply elem_of_app. by left.
      * destruct (completion_of_setCell g s row col num Hs Hnull
                    (Hsound' s Hin)) as [Hcomp Hcell].
        split; [done|]. exists num. split; [|done].
        apply elem_of_app. right. left.
    + intros Hlen s v Hcomp Hv Hcell.
      rewrite <- app_assoc in Hlen.
      apply elem_of_app. apply elem_of_app in Hv as [Hv|Hv].
      * left. apply (Hcomplete ltac:(rewrite !length_app in *; lia) s v);
          done.
      * apply list_elem_of_singleton in Hv as ->. right.
        apply Hcomplete'; [by rewrite <- app_assoc|].
        by apply completion_setCell.
  - exists extra. split; [done|]. split; [done|]. split.
    + intros s Hin. destruct (Hsound s Hin) as (Hcomp & v & Hv & Hcell).
      split; [done|]. exists v. split; [|done]. apply elem_of_app. by left.
    + intros Hlen s v Hcomp Hv Hcell.
      apply elem_of_app in Hv as [Hv|Hv]; [by eapply Hcomplete|].
      apply list_elem_of_singleton in Hv as ->.
      rewrite (isValidMove_of_completion g s row col num) in Hmove; done.
Qed.

Lemma filledBefore_full (g : Grid) : filledBefore g 36 → isFull g.
Proof. intros H r c Hr Hc. apply H; try done. unfold scanIndex. lia. Qed.

Lemma filledBefore_next (g : Grid) (row col : nat) (v : Z) :
  (col < 6)%nat → filledBefore g (scanIndex row col) →
  cellAt g row col = Some (Some v) →
  filledBefore g (S (scanIndex row col)).
Proof.
  intros Hc Hbefore Hv r c Hr Hc' Hlt.
  destruct (decide (scanIndex r c = scanIndex row col)) as [Heq|Hne].
  - apply scanIndex_inj in Heq as [-> ->]; eauto.
  - apply Hbefore; try done. lia.
Qed.

Lemma filledBefore_setCell (g : Grid) (row col : nat) (v : Z) :
  shape66 g → (row < 6)%nat → (col < 6)%nat →
  filledBefore g (scanIndex row col) →
  filledBefore (setCell g row col (Some v)) (S (scanIndex row col)).
Proof.
  intros Hs Hr Hc Hbefore r c Hr' Hc' Hlt.
  rewrite cellAt_setCell by done.
  destruct (decide ((r, c) = (row, col))) as [|Hne]; [eauto|].
  apply Hbefore; try done.
  destruct (decide (scanIndex r c = scanIndex row col)) as [Heq|]; [|lia].
  apply scanIndex_inj in Heq as [-> ->]; done.
Qed.

(** [solve] from a position of the scan: the grid is valid, every earlier
    cell is filled, and the fuel covers the cells left. *)
Lemma solve_spec (M : nat) :
  ∀ (fuel row col : nat) (g : Grid) (sols : list Grid),
    wellFormed g → validUnits g →
    (col < 6)%nat → (scanIndex row col ≤ 36)%nat →
    filledBefore g (scanIndex row col) →
    (36 < fuel + scanIndex row col)%nat →
    solveSpec M g sols (solve M fuel row col (g, sols)).
Proof.
  induction fuel as [|fuel IH]; intros row col g sols Hwf Hunits Hc Hk Hbefore Hfuel.
  { lia. }
  pose proof Hwf as [Hs Hrange].
  cbn [solve]. destruct (Nat.leb M (length sols)) eqn:Hmax.
  { exists []. rewrite app_nil_r. split; [done|]. split; [constructor|].
    split; [intros s Hin; by apply elem_of_nil in Hin|].
    apply Nat.leb_le in Hmax. lia. }
  unfold GRID_SIZE. destruct (Nat.eqb row 6) eqn:Hrow.
  { apply Nat.eqb_eq in Hrow as ->.
    assert (isFull g) as Hfull.
    { apply filledBefore_full. intros r c Hr Hc' Hlt. apply Hbefore; try done.
      unfold scanIndex in *. lia. }
    assert (isValidGrid g = true) as Hvalid by (by apply isValidGrid_units).
    exists [g]. split; [done|]. split; [apply NoDup_singleton|]. split.
    - intros s Hin. apply list_elem_of_singleton in Hin as ->.
      by apply completion_of_full.
    - intros _ s Hcomp. apply list_elem_of_singleton.
      by apply (completion_of_full g s). }
  apply Nat.eqb_neq in Hrow.
  assert (row < 6)%nat as Hr by (unfold scanIndex in Hk; lia).
  destruct (cellAt_is_Some g row col Hs Hr Hc) as [x Hx].
  pose proof Hx as Hx'. unfold cellAt in Hx'.
  destruct (g !! row) as [currentRow|]; [|done]. rewrite Hx'.
  set (nextRow := if Nat.eqb col (6 - 1) then (row + 1)%nat else row).
  set (nextCol := if Nat.eqb col (6 - 1) then 0%nat else (col + 1)%nat).
  assert ((nextCol < 6)%nat ∧ scanIndex nextRow nextCol = S (scanIndex row col))
    as [Hnc Hnk].
  { unfold nextRow, nextCol, scanIndex.
    destruct (Nat.eqb col (6 - 1)) eqn:Hcol.
    - apply Nat.eqb_eq in Hcol. lia.
    - apply Nat.eqb_neq in Hcol. lia. }
  assert (scanIndex nextRow nextCol ≤ 36)%nat as Hnk'.
  { rewrite Hnk. unfold scanIndex. lia. }
  destruct x as [v|].
  - apply IH; try done.
    + rewrite Hnk. by eapply filledBefore_next.
    + lia.
  - assert (solveSpecAt M g row col ([] ++ values1to6) sols
              (foldl
                 (fun (st : Grid * list Grid) (num : Z) =>
                    let '(grid, solutions) := st in
                    if isValidMove grid row col num then
                      let '(grid', solutions') :=
                        solve M fuel nextRow nextCol
                              (setCell grid row col (Some num), solutions) in
                      (setCell grid' row col None, solutions')
                    else st)
                 (g, sols) values1to6)) as Hloop.
    { apply (solve_values_loop M (solve M fuel nextRow nextCol));
        try done.
      - intros num sols' Hmove.
        pose proof Hmove as Hmove'.
        apply isValidMove_units in Hmove' as [Hnum _]; try done.
        apply IH; try done.
        + split; [by apply shape66_setCell|].
          apply inRange_setCell; try done. by intros ? [= <-].
        + by apply validUnits_setCell.
        + rewrite Hnk. by apply filledBefore_setCell.
        + lia.
      - apply NoDup_values1to6.
      - exists []. rewrite app_nil_r. split; [done|]. split; [constructor|].
        split; [intros s Hin; by apply elem_of_nil in Hin|].
        intros _ s v _ Hv. by apply elem_of_nil in Hv. }
    change ([] ++ values1to6) with values1to6 in Hloop.
    destruct Hloop as (extra & Heq & Hnd & Hsound & Hcomplete).
    exists extra. split; [exact Heq|]. split; [done|]. split.
    + intros s Hin. by apply Hsound.
    + intros Hlen s Hcomp.
      destruct Hcomp as (Hwf_s & Hfull_s & Hvalid_s & Hext_s).
      destruct (Hfull_s row col Hr Hc) as [v Hv].
      apply (Hcomplete Hlen s v); try done.
      apply elem_of_values1to6. destruct Hwf_s as [_ Hrange_s].
      by eapply Hrange_s.
Qed.

(** More fuel than the scan needs changes nothing. *)
Lemma solve_fuel_irrelevant (M : nat) :
  ∀ (fuel fuel' row col : nat) (st : Grid * list Grid),
    (col < 6)%nat → (scanIndex row col ≤ 36)%nat →
    (36 < fuel + scanIndex row col)%nat →
    (36 < fuel' + scanIndex row col)%nat →
    solve M fuel row col st = solve M fuel' row col st.
Proof.
  induction fuel as [|fuel IH]; intros fuel' row col st Hc Hk Hf Hf'; [lia|].
  destruct fuel' as [|fuel']; [lia|].
  cbn [solve]. destruct st as [g sols].
  destruct (Nat.leb M (length sols)); [done|].
  unfold GRID_SIZE. destruct (Nat.eqb row 6) eqn:Hrow; [done|].
  apply Nat.eqb_neq in Hrow.
  set (nextRow := if Nat.eqb col (6 - 1) then (row + 1)%nat else row).
  set (nextCol := if Nat.eqb col (6 - 1) then 0%nat else (col + 1)%nat).
  assert ((nextCol < 6)%nat ∧ scanIndex nextRow nextCol = S (scanIndex row col))
    as [Hnc Hnk].
  { unfold nextRow, nextCol, scanIndex.
    destruct (Nat.eqb col (6 - 1)) eqn:Hcol.
    - apply Nat.eqb_eq in Hcol. lia.
    - apply Nat.eqb_neq in Hcol. lia. }
  assert (∀ st', solve M fuel nextRow nextCol st'
                 = solve M fuel' nextRow nextCol st') as Hsame.
  { intros st'. apply IH; try done; unfold scanIndex in *; lia. }
  destruct (g !! row) as [currentRow|]; [|done].
  destruct (currentRow !! col) as [[v|]|]; try apply Hsame.
  apply foldl_pointwise. intros [grid solutions] num.
  by rewrite Hsame.
Qed.

Lemma wellFormed_allOnes_shape : shape66 allOnes.
Proof. split; [done|]. repeat constructor. Qed.

(** C3 as stated fails on a grid whose givens already clash: the solver
    never re-checks filled cells, so it accepts the grid of ones as its own
    unique solution, although that grid has no valid completion. *)
Lemma hasUniqueSolution_accepts_invalid_givens :
  shape66 allOnes
  ∧ ¬ (hasUniqueSolution allOnes allOnes = true
       ↔ uniqueCompletion allOnes allOnes).
Proof.
  split; [apply wellFormed_allOnes_shape|].
  intros [Hto _].
  destruct (Hto ltac:(by vm_compute)) as [(_ & _ & Hvalid & _) _].
  by vm_compute in Hvalid.
Qed.

(** C3, amended.  For a 6x6 grid with cells 1..6 or empty that satisfies
    [isValidGrid], and any grid [expected], [hasUniqueSolution] returns true
    iff the puzzle has exactly one completion into a full valid grid and
    that completion is [expected]. *)
Theorem hasUniqueSolution_iff_unique_completion (puzzle expected : Grid) :
  wellFormed puzzle → isValidGrid puzzle = true →
  hasUniqueSolution puzzle expected = true
  ↔ uniqueCompletion puzzle expected.
Proof.
  intros Hwf Hvalid. apply isValidGrid_units in Hvalid as [_ Hunits].
  destruct (solve_spec 2 solveFuel 0 0 puzzle [] Hwf Hunits)
    as (extra & Heq & Hnd & Hsound & Hcomplete);
    try (unfold scanIndex, solveFuel; lia).
  { intros r c _ _ Hlt. unfold scanIndex in Hlt. lia. }
  unfold hasUniqueSolution, findAllSolutions. rewrite Heq.
  change (snd (puzzle, [] ++ extra)) with extra.
  change ([] ++ extra) with extra in Hcomplete.
  split.
  - destruct extra as [|found [|? ?]]; try done.
    intros Hfound. apply bool_decide_eq_true in Hfound as <-.
    split; [apply Hsound; left|].
    intros t Ht. apply list_elem_of_singleton.
    apply Hcomplete; [simpl; lia | done].
  - intros [Hcomp Honly].
    assert (∀ s, s ∈ extra → s = expected) as Hall
      by (intros s Hin; by apply Honly, Hsound).
    destruct extra as [|s1 [|s2 rest]].
    + specialize (Hcomplete ltac:(simpl; lia) expected Hcomp).
      by apply elem_of_nil in Hcomplete.
    + apply bool_decide_eq_true. apply Hall. left.
    + exfalso. apply NoDup_cons in Hnd as [Hnotin _]. apply Hnotin.
      rewrite (Hall s1) by left.
      rewrite <- (Hall s2) by (right; left). left.
Qed.

Lemma inRangeB_sound (g : Grid) : inRangeB g = true → inRange g.
Proof.
  unfold inRangeB, inRange, cellAt. intros H r c v Hcell.
  rewrite forallb_forall in H.
  destruct (g !! r) as [currentRow|] eqn:Hr; [|done].
  specialize (H currentRow
                ltac:(apply list_elem_of_In; by eapply list_elem_of_lookup_2)).
  rewrite forallb_forall in H.
  specialize (H (Some v)
                ltac:(apply list_elem_of_In; by eapply list_elem_of_lookup_2)).
  simpl in H. apply andb_true_iff in H as [H1 H2].
  apply Z.leb_le in H1, H2. lia.
Qed.

Lemma wellFormed_scenarioC : wellFormed scenarioC.
Proof.
  split; [split; [done | repeat constructor]|].
  by apply inRangeB_sound.
Qed.

Lemma hasUniqueSolution_iff_unique_completion_witness :
  wellFormed scenarioC ∧ isValidGrid scenarioC = true
  ∧ (hasUniqueSolution scenarioC sampleSolution = true
     ↔ uniqueCompletion scenarioC sampleSolution).
Proof.
  split; [apply wellFormed_scenarioC|]. split; [reflexivity|].
  apply (hasUniqueSolution_iff_unique_completion scenarioC sampleSolution
           wellFormed_scenarioC).
  reflexivity.
Defined.

(** ** The shuffle *)

Section Shuffle.

Variable oracle : nat → nat.

Lemma swap_elem_of {A} (l : list A) (i j : nat) (a b x : A) :
  l !! i = Some a → l !! j = Some b →
  x ∈ <[j := a]> (<[i := b]> l) ↔ x ∈ l.
Proof.
  intros Hi Hj.
  assert (i < length l)%nat as Hli by (by eapply lookup_lt_Some).
  assert (j < length l)%nat as Hlj by (by eapply lookup_lt_Some).
  rewrite !list_elem_of_lookup. split.
  - intros [k Hk]. destruct (decide (k = j)) as [->|Hkj].
    + rewrite list_lookup_insert_eq in Hk by (by rewrite length_insert).
      injection Hk as <-. eauto.
    + rewrite list_lookup_insert_ne in Hk by done.
      destruct (decide (k = i)) as [->|Hki].
      * rewrite list_lookup_insert_eq in Hk by done.
        injection Hk as <-. eauto.
      * rewrite list_lookup_insert_ne in Hk by done. eauto.
  - intros [k Hk]. destruct (decide (k = i)) as [->|Hki].
    + exists j. rewrite list_lookup_insert_eq by (by rewrite length_insert).
      congruence.
    + destruct (decide (k = j)) as [->|Hkj].
      * exists i. rewrite list_lookup_insert_ne by done.
        rewrite list_lookup_insert_eq by done. congruence.
      * exists k. by rewrite !list_lookup_insert_ne.
Qed.

Lemma shuffleLoop_elem_of {A} (i : nat) (l : list A) (n : nat) (x : A) :
  x ∈ (shuffleLoop oracle i l n).1 ↔ x ∈ l.
Proof.
  revert l n. induction i as [|i IH]; intros l n; [done|].
  cbn [shuffleLoop]. rewrite IH.
  destruct (l !! S i) as [temp|] eqn:Hi; [|done].
  destruct (l !! randomBelow oracle n (S i + 1)) as [swapItem|] eqn:Hj;
    [|done].
  by apply swap_elem_of.
Qed.

Lemma shuffleLoop_length {A} (i : nat) (l : list A) (n : nat) :
  length (shuffleLoop oracle i l n).1 = length l.
Proof.
  revert l n. induction i as [|i IH]; intros l n; [done|].
  cbn [shuffleLoop]. rewrite IH.
  destruct (l !! S i); [|done].
  destruct (l !! randomBelow oracle n (S i + 1)); [|done].
  by rewrite !length_insert.
Qed.

(** Whatever is drawn, the shuffled array has the elements of the
    original and its length. *)
Lemma shuffleArray_elem_of {A} (l : list A) (n : nat) (x : A) :
  x ∈ (shuffleArray oracle l n).1 ↔ x ∈ l.
Proof. apply shuffleLoop_elem_of. Qed.

Lemma shuffleArray_length {A} (l : list A) (n : nat) :
  length (shuffleArray oracle l n).1 = length l.
Proof. apply shuffleLoop_length. Qed.

End Shuffle.

(** ** The solution synthesizer *)

Lemma filter_length_lt {A} (P P' : A → Prop)
    `{∀ x, Decision (P x)} `{∀ x, Decision (P' x)} (l : list A) (x0 : A) :
  (∀ x, P' x → P x) → x0 ∈ l → P x0 → ¬ P' x0 →
  (length (filter P' l) < length (filter P l))%nat.
Proof.
  intros Himp Hin HP HP'.
  assert (filter P' l = filter P' (filter P l)) as ->.
  { rewrite list_filter_filter. apply list_filter_iff. intros x. split.
    - intros Hx. split; [done|]. by apply Himp.
    - by intros [? _]. }
  apply (length_filter_lt _ _ x0); [|done].
  apply list_elem_of_filter. done.
Qed.

(** Filling an empty cell leaves one empty cell less. *)
Lemma countNull_setCell (g : Grid) (row col : nat) (v : Z) :
  shape66 g → cellAt g row col = Some None →
  (countNull (setCell g row col (Some v)) < countNull g)%nat.
Proof.
  intros Hs Hnull.
  destruct (cellAt_Some_bounds g row col _ Hs Hnull) as [Hr Hc].
  unfold countNull.
  apply (filter_length_lt _ _ _ (row, col)).
  - intros [r c]. simpl. rewrite cellAt_setCell by done.
    by destruct (decide ((r, c) = (row, col))).
  - by apply elem_of_allPositions.
  - done.
  - simpl. by rewrite cellAt_setCell_eq.
Qed.

Section Synthesizer.

Variable oracle : nat → nat.

Lemma firstNull_Some (g : Grid) (row col : nat) :
  firstNull g = Some (row, col) → cellAt g row col = Some None.
Proof.
  unfold firstNull. intros H. apply find_some in H as [_ H].
  by destruct (cellAt g row col) as [[?|]|].
Qed.

Lemma firstNull_None (g : Grid) :
  shape66 g → firstNull g = None → isFull g.
Proof.
  unfold firstNull. intros Hs H r c Hr Hc.
  assert (In (r, c) allPositions) as Hin
    by (apply list_elem_of_In; by apply elem_of_allPositions).
  pose proof (find_none _ _ H (r, c) Hin) as Hnone. simpl in Hnone.
  destruct (cellAt_is_Some g r c Hs Hr Hc) as [[v|] Hx]; [eauto|].
  rewrite Hx in Hnone. discriminate Hnone.
Qed.

Lemma extends_trans_setCell (g g1 : Grid) (row col : nat) (v : Z) :
  shape66 g → cellAt g row col = Some None →
  extends (setCell g row col (Some v)) g1 → extends g g1.
Proof.
  intros Hs Hnull Hext r c w Hw.
  destruct (cellAt_Some_bounds g row col _ Hs Hnull) as [Hr Hc].
  apply Hext. rewrite cellAt_setCell_ne; try done.
  intros [= -> ->]. congruence.
Qed.

(** The loop [for (const num of numbers)] of [fillGrid], given that the
    recursive call behaves on every grid it is handed. *)
Lemma tryNumbers_spec (rec : Grid → nat → bool * Grid * nat)
    (g : Grid) (row col : nat) :
  wellFormed g → validUnits g → cellAt g row col = Some None →
  (∀ num n, isValidMove g row col num = true →
            fillSpec (setCell g row col (Some num))
                     (rec (setCell g row col (Some num)) n)) →
  ∀ numbers n, trySpec g row col numbers (tryNumbers rec row col numbers g n).
Proof.
  intros [Hs Hrange] Hunits Hnull Hrec.
  induction numbers as [|num rest IH]; intros n.
  { simpl. split; [done|]. intros s v _ Hv. by apply elem_of_nil in Hv. }
  cbn [tryNumbers]. destruct (isValidMove g row col num) eqn:Hmove.
  - specialize (Hrec num n Hmove).
    destruct (rec (setCell g row col (Some num)) n) as [[ok g1] n1].
    destruct ok; simpl in Hrec |- *.
    + destruct Hrec as (? & ? & ? & Hext).
      split; [done|]. split; [done|]. split; [done|].
      by eapply extends_trans_setCell.
    + destruct Hrec as [-> Hnone].
      rewrite (setCell_restore g row col None (Some num)) by done.
      specialize (IH n1).
      destruct (tryNumbers rec row col rest g n1) as [[ok g2] n2].
      destruct ok; [done|]. destruct IH as [-> Hrest]. split; [done|].
      intros s v Hcomp Hv Hcell.
      apply elem_of_cons in Hv as [->|Hv]; [|by eapply Hrest].
      apply (Hnone s).
      destruct (cellAt_Some_bounds g row col _ Hs Hnull) as [Hr Hc].
      by apply completion_setCell.
  - specialize (IH n).
    destruct (tryNumbers rec row col rest g n) as [[ok g2] n2].
    destruct ok; [done|]. destruct IH as [-> Hrest]. split; [done|].
    intros s v Hcomp Hv Hcell.
    apply elem_of_cons in Hv as [->|Hv]; [|by eapply Hrest].
    rewrite (isValidMove_of_completion g s row col num) in Hmove; done.
Qed.

(** [fillGrid] is a complete backtracking search: with fuel beyond the
    number of empty cells it finds a completion whenever there is one. *)
Lemma fillGrid_spec :
  ∀ (fuel : nat) (g : Grid) (n : nat),
    wellFormed g → validUnits g → (countNull g < fuel)%nat →
    fillSpec g (fillGrid oracle fuel g n).
Proof.
  induction fuel as [|fuel IH]; intros g n Hwf Hunits Hfuel; [lia|].
  pose proof Hwf as [Hs Hrange].
  cbn [fillGrid]. destruct (firstNull g) as [[row col]|] eqn:Hfirst.
  - apply firstNull_Some in Hfirst.
    destruct (cellAt_Some_bounds g row col _ Hs Hfirst) as [Hr Hc].
    destruct (shuffleArray oracle values1to6 n) as [numbers n1] eqn:Hsh.
    pose proof (tryNumbers_spec (fillGrid oracle fuel) g row col
                  Hwf Hunits Hfirst) as Htry.
    assert (trySpec g row col numbers
              (tryNumbers (fillGrid oracle fuel) row col numbers g n1)) as H.
    { apply Htry. intros num n' Hmove.
      pose proof Hmove as Hmove'.
      apply isValidMove_units in Hmove' as [Hnum _]; try done.
      apply IH.
      - split; [by apply shape66_setCell|].
        apply inRange_setCell; try done. by intros ? [= <-].
      - by apply validUnits_setCell.
      - pose proof (countNull_setCell g row col num Hs Hfirst). lia. }
    destruct (tryNumbers (fillGrid oracle fuel) row col numbers g n1)
      as [[ok g'] n'].
    destruct ok; [exact H|]. destruct H as [-> Hnone]. split; [done|].
    intros s Hcomp.
    pose proof Hcomp as ([_ Hrange_s] & Hfull_s & _ & _).
    destruct (Hfull_s row col Hr Hc) as [v Hv].
    apply (Hnone s v Hcomp); [|done].
    replace numbers with (shuffleArray oracle values1to6 n).1
      by (by rewrite Hsh).
    apply shuffleArray_elem_of, elem_of_values1to6. by eapply Hrange_s.
  - simpl. split; [done|]. split; [by apply firstNull_None|].
    split; [done | apply extends_refl].
Qed.

End Synthesizer.

Section SynthesizerResult.

Variable oracle : nat → nat.

Lemma tryNumbers_ext (rec rec' : Grid → nat → bool * Grid * nat)
    (g : Grid) (row col : nat) :
  shape66 g → cellAt g row col = Some None →
  (∀ num n, isValidMove g row col num = true →
            rec (setCell g row col (Some num)) n
            = rec' (setCell g row col (Some num)) n
            ∧ fillSpec (setCell g row col (Some num))
                       (rec (setCell g row col (Some num)) n)) →
  ∀ numbers n,
    tryNumbers rec row col numbers g n = tryNumbers rec' row col numbers g n.
Proof.
  intros Hs Hnull Hrec. induction numbers as [|num rest IH]; intros n; [done|].
  cbn [tryNumbers]. destruct (isValidMove g row col num) eqn:Hmove; [|done].
  destruct (Hrec num n Hmove) as [<- Hspec].
  destruct (rec (setCell g row col (Some num)) n) as [[ok g1] n1].
  destruct ok; [done|]. destruct Hspec as [-> _].
  rewrite (setCell_restore g row col None (Some num)) by done. apply IH.
Qed.

(** More fuel than there are empty cells changes nothing. *)
Lemma fillGrid_fuel_irrelevant :
  ∀ (fuel fuel' : nat) (g : Grid) (n : nat),
    wellFormed g → validUnits g →
    (countNull g < fuel)%nat → (countNull g < fuel')%nat →
    fillGrid oracle fuel g n = fillGrid oracle fuel' g n.
Proof.
  induction fuel as [|fuel IH]; intros fuel' g n Hwf Hunits Hf Hf'; [lia|].
  destruct fuel' as [|fuel']; [lia|].
  pose proof Hwf as [Hs Hrange].
  cbn [fillGrid]. destruct (firstNull g) as [[row col]|] eqn:Hfirst; [|done].
  apply firstNull_Some in Hfirst.
  destruct (cellAt_Some_bounds g row col _ Hs Hfirst) as [Hr Hc].
  destruct (shuffleArray oracle values1to6 n) as [numbers n1].
  apply tryNumbers_ext; try done.
  intros num n' Hmove. pose proof Hmove as Hmove'.
  apply isValidMove_units in Hmove' as [Hnum _]; try done.
  pose proof (countNull_setCell g row col num Hs Hfirst).
  assert (wellFormed (setCell g row col (Some num))) as Hwf'.
  { split; [by apply shape66_setCell|].
    apply inRange_setCell; try done. by intros ? [= <-]. }
  pose proof (validUnits_setCell g row col num Hs Hr Hc Hunits Hmove).
  split; [apply IH | apply fillGrid_spec]; try done; lia.
Qed.

Lemma wellFormed_emptyGrid : wellFormed emptyGrid.
Proof. split; [apply shape66_emptyGrid | by apply inRangeB_sound]. Qed.

Lemma validUnits_emptyGrid : validUnits emptyGrid.
Proof. by apply (isValidGrid_units emptyGrid). Qed.

Lemma wellFormed_sampleSolution : wellFormed sampleSolution.
Proof.
  split; [split; [done | repeat constructor] | by apply inRangeB_sound].
Qed.

Lemma isFull_sampleSolution : isFull sampleSolution.
Proof.
  intros r c Hr Hc. cases6 r Hr; cases6 c Hc; by eexists.
Qed.

(** The empty board has a completion. *)
Lemma completion_emptyGrid : completion emptyGrid sampleSolution.
Proof.
  split; [apply wellFormed_sampleSolution|].
  split; [apply isFull_sampleSolution|]. split; [done|].
  intros r c v Hcell.
  destruct (cellAt_Some_bounds emptyGrid r c _ shape66_emptyGrid Hcell)
    as [Hr Hc].
  cases6 r Hr; cases6 c Hc; discriminate Hcell.
Qed.

Lemma countNull_le_36 (g : Grid) : (countNull g ≤ 36)%nat.
Proof.
  unfold countNull.
  etrans; [apply length_filter|]. done.
Qed.

(** [generateCompleteSolution] returns a full valid grid, on the first
    call of [fillGrid]. *)
Lemma generateCompleteSolution_spec (n : nat) :
  ∃ g n',
    fillGrid oracle fillFuel emptyGrid n = (true, g, n')
    ∧ generateCompleteSolution oracle n = (g, n')
    ∧ wellFormed g ∧ isFull g ∧ validUnits g.
Proof.
  pose proof (fillGrid_spec oracle fillFuel emptyGrid n
                wellFormed_emptyGrid validUnits_emptyGrid) as Hspec.
  unfold generateCompleteSolution.
  destruct (fillGrid oracle fillFuel emptyGrid n) as [[ok g] n'].
  specialize (Hspec ltac:(pose proof (countNull_le_36 emptyGrid);
                          unfold fillFuel; lia)).
  destruct ok.
  - destruct Hspec as (? & ? & ? & _). by exists g, n'.
  - destruct Hspec as [_ Hnone]. destruct (Hnone _ completion_emptyGrid).
Qed.

Lemma allUnits_length :
  Forall (fun unit : list (nat * nat) => length unit = 6%nat) allUnits.
Proof. apply (bool_decide_unpack _). by vm_compute. Qed.

Lemma nonNull_filled (l : list Cell) :
  Forall (fun x : Cell => ∃ v, x = Some v ∧ 1 ≤ v ≤ 6) l →
  l = Some <$> nonNull l ∧ length (nonNull l) = length l.
Proof.
  unfold nonNull. induction 1 as [|x l (v & -> & _) _ [IH1 IH2]]; simpl;
    [done|].
  split; by f_equal.
Qed.

(** In a full valid grid every unit holds each of 1..6 once. *)
Lemma full_unit_permutation (g : Grid) (unit : list (nat * nat)) :
  wellFormed g → isFull g → validUnits g → unit ∈ allUnits →
  unitCells g unit ≡ₚ Some <$> values1to6.
Proof.
  intros [Hs Hrange] Hfull Hunits Hu.
  assert (Forall (fun p : nat * nat => (p.1 < 6)%nat ∧ (p.2 < 6)%nat) unit)
    as Hpos.
  { apply Forall_forall. intros p Hp. by eapply unit_in_range. }
  pose proof (unitCells_Forall2 g unit Hs Hpos) as Hcells.
  assert (Forall (fun x : Cell => ∃ v, x = Some v ∧ 1 ≤ v ≤ 6)
                 (unitCells g unit)) as Hfilled.
  { apply Forall_forall. intros x Hx.
    apply list_elem_of_lookup in Hx as [i Hi].
    destruct (Forall2_lookup_r _ _ _ _ _ Hcells Hi) as (p & Hp & Hcell).
    apply list_elem_of_lookup_2 in Hp.
    rewrite Forall_forall in Hpos. destruct (Hpos p Hp) as [Hr Hc].
    destruct (Hfull p.1 p.2 Hr Hc) as [v Hv].
    exists v. split; [congruence|]. by eapply Hrange. }
  destruct (nonNull_filled _ Hfilled) as [Hfmap Hlen'].
  assert (length (nonNull (unitCells g unit)) = 6%nat) as Hlen.
  { pose proof allUnits_length as Hl. rewrite Forall_forall in Hl.
    rewrite <- (Hl unit Hu). apply Forall2_length in Hcells. lia. }
  rewrite Hfmap. apply fmap_Permutation.
  apply submseteq_length_Permutation; [|by rewrite Hlen].
  apply NoDup_submseteq.
  - apply isValidUnit_NoDup. unfold validUnits in Hunits.
    rewrite Forall_forall in Hunits. by apply Hunits.
  - intros v Hv. apply elem_of_values1to6.
    unfold nonNull in Hv. apply list_elem_of_omap in Hv as (x & Hx & Heq).
    rewrite Forall_forall in Hfilled.
    destruct (Hfilled x Hx) as (w & -> & Hw). simpl in Heq. congruence.
Qed.

(** C2. Whatever the shuffles draw, the solution synthesizer succeeds on
    the empty 6x6 grid at its first call, and in the grid it returns every
    row, every column and every 3x2 box is a permutation of 1..6. *)
Theorem generateCompleteSolution_is_a_solution (n : nat) :
  ∃ g n',
    fillGrid oracle fillFuel emptyGrid n = (true, g, n')
    ∧ generateCompleteSolution oracle n = (g, n')
    ∧ (∀ r, (r < 6)%nat →
            ∃ currentRow, g !! r = Some currentRow
                          ∧ currentRow ≡ₚ Some <$> values1to6)
    ∧ (∀ c, (c < 6)%nat → column g c ≡ₚ Some <$> values1to6)
    ∧ (∀ boxRow boxCol, (boxRow < 3)%nat → (boxCol < 2)%nat →
                        getBox g boxRow boxCol ≡ₚ Some <$> values1to6).
Proof.
  destruct (generateCompleteSolution_spec n)
    as (g & n' & Hfill & Hgen & Hwf & Hfull & Hunits).
  exists g, n'. split; [done|]. split; [done|].
  pose proof Hwf as [Hs _].
  pose proof cell_units_in_allUnits as Hcell.
  rewrite Forall_forall in Hcell.
  split; [|split].
  - intros r Hr.
    destruct (lookup_lt_is_Some_2 g r) as [currentRow Hrow];
      [destruct Hs; lia|].
    exists currentRow. split; [done|].
    rewrite (row_unitCells g r currentRow Hs Hrow).
    apply full_unit_permutation; try done.
    by destruct (Hcell (r, 0%nat) (position_in_allPositions r 0 Hr ltac:(lia)))
      as (? & _).
  - intros c Hc. rewrite (column_unitCells g c Hs Hc).
    apply full_unit_permutation; try done.
    by destruct (Hcell (0%nat, c) (position_in_allPositions 0 c ltac:(lia) Hc))
      as (_ & ? & _).
  - intros boxRow boxCol Hr Hc.
    rewrite (getBox_unitCells g boxRow boxCol Hs Hr Hc).
    apply full_unit_permutation; try done.
    clear -Hr Hc.
    do 3 (destruct boxRow as [|boxRow]; [
      do 2 (destruct boxCol as [|boxCol];
            [apply (bool_decide_unpack _); by vm_compute|]); lia |]).
    lia.
Qed.

End SynthesizerResult.

(** ** Carving: what the first removal does *)

(** [findAllSolutions] with bound 2 on a valid grid: distinct completions,
    and all of them unless two were found. *)
Lemma findAllSolutions_spec (puzzle : Grid) :
  wellFormed puzzle → validUnits puzzle →
  NoDup (findAllSolutions puzzle 2)
  ∧ (∀ s, s ∈ findAllSolutions puzzle 2 → completion puzzle s)
  ∧ ((length (findAllSolutions puzzle 2) < 2)%nat →
     ∀ s, completion puzzle s → s ∈ findAllSolutions puzzle 2).
Proof.
  intros Hwf Hunits.
  destruct (solve_spec 2 solveFuel 0 0 puzzle [] Hwf Hunits)
    as (extra & Heq & Hnd & Hsound & Hcomplete);
    try (unfold scanIndex, solveFuel; lia).
  { intros r c _ _ Hlt. unfold scanIndex in Hlt. lia. }
  unfold findAllSolutions. rewrite Heq.
  change (snd (puzzle, [] ++ extra)) with extra.
  change ([] ++ extra) with extra in Hcomplete. done.
Qed.

Lemma hasUniqueSolution_sound (puzzle expected : Grid) :
  wellFormed puzzle → validUnits puzzle →
  hasUniqueSolution puzzle expected = true →
  uniqueCompletion puzzle expected.
Proof.
  intros Hwf Hunits.
  destruct (findAllSolutions_spec puzzle Hwf Hunits)
    as (Hnd & Hsound & Hcomplete).
  unfold hasUniqueSolution.
  destruct (findAllSolutions puzzle 2) as [|found [|? ?]]; try done.
  intros Hfound. apply bool_decide_eq_true in Hfound as <-.
  split; [apply Hsound; left|].
  intros t Ht. apply list_elem_of_singleton.
  apply Hcomplete; [simpl; lia | done].
Qed.

Lemma hasUniqueSolution_complete (puzzle expected : Grid) :
  wellFormed puzzle → validUnits puzzle →
  uniqueCompletion puzzle expected →
  hasUniqueSolution puzzle expected = true.
Proof.
  intros Hwf Hunits [Hcomp Honly].
  destruct (findAllSolutions_spec puzzle Hwf Hunits)
    as (Hnd & Hsound & Hcomplete).
  unfold hasUniqueSolution.
  assert (∀ s, s ∈ findAllSolutions puzzle 2 → s = expected) as Hall
    by (intros s Hin; by apply Honly, Hsound).
  destruct (findAllSolutions puzzle 2) as [|s1 [|s2 rest]].
  - specialize (Hcomplete ltac:(simpl; lia) expected Hcomp).
    by apply elem_of_nil in Hcomplete.
  - apply bool_decide_eq_true. apply Hall. left.
  - exfalso. apply NoDup_cons in Hnd as [Hnotin _]. apply Hnotin.
    rewrite (Hall s1) by left.
    rewrite <- (Hall s2) by (right; left). left.
Qed.

Lemma omap_NoDup_inj {A B} (h : A → option B) (l : list A) (p q : A) (v : B) :
  NoDup (omap h l) → p ∈ l → q ∈ l → h p = Some v → h q = Some v → p = q.
Proof.
  induction l as [|a l IH]; intros Hnd Hp Hq Hhp Hhq.
  { by apply elem_of_nil in Hp. }
  assert (∀ x, x ∈ l → h x = Some v → v ∈ omap h l) as Hin.
  { intros x Hx Hhx. apply list_elem_of_omap. eauto. }
  cbn [omap list_omap] in Hnd.
  apply elem_of_cons in Hp as [->|Hp]; apply elem_of_cons in Hq as [->|Hq].
  - done.
  - rewrite Hhp in Hnd. apply NoDup_cons in Hnd as [Hnotin _].
    destruct Hnotin. by eapply Hin.
  - rewrite Hhq in Hnd. apply NoDup_cons in Hnd as [Hnotin _].
    destruct Hnotin. by eapply Hin.
  - apply IH; try done. destruct (h a); [by apply NoDup_cons in Hnd as [_ ?] | done].
Qed.

(** In a valid grid a value occurs at most once in a unit. *)
Lemma unit_no_dup (g : Grid) (unit : list (nat * nat)) (p q : nat * nat)
    (v : Z) :
  validUnits g → unit ∈ allUnits → p ∈ unit → q ∈ unit →
  cellAt g p.1 p.2 = Some (Some v) → cellAt g q.1 q.2 = Some (Some v) →
  p = q.
Proof.
  intros Hunits Hu Hp Hq Hcp Hcq.
  unfold validUnits in Hunits. rewrite Forall_forall in Hunits.
  specialize (Hunits unit Hu). apply isValidUnit_NoDup in Hunits.
  apply (omap_NoDup_inj
           (fun p : nat * nat => cellAt g p.1 p.2 ≫= id) unit p q v);
    try done.
  - unfold nonNull, unitCells in Hunits.
    assert (∀ l : list (nat * nat),
              omap id (omap (fun p : nat * nat => cellAt g p.1 p.2) l)
              = omap (fun p : nat * nat => cellAt g p.1 p.2 ≫= id) l) as Hoo.
    { induction l as [|a l IH]; [done|]. cbn [omap list_omap].
      destruct (cellAt g a.1 a.2) as [[w|]|]; simpl; by rewrite <- IH. }
    by rewrite <- Hoo.
  - by rewrite Hcp.
  - by rewrite Hcq.
Qed.

(** In a solution every unit holds every value. *)
Lemma unit_has_value (s : Grid) (unit : list (nat * nat)) (x : Z) :
  wellFormed s → isFull s → validUnits s → unit ∈ allUnits → 1 ≤ x ≤ 6 →
  ∃ p, p ∈ unit ∧ cellAt s p.1 p.2 = Some (Some x).
Proof.
  intros Hwf Hfull Hunits Hu Hx.
  pose proof (full_unit_permutation s unit Hwf Hfull Hunits Hu) as Hperm.
  assert (Some x ∈ unitCells s unit) as Hin.
  { rewrite Hperm. apply list_elem_of_fmap_2. by apply elem_of_values1to6. }
  unfold unitCells in Hin. apply list_elem_of_omap in Hin as (p & Hp & Hcell).
  eauto.
Qed.

(** After clearing one cell of a solution, in each unit through the cell
    the cleared value is missing and every other value is present. *)
Lemma cleared_value_missing (s : Grid) (r c : nat) (v : Z)
    (unit : list (nat * nat)) (q : nat * nat) :
  wellFormed s → validUnits s → cellAt s r c = Some (Some v) →
  unit ∈ allUnits → (r, c) ∈ unit → q ∈ unit →
  cellAt (setCell s r c None) q.1 q.2 ≠ Some (Some v).
Proof.
  intros [Hs _] Hunits Hv Hu Hrc Hq.
  destruct (cellAt_Some_bounds s r c _ Hs Hv) as [Hr Hc].
  rewrite cellAt_setCell by done.
  destruct (decide ((q.1, q.2) = (r, c))) as [|Hne]; [done|].
  intros Hcell. apply Hne.
  assert (q = (r, c)) as ->; [|done].
  by apply (unit_no_dup s unit q (r, c) v).
Qed.

Lemma other_values_present (s : Grid) (r c : nat) (v x : Z)
    (unit : list (nat * nat)) :
  wellFormed s → isFull s → validUnits s → cellAt s r c = Some (Some v) →
  unit ∈ allUnits → 1 ≤ x ≤ 6 → x ≠ v →
  ∃ q, q ∈ unit ∧ cellAt (setCell s r c None) q.1 q.2 = Some (Some x).
Proof.
  intros Hwf Hfull Hunits Hv Hu Hx Hne. pose proof Hwf as [Hs _].
  destruct (cellAt_Some_bounds s r c _ Hs Hv) as [Hr Hc].
  destruct (unit_has_value s unit x Hwf Hfull Hunits Hu Hx) as (q & Hq & Hcell).
  exists q. split; [done|]. rewrite cellAt_setCell_ne; try done.
  intros Heq. destruct q as [q1 q2]. simpl in *.
  injection Heq as -> ->. congruence.
Qed.

(** A solution with one cell cleared has the solution as its only
    completion. *)
Lemma cleared_cell_unique (s : Grid) (r c : nat) :
  wellFormed s → isFull s → validUnits s → (r < 6)%nat → (c < 6)%nat →
  uniqueCompletion (setCell s r c None) s.
Proof.
  intros Hwf Hfull Hunits Hr Hc. pose proof Hwf as [Hs Hrange].
  destruct (Hfull r c Hr Hc) as [v Hv].
  assert (isValidGrid s = true) as Hvalid by (by apply isValidGrid_units).
  split.
  { split; [done|]. split; [done|]. split; [done|].
    apply extends_clear; try done. apply extends_refl. }
  intros t (Hwf_t & Hfull_t & Hvalid_t & Hext_t).
  pose proof Hwf_t as [Hs_t Hrange_t].
  apply isValidGrid_units in Hvalid_t as [_ Hunits_t].
  assert (∀ r' c', (r', c') ≠ (r, c) → (r' < 6)%nat → (c' < 6)%nat →
                   cellAt t r' c' = cellAt s r' c') as Hsame.
  { intros r' c' Hne Hr' Hc'. destruct (Hfull r' c' Hr' Hc') as [w Hw].
    rewrite Hw. apply Hext_t. by rewrite cellAt_setCell_ne. }
  apply grid_ext; try done. intros r' c' Hr' Hc'.
  destruct (decide ((r', c') = (r, c))) as [[= -> ->]|Hne]; [|by apply Hsame].
  destruct (Hfull_t r c Hr Hc) as [x Hx]. rewrite Hx, Hv.
  destruct (decide (x = v)) as [->|Hxv]; [done|]. exfalso.
  pose proof cell_units_in_allUnits as Hcell. rewrite Forall_forall in Hcell.
  destruct (Hcell (r, c) (position_in_allPositions r c Hr Hc))
    as (Hrow & _ & _ & Hin & _). simpl in Hrow, Hin.
  destruct (unit_has_value s (rowPositions r) x Hwf Hfull Hunits Hrow
              ltac:(by eapply Hrange_t)) as (q & Hq & Hcq).
  assert (q ≠ (r, c)) as Hq_ne.
  { intros ->. simpl in Hcq. congruence. }
  destruct (unit_in_range _ q Hrow Hq) as [Hq1 Hq2].
  assert (cellAt t q.1 q.2 = Some (Some x)) as Htq.
  { rewrite Hsame; try done. intros Heq. apply Hq_ne.
    destruct q. simpl in Heq. congruence. }
  apply Hq_ne.
  by apply (unit_no_dup t (rowPositions r) q (r, c) x).
Qed.

Lemma wellFormed_clear (g : Grid) (r c : nat) :
  wellFormed g → (r < 6)%nat → (c < 6)%nat → wellFormed (setCell g r c None).
Proof.
  intros [Hs Hrange] Hr Hc. split; [by apply shape66_setCell|].
  by apply inRange_setCell.
Qed.

(** Removing any one clue from a solution passes the uniqueness test. *)
Lemma hasUniqueSolution_cleared_cell (s : Grid) (r c : nat) :
  wellFormed s → isFull s → validUnits s → (r < 6)%nat → (c < 6)%nat →
  hasUniqueSolution (setCell s r c None) s = true.
Proof.
  intros Hwf Hfull Hunits Hr Hc. pose proof Hwf as [Hs _].
  apply hasUniqueSolution_complete.
  - by apply wellFormed_clear.
  - apply (validUnits_sub _ s); try done.
    + by apply shape66_setCell.
    + apply extends_clear; try done. apply extends_refl.
  - by apply cleared_cell_unique.
Qed.

(** ** [hasNextLogicalMove] after the first removal *)

Lemma elem_of_deleteNumber (x : Z) (s : CandidateSet) (value : option Cell) :
  x ∈ deleteNumber s value ↔ x ∈ s ∧ (x = 0 ∨ value ≠ Some (Some x)).
Proof.
  destruct value as [[v|]|]; simpl.
  - destruct (bool_decide (v = 0)) eqn:Hv.
    + apply bool_decide_eq_true in Hv as ->.
      split; [intros ?; split; [done|] | tauto].
      destruct (decide (x = 0)); [by left | right; congruence].
    + apply bool_decide_eq_false in Hv. rewrite elem_of_setDelete. split.
      * intros [? Hne]. split; [done|]. right. congruence.
      * intros [? [->|Hne]]; (split; [done|]); congruence.
  - split; [intros ?; split; [done | by right] | tauto].
  - split; [intros ?; split; [done | by right] | tauto].
Qed.

Lemma elem_of_foldl_deleteNumber {A} (f : A → option Cell) (l : list A)
    (s : CandidateSet) (x : Z) :
  x ∈ foldl (fun s a => deleteNumber s (f a)) s l
  ↔ x ∈ s ∧ (x = 0 ∨ ∀ a, a ∈ l → f a ≠ Some (Some x)).
Proof.
  revert s. induction l as [|a l IH]; intros s; cbn [foldl].
  - split; [intros ?; split; [done|right] | tauto].
    intros a Ha. by apply elem_of_nil in Ha.
  - etrans; [apply IH|].
    pose proof (elem_of_deleteNumber x s (f a)) as Hstep.
    split.
    + intros [[Hs Ha]%Hstep Hl]. split; [done|].
      destruct Ha as [Hx|Ha]; [by left|].
      destruct Hl as [Hx|Hl]; [by left|].
      right. intros b Hb. apply elem_of_cons in Hb as [Hb|Hb]; [|auto].
      by rewrite Hb.
    + intros [Hs Hl]. destruct Hl as [Hx|Hl].
      * split; [apply Hstep; split; [done | by left] | by left].
      * split; [apply Hstep; split; [done|right] | right].
        -- apply Hl. left.
        -- intros b Hb. apply Hl. by right.
Qed.

Lemma NoDup_foldl_deleteNumber {A} (f : A → option Cell) (l : list A)
    (s : CandidateSet) :
  NoDup s → NoDup (foldl (fun s a => deleteNumber s (f a)) s l).
Proof.
  revert s. induction l as [|a l IH]; intros s Hs; cbn [foldl]; [done|].
  apply IH. destruct (f a) as [[v|]|]; simpl; try done.
  destruct (bool_decide (v = 0)); [done | by apply NoDup_setDelete].
Qed.

Lemma elem_of_rowPositions (r i : nat) :
  (i < 6)%nat → (r, i) ∈ rowPositions r.
Proof.
  intros Hi. unfold rowPositions. apply list_elem_of_In, in_map_iff.
  exists i. split; [done|]. apply in_seq. lia.
Qed.

Lemma elem_of_colPositions (c i : nat) :
  (i < 6)%nat → (i, c) ∈ colPositions c.
Proof.
  intros Hi. unfold colPositions. apply list_elem_of_In, in_map_iff.
  exists i. split; [done|]. apply in_seq. lia.
Qed.

Lemma elem_of_boxPositions (boxRow boxCol i j : nat) :
  (i < 2)%nat → (j < 3)%nat →
  ((boxRow * 2 + i)%nat, (boxCol * 3 + j)%nat) ∈ boxPositions boxRow boxCol.
Proof.
  intros Hi Hj. unfold boxPositions. apply list_elem_of_In, in_flat_map.
  exists (boxRow * 2 + i)%nat. split; [apply in_seq; lia|].
  apply in_map_iff. exists (boxCol * 3 + j)%nat. split; [done|].
  apply in_seq. lia.
Qed.

(** The cell cleared from a solution has exactly one candidate. *)
Lemma getCandidates_cleared_cell (s : Grid) (r c : nat) (v : Z) :
  wellFormed s → isFull s → validUnits s → cellAt s r c = Some (Some v) →
  length (getCandidates (setCell s r c None) r c) = 1%nat.
Proof.
  intros Hwf Hfull Hunits Hv. pose proof Hwf as [Hs Hrange].
  destruct (cellAt_Some_bounds s r c _ Hs Hv) as [Hr Hc].
  set (p := setCell s r c None).
  assert (shape66 p) as Hp by (by apply shape66_setCell).
  assert (cellAt p r c = Some None) as Hnull by (by apply cellAt_setCell_eq).
  pose proof cell_units_in_allUnits as Hcell. rewrite Forall_forall in Hcell.
  destruct (Hcell (r, c) (position_in_allPositions r c Hr Hc))
    as (Hrow & Hcol & Hbox & Hin_row & Hin_col & Hin_box).
  simpl in Hrow, Hcol, Hbox, Hin_row, Hin_col, Hin_box.
  assert (NoDup (getCandidates p r c)
          ∧ ∀ x, x ∈ getCandidates p r c ↔ x = v) as [Hnd Helem].
  { unfold getCandidates. pose proof Hnull as Hnull'. unfold cellAt in Hnull'.
    destruct (p !! r) as [currentRow|] eqn:Hprow; [|done].
    rewrite Hnull'. cbn [negb].
    destruct Hp as [Hlen Hrows]. rewrite Hlen.
    change (map Z.of_nat (seq 1 6)) with values1to6.
    unfold BOX_HEIGHT, BOX_WIDTH.
    set (rowScan := foldl _ values1to6 (seq 0 6)).
    set (colScan := foldl _ rowScan (seq 0 6)).
    assert (∀ x l (s0 : CandidateSet),
      x ∈ foldl (fun s i =>
                   foldl (fun s j =>
                            deleteNumber s (cellAt p (r / 2 * 2 + i)
                                                     (c / 3 * 3 + j)))
                         s (seq 0 3)) s0 l
      ↔ x ∈ s0 ∧ (x = 0 ∨ ∀ i j, i ∈ l → j ∈ seq 0 3 →
                              cellAt p (r / 2 * 2 + i) (c / 3 * 3 + j)
                              ≠ Some (Some x))) as Hboxscan.
    { intros x. induction l as [|a l IH]; intros s0; cbn [foldl].
      - split; [intros ?; split; [done|right] | tauto].
        intros i j Hi. by apply elem_of_nil in Hi.
      - rewrite IH.
        pose proof (elem_of_foldl_deleteNumber
                      (fun j => cellAt p (r / 2 * 2 + a) (c / 3 * 3 + j))
                      (seq 0 3) s0 x) as Hscan.
        cbv beta in Hscan. rewrite Hscan. clear Hscan. split.
        + intros [[Hs0 Ha] Hl]. split; [done|].
          destruct Ha as [Hx|Ha]; [by left|].
          destruct Hl as [Hx|Hl]; [by left|].
          right. intros i j Hi Hj.
          apply elem_of_cons in Hi as [Hi|Hi]; [|auto].
          rewrite Hi. auto.
        + intros [Hs0 Hl]. destruct Hl as [Hx|Hl].
          * split; [split; [done | by left] | by left].
          * split; [split; [done|right] | right].
            -- intros j Hj. apply Hl; [left | done].
            -- intros i j Hi Hj. apply Hl; [by right | done]. }
    split.
    { assert (∀ l (s0 : CandidateSet), NoDup s0 →
        NoDup (foldl (fun s i =>
                 foldl (fun s j =>
                          deleteNumber s (cellAt p (r / 2 * 2 + i)
                                                   (c / 3 * 3 + j)))
                       s (seq 0 3)) s0 l)) as Hnd.
      { induction l as [|a l IH]; intros s0 Hs0; cbn [foldl]; [done|].
        apply IH.
        by apply (NoDup_foldl_deleteNumber
                    (fun j => cellAt p (r / 2 * 2 + a) (c / 3 * 3 + j))). }
      apply Hnd.
      apply (NoDup_foldl_deleteNumber (fun i => cellAt p i c)).
      apply (NoDup_foldl_deleteNumber (fun i => currentRow !! i)).
      apply NoDup_values1to6. }
    intros x. rewrite Hboxscan. unfold colScan.
    pose proof (elem_of_foldl_deleteNumber (fun i => cellAt p i c)
                  (seq 0 6) rowScan x) as Hscan.
    cbv beta in Hscan. rewrite Hscan. clear Hscan. unfold rowScan.
    pose proof (elem_of_foldl_deleteNumber (fun i => currentRow !! i)
                  (seq 0 6) values1to6 x) as Hscan.
    cbv beta in Hscan. rewrite Hscan. clear Hscan.
    rewrite elem_of_values1to6.
    assert (∀ i, currentRow !! i = cellAt p r i) as Hcr.
    { intros i. unfold cellAt. by rewrite Hprow. }
    split.
    - intros [[[Hx Hrowc] Hcolc] Hboxc].
      destruct (decide (x = v)) as [|Hne]; [done|]. exfalso.
      destruct (other_values_present s r c v x (rowPositions r)
                  Hwf Hfull Hunits Hv Hrow Hx Hne) as (q & Hq & Hcq).
      destruct Hrowc as [->|Hrowc]; [lia|].
      unfold rowPositions in Hq.
      apply list_elem_of_In, in_map_iff in Hq as (i & <- & Hi).
      apply (Hrowc i); [by apply list_elem_of_In|].
      rewrite Hcr. exact Hcq.
    - intros ->. assert (1 ≤ v ≤ 6) as Hvr by (by eapply Hrange).
      split; [split; [split; [done|right] | right] | right].
      + intros i Hi. rewrite Hcr. apply elem_of_seq in Hi.
        apply (cleared_value_missing s r c v (rowPositions r) (r, i));
          try done.
        apply elem_of_rowPositions. lia.
      + intros i Hi. apply elem_of_seq in Hi.
        apply (cleared_value_missing s r c v (colPositions c) (i, c));
          try done.
        apply elem_of_colPositions. lia.
      + intros i j Hi Hj. apply elem_of_seq in Hi, Hj.
        apply (cleared_value_missing s r c v
                 (boxPositions (r / 2) (c / 3))
                 ((r / 2 * 2 + i)%nat, (c / 3 * 3 + j)%nat)); try done.
        apply elem_of_boxPositions; lia. }
  assert (getCandidates p r c ≡ₚ [v]) as Hperm.
  { apply NoDup_Permutation; [done | apply NoDup_singleton|].
    intros x. rewrite Helem, list_elem_of_singleton. done. }
  by rewrite Hperm.
Qed.

(** Removing any one clue from a solution leaves a naked single. *)
Lemma hasNextLogicalMove_cleared_cell (s : Grid) (r c : nat) :
  wellFormed s → isFull s → validUnits s → (r < 6)%nat → (c < 6)%nat →
  hasNextLogicalMove (setCell s r c None) = true.
Proof.
  intros Hwf Hfull Hunits Hr Hc. pose proof Hwf as [Hs _].
  destruct (Hfull r c Hr Hc) as [v Hv].
  unfold hasNextLogicalMove.
  assert (length (setCell s r c None) = 6%nat) as ->
    by (by destruct (shape66_setCell s r c None Hs Hc)).
  apply existsb_exists. exists r. split; [apply in_seq; lia|].
  apply existsb_exists. exists c. split; [apply in_seq; lia|].
  apply Nat.eqb_eq. by eapply getCandidates_cleared_cell.
Qed.

(** Replace the cell at [(r, c)] of an explicit full grid by its value. *)
Ltac fill_cell Hcells r c :=
  let v := fresh "v" in
  let Hv := fresh "Hv" in
  destruct (Hcells r c ltac:(lia) ltac:(lia)) as [v Hv];
  cbn in Hv; injection Hv as ->.

Ltac fill_row Hcells r :=
  fill_cell Hcells r 0%nat; fill_cell Hcells r 1%nat;
  fill_cell Hcells r 2%nat; fill_cell Hcells r 3%nat;
  fill_cell Hcells r 4%nat; fill_cell Hcells r 5%nat.

(** A solution with one cell cleared has 35 clues. *)
Lemma countFilled_cleared_cell (s : Grid) (r c : nat) :
  shape66 s → isFull s → (r < 6)%nat → (c < 6)%nat →
  countFilled (setCell s r c None) = 35%nat.
Proof.
  intros Hs Hfull Hr Hc.
  assert (∀ r' c', (r' < 6)%nat → (c' < 6)%nat →
                   ∃ v, cellAt s r' c' = Some (Some v)) as Hcells by done.
  clear Hfull. destruct_grid s Hs.
  fill_row Hcells 0%nat; fill_row Hcells 1%nat; fill_row Hcells 2%nat;
    fill_row Hcells 3%nat; fill_row Hcells 4%nat; fill_row Hcells 5%nat.
  clear Hcells. cases6 r Hr; cases6 c Hc; reflexivity.
Qed.

(** ** The carver and the generator *)

Section Carver.

Variable oracle : nat → nat.

Variable s : Grid.
Hypothesis s_wellFormed : wellFormed s.
Hypothesis s_full : isFull s.
Hypothesis s_valid : validUnits s.

(** The removal loop keeps the invariant and never lowers the count. *)
Lemma guidedInner_inv (difficulty : Difficulty) :
  ∀ (positions : list (nat * nat)) (puzzle : Grid)
    (removedCells consecutiveFailures : nat),
    carveInv s puzzle removedCells →
    ∃ puzzle' removed' failures',
      guidedInner s difficulty positions
                  (puzzle, removedCells, consecutiveFailures)
      = (puzzle', removed', failures')
      ∧ carveInv s puzzle' removed'
      ∧ (removedCells ≤ removed')%nat.
Proof.
  induction positions as [|[row col] rest IH];
    intros puzzle removedCells failures Hinv.
  { by exists puzzle, removedCells, failures. }
  cbn [guidedInner].
  destruct (Nat.leb (getCellsToRemove difficulty) removedCells);
    [by exists puzzle, removedCells, failures|].
  destruct (Nat.leb maxConsecutiveFailures failures);
    [by exists puzzle, removedCells, failures|].
  destruct (cellAt puzzle row col) as [[originalValue|]|] eqn:Hcell;
    try (by apply IH).
  destruct Hinv as (Hwf & Hext & Hstate). pose proof Hwf as [Hs Hrange].
  destruct (cellAt_Some_bounds puzzle row col _ Hs Hcell) as [Hr Hc].
  destruct (hasUniqueSolution (setCell puzzle row col None) s
            && hasNextLogicalMove (setCell puzzle row col None)
            && Nat.leb (getMinimumClues difficulty)
                       (countFilled (setCell puzzle row col None)))
    eqn:Htest.
  - apply andb_true_iff in Htest as [Htest _].
    apply andb_true_iff in Htest as [Hunique Hlogical].
    destruct (IH (setCell puzzle row col None) (S removedCells) 0%nat)
      as (p' & r' & f' & Heq & Hinv' & Hle).
    { split; [by apply wellFormed_clear|].
      split; [by apply extends_clear|]. right. split; [lia | done]. }
    exists p', r', f'. split; [done|]. split; [done | lia].
  - rewrite (setCell_restore puzzle row col (Some originalValue) None)
      by done.
    apply IH. by split.
Qed.

(** From the untouched solution the first position of a pass is always
    removed. *)
Lemma guidedInner_first (difficulty : Difficulty) (row col : nat)
    (rest : list (nat * nat)) :
  (row < 6)%nat → (col < 6)%nat →
  ∃ puzzle' removed' failures',
    guidedInner s difficulty ((row, col) :: rest) (s, 0%nat, 0%nat)
    = (puzzle', removed', failures')
    ∧ carveInv s puzzle' removed'
    ∧ (0 < removed')%nat.
Proof.
  intros Hr Hc. pose proof s_wellFormed as [Hs Hrange].
  cbn [guidedInner].
  assert (Nat.leb (getCellsToRemove difficulty) 0 = false) as ->
    by (by destruct difficulty).
  change (Nat.leb maxConsecutiveFailures 0) with false. cbv iota.
  destruct (s_full row col Hr Hc) as [v Hv]. rewrite Hv.
  rewrite hasUniqueSolution_cleared_cell by done.
  rewrite hasNextLogicalMove_cleared_cell by done.
  rewrite countFilled_cleared_cell by done.
  assert (Nat.leb (getMinimumClues difficulty) 35 = true) as ->
    by (by destruct difficulty).
  cbn [andb].
  destruct (guidedInner_inv difficulty rest (setCell s row col None) 1 0)
    as (p' & r' & f' & Heq & Hinv' & Hle).
  { split; [by apply wellFormed_clear|].
    split; [apply extends_clear; try done; apply extends_refl|].
    right. split; [lia|].
    split; [by apply hasUniqueSolution_cleared_cell
           | by apply hasNextLogicalMove_cleared_cell]. }
  exists p', r', f'. split; [done|]. split; [done | lia].
Qed.

Lemma guidedPasses_inv (difficulty : Difficulty) :
  ∀ (passes : nat) (puzzle : Grid) (removedCells failures n : nat),
    carveInv s puzzle removedCells →
    ∃ puzzle' removed' failures' n',
      guidedPasses oracle s difficulty passes
                   (puzzle, removedCells, failures) n
      = (puzzle', removed', failures', n')
      ∧ carveInv s puzzle' removed'
      ∧ (removedCells ≤ removed')%nat.
Proof.
  induction passes as [|passes IH]; intros puzzle removedCells failures n Hinv.
  { by exists puzzle, removedCells, failures, n. }
  cbn [guidedPasses].
  destruct (Nat.ltb removedCells (getCellsToRemove difficulty));
    [|by exists puzzle, removedCells, failures, n].
  destruct (shuffleArray oracle allPositions n) as [positions n1].
  destruct (guidedInner_inv difficulty positions puzzle removedCells failures
              Hinv) as (p1 & r1 & f1 & -> & Hinv1 & Hle1).
  destruct (IH p1 r1 f1 n1 Hinv1) as (p' & r' & f' & n' & Heq & Hinv' & Hle).
  exists p', r', f', n'. split; [done|]. split; [done | lia].
Qed.

(** [createGuidedPuzzle] never returns [null]: its puzzle passes the
    uniqueness test against the solution and has a logical next move. *)
Lemma createGuidedPuzzle_spec (difficulty : Difficulty) (n : nat) :
  ∃ puzzle n',
    createGuidedPuzzle oracle s difficulty n = (Some puzzle, n')
    ∧ wellFormed puzzle ∧ extends puzzle s
    ∧ hasUniqueSolution puzzle s = true
    ∧ hasNextLogicalMove puzzle = true.
Proof.
  unfold createGuidedPuzzle.
  change (guidedPasses oracle s difficulty 3 (s, 0%nat, 0%nat) n)
    with (if Nat.ltb 0 (getCellsToRemove difficulty) then
            let '(shuffledPositions, n1) := shuffleArray oracle allPositions n in
            guidedPasses oracle s difficulty 2
              (guidedInner s difficulty shuffledPositions (s, 0%nat, 0%nat)) n1
          else (s, 0%nat, 0%nat, n)).
  assert (Nat.ltb 0 (getCellsToRemove difficulty) = true) as ->
    by (by destruct difficulty).
  pose proof (shuffleArray_length oracle allPositions n) as Hlen.
  pose proof (shuffleArray_elem_of oracle allPositions n) as Helem.
  destruct (shuffleArray oracle allPositions n) as [positions n1].
  simpl in Hlen, Helem.
  destruct positions as [|[row col] rest]; [done|].
  assert ((row < 6)%nat ∧ (col < 6)%nat) as [Hr Hc].
  { apply elem_of_allPositions, Helem. left. }
  destruct (guidedInner_first difficulty row col rest Hr Hc)
    as (p1 & r1 & f1 & -> & Hinv1 & Hpos).
  destruct (guidedPasses_inv difficulty 2 p1 r1 f1 n1 Hinv1)
    as (p' & r' & f' & n' & -> & (Hwf & Hext & Hstate) & Hle).
  destruct Hstate as [[-> _]|(_ & Hunique & Hlogical)]; [lia|].
  rewrite Hlogical. cbn [negb]. by exists p', n'.
Qed.

End Carver.

Section GeneratePuzzle.

Variable oracle : nat → nat.

(** C1. For every difficulty and whatever the shuffles draw,
    [generatePuzzle] returns a puzzle and a solution such that the solution
    satisfies [isValidGrid] and the puzzle has exactly one completion, the
    solution.  The pair is the one of the first attempt (which passes the
    generator's own uniqueness and logical-move tests), so the fallback
    path is never taken. *)
Theorem generatePuzzle_unique_solution (difficulty : Difficulty) (n : nat) :
  ∃ puzzle solution n',
    generatePuzzle oracle difficulty n = (puzzle, solution, n')
    ∧ generateLoop oracle 1 difficulty n = (puzzle, solution, n')
    ∧ isValidGrid solution = true
    ∧ uniqueCompletion puzzle solution.
Proof.
  destruct (generateCompleteSolution_spec oracle n)
    as (solution & n1 & _ & Hgen & Hwf & Hfull & Hunits).
  destruct (createGuidedPuzzle_spec oracle solution Hwf Hfull Hunits
              difficulty n1)
    as (puzzle & n2 & Hguided & Hwf_p & Hext & Hunique & Hlogical).
  assert (∀ left, generateLoop oracle (S left) difficulty n
                  = (puzzle, solution, n2)) as Hloop.
  { intros left. cbn [generateLoop].
    by rewrite Hgen, Hguided, Hunique, Hlogical. }
  exists puzzle, solution, n2.
  split; [apply Hloop|]. split; [apply Hloop|].
  split; [apply isValidGrid_units; split; [apply Hwf | done]|].
  pose proof Hwf as [Hs _]. pose proof Hwf_p as [Hs_p _].
  apply hasUniqueSolution_sound; try done.
  by apply (validUnits_sub puzzle solution).
Qed.

End GeneratePuzzle.

(** The fallback routine on its own does not check uniqueness: for these
    draws its puzzle fails the uniqueness test against its solution. *)
Lemma generateFallbackPuzzle_not_checked :
  let '(puzzle, solution, _) :=
    generateFallbackPuzzle (fun n => (n * 7 + 3)%nat) Hard 0 in
  hasUniqueSolution puzzle solution = false.
Proof. by vm_compute. Qed.

(** * Further properties of the validator and the candidates *)

(** ** Positions of the units *)

Lemma elem_of_rowPositions_iff (r : nat) (q : nat * nat) :
  q ∈ rowPositions r ↔ q.1 = r ∧ (q.2 < 6)%nat.
Proof.
  unfold rowPositions. rewrite list_elem_of_In, in_map_iff. split.
  - intros (c & <- & Hc). apply in_seq in Hc. simpl. lia.
  - intros [<- Hc]. exists q.2. split; [by destruct q|]. apply in_seq. lia.
Qed.

Lemma elem_of_colPositions_iff (c : nat) (q : nat * nat) :
  q ∈ colPositions c ↔ q.2 = c ∧ (q.1 < 6)%nat.
Proof.
  unfold colPositions. rewrite list_elem_of_In, in_map_iff. split.
  - intros (r & <- & Hr). apply in_seq in Hr. simpl. lia.
  - intros [<- Hr]. exists q.1. split; [by destruct q|]. apply in_seq. lia.
Qed.

Lemma elem_of_boxPositions_iff (boxRow boxCol : nat) (q : nat * nat) :
  q ∈ boxPositions boxRow boxCol
  ↔ (q.1 / 2 = boxRow)%nat ∧ (q.2 / 3 = boxCol)%nat.
Proof.
  unfold boxPositions. rewrite list_elem_of_In, in_flat_map. split.
  - intros (r & Hr & Hin). apply in_map_iff in Hin as (c & <- & Hc).
    apply in_seq in Hr, Hc. cbn [fst snd].
    nat_div r 2%nat. nat_div c 3%nat. lia.
  - intros [Hr Hc]. exists q.1. nat_div q.1 2%nat. nat_div q.2 3%nat.
    split; [apply in_seq; lia|].
    apply in_map_iff. exists q.2. split; [by destruct q|]. apply in_seq. lia.
Qed.

Lemma allUnits_NoDup : Forall (fun unit : list (nat * nat) => NoDup unit) allUnits.
Proof. apply (bool_decide_unpack _). by vm_compute. Qed.

(** The three units through a cell of the board are units of the board and
    contain the cell. *)
Lemma unitsOf_spec (r c : nat) (unit : list (nat * nat)) :
  (r < 6)%nat → (c < 6)%nat → unit ∈ unitsOf r c →
  unit ∈ allUnits ∧ (r, c) ∈ unit.
Proof.
  intros Hr Hc Hu.
  pose proof cell_units_in_allUnits as Hall. rewrite Forall_forall in Hall.
  destruct (Hall (r, c) (position_in_allPositions r c Hr Hc))
    as (H1 & H2 & H3 & H4 & H5 & H6).
  unfold unitsOf in Hu. rewrite !elem_of_cons, elem_of_nil in Hu.
  destruct Hu as [->|[->|[->|[]]]]; done.
Qed.

Lemma unitsOf_complete (r c : nat) (unit : list (nat * nat)) :
  (r < 6)%nat → (c < 6)%nat → unit ∈ allUnits → (r, c) ∈ unit →
  unit ∈ unitsOf r c.
Proof.
  intros Hr Hc Hu Hin.
  pose proof units_through_cell as Hthrough. rewrite Forall_forall in Hthrough.
  specialize (Hthrough (r, c) (position_in_allPositions r c Hr Hc)).
  rewrite Forall_forall in Hthrough.
  unfold unitsOf. rewrite !elem_of_cons.
  destruct (Hthrough unit Hu Hin) as [->|[->| ->]]; auto.
Qed.

(** ** Filled values along a unit *)

Lemma nonNull_unitCells (g : Grid) (l : list (nat * nat)) :
  nonNull (unitCells g l) = omap (valueAt g) l.
Proof.
  unfold nonNull, unitCells, valueAt. induction l as [|a l IH]; [done|].
  cbn [omap list_omap].
  destruct (cellAt g a.1 a.2) as [[w|]|]; simpl; by rewrite <- ?IH.
Qed.

Lemma valueAt_Some (g : Grid) (p : nat * nat) (v : Z) :
  valueAt g p = Some v ↔ cellAt g p.1 p.2 = Some (Some v).
Proof.
  unfold valueAt. destruct (cellAt g p.1 p.2) as [[w|]|]; split; congruence.
Qed.

Lemma valueAt_setCell (g : Grid) (r c : nat) (x : Cell) (p : nat * nat) :
  shape66 g → (r < 6)%nat → (c < 6)%nat →
  valueAt (setCell g r c x) p
  = if decide (p = (r, c)) then x else valueAt g p.
Proof.
  intros Hs Hr Hc. unfold valueAt. rewrite cellAt_setCell by done.
  destruct p as [r' c']. simpl.
  destruct (decide ((r', c') = (r, c))); [by destruct x | done].
Qed.

Lemma omap_pointwise {A B} (f f' : A → option B) (l : list A) :
  (∀ x, x ∈ l → f x = f' x) → omap f l = omap f' l.
Proof.
  induction l as [|a l IH]; intros Hff'; [done|]. cbn [omap list_omap].
  rewrite (Hff' a) by left. rewrite IH; [done|].
  intros x Hx. apply Hff'. by right.
Qed.

(** Filling one position that held nothing adds its value to the values. *)
Lemma omap_update_perm {A B} `{EqDecision A} (f : A → option B) (l : list A)
    (p0 : A) (v : B) :
  NoDup l → p0 ∈ l → f p0 = None →
  omap (fun p => if decide (p = p0) then Some v else f p) l ≡ₚ v :: omap f l.
Proof.
  induction l as [|a l IH]; intros Hnd Hin Hf.
  { by apply elem_of_nil in Hin. }
  apply NoDup_cons in Hnd as [Hnotin Hnd]. cbn [omap list_omap].
  destruct (decide (a = p0)) as [->|Hne].
  - rewrite Hf.
    rewrite (omap_pointwise _ f l); [done|].
    intros x Hx. destruct (decide (x = p0)) as [->|]; done.
  - apply elem_of_cons in Hin as [->|Hin]; [done|].
    specialize (IH Hnd Hin Hf).
    destruct (f a) as [b|]; [|exact IH].
    rewrite IH. apply Permutation_swap.
Qed.

(** Writing a value into an empty cell keeps a unit through the cell valid
    iff the unit was valid and did not hold the value. *)
Lemma unit_valid_setCell (g : Grid) (r c : nat) (v : Z)
    (unit : list (nat * nat)) :
  shape66 g → cellAt g r c = Some None →
  unit ∈ allUnits → (r, c) ∈ unit →
  isValidUnit (unitCells (setCell g r c (Some v)) unit) = true
  ↔ isValidUnit (unitCells g unit) = true
    ∧ ∀ q, q ∈ unit → cellAt g q.1 q.2 ≠ Some (Some v).
Proof.
  intros Hs Hcell Hu Hin.
  destruct (cellAt_Some_bounds g r c _ Hs Hcell) as [Hr Hc].
  pose proof allUnits_NoDup as Hnd. rewrite Forall_forall in Hnd.
  specialize (Hnd unit Hu).
  rewrite !isValidUnit_NoDup, !nonNull_unitCells.
  rewrite (omap_pointwise _
             (fun p => if decide (p = (r, c)) then Some v else valueAt g p))
    by (intros; by apply valueAt_setCell).
  rewrite (omap_update_perm (valueAt g) unit (r, c) v Hnd Hin)
    by (unfold valueAt; simpl; by rewrite Hcell).
  rewrite NoDup_cons, list_elem_of_omap. split.
  - intros [Hnotin Hnodup]. split; [done|]. intros q Hq Hv.
    apply Hnotin. exists q. split; [done|]. by apply valueAt_Some.
  - intros [Hnodup Hnone]. split; [|done]. intros (q & Hq & Hv).
    apply valueAt_Some in Hv. by apply (Hnone q).
Qed.

(** ** Valid moves, candidates and peers *)

(** On a valid grid a value may go into an empty cell iff it is one of 1..6
    and is not filled in anywhere in the cell's row, column or box. *)
Lemma isValidMove_iff_unseen (g : Grid) (r c : nat) (v : Z) :
  shape66 g → validUnits g → cellAt g r c = Some None →
  isValidMove g r c v = true ↔ 1 ≤ v ≤ 6 ∧ ¬ seenFrom g r c v.
Proof.
  intros Hs Hvalid Hcell.
  destruct (cellAt_Some_bounds g r c _ Hs Hcell) as [Hr Hc].
  rewrite isValidMove_units by done.
  assert (∀ unit, unit ∈ unitsOf r c →
            (isValidUnit (unitCells (setCell g r c (Some v)) unit) = true
             ↔ ∀ q, q ∈ unit → cellAt g q.1 q.2 ≠ Some (Some v))) as Hunit.
  { intros unit Hu. destruct (unitsOf_spec r c unit Hr Hc Hu) as [Hall Hin].
    rewrite unit_valid_setCell by done.
    unfold validUnits in Hvalid. rewrite Forall_forall in Hvalid.
    specialize (Hvalid unit Hall). tauto. }
  rewrite (Hunit (rowPositions r)) by (unfold unitsOf; rewrite !elem_of_cons; auto).
  rewrite (Hunit (colPositions c)) by (unfold unitsOf; rewrite !elem_of_cons; auto).
  rewrite (Hunit (boxPositions (r / 2) (c / 3)))
    by (unfold unitsOf; rewrite !elem_of_cons; auto).
  unfold seenFrom, unitsOf. split.
  - intros (Hv & H1 & H2 & H3). split; [done|].
    intros (unit & q & Hu & Hq & Hseen).
    rewrite !elem_of_cons, elem_of_nil in Hu.
    destruct Hu as [->|[->|[->|[]]]]; [by apply (H1 q) | by apply (H2 q)
                                      | by apply (H3 q)].
  - intros [Hv Hunseen]. split; [done|].
    repeat split; intros q Hq Hseen; apply Hunseen;
      eexists _, q; (split; [|done]); rewrite !elem_of_cons; auto.
Qed.

(** The candidates of an empty cell, in terms of the three units. *)
Lemma candidates_iff_unseen (g : Grid) (r c : nat) (v : Z) :
  shape66 g → cellAt g r c = Some None →
  v ∈ calculateCellCandidates g r c ↔ 1 ≤ v ≤ 6 ∧ ¬ seenFrom g r c v.
Proof.
  intros Hs Hcell.
  destruct (cellAt_Some_bounds g r c _ Hs Hcell) as [Hr Hc].
  destruct Hs as [Hlen Hrows].
  unfold calculateCellCandidates. rewrite Hcell.
  assert (∃ currentRow, g !! r = Some currentRow) as [currentRow Hrow].
  { unfold cellAt in Hcell. destruct (g !! r); [eauto | done]. }
  rewrite Hrow.
  set (rowScan := foldl _ _ currentRow).
  set (colScan := foldl _ rowScan _).
  assert (∀ cs l s,
    v ∈ foldl (fun s r => foldl (fun s c => deleteSeen s (cellAt g r c)) s cs)
              s l
    ↔ v ∈ s ∧ ∀ r c, r ∈ l → c ∈ cs → cellAt g r c ≠ Some (Some v)) as Hbox.
  { intros cs. induction l as [|a l IH]; intros s; cbn [foldl].
    - split; [intros ?; split; [done|] | tauto]. intros r0 c0 Hr0.
      inversion Hr0.
    - rewrite IH. rewrite_scan (fun c => cellAt g a c). split.
      + intros [[Hs Ha] Hl]. split; [done|]. intros r0 c0 Hr0 Hc0.
        apply elem_of_cons in Hr0 as [->|Hr0]; eauto.
      + intros [Hs Hl]. split; [split; [done|] |].
        * intros c0 Hc0. apply Hl; [left | done].
        * intros r0 c0 Hr0 Hc0. apply Hl; [by right | done]. }
  rewrite Hbox. unfold colScan.
  rewrite_scan (fun r => cellAt g r c).
  unfold rowScan.
  rewrite_scan (fun value : Cell => Some value).
  fold values1to6. rewrite elem_of_values1to6.
  unfold BOX_WIDTH, BOX_HEIGHT, GRID_SIZE, seenFrom, unitsOf.
  split.
  - intros [[[Hv Hrw] Hcl] Hbx]. split; [done|].
    intros (unit & q & Hu & Hq & Hseen).
    rewrite !elem_of_cons, elem_of_nil in Hu.
    destruct Hu as [->|[->|[->|[]]]].
    + apply elem_of_rowPositions_iff in Hq as [Hq1 Hq2].
      rewrite Hq1 in Hseen. unfold cellAt in Hseen. rewrite Hrow in Hseen.
      apply (Hrw (Some v)); [|done]. by eapply list_elem_of_lookup_2.
    + apply elem_of_colPositions_iff in Hq as [Hq2 Hq1].
      rewrite Hq2 in Hseen. apply (Hcl q.1); [|done]. apply elem_of_seq. lia.
    + apply elem_of_boxPositions_iff in Hq as [Hq1 Hq2].
      nat_div q.1 2%nat. nat_div r 2%nat. nat_div q.2 3%nat. nat_div c 3%nat.
      apply (Hbx q.1 q.2); [apply elem_of_seq; lia.. | done].
  - intros [Hv Hunseen].
    assert (∀ q unit, unit ∈ [rowPositions r; colPositions c;
                              boxPositions (r / 2) (c / 3)] →
              q ∈ unit → cellAt g q.1 q.2 ≠ Some (Some v)) as Hnone.
    { intros q unit Hu Hq Hseen. apply Hunseen. by exists unit, q. }
    split; [split; [split; [done|] |] |].
    + intros value Hin Heq. injection Heq as ->.
      apply list_elem_of_lookup_1 in Hin as [c0 Hc0].
      apply (Hnone (r, c0) (rowPositions r)); [rewrite !elem_of_cons; auto| |].
      * apply elem_of_rowPositions_iff. simpl. split; [done|].
        apply lookup_lt_Some in Hc0.
        rewrite Forall_forall in Hrows.
        rewrite (Hrows currentRow) in Hc0; [done|].
        by eapply list_elem_of_lookup_2.
      * simpl. unfold cellAt. by rewrite Hrow.
    + intros r0 Hr0. apply elem_of_seq in Hr0.
      apply (Hnone (r0, c) (colPositions c)); [rewrite !elem_of_cons; auto|].
      apply elem_of_colPositions_iff. simpl. lia.
    + intros r0 c0 Hr0 Hc0. apply elem_of_seq in Hr0, Hc0.
      apply (Hnone (r0, c0) (boxPositions (r / 2) (c / 3))); [rewrite !elem_of_cons; auto|].
      apply elem_of_boxPositions_iff. cbn [fst snd].
      nat_div r0 2%nat. nat_div r 2%nat. nat_div c0 3%nat. nat_div c 3%nat.
      lia.
Qed.

(** ** What [isSolved] accepts *)

Lemma isSolved_iff (g : Grid) :
  isSolved g = true ↔ shape66 g ∧ isFull g ∧ validUnits g.
Proof.
  unfold isSolved. rewrite andb_true_iff, isValidGrid_units. split.
  - intros [Hfull [Hs Hv]]. split; [done|]. split; [|done].
    intros r c Hr Hc.
    rewrite forallb_forall in Hfull.
    specialize (Hfull r). rewrite in_seq in Hfull. unfold GRID_SIZE in Hfull.
    specialize (Hfull ltac:(lia)).
    unfold cellAt. destruct (g !! r) as [currentRow|] eqn:Hrow; [|done].
    rewrite forallb_forall in Hfull.
    specialize (Hfull c). rewrite in_seq in Hfull.
    specialize (Hfull ltac:(lia)).
    destruct (shape66_row g r currentRow Hs Hrow) as [_ Hlen].
    destruct (lookup_lt_is_Some_2 currentRow c) as [x Hx]; [lia|].
    rewrite Hx in Hfull |- *. destruct x as [w|]; [eauto | done].
  - intros (Hs & Hfull & Hv). split; [|done].
    apply forallb_forall. intros r Hr. apply in_seq in Hr.
    unfold GRID_SIZE in Hr.
    destruct (Hfull r 0%nat ltac:(lia) ltac:(lia)) as [w0 Hw0].
    unfold cellAt in Hw0.
    destruct (g !! r) as [currentRow|] eqn:Hrow; [|done].
    apply forallb_forall. intros c Hc. apply in_seq in Hc.
    unfold GRID_SIZE in Hc.
    destruct (Hfull r c ltac:(lia) ltac:(lia)) as [w Hw].
    unfold cellAt in Hw. rewrite Hrow in Hw. by rewrite Hw.
Qed.

(** X1. A well-formed grid is accepted by [isSolved] exactly when each of
    its six rows, six columns and six 3x2 boxes holds every value of 1..6
    once. *)
Theorem isSolved_iff_units_complete (g : Grid) :
  wellFormed g →
  isSolved g = true
  ↔ ∀ unit, unit ∈ allUnits → unitCells g unit ≡ₚ Some <$> values1to6.
Proof.
  intros Hwf. rewrite isSolved_iff. split.
  - intros (_ & Hfull & Hv) unit Hu. by apply full_unit_permutation.
  - intros Hperm. destruct Hwf as [Hs Hrange]. split; [done|]. split.
    + intros r c Hr Hc.
      destruct (cellAt_is_Some g r c Hs Hr Hc) as [x Hx].
      destruct (unitsOf_spec r c (rowPositions r) Hr Hc) as [Hall Hin].
      { unfold unitsOf. rewrite !elem_of_cons. auto. }
      assert (x ∈ unitCells g (rowPositions r)) as Hmem.
      { unfold unitCells. apply list_elem_of_omap. by exists (r, c). }
      rewrite (Hperm _ Hall) in Hmem.
      apply list_elem_of_fmap in Hmem as (w & -> & _). eauto.
    + unfold validUnits. apply Forall_forall. intros unit Hu.
      apply isValidUnit_NoDup. unfold nonNull. rewrite (Hperm unit Hu).
      apply (bool_decide_unpack _). by vm_compute.
Qed.

Lemma isSolved_iff_units_complete_witness :
  wellFormed sampleSolution
  ∧ (isSolved sampleSolution = true
     ↔ ∀ unit, unit ∈ allUnits →
               unitCells sampleSolution unit ≡ₚ Some <$> values1to6).
Proof.
  split; [exact wellFormed_sampleSolution|].
  exact (isSolved_iff_units_complete sampleSolution wellFormed_sampleSolution).
Defined.

(** X2. On a valid grid, the values [isValidMove] accepts for an empty cell
    are exactly the candidates [calculateCellCandidates] computes for it. *)
Theorem isValidMove_iff_candidate (g : Grid) (row col : nat) (value : Z) :
  isValidGrid g = true →
  cellAt g row col = Some None →
  isValidMove g row col value = true
  ↔ value ∈ calculateCellCandidates g row col.
Proof.
  intros Hvalid Hcell. apply isValidGrid_units in Hvalid as [Hs Hv].
  rewrite isValidMove_iff_unseen, candidates_iff_unseen by done. done.
Qed.

Lemma isValidMove_iff_candidate_witness :
  isValidGrid scenarioE = true
  ∧ cellAt scenarioE 0 4 = Some None
  ∧ (isValidMove scenarioE 0 4 5 = true
     ↔ 5 ∈ calculateCellCandidates scenarioE 0 4).
Proof.
  split; [reflexivity|]. split; [reflexivity|].
  exact (isValidMove_iff_candidate scenarioE 0 4 5 eq_refl eq_refl).
Defined.

(** X3. On a valid grid, [isValidMove] accepts a value for an empty cell
    iff the value is one of 1..6 and the grid with the value written is
    still accepted by [isValidGrid]. *)
Theorem isValidMove_iff_still_valid (g : Grid) (row col : nat) (value : Z) :
  isValidGrid g = true →
  cellAt g row col = Some None →
  isValidMove g row col value = true
  ↔ 1 ≤ value ≤ 6 ∧ isValidGrid (setCell g row col (Some value)) = true.
Proof.
  intros Hvalid Hcell. apply isValidGrid_units in Hvalid as [Hs Hv].
  destruct (cellAt_Some_bounds g row col _ Hs Hcell) as [Hr Hc].
  split.
  - intros Hmove. split.
    + apply isValidMove_units in Hmove; tauto.
    + apply isValidGrid_units. split; [by apply shape66_setCell|].
      by apply validUnits_setCell.
  - intros [Hrange Hvalid']. apply isValidGrid_units in Hvalid' as [_ Hv'].
    apply isValidMove_units; try done. split; [done|].
    unfold validUnits in Hv'. rewrite Forall_forall in Hv'.
    repeat split; apply Hv';
      apply (unitsOf_spec row col); try done; unfold unitsOf;
      rewrite !elem_of_cons; auto.
Qed.

Lemma isValidMove_iff_still_valid_witness :
  isValidGrid scenarioE = true
  ∧ cellAt scenarioE 0 4 = Some None
  ∧ (isValidMove scenarioE 0 4 5 = true
     ↔ 1 ≤ 5 ≤ 6 ∧ isValidGrid (setCell scenarioE 0 4 (Some 5)) = true).
Proof.
  split; [reflexivity|]. split; [reflexivity|].
  exact (isValidMove_iff_still_valid scenarioE 0 4 5 eq_refl eq_refl).
Defined.

(** The value a completion puts into an empty cell is not seen from it. *)
Lemma completion_value_unseen (g s : Grid) (r c : nat) (v : Z) :
  shape66 g → completion g s →
  cellAt g r c = Some None → cellAt s r c = Some (Some v) →
  1 ≤ v ≤ 6 ∧ ¬ seenFrom g r c v.
Proof.
  intros Hs ([Hss Hrange] & Hfull & Hvalid & Hext) Hcell Hsv.
  destruct (cellAt_Some_bounds g r c _ Hs Hcell) as [Hr Hc].
  apply isValidGrid_units in Hvalid as [_ Hunits].
  split; [by eapply Hrange|].
  intros (unit & q & Hu & Hq & Hseen).
  destruct (unitsOf_spec r c unit Hr Hc Hu) as [Hall Hin].
  assert (q = (r, c)) as ->.
  { apply (unit_no_dup s unit q (r, c) v); try done. by apply Hext. }
  simpl in Hseen. congruence.
Qed.

(** X4. [calculateCellCandidates] never rules out a value that a solution
    uses: in every completion of a 6x6 grid into a full valid grid, the
    value at a cell that is empty in the grid is one of the cell's
    candidates. *)
Theorem candidates_contain_completion_value (g s : Grid) (row col : nat)
    (value : Z) :
  shape66 g → completion g s →
  cellAt g row col = Some None → cellAt s row col = Some (Some value) →
  value ∈ calculateCellCandidates g row col.
Proof.
  intros Hs Hcompl Hcell Hsv.
  apply candidates_iff_unseen; try done.
  by apply (completion_value_unseen g s).
Qed.

Lemma completion_scenarioC : completion scenarioC sampleSolution.
Proof.
  split; [apply wellFormed_sampleSolution|].
  split; [apply isFull_sampleSolution|]. split; [done|].
  apply extends_clear; [apply wellFormed_sampleSolution | lia | lia |].
  apply extends_refl.
Qed.

Lemma candidates_contain_completion_value_witness :
  shape66 scenarioC ∧ completion scenarioC sampleSolution
  ∧ cellAt scenarioC 2 4 = Some None
  ∧ cellAt sampleSolution 2 4 = Some (Some 6)
  ∧ 6 ∈ calculateCellCandidates scenarioC 2 4.
Proof.
  split; [apply wellFormed_scenarioC|].
  split; [apply completion_scenarioC|].
  split; [reflexivity|]. split; [reflexivity|].
  exact (candidates_contain_completion_value scenarioC sampleSolution 2 4 6
           (proj1 wellFormed_scenarioC) completion_scenarioC eq_refl eq_refl).
Defined.

(** * Available moves and single-move progression *)

(** ** Writing into a cell that exists *)

Lemma setCell_existing (g : Grid) (r c : nat) (x y : Cell) :
  cellAt g r c = Some x →
  ∃ currentRow, g !! r = Some currentRow ∧ (c < length currentRow)%nat
    ∧ setCell g r c y = <[r := <[c := y]> currentRow]> g.
Proof.
  unfold cellAt, setCell. intros Hx.
  destruct (g !! r) as [currentRow|] eqn:Hrow; [|done].
  exists currentRow. apply lookup_lt_Some in Hx as Hlt.
  split; [done|]. split; [done|]. unfold arraySet. by rewrite decide_True.
Qed.

Lemma cellAt_setCell_existing (g : Grid) (r c r' c' : nat) (x y : Cell) :
  cellAt g r c = Some x →
  cellAt (setCell g r c y) r' c'
  = if decide ((r', c') = (r, c)) then Some y else cellAt g r' c'.
Proof.
  intros Hx.
  destruct (setCell_existing g r c x y Hx) as (currentRow & Hrow & Hlt & ->).
  apply lookup_lt_Some in Hrow as Hr.
  unfold cellAt. destruct (decide (r' = r)) as [->|Hne].
  - rewrite list_lookup_insert_eq by done. rewrite Hrow.
    destruct (decide (c' = c)) as [->|Hnc].
    + rewrite decide_True by done. by apply list_lookup_insert_eq.
    + rewrite decide_False by congruence. by apply list_lookup_insert_ne.
  - rewrite list_lookup_insert_ne by done.
    rewrite decide_False by congruence. done.
Qed.

Lemma setCell_restore_existing (g : Grid) (r c : nat) (x y : Cell) :
  cellAt g r c = Some x → setCell (setCell g r c y) r c x = g.
Proof.
  intros Hx.
  destruct (setCell_existing g r c x y Hx) as (currentRow & Hrow & Hlt & Heq).
  assert (cellAt (setCell g r c y) r c = Some y) as Hy.
  { rewrite (cellAt_setCell_existing g r c r c x y Hx). by rewrite decide_True. }
  destruct (setCell_existing _ r c y x Hy) as (row' & Hrow' & Hlt' & ->).
  rewrite Heq in Hrow' |- *.
  apply lookup_lt_Some in Hrow as Hr.
  rewrite list_lookup_insert_eq in Hrow' by done. injection Hrow' as <-.
  rewrite list_insert_insert_eq, list_insert_insert_eq.
  unfold cellAt in Hx. rewrite Hrow in Hx.
  rewrite (list_insert_id currentRow c x Hx). by apply list_insert_id.
Qed.

(** Filling a cell that exists does not change the shape of the grid. *)
Lemma shape66_of_setCell (g : Grid) (r c : nat) (x y : Cell) :
  cellAt g r c = Some x → (c < 6)%nat →
  shape66 (setCell g r c y) → shape66 g.
Proof.
  intros Hx Hc Hs. rewrite <- (setCell_restore_existing g r c x y Hx).
  by apply shape66_setCell.
Qed.

(** ** [findAvailableMoves] *)

Lemma isValidMove_range (g : Grid) (r c : nat) (v : Z) :
  isValidMove g r c v = true → 1 ≤ v ≤ 6.
Proof.
  unfold isValidMove.
  destruct ((v <? 1) || (6 <? v)) eqn:Hrange; [done|]. intros _.
  apply orb_false_iff in Hrange as [H1 H2].
  apply Z.ltb_ge in H1, H2. lia.
Qed.

Lemma elem_of_findAvailableMoves (g : Grid) (m : CellMove) :
  m ∈ findAvailableMoves g
  ↔ (cm_row m < 6)%nat ∧ (cm_col m < 6)%nat
    ∧ cellAt g (cm_row m) (cm_col m) = Some None
    ∧ isValidMove g (cm_row m) (cm_col m) (cm_value m) = true.
Proof.
  unfold findAvailableMoves, cellAt, GRID_SIZE.
  rewrite list_elem_of_In, in_flat_map. split.
  - intros (row & Hrow & Hin). apply in_seq in Hrow.
    destruct (g !! row) as [currentRow|] eqn:Hg; [|done].
    apply in_flat_map in Hin as (col & Hcol & Hin). apply in_seq in Hcol.
    destruct (currentRow !! col) as [[w|]|] eqn:Hcell; try done.
    apply in_flat_map in Hin as (value & Hvalue & Hin).
    destruct (isValidMove g row col value) eqn:Hmove; [|done].
    destruct Hin as [<-|[]]. simpl. rewrite Hg.
    repeat split; try done; lia.
  - intros (Hr & Hc & Hcell & Hmove). exists (cm_row m).
    split; [apply in_seq; lia|].
    destruct (g !! cm_row m) as [currentRow|]; [|done].
    apply in_flat_map. exists (cm_col m). split; [apply in_seq; lia|].
    rewrite Hcell. apply in_flat_map. exists (cm_value m). split.
    + apply list_elem_of_In, elem_of_values1to6.
      by eapply isValidMove_range.
    + rewrite Hmove. left. by destruct m.
Qed.

(** X5. On a valid grid, [findAvailableMoves] lists exactly the pairs of an
    empty cell and one of its candidates: a move is in the list iff its cell
    is empty and its value is in the cell's [calculateCellCandidates]. *)
Theorem findAvailableMoves_lists_candidates (g : Grid) (row col : nat)
    (value : Z) :
  isValidGrid g = true →
  mkCellMove row col value ∈ findAvailableMoves g
  ↔ cellAt g row col = Some None
    ∧ value ∈ calculateCellCandidates g row col.
Proof.
  intros Hvalid. apply isValidGrid_units in Hvalid as [Hs Hv].
  rewrite elem_of_findAvailableMoves. cbn [cm_row cm_col cm_value]. split.
  - intros (_ & _ & Hcell & Hmove). split; [done|].
    apply candidates_iff_unseen; try done.
    by apply isValidMove_iff_unseen.
  - intros [Hcell Hcand].
    destruct (cellAt_Some_bounds g row col _ Hs Hcell) as [Hr Hc].
    repeat split; try done.
    apply isValidMove_iff_unseen; try done.
    by apply candidates_iff_unseen.
Qed.

Lemma findAvailableMoves_lists_candidates_witness :
  isValidGrid scenarioE = true
  ∧ (mkCellMove 0 4 5 ∈ findAvailableMoves scenarioE
     ↔ cellAt scenarioE 0 4 = Some None
       ∧ 5 ∈ calculateCellCandidates scenarioE 0 4).
Proof.
  split; [reflexivity|].
  exact (findAvailableMoves_lists_candidates scenarioE 0 4 5 eq_refl).
Defined.

(** The value a valid full extension holds in an empty cell is an
    available move. *)
Lemma extension_value_available (g s : Grid) (r c : nat) (w : Z) :
  shape66 g → shape66 s → validUnits s → extends g s →
  cellAt g r c = Some None → cellAt s r c = Some (Some w) → 1 ≤ w ≤ 6 →
  mkCellMove r c w ∈ findAvailableMoves g.
Proof.
  intros Hg Hs Hunits Hext Hcell Hw Hrange.
  destruct (cellAt_Some_bounds g r c _ Hg Hcell) as [Hr Hc].
  apply elem_of_findAvailableMoves. cbn [cm_row cm_col cm_value].
  repeat split; try done.
  pose proof (shape66_setCell g r c (Some w) Hg Hc) as Hg'.
  pose proof (extends_setCell g s r c w Hg Hr Hc Hext Hw) as Hext'.
  pose proof (validUnits_sub _ s Hg' Hs Hext' Hunits) as Hv'.
  unfold validUnits in Hv'. rewrite Forall_forall in Hv'.
  apply isValidMove_units; try done. split; [done|].
  repeat split; apply Hv';
    apply (unitsOf_spec r c); try done; unfold unitsOf;
    rewrite !elem_of_cons; auto.
Qed.

(** X6. A puzzle that a solution completes and that still has an empty cell
    has a valid move: [hasValidMoves] returns [true]. *)
Theorem hasValidMoves_of_unfinished (g s : Grid) (row col : nat) :
  shape66 g → completion g s → cellAt g row col = Some None →
  hasValidMoves g = true.
Proof.
  intros Hg Hcompl Hcell.
  destruct (cellAt_Some_bounds g row col _ Hg Hcell) as [Hr Hc].
  pose proof Hcompl as ([Hs Hrange] & Hfull & Hvalid & Hext).
  destruct (Hfull row col Hr Hc) as [w Hw].
  apply isValidGrid_units in Hvalid as [_ Hunits].
  assert (mkCellMove row col w ∈ findAvailableMoves g) as Hin.
  { apply (extension_value_available g s); try done. by eapply Hrange. }
  unfold hasValidMoves. apply Nat.ltb_lt.
  destruct (findAvailableMoves g); [by apply elem_of_nil in Hin | simpl; lia].
Qed.

Lemma hasValidMoves_of_unfinished_witness :
  shape66 scenarioC ∧ completion scenarioC sampleSolution
  ∧ cellAt scenarioC 2 4 = Some None
  ∧ hasValidMoves scenarioC = true.
Proof.
  split; [apply wellFormed_scenarioC|].
  split; [apply completion_scenarioC|]. split; [reflexivity|].
  exact (hasValidMoves_of_unfinished scenarioC sampleSolution 2 4
           (proj1 wellFormed_scenarioC) completion_scenarioC eq_refl).
Defined.

(** ** [ensureSingleMoveProgression] *)

(** The bound on the steps is reached before the fuel runs out. *)
Lemma progressionLoop_fuel (fuel fuel' : nat) (g : Grid) (stepCount : nat) :
  (37 < fuel + stepCount)%nat → (37 < fuel' + stepCount)%nat →
  (stepCount ≤ 37)%nat →
  progressionLoop fuel g stepCount = progressionLoop fuel' g stepCount.
Proof.
  revert fuel' g stepCount.
  induction fuel as [|fuel IH]; intros fuel' g k H1 H2 Hk; [lia|].
  destruct fuel' as [|fuel']; [lia|]. cbn [progressionLoop].
  destruct (isSolved g); [done|]. unfold maxSteps.
  destruct (Nat.ltb 36 (S k)) eqn:Hlim; [done|]. apply Nat.ltb_ge in Hlim.
  destruct (findAvailableMoves g) as [|move [|? ?]]; try done.
  apply IH; lia.
Qed.

Lemma at_most_one (l : list (nat * nat)) :
  NoDup l → (∀ p q, p ∈ l → q ∈ l → p = q) → (length l ≤ 1)%nat.
Proof.
  intros Hnd Heq. destruct l as [|a [|b l]]; simpl; try lia.
  apply NoDup_cons in Hnd as [Hnotin _]. destruct Hnotin.
  rewrite (Heq a b); [left | left | right; left].
Qed.

Lemma NoDup_allPositions : NoDup allPositions.
Proof. apply (bool_decide_unpack _). by vm_compute. Qed.

(** When the loop returns [true], it has reached a solved grid that keeps
    the cells of the grid it started from, and that grid had at most one
    empty cell. *)
Lemma progressionLoop_true (fuel : nat) :
  ∀ (g : Grid) (stepCount : nat),
    progressionLoop fuel g stepCount = true →
    shape66 g
    ∧ (∃ s, isSolved s = true ∧ extends g s
            ∧ ∀ r c, cellAt g r c = Some None →
                     ∃ w, cellAt s r c = Some (Some w) ∧ 1 ≤ w ≤ 6)
    ∧ ∀ p q, cellAt g p.1 p.2 = Some None → cellAt g q.1 q.2 = Some None →
             p = q.
Proof.
  induction fuel as [|fuel IH]; intros g k Hloop; [done|].
  cbn [progressionLoop] in Hloop.
  destruct (isSolved g) eqn:Hsolved.
  { apply isSolved_iff in Hsolved as Hparts.
    destruct Hparts as (Hs & Hfull & Hv).
    assert (∀ r c, cellAt g r c ≠ Some None) as Hnone.
    { intros r c Hcell.
      destruct (cellAt_Some_bounds g r c _ Hs Hcell) as [Hr Hc].
      destruct (Hfull r c Hr Hc) as [w Hw]. congruence. }
    split; [done|]. split.
    - exists g. split; [done|]. split; [apply extends_refl|].
      intros r c Hcell. by destruct (Hnone r c).
    - intros p q Hp. by destruct (Hnone p.1 p.2). }
  destruct (Nat.ltb maxSteps (S k)); [done|].
  destruct (findAvailableMoves g) as [|move [|? ?]] eqn:Hmoves; try done.
  assert (move ∈ findAvailableMoves g) as Hmove by (rewrite Hmoves; left).
  apply elem_of_findAvailableMoves in Hmove as (Hr0 & Hc0 & Hcell0 & Hvalid0).
  destruct (IH _ _ Hloop) as (Hs' & (s & Hsolved' & Hext' & Hfill') & _).
  pose proof (shape66_of_setCell g _ _ _ _ Hcell0 Hc0 Hs') as Hs.
  apply isSolved_iff in Hsolved' as Hparts.
  destruct Hparts as (Hss & Hsfull & Hsv).
  assert (extends g s) as Hext.
  { by apply (extends_trans_setCell g s (cm_row move) (cm_col move)
                (cm_value move)). }
  assert (∀ r c, cellAt g r c = Some None →
                 ∃ w, cellAt s r c = Some (Some w) ∧ 1 ≤ w ≤ 6) as Hfill.
  { intros r c Hcell.
    destruct (decide ((r, c) = (cm_row move, cm_col move))) as [[= -> ->]|Hne].
    - exists (cm_value move). split; [|by eapply isValidMove_range].
      apply Hext'. by apply cellAt_setCell_eq.
    - apply Hfill'. by rewrite cellAt_setCell_ne. }
  split; [done|]. split; [by exists s|].
  assert (∀ p, cellAt g p.1 p.2 = Some None →
               p = (cm_row move, cm_col move)) as Honly.
  { intros [r c] Hcell. simpl in Hcell.
    destruct (Hfill r c Hcell) as (w & Hw & Hrange).
    pose proof (extension_value_available g s r c w Hs Hss Hsv Hext Hcell
                  Hw Hrange) as Hin.
    rewrite Hmoves in Hin. apply list_elem_of_singleton in Hin as <-. done. }
  intros p q Hp Hq. by rewrite (Honly p Hp), (Honly q Hq).
Qed.

(** X7. [ensureSingleMoveProgression] returns [true] only for a 6x6 grid
    with at most one empty cell: as soon as two cells are empty, a grid that
    can be completed offers a move for each of them. *)
Theorem ensureSingleMoveProgression_at_most_one_empty (puzzle : Grid) :
  ensureSingleMoveProgression puzzle = true →
  shape66 puzzle ∧ (countNull puzzle ≤ 1)%nat.
Proof.
  intros Hloop.
  destruct (progressionLoop_true _ _ _ Hloop) as (Hs & _ & Honly).
  split; [done|]. unfold countNull. apply at_most_one.
  - apply NoDup_filter, NoDup_allPositions.
  - intros p q Hp Hq. apply list_elem_of_filter in Hp as [Hp _].
    apply list_elem_of_filter in Hq as [Hq _]. by apply Honly.
Qed.

Lemma ensureSingleMoveProgression_at_most_one_empty_witness :
  ensureSingleMoveProgression scenarioC = true
  ∧ shape66 scenarioC ∧ (countNull scenarioC ≤ 1)%nat.
Proof.
  split; [vm_compute; reflexivity|].
  apply (ensureSingleMoveProgression_at_most_one_empty scenarioC).
  vm_compute. reflexivity.
Defined.

(** * Further properties of the hint engine *)

(** ** The two candidate computations agree *)

Lemma deleteNumber_deleteSeen (s : CandidateSet) (x : option Cell) :
  x ≠ Some (Some 0) → deleteNumber s x = deleteSeen s x.
Proof.
  destruct x as [[v|]|]; simpl; try done. intros Hne.
  rewrite bool_decide_eq_false_2; [done|]. congruence.
Qed.

Lemma foldl_pointwise_in {A B} (f f' : A → B → A) (l : list B) (a : A) :
  (∀ x y, y ∈ l → f x y = f' x y) → foldl f a l = foldl f' a l.
Proof.
  revert a. induction l as [|b l IH]; intros a Hff'; simpl; [done|].
  rewrite Hff' by left. apply IH. intros x y Hy. apply Hff'. by right.
Qed.

(** A loop over the indices of an array visits its elements in order. *)
Lemma foldl_lookup_seq {A B} (F : A → option B → A) (l : list B) (a : A) :
  foldl (fun s i => F s (l !! i)) a (seq 0 (length l))
  = foldl (fun s x => F s (Some x)) a l.
Proof.
  induction l as [|x l IH] using rev_ind; [done|].
  rewrite length_app. simpl length. rewrite Nat.add_1_r, seq_S, !foldl_app.
  simpl. rewrite list_lookup_middle by done. f_equal.
  rewrite <- IH. apply foldl_pointwise_in. intros s i Hi.
  apply elem_of_seq in Hi. by rewrite lookup_app_l by lia.
Qed.

(** On a well-formed grid the helper of [hasNextLogicalMove] computes the
    set of [calculateCellCandidates], in the same order. *)
Lemma getCandidates_calculateCellCandidates (g : Grid) (r c : nat) :
  wellFormed g → (r < 6)%nat → (c < 6)%nat →
  getCandidates g r c
  = match cellAt g r c with
    | Some None => calculateCellCandidates g r c
    | _ => []
    end.
Proof.
  intros [Hs Hrange] Hr Hc.
  assert (∀ r' c', cellAt g r' c' ≠ Some (Some 0)) as Hnz.
  { intros r' c' H0. apply Hrange in H0. lia. }
  destruct (lookup_lt_is_Some_2 g r) as [currentRow Hrow];
    [destruct Hs; lia|].
  destruct (shape66_row g r currentRow Hs Hrow) as [_ Hlen].
  unfold getCandidates, calculateCellCandidates, cellAt.
  rewrite Hrow. destruct Hs as [Hg Hrows]. rewrite Hg.
  destruct (currentRow !! c) as [[v|]|] eqn:Hcell.
  - rewrite bool_decide_eq_false_2; [done|]. intros ->.
    apply (Hnz r c). unfold cellAt. by rewrite Hrow.
  - cbn [negb].
    change (map Z.of_nat (seq 1 6)) with [1; 2; 3; 4; 5; 6].
    unfold GRID_SIZE, BOX_WIDTH, BOX_HEIGHT.
    assert (foldl (fun s i => deleteNumber s (currentRow !! i))
                  [1; 2; 3; 4; 5; 6] (seq 0 6)
            = foldl (fun s value => deleteSeen s (Some value))
                    [1; 2; 3; 4; 5; 6] currentRow) as ->.
    { rewrite <- Hlen at 1.
      rewrite (foldl_lookup_seq deleteNumber currentRow).
      apply foldl_pointwise_in. intros s x Hx.
      apply deleteNumber_deleteSeen. intros Hx0.
      apply list_elem_of_lookup_1 in Hx as [i Hi].
      apply (Hnz r i). unfold cellAt. rewrite Hrow. congruence. }
    set (rowScan := foldl _ _ currentRow).
    assert (foldl (fun s i => deleteNumber s (cellAt g i c)) rowScan (seq 0 6)
            = foldl (fun s r0 => deleteSeen s (cellAt g r0 c)) rowScan
                    (seq 0 6)) as Hcol.
    { apply foldl_pointwise_in. intros s i _.
      by apply deleteNumber_deleteSeen. }
    unfold cellAt in Hcol. rewrite Hcol. clear Hcol.
    set (colScan := foldl _ rowScan _).
    cbn [seq foldl].
    rewrite !Nat.add_0_r.
    replace (r / 2 * 2 + 1)%nat with (S (r / 2 * 2)) by lia.
    replace (c / 3 * 3 + 1)%nat with (S (c / 3 * 3)) by lia.
    replace (c / 3 * 3 + 2)%nat with (S (S (c / 3 * 3))) by lia.
    rewrite !deleteNumber_deleteSeen by apply Hnz. done.
  - done.
Qed.

Lemma elem_of_findNakedSingles (candidates : CandidateGrid) (x : Single) :
  x ∈ findNakedSingles candidates
  ↔ (s_row x < 6)%nat ∧ (s_col x < 6)%nat
    ∧ candAt candidates (s_row x) (s_col x) = Some [s_value x].
Proof.
  unfold findNakedSingles. rewrite list_elem_of_In, in_flat_map. split.
  - intros ([row col] & Hpos & Hin).
    apply list_elem_of_In, elem_of_allPositions in Hpos as [Hr Hc].
    destruct (candAt candidates row col) as [[|v [|? ?]]|] eqn:Hcand;
      simpl in Hin; try done.
    destruct Hin as [<-|[]]. simpl. by rewrite Hcand.
  - intros (Hr & Hc & Hcand). exists (s_row x, s_col x). split.
    + by apply list_elem_of_In, elem_of_allPositions.
    + rewrite Hcand. simpl. left. by destruct x.
Qed.

(** X8. On a well-formed grid, [hasNextLogicalMove] (the test of the
    generator) holds exactly when [calculateAllCandidates] (the map of the
    hint engine) has a naked single. *)
Theorem hasNextLogicalMove_iff_naked_single (g : Grid) :
  wellFormed g →
  hasNextLogicalMove g = true
  ↔ findNakedSingles (calculateAllCandidates g) ≠ [].
Proof.
  intros Hwf. pose proof Hwf as [[Hlen Hrows] Hrange].
  unfold hasNextLogicalMove. rewrite Hlen. split.
  - intros Hex. apply existsb_exists in Hex as (r & Hr & Hex).
    apply existsb_exists in Hex as (c & Hc & Hex).
    apply in_seq in Hr, Hc. apply Nat.eqb_eq in Hex.
    rewrite getCandidates_calculateCellCandidates in Hex by (done || lia).
    destruct (cellAt g r c) as [[w|]|] eqn:Hcell; try done.
    destruct (calculateCellCandidates g r c) as [|v [|? ?]] eqn:Hcand;
      try done.
    assert (mkSingle r c v ∈ findNakedSingles (calculateAllCandidates g))
      as Hin.
    { apply elem_of_findNakedSingles. simpl.
      split; [lia|]. split; [lia|].
      rewrite candAt_calculateAllCandidates by lia.
      by rewrite Hcell, Hcand. }
    intros Hnil. rewrite Hnil in Hin. by apply elem_of_nil in Hin.
  - intros Hne.
    destruct (findNakedSingles (calculateAllCandidates g)) as [|x l] eqn:Hl;
      [done|].
    assert (x ∈ findNakedSingles (calculateAllCandidates g)) as Hin
      by (rewrite Hl; left).
    apply elem_of_findNakedSingles in Hin as (Hr & Hc & Hcand).
    rewrite candAt_calculateAllCandidates in Hcand by done.
    apply existsb_exists. exists (s_row x). split; [apply in_seq; lia|].
    apply existsb_exists. exists (s_col x). split; [apply in_seq; lia|].
    rewrite getCandidates_calculateCellCandidates by done.
    injection Hcand as Hcand. by rewrite Hcand.
Qed.

Lemma hasNextLogicalMove_iff_naked_single_witness :
  wellFormed scenarioC
  ∧ (hasNextLogicalMove scenarioC = true
     ↔ findNakedSingles (calculateAllCandidates scenarioC) ≠ []).
Proof.
  split; [apply wellFormed_scenarioC|].
  exact (hasNextLogicalMove_iff_naked_single scenarioC wellFormed_scenarioC).
Defined.

(** ** [validateCandidates] *)

(** The candidates of a cell never repeat a value. *)
Lemma NoDup_calculateCellCandidates (g : Grid) (r c : nat) :
  NoDup (calculateCellCandidates g r c).
Proof.
  unfold calculateCellCandidates.
  destruct (cellAt g r c) as [[w|]|]; try apply NoDup_nil_2.
  set (step := fun s r => foldl _ s _).
  assert (∀ l s, NoDup s → NoDup (foldl step s l)) as Hbox.
  { induction l as [|a l IH]; intros s Hs; simpl; [done|].
    apply IH. unfold step. by apply NoDup_foldl_deleteSeen. }
  apply Hbox.
  apply (NoDup_foldl_deleteSeen (fun r => cellAt g r c)).
  destruct (g !! r) as [currentRow|]; [|apply NoDup_values1to6].
  apply (NoDup_foldl_deleteSeen (fun value : Cell => Some value)).
  apply NoDup_values1to6.
Qed.

(** A map filled by a loop of assignments has no other key. *)
Lemma lookup_foldl_insert_notin {V} (F : nat → V) (l : list nat)
    (m : gmap nat V) (k : nat) :
  k ∉ l → foldl (fun m i => <[i := F i]> m) m l !! k = m !! k.
Proof.
  revert m. induction l as [|i l IH]; intros m Hk; simpl; [done|].
  apply not_elem_of_cons in Hk as [Hne Hk].
  rewrite IH by done. by apply lookup_insert_ne.
Qed.

Lemma lookup_foldl_insert_in {V} (F : nat → V) (l : list nat)
    (m : gmap nat V) (k : nat) :
  k ∈ l → foldl (fun m i => <[i := F i]> m) m l !! k = Some (F k).
Proof.
  revert m. induction l as [|i l IH]; intros m Hk; simpl.
  { by apply elem_of_nil in Hk. }
  destruct (decide (k ∈ l)) as [Hin|Hnotin]; [by apply IH|].
  apply elem_of_cons in Hk as [->|Hk]; [|done].
  rewrite lookup_foldl_insert_notin by done. apply lookup_insert_eq.
Qed.

(** The map of [calculateAllCandidates] has entries for the 36 cells of
    the board only, and no set in it repeats a value. *)
Lemma NoDup_calculateAllCandidates (g : Grid) (r c : nat)
    (s : CandidateSet) :
  candAt (calculateAllCandidates g) r c = Some s → NoDup s.
Proof.
  intros Hs.
  destruct (decide (r < 6 ∧ c < 6)%nat) as [[Hr Hc]|Hout].
  - rewrite candAt_calculateAllCandidates in Hs by done.
    injection Hs as <-.
    destruct (cellAt g r c) as [[w|]|]; try apply NoDup_nil_2.
    apply NoDup_calculateCellCandidates.
  - exfalso. unfold candAt, calculateAllCandidates in Hs.
    destruct (decide (r < 6)%nat) as [Hr|Hr].
    + rewrite (lookup_foldl_insert_in
                 (fun row =>
                    foldl (fun (rowCandidates : gmap nat CandidateSet) col =>
                             match cellAt g row col with
                             | Some None =>
                                 <[col := calculateCellCandidates g row col]>
                                   rowCandidates
                             | _ => <[col := []]> rowCandidates
                             end) ∅ (seq 0 GRID_SIZE))) in Hs
        by (apply elem_of_seq; unfold GRID_SIZE; lia).
      rewrite (foldl_pointwise _
                 (fun (rowCandidates : gmap nat CandidateSet) col =>
                    <[col := match cellAt g r col with
                             | Some None => calculateCellCandidates g r col
                             | _ => []
                             end]> rowCandidates)) in Hs
        by (intros m i; by destruct (cellAt g r i) as [[?|]|]).
      rewrite (lookup_foldl_insert_notin
                 (fun col => match cellAt g r col with
                             | Some None => calculateCellCandidates g r col
                             | _ => []
                             end)) in Hs
        by (rewrite elem_of_seq; unfold GRID_SIZE; lia).
      by rewrite lookup_empty in Hs.
    + rewrite (lookup_foldl_insert_notin
                 (fun row =>
                    foldl (fun (rowCandidates : gmap nat CandidateSet) col =>
                             match cellAt g row col with
                             | Some None =>
                                 <[col := calculateCellCandidates g row col]>
                                   rowCandidates
                             | _ => <[col := []]> rowCandidates
                             end) ∅ (seq 0 GRID_SIZE))) in Hs
        by (rewrite elem_of_seq; unfold GRID_SIZE; lia).
      by rewrite lookup_empty in Hs.
Qed.

(** X9. [validateCandidates] accepts a candidate map whose sets hold no
    value twice exactly when, at every empty cell of the board, the map
    holds the same values as [calculateCellCandidates] (a missing entry
    counting as the empty set). *)
Theorem validateCandidates_iff (g : Grid) (candidates : CandidateGrid) :
  (∀ r c s, candAt candidates r c = Some s → NoDup s) →
  validateCandidates g candidates = true
  ↔ ∀ r c, (r < 6)%nat → (c < 6)%nat → cellAt g r c = Some None →
           default [] (candAt candidates r c)
           ≡ₚ calculateCellCandidates g r c.
Proof.
  intros Hnd. unfold validateCandidates. rewrite forallb_forall.
  assert (∀ r c, NoDup (default [] (candAt candidates r c))) as Hnd'.
  { intros r c. destruct (candAt candidates r c) as [s|] eqn:Hs; simpl;
      [by eapply Hnd | apply NoDup_nil_2]. }
  split.
  - intros Hall r c Hr Hc Hcell.
    specialize (Hall (r, c)
                  ltac:(by apply list_elem_of_In, elem_of_allPositions)).
    simpl in Hall. rewrite Hcell in Hall.
    destruct (Nat.eqb _ _) eqn:Hlen; [|done]. simpl in Hall.
    apply Nat.eqb_eq in Hlen. rewrite forallb_forall in Hall.
    symmetry. apply submseteq_length_Permutation; [|lia].
    apply NoDup_submseteq; [apply NoDup_calculateCellCandidates|].
    intros v Hv. apply list_elem_of_In, Hall in Hv.
    by apply bool_decide_eq_true in Hv.
  - intros Hall [r c] Hpos.
    apply list_elem_of_In, elem_of_allPositions in Hpos as [Hr Hc].
    destruct (cellAt g r c) as [[w|]|] eqn:Hcell; try done.
    specialize (Hall r c Hr Hc Hcell).
    rewrite (Permutation_length Hall), Nat.eqb_refl. simpl.
    apply forallb_forall. intros v Hv. apply bool_decide_eq_true.
    rewrite Hall. by apply list_elem_of_In.
Qed.

Lemma validateCandidates_iff_witness :
  (∀ r c s, candAt (calculateAllCandidates scenarioE) r c = Some s → NoDup s)
  ∧ (validateCandidates scenarioE (calculateAllCandidates scenarioE) = true
     ↔ ∀ r c, (r < 6)%nat → (c < 6)%nat → cellAt scenarioE r c = Some None →
              default [] (candAt (calculateAllCandidates scenarioE) r c)
              ≡ₚ calculateCellCandidates scenarioE r c).
Proof.
  split; [apply NoDup_calculateAllCandidates|].
  exact (validateCandidates_iff scenarioE (calculateAllCandidates scenarioE)
           (NoDup_calculateAllCandidates scenarioE)).
Defined.

(** X10. The map [calculateAllCandidates] computes for a grid always passes
    [validateCandidates] against that grid. *)
Theorem validateCandidates_calculateAllCandidates (g : Grid) :
  validateCandidates g (calculateAllCandidates g) = true.
Proof.
  unfold validateCandidates. apply forallb_forall. intros [r c] Hpos.
  apply list_elem_of_In, elem_of_allPositions in Hpos as [Hr Hc].
  destruct (cellAt g r c) as [[w|]|] eqn:Hcell; try done.
  rewrite candAt_calculateAllCandidates by done. rewrite Hcell. simpl.
  rewrite Nat.eqb_refl. simpl.
  apply forallb_forall. intros v Hv. apply bool_decide_eq_true.
  by apply list_elem_of_In.
Qed.

(** ** [removeDuplicateMoves] *)

(** Invariant of the loop of [removeDuplicateMoves] after the moves [done]:
    [seen] holds the keys of [uniqueMoves], which are the first move of each
    key, in order. *)
Lemma removeDuplicateMoves_loop (todo : list HintMove) :
  ∀ (done : list HintMove) (seen : list (nat * nat * Z))
    (uniqueMoves : list HintMove),
    (∀ k, k ∈ seen ↔ k ∈ moveKey <$> uniqueMoves) →
    (∀ k, k ∈ moveKey <$> done → k ∈ seen) →
    uniqueMoves `sublist_of` done →
    NoDup (moveKey <$> uniqueMoves) →
    (∀ pre m post, done = pre ++ m :: post →
                   moveKey m ∉ moveKey <$> pre → m ∈ uniqueMoves) →
    let result :=
      snd
        (foldl
           (fun '(seen, uniqueMoves) move =>
              if bool_decide (moveKey move ∈ seen) then (seen, uniqueMoves)
              else (moveKey move :: seen, uniqueMoves ++ [move]))
           (seen, uniqueMoves) todo) in
    result `sublist_of` done ++ todo
    ∧ NoDup (moveKey <$> result)
    ∧ (∀ pre m post, done ++ todo = pre ++ m :: post →
                     moveKey m ∉ moveKey <$> pre → m ∈ result).
Proof.
  induction todo as [|move todo IH];
    intros done seen uniqueMoves Hseen Hdone Hsub Hnd Hfirst; cbn [foldl].
  { rewrite app_nil_r. simpl. done. }
  replace (done ++ move :: todo) with ((done ++ [move]) ++ todo)
    by (by rewrite <- app_assoc).
  destruct (bool_decide (moveKey move ∈ seen)) eqn:Hdec.
  - apply bool_decide_eq_true in Hdec.
    apply IH; try done.
    + intros k Hk. rewrite fmap_app in Hk.
      apply elem_of_app in Hk as [Hk|Hk]; [by apply Hdone|].
      apply list_elem_of_singleton in Hk as ->. done.
    + by apply sublist_inserts_r.
    + intros pre m post Heq Hnotin.
      destruct post as [|x post _] using rev_ind.
      * apply app_inj_tail in Heq as [-> ->].
        destruct Hnotin. apply Hseen in Hdec.
        apply list_elem_of_fmap in Hdec as (m' & -> & Hm').
        apply list_elem_of_fmap_2. by eapply elem_of_sublist.
      * rewrite app_comm_cons, app_assoc in Heq.
        apply app_inj_tail in Heq as [-> _]. by eapply Hfirst.
  - apply bool_decide_eq_false in Hdec.
    apply IH.
    + intros k. rewrite fmap_app, elem_of_cons, elem_of_app, Hseen.
      simpl. rewrite list_elem_of_singleton. tauto.
    + intros k Hk. rewrite fmap_app in Hk.
      apply elem_of_app in Hk as [Hk|Hk]; [right; by apply Hdone|].
      apply list_elem_of_singleton in Hk as ->. left.
    + by apply sublist_app.
    + rewrite fmap_app. apply NoDup_app. split; [done|]. split.
      * intros k Hk Hk'. apply list_elem_of_singleton in Hk' as ->.
        apply Hdec. by apply Hseen.
      * apply NoDup_singleton.
    + intros pre m post Heq Hnotin.
      destruct post as [|x post _] using rev_ind.
      * apply app_inj_tail in Heq as [-> ->].
        apply elem_of_app. right. left.
      * rewrite app_comm_cons, app_assoc in Heq.
        apply app_inj_tail in Heq as [-> _].
        apply elem_of_app. left. by eapply Hfirst.
Qed.

Lemma removeDuplicateMoves_subset (moves : list HintMove) (m : HintMove) :
  m ∈ removeDuplicateMoves moves → m ∈ moves.
Proof.
  intros Hin.
  destruct (removeDuplicateMoves_loop moves [] [] []) as (Hsub & _); try done.
  - apply NoDup_nil_2.
  - intros pre m' post Heq. by destruct pre.
  - by eapply elem_of_sublist.
Qed.

(** X11. [removeDuplicateMoves] keeps, in their order, exactly the first
    move of each cell-and-value key: the result is a sublist of the input,
    no two of its moves share a key, and a move of the input that no
    earlier move shares its key with is kept. *)
Theorem removeDuplicateMoves_keeps_first (moves : list HintMove) :
  removeDuplicateMoves moves `sublist_of` moves
  ∧ NoDup (moveKey <$> removeDuplicateMoves moves)
  ∧ (∀ pre m post, moves = pre ++ m :: post →
                   moveKey m ∉ moveKey <$> pre →
                   m ∈ removeDuplicateMoves moves).
Proof.
  apply (removeDuplicateMoves_loop moves [] [] []).
  - done.
  - intros k Hk. by apply elem_of_nil in Hk.
  - done.
  - apply NoDup_nil_2.
  - intros pre m post Heq. by destruct pre.
Qed.

(** ** [sortMovesByPriority] *)

Lemma compareMoves_le (a b : HintMove) :
  compareMoves a b ≤ 0
  ↔ techniqueIndex (m_technique a) < techniqueIndex (m_technique b)
    ∨ (techniqueIndex (m_technique a) = techniqueIndex (m_technique b)
       ∧ m_confidence b ≤ m_confidence a).
Proof.
  unfold compareMoves.
  destruct (Z.eqb_spec (techniqueIndex (m_technique a))
                       (techniqueIndex (m_technique b))); simpl; lia.
Qed.

Lemma insertMove_Permutation (m : HintMove) (sorted : list HintMove) :
  insertMove m sorted ≡ₚ m :: sorted.
Proof.
  induction sorted as [|x rest IH]; simpl; [done|].
  destruct (compareMoves m x <=? 0); [done|].
  rewrite IH. apply Permutation_swap.
Qed.

Lemma insertMove_sorted (m : HintMove) (sorted : list HintMove) :
  StronglySorted (fun a b => compareMoves a b ≤ 0) sorted →
  StronglySorted (fun a b => compareMoves a b ≤ 0) (insertMove m sorted).
Proof.
  induction 1 as [|x rest Hsorted IH Hx]; simpl.
  { repeat constructor. }
  destruct (Z.leb_spec (compareMoves m x) 0) as [Hle|Hgt].
  - constructor; [by constructor|]. constructor; [done|].
    rewrite Forall_forall in Hx |- *. intros y Hy. specialize (Hx y Hy).
    apply compareMoves_le in Hle, Hx. apply compareMoves_le. lia.
  - constructor; [done|].
    rewrite (insertMove_Permutation m rest). constructor; [|done].
    apply compareMoves_le.
    assert (¬ compareMoves m x ≤ 0) as Hn by lia.
    rewrite compareMoves_le in Hn. lia.
Qed.

(** X12. [sortMovesByPriority] returns the same moves, ordered by the
    comparator: naked singles before hidden singles and, within a
    technique, higher confidence first. *)
Theorem sortMovesByPriority_sorted (moves : list HintMove) :
  sortMovesByPriority moves ≡ₚ moves
  ∧ StronglySorted
      (fun a b =>
         techniqueIndex (m_technique a) < techniqueIndex (m_technique b)
         ∨ (techniqueIndex (m_technique a) = techniqueIndex (m_technique b)
            ∧ m_confidence b ≤ m_confidence a))
      (sortMovesByPriority moves).
Proof.
  split.
  - induction moves as [|m moves IH]; [done|].
    cbn [sortMovesByPriority foldr]. fold (sortMovesByPriority moves).
    by rewrite insertMove_Permutation, IH.
  - assert (StronglySorted (fun a b => compareMoves a b ≤ 0)
                           (sortMovesByPriority moves)) as Hsorted.
    { induction moves as [|m moves IH]; [constructor|].
      cbn [sortMovesByPriority foldr]. fold (sortMovesByPriority moves).
      by apply insertMove_sorted. }
    induction Hsorted as [|x rest Hsorted IH Hx]; constructor; [done|].
    eapply Forall_impl; [exact Hx|]. intros y Hy. by apply compareMoves_le.
Qed.

(** ** Hints and solutions *)

Lemma canHold_calculateAllCandidates (g : Grid) (r c : nat) (v : Z) :
  shape66 g →
  canHold g (calculateAllCandidates g) r c v = true
  ↔ cellAt g r c = Some None ∧ v ∈ calculateCellCandidates g r c.
Proof.
  intros Hs. unfold canHold.
  destruct (cellAt g r c) as [[w|]|] eqn:Hcell;
    try (split; [done | by intros [? _]]).
  destruct (cellAt_Some_bounds g r c _ Hs Hcell) as [Hr Hc].
  rewrite candAt_calculateAllCandidates by done. rewrite Hcell.
  unfold setHas. rewrite bool_decide_eq_true. tauto.
Qed.

Lemma rowPositions_in_allUnits (r : nat) :
  (r < 6)%nat → rowPositions r ∈ allUnits.
Proof.
  intros Hr. apply (unitsOf_spec r 0); [done | lia |].
  unfold unitsOf. rewrite !elem_of_cons. auto.
Qed.

Lemma colPositions_in_allUnits (c : nat) :
  (c < 6)%nat → colPositions c ∈ allUnits.
Proof.
  intros Hc. apply (unitsOf_spec 0 c); [lia | done |].
  unfold unitsOf. rewrite !elem_of_cons. auto.
Qed.

Lemma boxPositions_in_allUnits (boxRow boxCol : nat) :
  (boxRow < 3)%nat → (boxCol < 2)%nat → boxPositions boxRow boxCol ∈ allUnits.
Proof.
  intros Hr Hc.
  assert (boxRow = 0 ∨ boxRow = 1 ∨ boxRow = 2)%nat as [->|[->| ->]] by lia;
    (assert (boxCol = 0 ∨ boxCol = 1)%nat as [->| ->] by lia);
    apply (bool_decide_unpack _); by vm_compute.
Qed.

(** A hidden single is the only cell of one of the 18 units that can hold
    its value. *)
Lemma elem_of_findHiddenSingles (g : Grid) (candidates : CandidateGrid)
    (h : HiddenSingle) :
  h ∈ findHiddenSingles g candidates →
  1 ≤ h_value h ≤ 6
  ∧ ∃ unit, unit ∈ allUnits ∧ (h_row h, h_col h) ∈ unit
      ∧ canHold g candidates (h_row h) (h_col h) (h_value h) = true
      ∧ ∀ q, q ∈ unit → canHold g candidates q.1 q.2 (h_value h) = true →
             q = (h_row h, h_col h).
Proof.
  unfold findHiddenSingles.
  change (GRID_SIZE / BOX_WIDTH)%nat with 2%nat.
  change (GRID_SIZE / BOX_HEIGHT)%nat with 3%nat.
  unfold GRID_SIZE, BOX_WIDTH, BOX_HEIGHT.
  rewrite !elem_of_app. intros [Hin|[Hin|Hin]].
  - apply list_elem_of_In, in_flat_map in Hin as (row & Hrow & Hin).
    apply in_flat_map in Hin as (value & Hvalue & Hin).
    apply in_seq in Hrow.
    apply list_elem_of_In, elem_of_values1to6 in Hvalue.
    destruct (filter _ (seq 0 6)) as [|col [|? ?]] eqn:Hf; try done.
    destruct Hin as [<-|[]]. simpl. split; [done|].
    assert (∀ c, canHold g candidates row c value = true ∧ c ∈ seq 0 6
                 ↔ c = col) as Hcol.
    { intros c. split.
      - intros [Hh Hc]. apply list_elem_of_singleton. rewrite <- Hf.
        by apply list_elem_of_filter.
      - intros ->. assert (col ∈ [col]) as Hin by left.
        rewrite <- Hf in Hin. by apply list_elem_of_filter in Hin. }
    pose proof (proj2 (Hcol col) eq_refl) as [Hhold Hc].
    apply elem_of_seq in Hc.
    exists (rowPositions row). split; [apply rowPositions_in_allUnits; lia|].
    split; [apply elem_of_rowPositions_iff; simpl; lia|]. split; [done|].
    intros [r c] Hq Hq'. apply elem_of_rowPositions_iff in Hq as [Hq1 Hq2].
    cbn [fst snd] in *. subst r. f_equal. apply Hcol. split; [done|].
    apply elem_of_seq. lia.
  - apply list_elem_of_In, in_flat_map in Hin as (col & Hcol & Hin).
    apply in_flat_map in Hin as (value & Hvalue & Hin).
    apply in_seq in Hcol.
    apply list_elem_of_In, elem_of_values1to6 in Hvalue.
    destruct (filter _ (seq 0 6)) as [|row [|? ?]] eqn:Hf; try done.
    destruct Hin as [<-|[]]. simpl. split; [done|].
    assert (∀ r, canHold g candidates r col value = true ∧ r ∈ seq 0 6
                 ↔ r = row) as Hrow.
    { intros r. split.
      - intros [Hh Hr]. apply list_elem_of_singleton. rewrite <- Hf.
        by apply list_elem_of_filter.
      - intros ->. assert (row ∈ [row]) as Hin by left.
        rewrite <- Hf in Hin. by apply list_elem_of_filter in Hin. }
    pose proof (proj2 (Hrow row) eq_refl) as [Hhold Hr].
    apply elem_of_seq in Hr.
    exists (colPositions col). split; [apply colPositions_in_allUnits; lia|].
    split; [apply elem_of_colPositions_iff; simpl; lia|]. split; [done|].
    intros [r c] Hq Hq'. apply elem_of_colPositions_iff in Hq as [Hq2 Hq1].
    cbn [fst snd] in *. subst c. f_equal. apply Hrow. split; [done|].
    apply elem_of_seq. lia.
  - apply list_elem_of_In, in_flat_map in Hin as (boxRow & HboxRow & Hin).
    apply in_flat_map in Hin as (boxCol & HboxCol & Hin).
    apply in_flat_map in Hin as (value & Hvalue & Hin).
    apply in_seq in HboxRow, HboxCol.
    apply list_elem_of_In, elem_of_values1to6 in Hvalue.
    set (possibleCells := flat_map _ (seq (boxRow * 2) 2)) in Hin.
    assert (∀ q, q ∈ possibleCells
                 ↔ (boxRow * 2 ≤ q.1 < boxRow * 2 + 2)%nat
                   ∧ (boxCol * 3 ≤ q.2 < boxCol * 3 + 3)%nat
                   ∧ canHold g candidates q.1 q.2 value = true) as Hcells.
    { intros [r c]. unfold possibleCells.
      rewrite list_elem_of_In, in_flat_map. cbn [fst snd]. split.
      - intros (r' & Hr' & Hq). apply in_flat_map in Hq as (c' & Hc' & Hq).
        apply in_seq in Hr', Hc'.
        destruct (canHold g candidates r' c' value) eqn:Hhold; [|done].
        destruct Hq as [[= <- <-]|[]]. done.
      - intros (Hr' & Hc' & Hhold). exists r. split; [by apply in_seq|].
        apply in_flat_map. exists c. split; [by apply in_seq|].
        rewrite Hhold. by left. }
    destruct possibleCells as [|[r c] [|? ?]] eqn:Hp; try done.
    destruct Hin as [<-|[]]. simpl. split; [done|].
    pose proof (proj1 (Hcells (r, c)) ltac:(left)) as (Hr & Hc & Hhold).
    simpl in Hr, Hc, Hhold.
    exists (boxPositions boxRow boxCol).
    split; [apply boxPositions_in_allUnits; lia|].
    split.
    { apply elem_of_boxPositions_iff. cbn [fst snd].
      nat_div r 2%nat. nat_div c 3%nat. lia. }
    split; [done|].
    intros q Hq Hq'. apply elem_of_boxPositions_iff in Hq as [Hq1 Hq2].
    assert (q ∈ [(r, c)]) as Hin.
    { apply Hcells. nat_div q.1 2%nat. nat_div q.2 3%nat.
      repeat split; try done; lia. }
    by apply list_elem_of_singleton in Hin.
Qed.

(** In every completion, the only cell of a unit that can hold a value
    holds it. *)
Lemma hidden_single_sound (g s : Grid) (unit : list (nat * nat))
    (r c : nat) (v : Z) :
  shape66 g → completion g s → 1 ≤ v ≤ 6 →
  unit ∈ allUnits → (r, c) ∈ unit →
  canHold g (calculateAllCandidates g) r c v = true →
  (∀ q, q ∈ unit → canHold g (calculateAllCandidates g) q.1 q.2 v = true →
        q = (r, c)) →
  cellAt s r c = Some (Some v).
Proof.
  intros Hg Hcompl Hv Hu Hin Hhold Honly.
  pose proof Hcompl as (Hwf & Hfull & Hvalid & Hext).
  apply isValidGrid_units in Hvalid as [Hss Hunits].
  destruct (unit_has_value s unit v Hwf Hfull Hunits Hu Hv) as (p & Hp & Hpv).
  apply canHold_calculateAllCandidates in Hhold as [Hcell Hcand]; [|done].
  destruct (cellAt_Some_bounds g r c _ Hg Hcell) as [Hr Hc].
  destruct (unit_in_range unit p Hu Hp) as [Hp1 Hp2].
  destruct (cellAt_is_Some g p.1 p.2 Hg Hp1 Hp2) as [[w|] Hpg].
  - (* [p] is filled in [g]: then [v] is seen from the single cell *)
    exfalso. apply Hext in Hpg as Hps. rewrite Hpv in Hps.
    injection Hps as <-.
    apply candidates_iff_unseen in Hcand as [_ Hunseen]; [|done..].
    apply Hunseen. exists unit, p. split; [|done].
    by apply unitsOf_complete.
  - assert (p = (r, c)) as Heq.
    { apply Honly; [done|]. apply canHold_calculateAllCandidates; [done|].
      split; [done|]. apply candidates_iff_unseen; try done.
      by apply (completion_value_unseen g s). }
    by rewrite Heq in Hpv.
Qed.

(** X13. Every move the analysis offers is right: on a 6x6 grid with a
    completion, each move in [analyzeBoard(grid).availableMoves] targets an
    empty cell and places the value that every completion of the grid holds
    in that cell. *)
Theorem availableMoves_agree_with_completion (g s : Grid) (m : HintMove) :
  shape66 g → completion g s →
  m ∈ availableMoves (analyzeBoard g) →
  cellAt g (m_row m) (m_col m) = Some None
  ∧ cellAt s (m_row m) (m_col m) = Some (Some (m_value m)).
Proof.
  intros Hg Hcompl Hm.
  change (availableMoves (analyzeBoard g))
    with (findAllAvailableMoves g (calculateAllCandidates g)) in Hm.
  unfold findAllAvailableMoves in Hm.
  apply removeDuplicateMoves_subset, elem_of_app in Hm as [Hm|Hm].
  - unfold SolvingTechniques.findNakedSingles in Hm.
    apply list_elem_of_fmap in Hm as (single & -> & Hsingle). simpl.
    apply elem_of_findNakedSingles in Hsingle as (Hr & Hc & Hcand).
    rewrite candAt_calculateAllCandidates in Hcand by done.
    destruct (cellAt g (s_row single) (s_col single)) as [[w|]|] eqn:Hcell;
      try done.
    injection Hcand as Hcand. split; [done|].
    pose proof Hcompl as (_ & Hfull & _).
    destruct (Hfull _ _ Hr Hc) as [w Hw]. rewrite Hw. do 2 f_equal.
    assert (w ∈ calculateCellCandidates g (s_row single) (s_col single))
      as Hin.
    { apply candidates_iff_unseen; try done.
      by apply (completion_value_unseen g s). }
    rewrite Hcand in Hin. by apply list_elem_of_singleton in Hin.
  - unfold SolvingTechniques.findHiddenSingles in Hm.
    apply list_elem_of_fmap in Hm as (single & -> & Hsingle). simpl.
    apply elem_of_findHiddenSingles in Hsingle
      as (Hv & unit & Hu & Hin & Hhold & Honly).
    split.
    + by apply canHold_calculateAllCandidates in Hhold as [? _].
    + by apply (hidden_single_sound g s unit).
Qed.

Lemma availableMoves_agree_with_completion_witness :
  shape66 scenarioC ∧ completion scenarioC sampleSolution
  ∧ mkHintMove Place 2 4 6 NAKED_SINGLE
      (SolvingTechniques.explainNakedSingle 2 4 6) 1
    ∈ availableMoves (analyzeBoard scenarioC)
  ∧ cellAt scenarioC 2 4 = Some None
  ∧ cellAt sampleSolution 2 4 = Some (Some 6).
Proof.
  assert (mkHintMove Place 2 4 6 NAKED_SINGLE
            (SolvingTechniques.explainNakedSingle 2 4 6) 1
          ∈ availableMoves (analyzeBoard scenarioC)) as Hm.
  { replace (availableMoves (analyzeBoard scenarioC))
      with [mkHintMove Place 2 4 6 NAKED_SINGLE
              (SolvingTechniques.explainNakedSingle 2 4 6) 1]
      by (vm_compute; reflexivity).
    left. }
  split; [apply wellFormed_scenarioC|].
  split; [apply completion_scenarioC|]. split; [exact Hm|].
  exact (availableMoves_agree_with_completion scenarioC sampleSolution _
           (proj1 wellFormed_scenarioC) completion_scenarioC Hm).
Defined.

(** * Errors, move validation and the path-validated generator *)

(** ** A filled cell of the board is an error *)

Lemma cellAt_setCell_row (g : Grid) (r c : nat) (row : list Cell) (x : Cell) :
  g !! r = Some row → cellAt (setCell g r c x) r c = Some x.
Proof.
  intros Hrow. unfold setCell, cellAt. rewrite Hrow.
  rewrite list_lookup_insert_eq by (by eapply lookup_lt_Some).
  unfold arraySet. destruct (decide (c < length row)%nat) as [Hlt|Hge].
  - by apply list_lookup_insert_eq.
  - rewrite lookup_app_r by lia.
    rewrite lookup_app_r by (rewrite length_replicate; lia).
    rewrite length_replicate, Nat.sub_diag. done.
Qed.

(** Every cell of the board that does not read [null] is in the error list
    of the analysis. *)
Lemma analyzeBoard_error_at (g : Grid) (r c : nat) :
  (r < 6)%nat → (c < 6)%nat → cellAt g r c ≠ Some None →
  noSolutionError r c ∈ errors (analyzeBoard g).
Proof.
  intros Hr Hc Hcell.
  change (errors (analyzeBoard g))
    with (detectErrors g (Some (calculateAllCandidates g))).
  unfold detectErrors. apply elem_of_app. left.
  apply (list_elem_of_fmap_2' (fun '(row, col) => noSolutionError row col)
           _ (r, c)); [|done].
  apply elem_of_findCellsWithNoCandidates. repeat split; try done.
  rewrite candAt_calculateAllCandidates by done.
  by destruct (cellAt g r c) as [[w|]|].
Qed.

Lemma analyzeBoard_no_errors (g : Grid) (r c : nat) :
  errors (analyzeBoard g) = [] → (r < 6)%nat → (c < 6)%nat →
  cellAt g r c = Some None.
Proof.
  intros Hnil Hr Hc.
  destruct (decide (cellAt g r c = Some None)) as [|Hne]; [done|].
  pose proof (analyzeBoard_error_at g r c Hr Hc Hne) as Hin.
  rewrite Hnil in Hin. by apply elem_of_nil in Hin.
Qed.

(** ** [validateMove] *)

Lemma isValidMove_row (g : Grid) (r c : nat) (v : Z) :
  isValidMove g r c v = true → ∃ row, g !! r = Some row.
Proof.
  unfold isValidMove. destruct ((v <? 1) || (6 <? v)); [done|].
  destruct (g !! r) as [row|]; [eauto | done].
Qed.

(** X14. [validateMove] never accepts a move into a cell of the board: a
    move that [isValidMove] rejects is reported as a constraint violation,
    and a move that [isValidMove] accepts is reported as a contradiction,
    because the cell just filled counts as a cell without candidates in the
    analysis of the test grid. *)
Theorem validateMove_never_accepts (g : Grid) (row col : nat) (value : Z) :
  (row < 6)%nat → (col < 6)%nat →
  mv_isValid (validateMove g row col value) = false
  ∧ (isValidMove g row col value = true →
     mv_errorType (validateMove g row col value) = Some ErrContradiction)
  ∧ (isValidMove g row col value = false →
     mv_violatesConstraints (validateMove g row col value) = true).
Proof.
  intros Hr Hc. unfold validateMove.
  destruct (isValidMove g row col value) eqn:Hmove; cbn [negb]; [|done].
  destruct (isValidMove_row g row col value Hmove) as [r0 Hrow].
  assert (noSolutionError row col
          ∈ errors (analyzeBoard (createTestGrid g row col value))) as Hin.
  { apply analyzeBoard_error_at; try done. unfold createTestGrid.
    by rewrite (cellAt_setCell_row g row col r0). }
  destruct (errors (analyzeBoard (createTestGrid g row col value)))
    as [|e es]; [by apply elem_of_nil in Hin|].
  cbn [length Nat.ltb Nat.leb mv_isValid mv_errorType mv_violatesConstraints].
  done.
Qed.

Lemma validateMove_never_accepts_witness :
  (2 < 6)%nat ∧ (4 < 6)%nat
  ∧ mv_isValid (validateMove scenarioC 2 4 6) = false
  ∧ (isValidMove scenarioC 2 4 6 = true →
     mv_errorType (validateMove scenarioC 2 4 6) = Some ErrContradiction)
  ∧ (isValidMove scenarioC 2 4 6 = false →
     mv_violatesConstraints (validateMove scenarioC 2 4 6) = true).
Proof.
  split; [lia|]. split; [lia|].
  apply (validateMove_never_accepts scenarioC 2 4 6); lia.
Defined.

(** X15. On a valid grid, when [isValidMove] rejects a value of 1..6 for an
    empty cell, the unit that [determineConstraintViolationType] names does
    hold the value: the row when it answers row, the column when it
    answers column, and the box when it answers box. *)
Theorem determineConstraintViolationType_accurate (g : Grid) (row col : nat)
    (value : Z) :
  isValidGrid g = true → cellAt g row col = Some None → 1 ≤ value ≤ 6 →
  isValidMove g row col value = false →
  ∃ q, q ∈ match determineConstraintViolationType g row col value with
           | UnitRow => rowPositions row
           | UnitColumn => colPositions col
           | UnitBox => boxPositions (row / 2) (col / 3)
           end
       ∧ cellAt g q.1 q.2 = Some (Some value).
Proof.
  intros Hvalid Hcell Hrange Hmove.
  apply isValidGrid_units in Hvalid as [Hs Hv].
  destruct (cellAt_Some_bounds g row col _ Hs Hcell) as [Hr Hc].
  unfold determineConstraintViolationType.
  destruct (lookup_lt_is_Some_2 g row) as [currentRow Hrow];
    [destruct Hs; lia|].
  rewrite Hrow.
  destruct (bool_decide (Some value ∈ currentRow)) eqn:Hinrow.
  { apply bool_decide_eq_true in Hinrow.
    apply list_elem_of_lookup_1 in Hinrow as [c Hc'].
    exists (row, c). split.
    - apply elem_of_rowPositions_iff. simpl. split; [done|].
      destruct (shape66_row g row currentRow Hs Hrow) as [_ Hlen].
      apply lookup_lt_Some in Hc'. lia.
    - simpl. unfold cellAt. by rewrite Hrow. }
  apply bool_decide_eq_false in Hinrow.
  destruct (existsb _ (seq 0 (length g))) eqn:Hincol.
  { apply existsb_exists in Hincol as (r & Hr' & Hcellr).
    apply bool_decide_eq_true in Hcellr.
    destruct (cellAt_Some_bounds g r col _ Hs Hcellr) as [Hr'' _].
    exists (r, col). split; [|done].
    apply elem_of_colPositions_iff. simpl. done. }
  (* neither the row nor the column holds the value *)
  assert (∀ q, q ∈ rowPositions row → cellAt g q.1 q.2 ≠ Some (Some value))
    as Hnorow.
  { intros q Hq Hseen. apply elem_of_rowPositions_iff in Hq as [Hq1 _].
    rewrite Hq1 in Hseen. unfold cellAt in Hseen. rewrite Hrow in Hseen.
    apply Hinrow. by eapply list_elem_of_lookup_2. }
  assert (∀ q, q ∈ colPositions col → cellAt g q.1 q.2 ≠ Some (Some value))
    as Hnocol.
  { intros q Hq Hseen. apply elem_of_colPositions_iff in Hq as [Hq2 Hq1].
    rewrite Hq2 in Hseen.
    assert (existsb
              (fun r => bool_decide (cellAt g r col = Some (Some value)))
              (seq 0 (length g)) = true) as Hex; [|congruence].
    apply existsb_exists. exists q.1. split.
    - apply in_seq. destruct Hs. lia.
    - by apply bool_decide_eq_true. }
  destruct (decide (Forall (fun q : nat * nat =>
                              cellAt g q.1 q.2 ≠ Some (Some value))
                           (boxPositions (row / 2) (col / 3))))
    as [Hnobox|Hbox].
  - exfalso. rewrite Forall_forall in Hnobox.
    assert (isValidMove g row col value = true) as Hyes; [|congruence].
    apply isValidMove_iff_unseen; try done. split; [done|].
    intros (unit & q & Hu & Hq & Hseen).
    unfold unitsOf in Hu. rewrite !elem_of_cons, elem_of_nil in Hu.
    destruct Hu as [->|[->|[->|[]]]];
      [by apply (Hnorow q) | by apply (Hnocol q) | by apply (Hnobox q)].
  - apply not_Forall_Exists in Hbox; [|apply _].
    apply Exists_exists in Hbox as (q & Hq & Hseen).
    exists q. split; [done|].
    destruct (decide (cellAt g q.1 q.2 = Some (Some value))); [done|].
    by destruct Hseen.
Qed.

Lemma determineConstraintViolationType_accurate_witness :
  isValidGrid scenarioE = true ∧ cellAt scenarioE 0 4 = Some None
  ∧ 1 ≤ 3 ≤ 6 ∧ isValidMove scenarioE 0 4 3 = false
  ∧ ∃ q, q ∈ match determineConstraintViolationType scenarioE 0 4 3 with
             | UnitRow => rowPositions 0
             | UnitColumn => colPositions 4
             | UnitBox => boxPositions (0 / 2) (4 / 3)
             end
         ∧ cellAt scenarioE q.1 q.2 = Some (Some 3).
Proof.
  split; [reflexivity|]. split; [reflexivity|]. split; [lia|].
  split; [reflexivity|].
  apply (determineConstraintViolationType_accurate scenarioE 0 4 3);
    (reflexivity || lia).
Defined.

(** ** The [invalid_move] errors of [detectErrors] *)

Lemma elem_of_detectErrors_invalid (g : Grid) (cg : option CandidateGrid)
    (e : ErrorLocation) :
  e ∈ detectErrors g cg ∧ e_type e = InvalidMove
  ↔ ∃ row col value,
      cellAt g row col = Some (Some value)
      ∧ isValidMove (setCell g row col None) row col value = false
      ∧ e = invalidMoveError row col value.
Proof.
  unfold detectErrors. rewrite elem_of_app. split.
  - intros [[Hin|Hin] Htype].
    { apply list_elem_of_fmap in Hin as ([row col] & -> & _). done. }
    apply list_elem_of_In, in_flat_map in Hin as (row & Hrow & Hin).
    destruct (g !! row) as [currentRow|] eqn:Hg; [|done].
    apply in_flat_map in Hin as (col & Hcol & Hin).
    destruct (currentRow !! col) as [[value|]|] eqn:Hcell; try done.
    destruct (isValidMove _ row col value) eqn:Hmove; [done|].
    destruct Hin as [<-|[]]. exists row, col, value.
    unfold cellAt. rewrite Hg. done.
  - intros (row & col & value & Hcell & Hmove & ->). split; [|done]. right.
    unfold cellAt in Hcell.
    destruct (g !! row) as [currentRow|] eqn:Hg; [|done].
    apply list_elem_of_In, in_flat_map. exists row. split.
    { apply in_seq. apply lookup_lt_Some in Hg. lia. }
    rewrite Hg. apply in_flat_map. exists col. split.
    { apply in_seq. apply lookup_lt_Some in Hcell. lia. }
    rewrite Hcell, Hmove. by left.
Qed.

(** X16. On a well-formed grid, [detectErrors] reports no error of type
    [invalid_move] exactly when [isValidGrid] accepts the grid. *)
Theorem detectErrors_invalid_move_iff (g : Grid) :
  wellFormed g →
  isValidGrid g = true
  ↔ Forall (fun e => e_type e ≠ InvalidMove) (detectErrors g None).
Proof.
  intros [Hs Hrange]. rewrite Forall_forall. split.
  - intros Hvalid e He Htype.
    apply isValidGrid_units in Hvalid as [_ Hv].
    destruct (proj1 (elem_of_detectErrors_invalid g None e) (conj He Htype))
      as (row & col & value & Hcell & Hmove & _).
    destruct (cellAt_Some_bounds g row col _ Hs Hcell) as [Hr Hc].
    assert (isValidMove (setCell g row col None) row col value = true)
      as Hyes; [|congruence].
    apply isValidMove_units; [by apply shape66_setCell | done | done |].
    rewrite (setCell_restore g row col (Some value) None Hs Hcell).
    split; [by eapply Hrange|].
    unfold validUnits in Hv. rewrite Forall_forall in Hv.
    repeat split; apply Hv;
      apply (unitsOf_spec row col); try done; unfold unitsOf;
      rewrite !elem_of_cons; auto.
  - intros Hnone. apply isValidGrid_units. split; [done|].
    unfold validUnits.
    destruct (decide (Forall (fun unit => isValidUnit (unitCells g unit) = true)
                             allUnits)) as [|Hbad]; [done|].
    exfalso. apply not_Forall_Exists in Hbad; [|apply _].
    apply Exists_exists in Hbad as (unit & Hu & Hinvalid). simpl in Hinvalid.
    rewrite isValidUnit_NoDup, nonNull_unitCells in Hinvalid.
    destruct (omap (valueAt g) unit) as [|v vs] eqn:Hvals.
    { destruct Hinvalid. apply NoDup_nil_2. }
    assert (v ∈ omap (valueAt g) unit) as Hv by (rewrite Hvals; left).
    apply list_elem_of_omap in Hv as (p & Hp & Hpv).
    apply valueAt_Some in Hpv.
    destruct (cellAt_Some_bounds g p.1 p.2 _ Hs Hpv) as [Hr Hc].
    apply (Hnone (invalidMoveError p.1 p.2 v)); [|done].
    apply (elem_of_detectErrors_invalid g None).
    exists p.1, p.2, v. split; [done|]. split; [|done].
    destruct (isValidMove (setCell g p.1 p.2 None) p.1 p.2 v) eqn:Hmove;
      [|done].
    exfalso. apply isValidMove_units in Hmove;
      [|by apply shape66_setCell | done | done].
    rewrite (setCell_restore g p.1 p.2 (Some v) None Hs Hpv) in Hmove.
    destruct Hmove as (_ & H1 & H2 & H3).
    assert (unit ∈ unitsOf p.1 p.2) as Hof.
    { apply unitsOf_complete; try done. by destruct p. }
    unfold unitsOf in Hof. rewrite !elem_of_cons, elem_of_nil in Hof.
    apply Hinvalid. rewrite <- Hvals, <- nonNull_unitCells.
    apply isValidUnit_NoDup.
    destruct Hof as [->|[->|[->|[]]]]; done.
Qed.

Lemma detectErrors_invalid_move_iff_witness :
  wellFormed scenarioC
  ∧ (isValidGrid scenarioC = true
     ↔ Forall (fun e => e_type e ≠ InvalidMove) (detectErrors scenarioC None)).
Proof.
  split; [apply wellFormed_scenarioC|].
  exact (detectErrors_invalid_move_iff scenarioC wellFormed_scenarioC).
Defined.

(** ** PathValidatedGenerator *)

Lemma pvg_isSolved_false (g : Grid) (r c : nat) :
  (r < 6)%nat → (c < 6)%nat → cellAt g r c = Some None →
  PathValidatedGenerator.isSolved g = false.
Proof.
  intros Hr Hc Hcell. unfold PathValidatedGenerator.isSolved.
  apply not_true_iff_false. intros Hall. rewrite forallb_forall in Hall.
  specialize (Hall (r, c)
                ltac:(by apply list_elem_of_In, elem_of_allPositions)).
  simpl in Hall. by rewrite Hcell in Hall.
Qed.

(** The moves of the analysis target cells of the board. *)
Lemma availableMoves_in_board (g : Grid) (m : HintMove) :
  m ∈ availableMoves (analyzeBoard g) →
  (m_row m < 6)%nat ∧ (m_col m < 6)%nat.
Proof.
  intros Hm.
  change (availableMoves (analyzeBoard g))
    with (findAllAvailableMoves g (calculateAllCandidates g)) in Hm.
  unfold findAllAvailableMoves in Hm.
  apply removeDuplicateMoves_subset, elem_of_app in Hm as [Hm|Hm].
  - unfold SolvingTechniques.findNakedSingles in Hm.
    apply list_elem_of_fmap in Hm as (single & -> & Hsingle). simpl.
    apply elem_of_findNakedSingles in Hsingle. tauto.
  - unfold SolvingTechniques.findHiddenSingles in Hm.
    apply list_elem_of_fmap in Hm as (single & -> & Hsingle). simpl.
    apply elem_of_findHiddenSingles in Hsingle
      as (_ & unit & Hu & Hin & _).
    apply (unit_in_range unit (h_row single, h_col single) Hu Hin).
Qed.

(** Once a move of an error-free analysis has been applied, the grid is
    not solved and its analysis has an error. *)
Lemma after_first_move (g : Grid) (m : HintMove) :
  errors (analyzeBoard g) = [] → m ∈ availableMoves (analyzeBoard g) →
  PathValidatedGenerator.isSolved
    (setCell g (m_row m) (m_col m) (Some (m_value m))) = false
  ∧ errors (analyzeBoard (setCell g (m_row m) (m_col m) (Some (m_value m))))
    ≠ [].
Proof.
  intros Hnil Hm.
  destruct (availableMoves_in_board g m Hm) as [Hr Hc].
  pose proof (analyzeBoard_no_errors g _ _ Hnil Hr Hc) as Hcell.
  split.
  - set (r' := if decide (m_row m = 0)%nat then 1%nat else 0%nat).
    assert (r' < 6)%nat as Hr' by (unfold r'; destruct (decide _); lia).
    assert (r' ≠ m_row m) as Hne by (unfold r'; destruct (decide _); lia).
    apply (pvg_isSolved_false _ r' 0); [done | lia |].
    rewrite (cellAt_setCell_existing g _ _ r' 0%nat None) by done.
    rewrite decide_False by congruence.
    apply analyzeBoard_no_errors; (done || lia).
  - intros Hnil'.
    assert (cellAt (setCell g (m_row m) (m_col m) (Some (m_value m)))
                   (m_row m) (m_col m) = Some (Some (m_value m))) as Hfilled.
    { rewrite (cellAt_setCell_existing g _ _ _ _ None) by done.
      by rewrite decide_True. }
    pose proof (analyzeBoard_error_at _ (m_row m) (m_col m) Hr Hc
                  ltac:(by rewrite Hfilled)) as Hin.
    rewrite Hnil' in Hin. by apply elem_of_nil in Hin.
Qed.

Lemma ltb_length_nil {A} (l : list A) :
  Nat.ltb 0 (length l) = false → l = [].
Proof. destruct l; [done|]. intros H. discriminate H. Qed.

Lemma ltb_length_cons {A} (l : list A) :
  l ≠ [] → Nat.ltb 0 (length l) = true.
Proof. by destruct l. Qed.

Lemma trailLoop_two_steps (fuel minMovesRequired : nat) (g : Grid) :
  PathValidatedGenerator.trailLoop (S (S fuel)) minMovesRequired g []
                                   NAKED_SINGLE
  = if PathValidatedGenerator.isSolved g
    then Some (g, [], NAKED_SINGLE) else None.
Proof.
  cbn [PathValidatedGenerator.trailLoop].
  destruct (PathValidatedGenerator.isSolved g); [done|].
  destruct (Nat.ltb 0 (length (errors (analyzeBoard g)))) eqn:Herr; [done|].
  apply ltb_length_nil in Herr.
  destruct (Nat.eqb (length (availableMoves (analyzeBoard g))) 0); [done|].
  destruct (Nat.ltb (length (availableMoves (analyzeBoard g)))
                    minMovesRequired); [done|].
  destruct (availableMoves (analyzeBoard g)) as [|m ms] eqn:Hmoves; [done|].
  change (Nat.ltb (GRID_SIZE * GRID_SIZE) (length ([] ++ [m]))) with false.
  cbv iota.
  destruct (after_first_move g m Herr) as [Hsolved Herrors].
  { rewrite Hmoves. left. }
  rewrite Hsolved. by rewrite (ltb_length_cons _ Herrors).
Qed.

(** X17. [createMoveTrail] returns a trail only for a grid none of whose
    36 cells reads [null], and then the trail has no move: for any other
    grid the analysis either reports an error or, once its first move is
    applied, reports the cell just filled as an error, and the method
    returns [null]. *)
Theorem createMoveTrail_only_when_solved (minMovesRequired : nat)
    (puzzle : Grid) (solution : option Grid) :
  PathValidatedGenerator.createMoveTrail minMovesRequired puzzle solution
  = if PathValidatedGenerator.isSolved puzzle
    then Some (PathValidatedGenerator.mkTrail [] true NAKED_SINGLE
                                              puzzle puzzle)
    else None.
Proof.
  unfold PathValidatedGenerator.createMoveTrail,
    PathValidatedGenerator.trailFuel.
  rewrite (trailLoop_two_steps 36).
  by destruct (PathValidatedGenerator.isSolved puzzle).
Qed.

Lemma multipleMovesLoop_two_steps (fuel minMovesRequired : nat) (g : Grid) :
  PathValidatedGenerator.multipleMovesLoop (S (S fuel)) minMovesRequired g
  = PathValidatedGenerator.isSolved g.
Proof.
  cbn [PathValidatedGenerator.multipleMovesLoop].
  destruct (PathValidatedGenerator.isSolved g); [done|].
  destruct (Nat.ltb 0 (length (errors (analyzeBoard g)))) eqn:Herr; [done|].
  apply ltb_length_nil in Herr.
  destruct (Nat.ltb (length (availableMoves (analyzeBoard g)))
                    minMovesRequired); [done|].
  destruct (availableMoves (analyzeBoard g)) as [|m ms] eqn:Hmoves; [done|].
  destruct (after_first_move g m Herr) as [Hsolved Herrors].
  { rewrite Hmoves. left. }
  rewrite Hsolved. by rewrite (ltb_length_cons _ Herrors).
Qed.

(** X18. [validateMultipleMovesRequirement] returns [true] only for a grid
    none of whose 36 cells reads [null]: it agrees with the private
    [isSolved] of the generator, whatever the number of moves required. *)
Theorem validateMultipleMovesRequirement_only_when_solved
    (minMovesRequired : nat) (puzzle : Grid) :
  PathValidatedGenerator.validateMultipleMovesRequirement minMovesRequired
                                                          puzzle
  = PathValidatedGenerator.isSolved puzzle.
Proof.
  unfold PathValidatedGenerator.validateMultipleMovesRequirement,
    PathValidatedGenerator.multipleMovesFuel.
  apply (multipleMovesLoop_two_steps 35).
Qed.

Lemma isValidPuzzle_has_empty (puzzle : Grid) :
  PathValidatedGenerator.isValidPuzzle puzzle = true →
  ∃ r c, (r < 6)%nat ∧ (c < 6)%nat ∧ cellAt puzzle r c = Some None.
Proof.
  unfold PathValidatedGenerator.isValidPuzzle, GRID_SIZE.
  destruct (Nat.eqb (length puzzle) 6) eqn:Hlen; [|done]. cbn [negb].
  destruct (existsb _ puzzle) eqn:Hrows; [done|].
  destruct (Nat.eqb (PathValidatedGenerator.countEmpty puzzle) 0) eqn:Hempty;
    [done|].
  intros _. apply Nat.eqb_eq in Hlen. apply Nat.eqb_neq in Hempty.
  unfold PathValidatedGenerator.countEmpty in Hempty.
  destruct (filter _ (concat puzzle)) as [|x xs] eqn:Hf; [done|].
  assert (x ∈ filter (fun cell : Cell => cell = None) (concat puzzle))
    as Hx by (rewrite Hf; left).
  apply list_elem_of_filter in Hx as [-> Hx].
  apply list_elem_of_In, in_concat in Hx as (row & Hrow & Hin).
  apply list_elem_of_In, list_elem_of_lookup_1 in Hrow as [r Hr].
  apply list_elem_of_In, list_elem_of_lookup_1 in Hin as [c Hc].
  assert (length row = 6%nat) as Hlenrow.
  { destruct (Nat.eqb (length row) 6) eqn:Hl; [by apply Nat.eqb_eq|].
    assert (existsb (fun row : list Cell => negb (Nat.eqb (length row) 6))
                    puzzle = true) as Hex; [|congruence].
    apply existsb_exists. exists row. split.
    - apply list_elem_of_In. by eapply list_elem_of_lookup_2.
    - by rewrite Hl. }
  exists r, c. apply lookup_lt_Some in Hr as Hr'.
  apply lookup_lt_Some in Hc as Hc'.
  split; [lia|]. split; [lia|]. unfold cellAt. by rewrite Hr.
Qed.

(** X19. [validatePuzzleRequirements] never accepts a puzzle: a puzzle that
    passes [isValidPuzzle] has an empty cell, so [createMoveTrail] gives no
    trail for it and [ensureEasyDifficulty] fails. *)
Theorem validatePuzzleRequirements_never (minMovesRequired : nat)
    (puzzle : Grid) :
  PathValidatedGenerator.validatePuzzleRequirements minMovesRequired puzzle
  = false.
Proof.
  unfold PathValidatedGenerator.validatePuzzleRequirements.
  destruct (PathValidatedGenerator.isValidPuzzle puzzle) eqn:Hvalid; [|done].
  cbn [negb].
  destruct (isValidPuzzle_has_empty puzzle Hvalid) as (r & c & Hr & Hc & Hcell).
  unfold PathValidatedGenerator.ensureEasyDifficulty,
    PathValidatedGenerator.createMoveTrail,
    PathValidatedGenerator.trailFuel.
  rewrite (trailLoop_two_steps 36).
  by rewrite (pvg_isSolved_false puzzle r c Hr Hc Hcell).
Qed.

(** * Further properties of the generator *)

(** ** Counting cells *)

Lemma length_filter_fmap {A B} (f : A → B) (P : B → Prop)
    `{∀ y, Decision (P y)} (l : list A) :
  length (filter P (f <$> l)) = length (filter (fun x => P (f x)) l).
Proof.
  induction l as [|a l IH]; [done|]. rewrite fmap_cons, !filter_cons.
  destruct (decide (P (f a))); simpl; by rewrite IH.
Qed.

Lemma length_filter_complement {A} (P Q : A → Prop)
    `{∀ x, Decision (P x)} `{∀ x, Decision (Q x)} (l : list A) :
  (∀ x, x ∈ l → Q x ↔ ¬ P x) →
  (length (filter P l) + length (filter Q l) = length l)%nat.
Proof.
  induction l as [|a l IH]; intros HPQ; [done|]. rewrite !filter_cons.
  pose proof (HPQ a ltac:(left)) as Ha.
  specialize (IH ltac:(intros x Hx; apply HPQ; by right)).
  destruct (decide (P a)), (decide (Q a)); simpl; try tauto; lia.
Qed.

Lemma length_filter_none {A} (P : A → Prop) `{∀ x, Decision (P x)}
    (l : list A) :
  (∀ x, x ∈ l → ¬ P x) → length (filter P l) = 0%nat.
Proof.
  induction l as [|a l IH]; intros Hno; [done|]. rewrite filter_cons.
  rewrite decide_False by (apply Hno; left).
  apply IH. intros x Hx. apply Hno. by right.
Qed.

Lemma length_filter_ext_in {A} (P Q : A → Prop)
    `{∀ x, Decision (P x)} `{∀ x, Decision (Q x)} (l : list A) :
  (∀ x, x ∈ l → P x ↔ Q x) → length (filter P l) = length (filter Q l).
Proof.
  induction l as [|a l IH]; intros HPQ; [done|]. rewrite !filter_cons.
  pose proof (HPQ a ltac:(left)) as Ha.
  specialize (IH ltac:(intros x Hx; apply HPQ; by right)).
  destruct (decide (P a)), (decide (Q a)); simpl; try tauto; lia.
Qed.

Lemma length_filter_one_more {A} `{EqDecision A} (P P' : A → Prop)
    `{∀ x, Decision (P x)} `{∀ x, Decision (P' x)} (l : list A) (p : A) :
  NoDup l → p ∈ l → ¬ P p → (∀ q, P' q ↔ P q ∨ q = p) →
  length (filter P' l) = S (length (filter P l)).
Proof.
  intros Hnd Hin HPp HP'.
  induction l as [|a l IH]; [by apply elem_of_nil in Hin|].
  apply NoDup_cons in Hnd as [Hnotin Hnd]. rewrite !filter_cons.
  destruct (decide (a = p)) as [->|Hne].
  - rewrite decide_True by (apply HP'; by right).
    rewrite decide_False by done. simpl. f_equal.
    apply length_filter_ext_in.
    intros q Hq. rewrite HP'. split; [|by left].
    intros [?| ->]; done.
  - apply elem_of_cons in Hin as [->|Hin]; [done|].
    specialize (IH Hnd Hin).
    destruct (decide (P a)) as [HPa|HPa].
    + rewrite decide_True by (apply HP'; by left). simpl. by rewrite IH.
    + rewrite decide_False by (rewrite HP'; intros [?|?]; done). done.
Qed.

(** The cells of a 6x6 grid in the order of [flat()]. *)
Lemma concat_cells (g : Grid) :
  shape66 g →
  concat g
  = (fun p : nat * nat => default None (cellAt g p.1 p.2)) <$> allPositions.
Proof. intros Hs. destruct_grid g Hs. reflexivity. Qed.

(** Every cell of a 6x6 grid is a clue or is empty. *)
Lemma countFilled_countNull (g : Grid) :
  shape66 g → (countFilled g + countNull g = 36)%nat.
Proof.
  intros Hs. unfold countFilled, countNull.
  rewrite (concat_cells g Hs), length_filter_fmap.
  change 36%nat with (length allPositions).
  apply length_filter_complement. intros [r c] Hp.
  apply elem_of_allPositions in Hp as [Hr Hc]. simpl.
  destruct (cellAt_is_Some g r c Hs Hr Hc) as [x ->]. simpl.
  destruct x as [w|]; split; try done.
  - intros H. by destruct H.
  - intros _ H. by destruct H.
Qed.

Lemma countNull_clear (g : Grid) (r c : nat) (v : Z) :
  shape66 g → cellAt g r c = Some (Some v) →
  countNull (setCell g r c None) = S (countNull g).
Proof.
  intros Hs Hcell.
  destruct (cellAt_Some_bounds g r c _ Hs Hcell) as [Hr Hc].
  unfold countNull.
  apply (length_filter_one_more _ _ allPositions (r, c)).
  - apply NoDup_allPositions.
  - by apply elem_of_allPositions.
  - simpl. by rewrite Hcell.
  - intros [r' c']. simpl. rewrite cellAt_setCell by done.
    destruct (decide ((r', c') = (r, c))) as [Heq|Hne]; [tauto|].
    split; [by left|]. by intros [?|?].
Qed.

Lemma countFilled_clear (g : Grid) (r c : nat) (v : Z) :
  shape66 g → cellAt g r c = Some (Some v) →
  (countFilled (setCell g r c None) + 1 = countFilled g)%nat.
Proof.
  intros Hs Hcell.
  destruct (cellAt_Some_bounds g r c _ Hs Hcell) as [Hr Hc].
  pose proof (countFilled_countNull g Hs).
  pose proof (countFilled_countNull _ (shape66_setCell g r c None Hs Hc)).
  pose proof (countNull_clear g r c v Hs Hcell). lia.
Qed.

Lemma countNull_full (g : Grid) : shape66 g → isFull g → countNull g = 0%nat.
Proof.
  intros Hs Hfull. unfold countNull. apply length_filter_none.
  intros [r c] Hp Hcell. apply elem_of_allPositions in Hp as [Hr Hc].
  destruct (Hfull r c Hr Hc) as [v Hv]. simpl in Hcell. congruence.
Qed.

Lemma countFilled_full (g : Grid) :
  shape66 g → isFull g → countFilled g = 36%nat.
Proof.
  intros Hs Hfull. pose proof (countFilled_countNull g Hs).
  pose proof (countNull_full g Hs Hfull). lia.
Qed.

(** ** The shuffle is a permutation *)

Lemma insert_swap_head {A} (l : list A) (j : nat) (a b : A) :
  l !! j = Some b → b :: <[j := a]> l ≡ₚ a :: l.
Proof.
  revert j. induction l as [|y l IH]; intros [|j] Hj; try done; simpl in *.
  - injection Hj as ->. apply Permutation_swap.
  - rewrite (Permutation_swap y b), (IH j Hj). apply Permutation_swap.
Qed.

Lemma swap_Permutation {A} (l : list A) (i j : nat) (a b : A) :
  l !! i = Some a → l !! j = Some b → <[j := a]> (<[i := b]> l) ≡ₚ l.
Proof.
  revert i j. induction l as [|x l IH]; intros [|i] [|j] Hi Hj;
    try done; simpl in *.
  - by injection Hi as ->.
  - injection Hi as ->. by apply insert_swap_head.
  - injection Hj as ->. by apply insert_swap_head.
  - f_equiv. by apply IH.
Qed.

Section ShufflePermutation.

Variable oracle : nat → nat.

Lemma shuffleLoop_Permutation {A} (i : nat) (l : list A) (n : nat) :
  (shuffleLoop oracle i l n).1 ≡ₚ l.
Proof.
  revert l n. induction i as [|i IH]; intros l n; [done|].
  cbn [shuffleLoop]. rewrite IH.
  destruct (l !! S i) as [temp|] eqn:Hi; [|done].
  destruct (l !! randomBelow oracle n (S i + 1)) as [swapItem|] eqn:Hj;
    [|done].
  by apply swap_Permutation.
Qed.

Lemma shuffleArray_perm {A} (array : list A) (n : nat) :
  (shuffleArray oracle array n).1 ≡ₚ array.
Proof. apply shuffleLoop_Permutation. Qed.

(** X20. Whatever the random draws, [shuffleArray] returns a permutation
    of its argument, and it makes one draw per element but the first. *)
Theorem shuffleArray_Permutation {A} (array : list A) (n : nat) :
  (shuffleArray oracle array n).1 ≡ₚ array
  ∧ (shuffleArray oracle array n).2 = (n + (length array - 1))%nat.
Proof.
  unfold shuffleArray. split; [apply shuffleLoop_Permutation|].
  generalize (length array - 1)%nat as i. intros i. revert array n.
  induction i as [|i IH]; intros array n; simpl; [lia|].
  rewrite IH. lia.
Qed.

(** ** [removeCells] *)

Lemma foldl_clear_cellAt (ps : list (nat * nat)) :
  ∀ (g : Grid) (r c : nat),
    shape66 g →
    Forall (fun p : nat * nat => (p.1 < 6)%nat ∧ (p.2 < 6)%nat) ps →
    shape66 (foldl (fun puzzle '(row, col) => setCell puzzle row col None)
                   g ps)
    ∧ cellAt (foldl (fun puzzle '(row, col) => setCell puzzle row col None)
                    g ps) r c
      = if decide ((r, c) ∈ ps) then Some None else cellAt g r c.
Proof.
  induction ps as [|[row col] ps IH]; intros g r c Hs Hps; cbn [foldl].
  { split; [done|]. rewrite decide_False; [done|]. apply not_elem_of_nil. }
  apply Forall_cons in Hps as [[Hrow Hcol] Hps]. simpl in Hrow, Hcol.
  destruct (IH (setCell g row col None) r c) as [Hs' Hcell];
    [by apply shape66_setCell | done |].
  split; [done|]. rewrite Hcell. rewrite cellAt_setCell by done.
  destruct (decide ((r, c) ∈ ps)) as [Hin|Hnotin].
  - rewrite decide_True; [done|]. by right.
  - destruct (decide ((r, c) = (row, col))) as [->|Hne].
    + rewrite decide_True; [done|]. left.
    + rewrite decide_False; [done|].
      intros Hin. apply elem_of_cons in Hin as [?|?]; done.
Qed.

(** The cells [removeCells] clears: as many distinct cells of the board as
    asked for, at most 36. *)
Lemma removeCells_cells (s : Grid) (cellsToRemove n : nat) :
  shape66 s →
  ∃ puzzle n' ps,
    removeCells oracle s cellsToRemove n = (puzzle, n')
    ∧ shape66 puzzle ∧ NoDup ps ∧ length ps = Nat.min cellsToRemove 36
    ∧ (∀ p, p ∈ ps → p ∈ allPositions)
    ∧ ∀ r c, cellAt puzzle r c
             = if decide ((r, c) ∈ ps) then Some None else cellAt s r c.
Proof.
  intros Hs. unfold removeCells.
  pose proof (shuffleArray_perm allPositions n) as Hperm.
  destruct (shuffleArray oracle allPositions n) as [positions n'].
  cbn [fst] in Hperm.
  assert (∀ p, p ∈ take cellsToRemove positions → p ∈ allPositions) as Hsub.
  { intros p Hp. rewrite <- Hperm.
    eapply elem_of_sublist; [done | apply sublist_take]. }
  eexists _, n', (take cellsToRemove positions). split; [done|].
  assert (Forall (fun p : nat * nat => (p.1 < 6)%nat ∧ (p.2 < 6)%nat)
                 (take cellsToRemove positions)) as Hin.
  { apply Forall_forall. intros [r c] Hp.
    by apply elem_of_allPositions, Hsub. }
  split; [by apply foldl_clear_cellAt|].
  split.
  { apply (sublist_NoDup _ positions); [|apply sublist_take].
    rewrite Hperm. apply NoDup_allPositions. }
  split.
  { rewrite length_take, (Permutation_length Hperm). done. }
  split; [done|]. intros r c. by apply foldl_clear_cellAt.
Qed.

(** Clearing [k] distinct cells of a full grid leaves [36 - k] clues. *)
Lemma cleared_grid_counts (s puzzle : Grid) (ps : list (nat * nat)) :
  wellFormed s → isFull s → shape66 puzzle → NoDup ps →
  (∀ p, p ∈ ps → p ∈ allPositions) →
  (∀ r c, cellAt puzzle r c
          = if decide ((r, c) ∈ ps) then Some None else cellAt s r c) →
  wellFormed puzzle ∧ extends puzzle s
  ∧ countNull puzzle = length ps
  ∧ countFilled puzzle = (36 - length ps)%nat.
Proof.
  intros [Hs Hrange] Hfull Hsp Hnd Hsub Hcells.
  assert (extends puzzle s) as Hext.
  { intros r c v. rewrite Hcells. by destruct (decide ((r, c) ∈ ps)). }
  assert (countNull puzzle = length ps) as Hnull.
  { unfold countNull. apply Permutation_length, NoDup_Permutation.
    - apply NoDup_filter, NoDup_allPositions.
    - done.
    - intros [r c]. rewrite list_elem_of_filter. simpl. rewrite Hcells.
      destruct (decide ((r, c) ∈ ps)) as [Hin|Hnotin].
      + split; [done|]. intros _. split; [done|]. by apply Hsub.
      + split; [|done]. intros [Hcell Hp].
        apply elem_of_allPositions in Hp as [Hr Hc].
        destruct (Hfull r c Hr Hc) as [v Hv]. congruence. }
  split; [split; [done|] |].
  { intros r c v Hcell. apply (Hrange r c). by apply Hext. }
  split; [done|]. split; [done|].
  pose proof (countFilled_countNull puzzle Hsp). lia.
Qed.

(** X21. [removeCells] on a solution returns a grid that keeps cells of the
    solution only and has exactly [36 - min(cellsToRemove, 36)] clues,
    whatever the random draws. *)
Theorem removeCells_counts (solution : Grid) (cellsToRemove n : nat) :
  wellFormed solution → isFull solution →
  ∃ puzzle n',
    removeCells oracle solution cellsToRemove n = (puzzle, n')
    ∧ wellFormed puzzle ∧ extends puzzle solution
    ∧ countFilled puzzle = (36 - Nat.min cellsToRemove 36)%nat.
Proof.
  intros Hwf Hfull.
  destruct (removeCells_cells solution cellsToRemove n (proj1 Hwf))
    as (puzzle & n' & ps & Heq & Hsp & Hnd & Hlen & Hsub & Hcells).
  destruct (cleared_grid_counts solution puzzle ps Hwf Hfull Hsp Hnd Hsub
              Hcells) as (Hwfp & Hext & _ & Hcount).
  exists puzzle, n'. rewrite Hlen in Hcount.
  split; [exact Heq|]. split; [exact Hwfp|]. split; [exact Hext|].
  exact Hcount.
Qed.

End ShufflePermutation.

Lemma removeCells_counts_witness :
  wellFormed sampleSolution ∧ isFull sampleSolution
  ∧ ∃ puzzle n',
      removeCells (fun n => (n * 7 + 3)%nat) sampleSolution 5 0 = (puzzle, n')
      ∧ wellFormed puzzle ∧ extends puzzle sampleSolution
      ∧ countFilled puzzle = (36 - Nat.min 5 36)%nat.
Proof.
  split; [apply wellFormed_sampleSolution|].
  split; [apply isFull_sampleSolution|].
  exact (removeCells_counts (fun n => (n * 7 + 3)%nat) sampleSolution 5 0
           wellFormed_sampleSolution isFull_sampleSolution).
Defined.

(** ** The fallback puzzle *)

Section Fallback.

Variable oracle : nat → nat.

Lemma removeCells_puzzle (s : Grid) (cellsToRemove n : nat) :
  wellFormed s → isFull s →
  ∃ puzzle n',
    removeCells oracle s cellsToRemove n = (puzzle, n')
    ∧ wellFormed puzzle ∧ extends puzzle s
    ∧ countNull puzzle = Nat.min cellsToRemove 36
    ∧ countFilled puzzle = (36 - Nat.min cellsToRemove 36)%nat.
Proof.
  intros Hwf Hfull.
  destruct (removeCells_cells oracle s cellsToRemove n (proj1 Hwf))
    as (puzzle & n' & ps & Heq & Hsp & Hnd & Hlen & Hsub & Hcells).
  destruct (cleared_grid_counts s puzzle ps Hwf Hfull Hsp Hnd Hsub Hcells)
    as (Hwfp & Hext & Hnull & Hcount).
  exists puzzle, n'. rewrite Hlen in Hnull, Hcount.
  split; [exact Heq|]. split; [exact Hwfp|]. split; [exact Hext|].
  split; [exact Hnull | exact Hcount].
Qed.

(** The retry loop of the fallback keeps a puzzle carved from the solution
    with between 1 and [k] cells removed. *)
Lemma fallbackLoop_inv (s : Grid) (k : nat) :
  wellFormed s → isFull s → (1 ≤ k ≤ 36)%nat →
  ∀ (left attempts : nat) (puzzle : Grid) (n : nat),
    wellFormed puzzle → extends puzzle s →
    (36 - k ≤ countFilled puzzle ≤ 35)%nat →
    ∃ puzzle' n',
      fallbackLoop oracle s k left attempts puzzle n = (puzzle', n')
      ∧ wellFormed puzzle' ∧ extends puzzle' s
      ∧ (36 - k ≤ countFilled puzzle' ≤ 35)%nat.
Proof.
  intros Hwf Hfull Hk.
  induction left as [|left IH]; intros attempts puzzle n Hwfp Hext Hcount.
  { by exists puzzle, n. }
  cbn [fallbackLoop].
  destruct (negb (hasNextLogicalMove puzzle)); [|by exists puzzle, n].
  destruct (removeCells_puzzle s (Nat.max 1 (k - S attempts)) n Hwf Hfull)
    as (p1 & n1 & -> & Hwf1 & Hext1 & _ & Hcount1).
  apply IH; try done. lia.
Qed.

(** X22. Whatever the random draws, [generateFallbackPuzzle] returns a
    solution that is a full valid grid and a puzzle obtained from it by
    clearing cells: the solution is a completion of the puzzle, and the
    puzzle has at least one empty cell and at most [getCellsToRemove - 4]
    of them. *)
Theorem generateFallbackPuzzle_consistent (difficulty : Difficulty) (n : nat) :
  ∃ puzzle solution n',
    generateFallbackPuzzle oracle difficulty n = (puzzle, solution, n')
    ∧ wellFormed puzzle
    ∧ completion puzzle solution
    ∧ (36 - (getCellsToRemove difficulty - 4) ≤ countFilled puzzle ≤ 35)%nat.
Proof.
  unfold generateFallbackPuzzle.
  destruct (generateCompleteSolution_spec oracle n)
    as (solution & n1 & _ & -> & Hwf & Hfull & Hunits).
  assert (Nat.max 1 (getCellsToRemove difficulty - 4)
          = (getCellsToRemove difficulty - 4)%nat) as ->
    by (by destruct difficulty).
  assert (1 ≤ getCellsToRemove difficulty - 4 ≤ 36)%nat as Hk
    by (destruct difficulty; simpl; lia).
  destruct (removeCells_puzzle solution (getCellsToRemove difficulty - 4) n1
              Hwf Hfull) as (p1 & n2 & -> & Hwf1 & Hext1 & _ & Hcount1).
  destruct (fallbackLoop_inv solution (getCellsToRemove difficulty - 4)
              Hwf Hfull Hk 5 0 p1 n2 Hwf1 Hext1 ltac:(lia))
    as (puzzle & n3 & -> & Hwfp & Hext & Hcount).
  exists puzzle, solution, n3. split; [done|]. split; [done|].
  split; [|done]. split; [done|]. split; [done|]. split; [|done].
  apply isValidGrid_units. split; [apply Hwf | done].
Qed.

End Fallback.

(** ** The carving loops, with their counters *)

Lemma carveCount_clear (difficulty : Difficulty) (puzzle : Grid)
    (removedCells row col : nat) (v : Z) :
  carveCount difficulty puzzle removedCells →
  cellAt puzzle row col = Some (Some v) →
  Nat.leb (getCellsToRemove difficulty) removedCells = false →
  carveCount difficulty (setCell puzzle row col None) (S removedCells).
Proof.
  intros (Hs & Hcount & Hle) Hcell Hlim. apply Nat.leb_gt in Hlim.
  destruct (cellAt_Some_bounds puzzle row col _ Hs Hcell) as [Hr Hc].
  split; [by apply shape66_setCell|].
  pose proof (countFilled_clear puzzle row col v Hs Hcell).
  split; lia.
Qed.

Lemma guidedInner_counts (s : Grid) (difficulty : Difficulty) :
  ∀ (positions : list (nat * nat)) (puzzle : Grid)
    (removedCells consecutiveFailures : nat),
    carveCount difficulty puzzle removedCells →
    (getMinimumClues difficulty ≤ countFilled puzzle)%nat →
    ∃ puzzle' removed' failures',
      guidedInner s difficulty positions
                  (puzzle, removedCells, consecutiveFailures)
      = (puzzle', removed', failures')
      ∧ carveCount difficulty puzzle' removed'
      ∧ (getMinimumClues difficulty ≤ countFilled puzzle')%nat.
Proof.
  induction positions as [|[row col] rest IH];
    intros puzzle removedCells failures Hcount Hmin.
  { by exists puzzle, removedCells, failures. }
  cbn [guidedInner].
  destruct (Nat.leb (getCellsToRemove difficulty) removedCells) eqn:Hlim;
    [by exists puzzle, removedCells, failures|].
  destruct (Nat.leb maxConsecutiveFailures failures);
    [by exists puzzle, removedCells, failures|].
  destruct (cellAt puzzle row col) as [[originalValue|]|] eqn:Hcell;
    try (by apply IH).
  destruct (hasUniqueSolution (setCell puzzle row col None) s
            && hasNextLogicalMove (setCell puzzle row col None)
            && Nat.leb (getMinimumClues difficulty)
                       (countFilled (setCell puzzle row col None)))
    eqn:Htest.
  - apply andb_true_iff in Htest as [_ Hmin'].
    apply Nat.leb_le in Hmin'.
    apply IH; [by eapply carveCount_clear | done].
  - rewrite (setCell_restore puzzle row col (Some originalValue) None)
      by (done || apply Hcount).
    by apply IH.
Qed.

Section CarverCounts.

Variable oracle : nat → nat.

Lemma guidedPasses_counts (s : Grid) (difficulty : Difficulty) :
  ∀ (passes : nat) (puzzle : Grid) (removedCells failures n : nat),
    carveCount difficulty puzzle removedCells →
    (getMinimumClues difficulty ≤ countFilled puzzle)%nat →
    ∃ puzzle' removed' failures' n',
      guidedPasses oracle s difficulty passes
                   (puzzle, removedCells, failures) n
      = (puzzle', removed', failures', n')
      ∧ carveCount difficulty puzzle' removed'
      ∧ (getMinimumClues difficulty ≤ countFilled puzzle')%nat.
Proof.
  induction passes as [|passes IH];
    intros puzzle removedCells failures n Hcount Hmin.
  { by exists puzzle, removedCells, failures, n. }
  cbn [guidedPasses].
  destruct (Nat.ltb removedCells (getCellsToRemove difficulty));
    [|by exists puzzle, removedCells, failures, n].
  destruct (shuffleArray oracle allPositions n) as [positions n1].
  destruct (guidedInner_counts s difficulty positions puzzle removedCells
              failures Hcount Hmin) as (p1 & r1 & f1 & -> & Hcount1 & Hmin1).
  by apply IH.
Qed.

(** The puzzle of [createGuidedPuzzle] has at least the minimum number of
    clues and misses at most the target number of cells. *)
Lemma createGuidedPuzzle_counts (s : Grid) (difficulty : Difficulty)
    (n n' : nat) (puzzle : Grid) :
  shape66 s → isFull s →
  createGuidedPuzzle oracle s difficulty n = (Some puzzle, n') →
  (getMinimumClues difficulty ≤ countFilled puzzle)%nat
  ∧ (36 - getCellsToRemove difficulty ≤ countFilled puzzle)%nat.
Proof.
  intros Hs Hfull Hguided. unfold createGuidedPuzzle in Hguided.
  pose proof (countFilled_full s Hs Hfull) as H36.
  destruct (guidedPasses_counts s difficulty 3 s 0 0 n)
    as (p & r & f & n1 & Heq & (Hsp & Hcount & Hle) & Hmin).
  { split; [done|]. split; lia. }
  { rewrite H36. destruct difficulty; simpl; lia. }
  rewrite Heq in Hguided.
  destruct (negb (hasNextLogicalMove p)); [done|].
  injection Hguided as <- <-. split; [done | lia].
Qed.

End CarverCounts.

(** A grid with a logical next move has an empty cell. *)
Lemma hasNextLogicalMove_not_full (g : Grid) :
  wellFormed g → hasNextLogicalMove g = true → (countFilled g ≤ 35)%nat.
Proof.
  intros Hwf Hlogical. pose proof Hwf as [[Hlen Hrows] Hrange].
  unfold hasNextLogicalMove in Hlogical. rewrite Hlen in Hlogical.
  apply existsb_exists in Hlogical as (r & Hr & Hex).
  apply existsb_exists in Hex as (c & Hc & Hex).
  apply in_seq in Hr, Hc. apply Nat.eqb_eq in Hex.
  rewrite getCandidates_calculateCellCandidates in Hex by (done || lia).
  destruct (cellAt g r c) as [[w|]|] eqn:Hcell; try done.
  pose proof (countFilled_countNull g (proj1 Hwf)) as Hsum.
  assert (0 < countNull g)%nat; [|lia].
  unfold countNull.
  assert ((r, c) ∈ filter (fun p : nat * nat => cellAt g p.1 p.2 = Some None)
                          allPositions) as Hin.
  { apply list_elem_of_filter. split; [done|].
    apply elem_of_allPositions. lia. }
  destruct (filter _ allPositions); [by apply elem_of_nil in Hin|].
  simpl. lia.
Qed.

(** ** [createValidPuzzle] *)

Section ValidCarver.

Variable oracle : nat → nat.

Variable s : Grid.
Hypothesis s_wellFormed : wellFormed s.
Hypothesis s_full : isFull s.
Hypothesis s_valid : validUnits s.

Lemma validInner_inv (difficulty : Difficulty) :
  ∀ (positions : list (nat * nat)) (puzzle : Grid) (removedCells : nat),
    carveInv s puzzle removedCells →
    carveCount difficulty puzzle removedCells →
    ∃ puzzle' removed',
      validInner s difficulty positions (puzzle, removedCells)
      = (puzzle', removed')
      ∧ carveInv s puzzle' removed'
      ∧ carveCount difficulty puzzle' removed'
      ∧ (removedCells ≤ removed')%nat.
Proof.
  induction positions as [|[row col] rest IH];
    intros puzzle removedCells Hinv Hcount.
  { by exists puzzle, removedCells. }
  cbn [validInner].
  destruct (Nat.leb (getCellsToRemove difficulty) removedCells) eqn:Hlim;
    [by exists puzzle, removedCells|].
  destruct (cellAt puzzle row col) as [[originalValue|]|] eqn:Hcell;
    try (by apply IH).
  destruct Hinv as (Hwf & Hext & Hstate). pose proof Hwf as [Hs Hrange].
  destruct (cellAt_Some_bounds puzzle row col _ Hs Hcell) as [Hr Hc].
  destruct (hasUniqueSolution (setCell puzzle row col None) s
            && hasNextLogicalMove (setCell puzzle row col None)) eqn:Htest.
  - apply andb_true_iff in Htest as [Hunique Hlogical].
    destruct (IH (setCell puzzle row col None) (S removedCells))
      as (p' & r' & Heq & Hinv' & Hcount' & Hle).
    { split; [by apply wellFormed_clear|].
      split; [by apply extends_clear|]. right. split; [lia | done]. }
    { by eapply carveCount_clear. }
    exists p', r'. split; [done|]. split; [done|]. split; [done | lia].
  - rewrite (setCell_restore puzzle row col (Some originalValue) None)
      by done.
    apply IH; [by split | done].
Qed.

Lemma validInner_first (difficulty : Difficulty) (row col : nat)
    (rest : list (nat * nat)) :
  (row < 6)%nat → (col < 6)%nat →
  ∃ puzzle' removed',
    validInner s difficulty ((row, col) :: rest) (s, 0%nat)
    = (puzzle', removed')
    ∧ carveInv s puzzle' removed'
    ∧ carveCount difficulty puzzle' removed'
    ∧ (0 < removed')%nat.
Proof.
  intros Hr Hc. pose proof s_wellFormed as [Hs Hrange].
  cbn [validInner].
  assert (Nat.leb (getCellsToRemove difficulty) 0 = false) as Hlim
    by (by destruct difficulty).
  rewrite Hlim.
  destruct (s_full row col Hr Hc) as [v Hv]. rewrite Hv.
  rewrite hasUniqueSolution_cleared_cell by done.
  rewrite hasNextLogicalMove_cleared_cell by done.
  cbn [andb].
  destruct (validInner_inv difficulty rest (setCell s row col None) 1)
    as (p' & r' & Heq & Hinv' & Hcount' & Hle).
  { split; [by apply wellFormed_clear|].
    split; [apply extends_clear; try done; apply extends_refl|].
    right. split; [lia|].
    split; [by apply hasUniqueSolution_cleared_cell
           | by apply hasNextLogicalMove_cleared_cell]. }
  { apply (carveCount_clear difficulty s 0 row col v); try done.
    split; [done|]. rewrite (countFilled_full s Hs s_full). split; lia. }
  exists p', r'. split; [done|]. split; [done|]. split; [done | lia].
Qed.

(** X23. On a solution (a well-formed full valid grid), [createValidPuzzle]
    never returns [null]: whatever the random draws, it returns a puzzle
    whose only completion is the solution, that has a logical next move,
    and that has at least [getMinimumClues] clues. *)
Theorem createValidPuzzle_succeeds (difficulty : Difficulty) (n : nat) :
  ∃ puzzle n',
    createValidPuzzle oracle s difficulty n = (Some puzzle, n')
    ∧ wellFormed puzzle
    ∧ uniqueCompletion puzzle s
    ∧ hasNextLogicalMove puzzle = true
    ∧ (getMinimumClues difficulty ≤ countFilled puzzle)%nat.
Proof.
  unfold createValidPuzzle.
  pose proof (shuffleArray_length oracle allPositions n) as Hlen.
  pose proof (shuffleArray_elem_of oracle allPositions n) as Helem.
  destruct (shuffleArray oracle allPositions n) as [positions n1].
  cbn [fst] in Hlen, Helem.
  destruct positions as [|[row col] rest]; [done|].
  assert ((row < 6)%nat ∧ (col < 6)%nat) as [Hr Hc].
  { apply elem_of_allPositions, Helem. left. }
  destruct (validInner_first difficulty row col rest Hr Hc)
    as (p & r & -> & (Hwf & Hext & Hstate) & (Hsp & Hcount & Hle) & Hpos).
  destruct Hstate as [[-> _]|(_ & Hunique & Hlogical)]; [lia|].
  assert (getMinimumClues difficulty ≤ countFilled p)%nat as Hmin.
  { destruct difficulty; simpl in *; lia. }
  assert (Nat.ltb (countFilled p) (getMinimumClues difficulty) = false) as ->
    by (apply Nat.ltb_ge; lia).
  rewrite Hlogical. cbn [negb].
  exists p, n1. split; [done|]. split; [done|]. split; [|done].
  apply hasUniqueSolution_sound; try done.
  apply (validUnits_sub p s); try done. apply s_wellFormed.
Qed.

End ValidCarver.

Lemma validUnits_sampleSolution : validUnits sampleSolution.
Proof. by apply (isValidGrid_units sampleSolution). Qed.

Lemma createValidPuzzle_succeeds_witness :
  wellFormed sampleSolution ∧ isFull sampleSolution
  ∧ validUnits sampleSolution
  ∧ ∃ puzzle n',
      createValidPuzzle (fun n => (n * 7 + 3)%nat) sampleSolution Easy 0
      = (Some puzzle, n')
      ∧ wellFormed puzzle
      ∧ uniqueCompletion puzzle sampleSolution
      ∧ hasNextLogicalMove puzzle = true
      ∧ (getMinimumClues Easy ≤ countFilled puzzle)%nat.
Proof.
  split; [apply wellFormed_sampleSolution|].
  split; [apply isFull_sampleSolution|].
  split; [apply validUnits_sampleSolution|].
  exact (createValidPuzzle_succeeds (fun n => (n * 7 + 3)%nat) sampleSolution
           wellFormed_sampleSolution isFull_sampleSolution
           validUnits_sampleSolution Easy 0).
Defined.

(** ** What [generatePuzzle] returns *)

Section GeneratedPuzzle.

Variable oracle : nat → nat.

(** The first attempt of [generatePuzzle] succeeds with the puzzle of
    [createGuidedPuzzle]. *)
Lemma generatePuzzle_first_attempt (difficulty : Difficulty) (n : nat) :
  ∃ puzzle solution n1 n2,
    generatePuzzle oracle difficulty n = (puzzle, solution, n2)
    ∧ wellFormed solution ∧ isFull solution ∧ validUnits solution
    ∧ createGuidedPuzzle oracle solution difficulty n1 = (Some puzzle, n2)
    ∧ wellFormed puzzle ∧ extends puzzle solution
    ∧ hasUniqueSolution puzzle solution = true
    ∧ hasNextLogicalMove puzzle = true.
Proof.
  destruct (generateCompleteSolution_spec oracle n)
    as (solution & n1 & _ & Hgen & Hwf & Hfull & Hunits).
  destruct (createGuidedPuzzle_spec oracle solution Hwf Hfull Hunits
              difficulty n1)
    as (puzzle & n2 & Hguided & Hwf_p & Hext & Hunique & Hlogical).
  exists puzzle, solution, n1, n2.
  split; [|done].
  assert (∀ left, generateLoop oracle (S left) difficulty n
                  = (puzzle, solution, n2)) as Hloop.
  { intros left. cbn [generateLoop].
    by rewrite Hgen, Hguided, Hunique, Hlogical. }
  apply (Hloop 14%nat).
Qed.

(** X24. Whatever the random draws, [generatePuzzle] returns a solution
    that [isSolved] accepts and a puzzle that [isValidGrid] accepts, that
    keeps cells of the solution only, that has a logical next move, and
    whose number of clues is at least [getMinimumClues], at least 36 minus
    [getCellsToRemove], and at most 35. *)
Theorem generatePuzzle_guarantees (difficulty : Difficulty) (n : nat) :
  ∃ puzzle solution n',
    generatePuzzle oracle difficulty n = (puzzle, solution, n')
    ∧ isSolved solution = true
    ∧ isValidGrid puzzle = true
    ∧ extends puzzle solution
    ∧ hasNextLogicalMove puzzle = true
    ∧ (getMinimumClues difficulty ≤ countFilled puzzle)%nat
    ∧ (36 - getCellsToRemove difficulty ≤ countFilled puzzle ≤ 35)%nat.
Proof.
  destruct (generatePuzzle_first_attempt difficulty n)
    as (puzzle & solution & n1 & n2 & Heq & Hwf & Hfull & Hunits & Hguided
        & Hwfp & Hext & Hunique & Hlogical).
  destruct (createGuidedPuzzle_counts oracle solution difficulty n1 n2 puzzle
              (proj1 Hwf) Hfull Hguided) as [Hmin Htarget].
  pose proof (hasNextLogicalMove_not_full puzzle Hwfp Hlogical) as H35.
  exists puzzle, solution, n2. split; [done|].
  split; [apply isSolved_iff; split; [apply Hwf | done]|].
  split.
  { apply isValidGrid_units. split; [apply Hwfp|].
    apply (validUnits_sub puzzle solution); try done;
      [apply Hwfp | apply Hwf]. }
  split; [done|]. split; [done|]. split; [done | lia].
Qed.

(** X25. For the puzzle and the solution [generatePuzzle] returns, a grid
    with values in 1..6 that keeps the clues of the puzzle is accepted by
    [isSolved] exactly when it is the returned solution. *)
Theorem generatePuzzle_solved_iff_solution (difficulty : Difficulty)
    (n : nat) :
  ∃ puzzle solution n',
    generatePuzzle oracle difficulty n = (puzzle, solution, n')
    ∧ ∀ t, inRange t → extends puzzle t →
           (isSolved t = true ↔ t = solution).
Proof.
  destruct (generatePuzzle_first_attempt difficulty n)
    as (puzzle & solution & n1 & n2 & Heq & Hwf & Hfull & Hunits & Hguided
        & Hwfp & Hext & Hunique & Hlogical).
  exists puzzle, solution, n2. split; [done|].
  intros t Hrange Hkeeps.
  assert (uniqueCompletion puzzle solution) as [_ Honly].
  { apply hasUniqueSolution_sound; try done.
    apply (validUnits_sub puzzle solution); try done;
      [apply Hwfp | apply Hwf]. }
  split.
  - intros Hsolved. apply isSolved_iff in Hsolved as (Hst & Hfullt & Hvt).
    apply Honly. split; [by split|]. split; [done|]. split; [|done].
    by apply isValidGrid_units.
  - intros ->. apply isSolved_iff. split; [apply Hwf | done].
Qed.

End GeneratedPuzzle.

(** * Emoji conversion *)

Lemma map_id_in {A} (f : A → A) (l : list A) :
  (∀ x, x ∈ l → f x = x) → map f l = l.
Proof.
  intros Hf. rewrite <- (map_id l) at 2. apply map_ext_in.
  intros x Hx. apply Hf. by apply list_elem_of_In.
Qed.

(** [indexOf] finds the first index holding the string. *)
Lemma indexOf_lookup (emojis : list string) (emoji : string) (index : nat) :
  indexOf emojis emoji = Some index → emojis !! index = Some emoji.
Proof.
  revert index. induction emojis as [|e rest IH]; intros index; [done|].
  simpl. destruct (String.eqb_spec e emoji) as [->|Hne].
  - by intros [= <-].
  - destruct (indexOf rest emoji) as [i|]; [|done].
    intros [= <-]. simpl. by apply IH.
Qed.

Lemma indexOf_elem_of (emojis : list string) (emoji : string) :
  emoji ∈ emojis → ∃ index, indexOf emojis emoji = Some index.
Proof.
  induction emojis as [|e rest IH]; intros Hin.
  { by apply elem_of_nil in Hin. }
  simpl. destruct (String.eqb_spec e emoji) as [->|Hne]; [by eexists|].
  apply elem_of_cons in Hin as [->|Hin]; [done|].
  destruct (IH Hin) as [i ->]. by eexists.
Qed.

Lemma indexOf_NoDup (emojis : list string) (emoji : string) (index : nat) :
  NoDup emojis → emojis !! index = Some emoji →
  indexOf emojis emoji = Some index.
Proof.
  revert index. induction emojis as [|e rest IH]; intros index Hnd Hlook;
    [done|].
  apply NoDup_cons in Hnd as [Hnotin Hnd]. simpl.
  destruct index as [|index]; simpl in Hlook.
  - injection Hlook as ->. by rewrite String.eqb_refl.
  - destruct (String.eqb_spec e emoji) as [->|Hne].
    + destruct Hnotin. by eapply list_elem_of_lookup_2.
    + by rewrite (IH index Hnd Hlook).
Qed.

(** X26. Converting a grid to emojis and back gives the grid again, when
    the emojis are distinct and none is the empty string, and every filled
    cell holds a value between 1 and the number of emojis. *)
Theorem convertEmojisToGrid_convertGridToEmojis (g : Grid)
    (emojis : list string) :
  NoDup emojis → EmptyString ∉ emojis →
  (∀ row v, row ∈ g → Some v ∈ row → 1 ≤ v ≤ Z.of_nat (length emojis)) →
  convertEmojisToGrid (convertGridToEmojis g emojis) emojis = g.
Proof.
  intros Hnd Hne Hrange. unfold convertEmojisToGrid, convertGridToEmojis.
  rewrite map_map. apply map_id_in. intros row Hrow.
  rewrite map_map. apply map_id_in. intros [v|] Hcell; [|done].
  destruct (Hrange row v Hrow Hcell) as [Hlo Hhi].
  unfold emojiAt. rewrite (proj2 (Z.ltb_ge (v - 1) 0)) by lia.
  destruct (lookup_lt_is_Some_2 emojis (Z.to_nat (v - 1))) as [e He]; [lia|].
  rewrite He.
  destruct (String.eqb_spec e EmptyString) as [->|Hnonempty].
  { destruct Hne. by eapply list_elem_of_lookup_2. }
  rewrite (indexOf_NoDup emojis e _ Hnd He). f_equal. lia.
Qed.

Lemma convertEmojisToGrid_convertGridToEmojis_witness :
  NoDup sampleEmojis
  ∧ (EmptyString ∉ sampleEmojis)
  ∧ (∀ row v, row ∈ scenarioC → Some v ∈ row →
              1 ≤ v ≤ Z.of_nat (length sampleEmojis))
  ∧ convertEmojisToGrid (convertGridToEmojis scenarioC sampleEmojis)
                        sampleEmojis
    = scenarioC.
Proof.
  assert (NoDup sampleEmojis) as Hnd.
  { unfold sampleEmojis.
    repeat (apply NoDup_cons_2;
              [rewrite ?elem_of_cons, elem_of_nil; intros H;
               repeat (destruct H as [H|H]; [discriminate H|]); done|]).
    apply NoDup_nil_2. }
  assert (EmptyString ∉ sampleEmojis) as Hne.
  { unfold sampleEmojis. rewrite !elem_of_cons, elem_of_nil. intros H.
    repeat (destruct H as [H|H]; [discriminate H|]). done. }
  assert (∀ row v, row ∈ scenarioC → Some v ∈ row →
                   1 ≤ v ≤ Z.of_nat (length sampleEmojis)) as Hrange.
  { intros row v Hrow Hv.
    apply list_elem_of_lookup_1 in Hrow as [r Hr].
    apply list_elem_of_lookup_1 in Hv as [c Hc].
    apply (proj2 wellFormed_scenarioC r c v).
    unfold cellAt. by rewrite Hr. }
  split; [exact Hnd|]. split; [exact Hne|]. split; [exact Hrange|].
  exact (convertEmojisToGrid_convertGridToEmojis scenarioC _ Hnd Hne Hrange).
Defined.

(** X27. Converting an emoji grid to numbers and back gives the emoji grid
    again, when every filled cell holds one of the emojis and is not the
    empty string. *)
Theorem convertGridToEmojis_convertEmojisToGrid (emojiGrid : EmojiGrid)
    (emojis : list string) :
  (∀ row emoji, row ∈ emojiGrid → Some emoji ∈ row →
                emoji ∈ emojis ∧ emoji ≠ EmptyString) →
  convertGridToEmojis (convertEmojisToGrid emojiGrid emojis) emojis
  = emojiGrid.
Proof.
  intros Hknown. unfold convertEmojisToGrid, convertGridToEmojis.
  rewrite map_map. apply map_id_in. intros row Hrow.
  rewrite map_map. apply map_id_in. intros [emoji|] Hcell; [|done].
  destruct (Hknown row emoji Hrow Hcell) as [Hin Hnonempty].
  destruct (indexOf_elem_of emojis emoji Hin) as [index Hindex].
  rewrite Hindex. apply indexOf_lookup in Hindex.
  unfold emojiAt. rewrite (proj2 (Z.ltb_ge _ 0)) by lia.
  replace (Z.to_nat (Z.of_nat index + 1 - 1)) with index by lia.
  rewrite Hindex.
  destruct (String.eqb_spec emoji EmptyString) as [->|_]; done.
Qed.

Lemma convertGridToEmojis_convertEmojisToGrid_witness :
  (∀ row emoji, row ∈ sampleEmojiGrid → Some emoji ∈ row →
                emoji ∈ sampleEmojis ∧ emoji ≠ EmptyString)
  ∧ convertGridToEmojis (convertEmojisToGrid sampleEmojiGrid sampleEmojis)
                        sampleEmojis
    = sampleEmojiGrid.
Proof.
  assert (∀ row emoji, row ∈ sampleEmojiGrid → Some emoji ∈ row →
                       emoji ∈ sampleEmojis ∧ emoji ≠ EmptyString) as Hknown.
  { intros row emoji Hrow Hcell. unfold sampleEmojiGrid in Hrow.
    assert (emoji = "fox"%string ∨ emoji = "bee"%string) as Hcases.
    { rewrite !elem_of_cons, elem_of_nil in Hrow.
      destruct Hrow as [->|[->|[]]];
        rewrite !elem_of_cons, elem_of_nil in Hcell.
      - destruct Hcell as [[= ->]|[[=]|[]]]. by left.
      - destruct Hcell as [[= ->]|[[= ->]|[]]]; [by right | by left]. }
    unfold sampleEmojis.
    destruct Hcases as [->| ->]; (split; [|discriminate]);
      rewrite !elem_of_cons; auto 10. }
  split; [exact Hknown|].
  exact (convertGridToEmojis_convertEmojisToGrid _ _ Hknown).
Defined.

(** ** The object store: updating a candidate map in place *)

Module CandidateStoreFacts.

Import Store StoreSpec StoreFacts CandidateStore.

Lemma readRec_app_set (h : heap) (elems : CandidateSet) (l : loc) :
  readRec (h ++ [OSet elems]) l = readRec h l.
Proof.
  unfold readRec. destruct (decide (l < length h)%nat) as [Hlt|Hge].
  - by rewrite lookup_app_l by done.
  - rewrite lookup_app_r by lia. rewrite (lookup_ge_None_2 h l) by lia.
    by destruct (l - length h)%nat as [|[|n]].
Qed.

Lemma readSet_app (h k : heap) (l : loc) (s : CandidateSet) :
  readSet h l = Some s → readSet (h ++ k) l = Some s.
Proof. apply readSet_le, heap_le_app. Qed.

Lemma readSet_lt (h : heap) (l : loc) (s : CandidateSet) :
  readSet h l = Some s → (l < length h)%nat.
Proof.
  unfold readSet. destruct (h !! l) eqn:Hl; [|done].
  intros _. by eapply lookup_lt_Some.
Qed.

(** Replacing a set by a set leaves every object as it is. *)
Lemma readRec_insert_set (h : heap) (so l : loc) (s0 s : CandidateSet) :
  readSet h so = Some s0 →
  readRec (<[so := OSet s]> h) l = readRec h l.
Proof.
  intros Hso. unfold readRec. destruct (decide (so = l)) as [->|Hne].
  - rewrite list_lookup_insert_eq by (by eapply readSet_lt).
    unfold readSet in Hso. by destruct (h !! l) as [[]|].
  - by rewrite list_lookup_insert_ne.
Qed.

Lemma readSet_insert_eq (h : heap) (so : loc) (s : CandidateSet) :
  (so < length h)%nat → readSet (<[so := OSet s]> h) so = Some s.
Proof. intros Hlt. unfold readSet. by rewrite list_lookup_insert_eq. Qed.

Lemma readSet_insert_ne (h : heap) (x l : loc) (o : obj) :
  x ≠ l → readSet (<[x := o]> h) l = readSet h l.
Proof. intros Hne. unfold readSet. by rewrite list_lookup_insert_ne. Qed.

Lemma candRef_ext (h h' : heap) (copy : loc) (r c : nat) :
  (∀ l, readRec h' l = readRec h l) →
  candRef h' copy r c = candRef h copy r c.
Proof.
  intros Hrec. unfold candRef. rewrite Hrec.
  destruct (readRec h copy) as [fields|]; [|done]. simpl.
  destruct (fields !! r) as [rowRef|]; [|done]. by rewrite Hrec.
Qed.

(** Storing the fresh set [fresh] at [(R, C)] in the row object [ro] of
    the map changes that entry only. *)
Lemma candRef_store (hc : heap) (copy ro fresh : loc) (o : obj)
    (cf rf : gmap nat loc) (R C r c : nat) :
  readRec hc copy = Some cf →
  cf !! R = Some ro →
  readRec hc ro = Some rf →
  ro ≠ copy →
  (∀ l, readRec (hc ++ [o]) l = readRec hc l) →
  (∀ r r' ro, cf !! r = Some ro → cf !! r' = Some ro → r = r') →
  candRef (<[ro := ORec (<[C := fresh]> rf)]> (hc ++ [o])) copy r c
  = if decide (r = R ∧ c = C) then Some (Some fresh)
    else candRef hc copy r c.
Proof.
  intros Hcf Hro Hrf Hne Happ Hinj.
  assert (ro < length (hc ++ [o]))%nat as Hlt.
  { apply readRec_lt in Hrf. rewrite length_app. lia. }
  unfold candRef.
  rewrite readRec_insert_ne, Happ, Hcf by done. simpl.
  destruct (cf !! r) as [ro'|] eqn:Hr.
  - destruct (decide (r = R)) as [->|HrR].
    + assert (ro' = ro) as -> by congruence.
      rewrite readRec_insert_eq, Hrf by done. simpl.
      destruct (decide (c = C)) as [->|HcC].
      * rewrite lookup_insert_eq. by rewrite decide_True.
      * rewrite lookup_insert_ne by done. rewrite decide_False; [done|].
        intros [_ ?]. done.
    + assert (ro ≠ ro') as Hro_ne.
      { intros ->. apply HrR. by eapply Hinj. }
      rewrite readRec_insert_ne, Happ by done.
      rewrite decide_False; [done|]. intros [? _]. done.
  - rewrite decide_False; [done|]. intros [-> _]. congruence.
Qed.

(** One column of [deepCopyCandidates] keeps the sets of the copy apart. *)
Lemma copy_column_step_apart (h : heap) (candidates : loc) (hc : heap)
    (R C : nat) :
  wfCand h candidates →
  rowInv h candidates hc R C →
  setsApart h hc (length h) →
  ∃ hc',
    (cellCandidates ← candRef hc candidates R C;
     elems ← match cellCandidates with
             | Some setRef => readSet hc setRef
             | None => Some []
             end;
     let '(h1, fresh) := alloc hc (OSet elems) in
     setEntry h1 (length h) R C fresh) = Some hc'
    ∧ rowInv h candidates hc' R (S C)
    ∧ setsApart h hc' (length h).
Proof.
  intros Hwf Hinv [Hbound Hapart].
  destruct (copy_column_step h candidates hc R C Hwf Hinv)
    as (hc' & Hstep & Hinv').
  exists hc'. split; [done|]. split; [done|].
  destruct Hinv as (Hle & cf & Hcf & Hdone & Hrow & Hkeys & Hinj).
  destruct (candRef_source h hc candidates R C Hwf Hle) as (cc & Hcc & Helems).
  rewrite Hcc in Hstep. simpl in Hstep. rewrite Helems in Hstep.
  simpl in Hstep.
  destruct Hrow as (ro & rf & Hro & Hb & Hrf & Hsets).
  unfold setEntry, setField in Hstep.
  rewrite (readRec_le hc _ _ _ (heap_le_app hc _) Hcf) in Hstep.
  simpl in Hstep. rewrite Hro in Hstep. simpl in Hstep.
  rewrite (readRec_le hc _ _ _ (heap_le_app hc _) Hrf) in Hstep.
  simpl in Hstep. injection Hstep as <-.
  set (elems := candDefault h candidates R C).
  assert (∀ r c,
            candRef (<[ro := ORec (<[C := length hc]> rf)]>
                       (hc ++ [OSet elems])) (length h) r c
            = if decide (r = R ∧ c = C) then Some (Some (length hc))
              else candRef hc (length h) r c) as Hrefs.
  { intros r c. apply (candRef_store hc _ ro _ _ cf); try done; [lia|].
    intros l. apply readRec_app_set. }
  assert (∀ so s, readSet hc so = Some s →
                  readSet (<[ro := ORec (<[C := length hc]> rf)]>
                             (hc ++ [OSet elems])) so = Some s) as Hold.
  { intros so s Hs.
    rewrite (readSet_insert_rec (hc ++ [OSet elems]) ro so rf)
      by (by apply (readRec_le hc); [apply heap_le_app|]).
    by apply readSet_app. }
  split.
  - intros r c so Hso. rewrite Hrefs in Hso.
    rewrite length_insert, length_app. simpl.
    destruct (decide (r = R ∧ c = C)) as [_|_].
    + injection Hso as <-. split; [lia|]. exists elems.
      rewrite (readSet_insert_rec (hc ++ [OSet elems]) ro _ rf)
        by (by apply (readRec_le hc); [apply heap_le_app|]).
      apply readSet_alloc.
    + destruct (Hbound r c so Hso) as [Hlt [s Hs]].
      split; [lia|]. exists s. by apply Hold.
  - intros r c r' c' so Hso Hso'. rewrite Hrefs in Hso, Hso'.
    destruct (decide (r = R ∧ c = C)) as [[-> ->]|_];
      destruct (decide (r' = R ∧ c' = C)) as [[-> ->]|_]; [done| | |].
    + injection Hso as <-. apply Hbound in Hso'. lia.
    + injection Hso' as <-. apply Hbound in Hso. lia.
    + by eapply Hapart.
Qed.

(** The start of a row of [deepCopyCandidates]: the new row object is in
    place and has no entry yet. *)
Lemma copy_row_start (h : heap) (candidates : loc) (hc : heap) (R : nat) :
  copyInv h candidates hc R →
  setsApart h hc (length h) →
  ∃ cf,
    readRec hc (length h) = Some cf
    ∧ rowInv h candidates
        (<[length h := ORec (<[R := length hc]> cf)]> (hc ++ [ORec ∅])) R 0
    ∧ setsApart h
        (<[length h := ORec (<[R := length hc]> cf)]> (hc ++ [ORec ∅]))
        (length h).
Proof.
  intros (Hle & cf & Hcf & Hdone & Hkeys & Hinj) [Hbound Hapart].
  exists cf. split; [done|].
  set (h2 := hc ++ [ORec ∅]).
  set (cf' := <[R := length hc]> cf).
  set (h3 := <[length h := ORec cf']> h2).
  assert (length h < length hc)%nat as Hn by (by eapply readRec_lt).
  assert (length h2 = S (length hc)) as Hlen2
    by (unfold h2; rewrite length_app; simpl; lia).
  assert (readRec h2 (length h) = Some cf) as Hcf2
    by (apply (readRec_le hc); [apply heap_le_app | done]).
  assert (cf !! R = None) as HR.
  { destruct (cf !! R) as [ro|] eqn:HcfR; [|done].
    specialize (Hkeys R ro HcfR). lia. }
  assert (∀ r ro, cf !! r = Some ro → (length h < ro < length hc)%nat)
    as Hrows.
  { intros r ro Hr.
    destruct (Hdone r (Hkeys r ro Hr)) as (ro' & _ & Hro' & Hb & _).
    assert (ro' = ro) as -> by congruence. done. }
  assert (∀ so s, readSet hc so = Some s → readSet h3 so = Some s) as Hold.
  { intros so s Hs. unfold h3.
    rewrite (readSet_insert_rec h2 _ so cf) by done.
    by apply readSet_app. }
  split.
  - split; [|exists cf'; split; [|split; [|split; [|split]]]].
    + intros l o Hl. unfold h3. rewrite list_lookup_insert_ne.
      * apply heap_le_app. by apply Hle.
      * apply lookup_lt_Some in Hl. lia.
    + apply readRec_insert_eq. lia.
    + intros r Hr.
      apply (rowCopied_mono h candidates hc _ cf cf' r 6); try done.
      * by apply Hdone.
      * unfold cf'. rewrite lookup_insert_ne by lia. done.
      * unfold h3. rewrite length_insert. lia.
      * intros ro f Hro Hf. specialize (Hrows r ro Hro).
        unfold h3. rewrite readRec_insert_ne by lia.
        apply (readRec_le hc); [apply heap_le_app | done].
    + exists (length hc), ∅. split; [apply lookup_insert_eq|].
      split; [unfold h3; rewrite length_insert; lia|].
      split; [|intros c Hc; lia].
      unfold h3. rewrite readRec_insert_ne by lia. apply readRec_alloc.
    + intros r ro Hr. unfold cf' in Hr.
      destruct (decide (r = R)) as [->|HrR]; [done|].
      rewrite lookup_insert_ne in Hr by done.
      specialize (Hkeys r ro Hr). lia.
    + intros r r' ro Hr Hr'. unfold cf' in Hr, Hr'.
      destruct (decide (r = R)) as [->|HrR];
        destruct (decide (r' = R)) as [->|Hr'R]; [done| | |].
      * rewrite lookup_insert_eq in Hr.
        rewrite lookup_insert_ne in Hr' by done.
        injection Hr as <-. specialize (Hrows r' _ Hr'). lia.
      * rewrite lookup_insert_eq in Hr'.
        rewrite lookup_insert_ne in Hr by done.
        injection Hr' as <-. specialize (Hrows r _ Hr). lia.
      * rewrite lookup_insert_ne in Hr, Hr' by done. by eapply Hinj.
  - assert (∀ r c, candRef h3 (length h) r c = candRef hc (length h) r c)
      as Hrefs.
    { intros r c. unfold candRef, h3.
      rewrite readRec_insert_eq, Hcf by lia. simpl. unfold cf'.
      destruct (decide (r = R)) as [->|HrR].
      - rewrite lookup_insert_eq, HR.
        rewrite readRec_insert_ne by lia. unfold h2.
        rewrite readRec_alloc. simpl. by rewrite lookup_empty.
      - rewrite lookup_insert_ne by done.
        destruct (cf !! r) as [ro|] eqn:Hr; [|done].
        specialize (Hrows r ro Hr).
        rewrite readRec_insert_ne by lia. unfold h2, readRec.
        by rewrite lookup_app_l by lia. }
    split.
    + intros r c so Hso. rewrite Hrefs in Hso.
      destruct (Hbound r c so Hso) as [Hlt [s Hs]].
      unfold h3. rewrite length_insert. split; [lia|].
      exists s. by apply Hold.
    + intros r c r' c' so Hso Hso'. rewrite Hrefs in Hso, Hso'.
      by eapply Hapart.
Qed.

(** One row of [deepCopyCandidates] keeps the sets of the copy apart. *)
Lemma copy_row_step_apart (h : heap) (candidates : loc) (hc : heap)
    (R : nat) :
  wfCand h candidates →
  copyInv h candidates hc R →
  setsApart h hc (length h) →
  ∃ hc',
    (let '(h2, rowObj) := alloc hc (ORec ∅) in
     h3 ← setField h2 (length h) R rowObj;
     copyRowCandidates candidates (length h) R h3) = Some hc'
    ∧ copyInv h candidates hc' (S R)
    ∧ setsApart h hc' (length h).
Proof.
  intros Hwf Hinv Hap.
  destruct (copy_row_start h candidates hc R Hinv Hap)
    as (cf & Hcf & Hinv0 & Hap0).
  simpl. unfold setField.
  rewrite (readRec_le hc _ _ _ (heap_le_app hc _) Hcf). simpl.
  destruct (foldl_seq_inv
              (fun (acc : option heap) (col : nat) =>
                 h0 ← acc;
                 cellCandidates ← candRef h0 candidates R col;
                 elems ← match cellCandidates with
                         | Some setRef => readSet h0 setRef
                         | None => Some []
                         end;
                 let '(h1, fresh) := alloc h0 (OSet elems) in
                 setEntry h1 (length h) R col fresh)
              (fun hx C => rowInv h candidates hx R C
                           ∧ setsApart h hx (length h)) 6 0
              (<[length h := ORec (<[R := length hc]> cf)]>
                 (hc ++ [ORec ∅])))
    as (hc' & Hfold & Hinv6 & Hap6).
  { intros hx C _ [Hx Hxa]. simpl.
    destruct (copy_column_step_apart h candidates hx R C Hwf Hx Hxa)
      as (hx' & Hstep & Hx' & Hxa').
    by exists hx'. }
  { done. }
  exists hc'. split; [exact Hfold|]. split; [|done].
  destruct Hinv6 as (Hle' & cf6 & Hcf6 & Hdone6 & Hrow6 & Hkeys6 & Hinj6).
  split; [done|]. exists cf6. split; [done|]. split; [|split; [|done]].
  - intros r Hr. destruct (decide (r = R)) as [->|Hne]; [done|].
    apply Hdone6. lia.
  - intros r ro Hr. specialize (Hkeys6 r ro Hr). lia.
Qed.

(** [deepCopyCandidates] returns a map whose 36 sets are fresh and
    pairwise distinct. *)
Lemma deepCopyCandidates_apart (h : heap) (candidates : loc) :
  wfCand h candidates →
  ∃ h', deepCopyCandidates h candidates = Some (h', length h)
        ∧ copyInv h candidates h' 6
        ∧ setsApart h h' (length h).
Proof.
  intros Hwf.
  destruct (foldl_seq_inv
              (fun (acc : option heap) (row : nat) =>
                 h1 ← acc;
                 let '(h2, rowObj) := alloc h1 (ORec ∅) in
                 h3 ← setField h2 (length h) row rowObj;
                 copyRowCandidates candidates (length h) row h3)
              (fun hx R => copyInv h candidates hx R
                           ∧ setsApart h hx (length h)) 6 0
              (h ++ [ORec ∅]))
    as (h' & Hfold & Hinv & Hap).
  - intros hx R _ [Hx Hxa]. simpl.
    destruct (copy_row_step_apart h candidates hx R Hwf Hx Hxa)
      as (hx' & Hstep & Hx' & Hxa').
    by exists hx'.
  - assert (∀ r c, candRef (h ++ [ORec ∅]) (length h) r c = Some None)
      as Hrefs.
    { intros r c. unfold candRef. rewrite readRec_alloc. simpl.
      by rewrite lookup_empty. }
    split.
    + split; [apply heap_le_app|]. exists ∅.
      split; [apply readRec_alloc|]. split; [intros r Hr; lia|].
      split; [intros r ro Hr; by rewrite lookup_empty in Hr|].
      intros r r' ro Hr. by rewrite lookup_empty in Hr.
    + split.
      * intros r c so Hso. by rewrite Hrefs in Hso.
      * intros r c r' c' so Hso. by rewrite Hrefs in Hso.
  - exists h'. unfold deepCopyCandidates, GRID_SIZE.
    cbv beta iota delta [alloc] in Hfold |- *. by rewrite Hfold.
Qed.

(** Storing a fresh set in the copy: the map can then be updated in place,
    and it holds the new set at that cell and the input's sets elsewhere. *)
Lemma store_fresh_entry (h : heap) (candidates : loc) (h1 : heap)
    (r0 c0 : nat) (s : CandidateSet) :
  copyInv h candidates h1 6 →
  setsApart h h1 (length h) →
  (r0 < 6)%nat →
  ∃ h3,
    setEntry (h1 ++ [OSet s]) (length h) r0 c0 (length h1) = Some h3
    ∧ ownsSets h h3 (length h)
    ∧ ∀ r c, (r < 6)%nat → (c < 6)%nat →
        candEntry h3 (length h) r c
        = Some (if decide (r = r0 ∧ c = c0) then s
                else candDefault h candidates r c).
Proof.
  intros (Hle & cf & Hcf & Hrows & Hkeys & Hinj) [Hbound Hapart] Hr0.
  destruct (Hrows r0 Hr0) as (ro & rf & Hro & Hb & Hrf & Hsets).
  unfold setEntry, setField.
  rewrite (readRec_le h1 _ _ _ (heap_le_app h1 _) Hcf). simpl.
  rewrite Hro. simpl.
  rewrite (readRec_le h1 _ _ _ (heap_le_app h1 _) Hrf). simpl.
  eexists. split; [done|].
  set (h3 := <[ro := ORec (<[c0 := length h1]> rf)]> (h1 ++ [OSet s])).
  assert (∀ r c, candRef h3 (length h) r c
                 = if decide (r = r0 ∧ c = c0) then Some (Some (length h1))
                   else candRef h1 (length h) r c) as Hrefs.
  { intros r c. apply (candRef_store h1 _ ro _ _ cf); try done; [lia|].
    intros l. apply readRec_app_set. }
  assert (∀ so s', readSet h1 so = Some s' → readSet h3 so = Some s')
    as Hold.
  { intros so s' Hs. unfold h3.
    rewrite (readSet_insert_rec (h1 ++ [OSet s]) ro so rf)
      by (by apply (readRec_le h1); [apply heap_le_app|]).
    by apply readSet_app. }
  assert (readSet h3 (length h1) = Some s) as Hnew.
  { unfold h3.
    rewrite (readSet_insert_rec (h1 ++ [OSet s]) ro _ rf)
      by (by apply (readRec_le h1); [apply heap_le_app|]).
    apply readSet_alloc. }
  assert (length h3 = S (length h1)) as Hlen3.
  { unfold h3. rewrite length_insert, length_app. simpl. lia. }
  split; [split; [|split; [|split]]|].
  - intros l o Hl. unfold h3. rewrite list_lookup_insert_ne.
    + apply heap_le_app. by apply Hle.
    + apply lookup_lt_Some in Hl. lia.
  - intros r c. rewrite Hrefs.
    destruct (decide (r = r0 ∧ c = c0)) as [_|_]; [by eexists|].
    unfold candRef. rewrite Hcf. simpl.
    destruct (cf !! r) as [ro'|] eqn:Hr; [|by eexists].
    destruct (Hrows r (Hkeys r ro' Hr)) as (ro'' & rf' & Hro'' & _ & Hrf' & _).
    assert (ro'' = ro') as -> by congruence.
    rewrite Hrf'. by eexists.
  - intros r c so Hso. rewrite Hrefs in Hso. rewrite Hlen3.
    destruct (decide (r = r0 ∧ c = c0)) as [_|_].
    + injection Hso as <-. split; [lia|]. by exists s.
    + destruct (Hbound r c so Hso) as [Hlt [s' Hs]].
      split; [lia|]. exists s'. by apply Hold.
  - intros r c r' c' so Hso Hso'. rewrite Hrefs in Hso, Hso'.
    destruct (decide (r = r0 ∧ c = c0)) as [[-> ->]|_];
      destruct (decide (r' = r0 ∧ c' = c0)) as [[-> ->]|_]; [done| | |].
    + injection Hso as <-. apply Hbound in Hso'. lia.
    + injection Hso' as <-. apply Hbound in Hso. lia.
    + by eapply Hapart.
  - intros r c Hr Hc. unfold candEntry. rewrite Hrefs.
    destruct (decide (r = r0 ∧ c = c0)) as [_|_]; [exact Hnew|].
    destruct (Hrows r Hr) as (ro' & rf' & Hro' & _ & Hrf' & Hsets').
    destruct (Hsets' c Hc) as (so & Hso & Hs).
    unfold candRef. rewrite Hcf. simpl. rewrite Hro', Hrf'. simpl.
    rewrite Hso. by apply Hold.
Qed.

Lemma setDelete_setDelete (v w : Z) (s : CandidateSet) :
  setDelete v (setDelete w s) = filter (fun x => x ≠ v ∧ x ≠ w) s.
Proof. unfold setDelete. by rewrite list_filter_filter. Qed.

Lemma setDelete_idemp (v : Z) (s : CandidateSet) :
  setDelete v (setDelete v s) = setDelete v s.
Proof.
  rewrite setDelete_setDelete. unfold setDelete.
  apply list_filter_iff. tauto.
Qed.

(** One guarded [delete] on a map that owns its sets: only the set of the
    cell addressed loses the value, and the map still owns its sets. *)
Lemma deleteAt_owned (h : heap) (copy : loc) (v : Z) (cond : bool)
    (r c : nat) (hx : heap) :
  ownsSets h hx copy →
  ∃ hx',
    deleteAt copy v cond r c hx = Some hx'
    ∧ ownsSets h hx' copy
    ∧ ∀ r' c',
        candEntry hx' copy r' c'
        = (if cond && bool_decide (r = r' ∧ c = c')
           then setDelete v else fun s => s) <$> candEntry hx copy r' c'.
Proof.
  intros (Hframe & Htotal & Hbound & Hapart).
  assert (∀ r' c', candEntry hx copy r' c'
                   = (fun s : CandidateSet => s) <$> candEntry hx copy r' c')
    as Hid.
  { intros r' c'. by destruct (candEntry hx copy r' c'). }
  unfold deleteAt. destruct cond; [|by exists hx].
  destruct (Htotal r c) as [entry Hentry]. rewrite Hentry. simpl.
  destruct entry as [so|].
  - destruct (Hbound r c so Hentry) as [Hso [elems Helems]].
    rewrite Helems. simpl. eexists. split; [done|].
    set (hx' := <[so := OSet (setDelete v elems)]> hx).
    assert (∀ r' c', candRef hx' copy r' c' = candRef hx copy r' c')
      as Hrefs.
    { intros r' c'. apply candRef_ext. intros l.
      by apply (readRec_insert_set hx so l elems). }
    split; [split; [|split; [|split]]|].
    + intros l o Hl. unfold hx'. rewrite list_lookup_insert_ne.
      * by apply Hframe.
      * apply lookup_lt_Some in Hl. lia.
    + intros r' c'. rewrite Hrefs. apply Htotal.
    + intros r' c' so' Hso'. rewrite Hrefs in Hso'.
      destruct (Hbound r' c' so' Hso') as [Hlt [s' Hs']].
      unfold hx'. rewrite length_insert. split; [done|].
      destruct (decide (so = so')) as [<-|Hne].
      * rewrite readSet_insert_eq by lia. by eexists.
      * rewrite readSet_insert_ne by done. by eexists.
    + intros r1 c1 r2 c2 so'. rewrite !Hrefs. apply Hapart.
    + intros r' c'. unfold candEntry. rewrite Hrefs.
      destruct (candRef hx copy r' c') as [[so'|]|] eqn:Hso'.
      * destruct (bool_decide_reflect (r = r' ∧ c = c')) as [[<- <-]|Hne].
        -- assert (so' = so) as -> by congruence.
           unfold hx'. rewrite readSet_insert_eq by lia.
           by rewrite Helems.
        -- assert (so ≠ so') as Hso_ne.
           { intros <-. apply Hne. by eapply Hapart. }
           unfold hx'. rewrite readSet_insert_ne by done.
           by destruct (readSet hx so').
      * by destruct (true && bool_decide (r = r' ∧ c = c')).
      * by destruct (true && bool_decide (r = r' ∧ c = c')).
  - exists hx. split; [done|]. split; [done|].
    intros r' c'.
    destruct (bool_decide_reflect (r = r' ∧ c = c')) as [[<- <-]|Hne];
      [|apply Hid].
    unfold candEntry. by rewrite Hentry.
Qed.

(** A loop of guarded [delete]s on a map that owns its sets. *)
Lemma delete_loop {A} (h : heap) (copy : loc) (cond : A → bool)
    (row col : A → nat) (val : A → Z) (xs : list A) (hx : heap) :
  ownsSets h hx copy →
  ∃ hx',
    foldl
      (fun (acc : option heap) (x : A) =>
         h0 ← acc; deleteAt copy (val x) (cond x) (row x) (col x) h0)
      (Some hx) xs = Some hx'
    ∧ ownsSets h hx' copy
    ∧ ∀ r c, candEntry hx' copy r c
             = deletedBy cond row col val xs r c <$> candEntry hx copy r c.
Proof.
  revert hx. induction xs as [|a xs IH]; intros hx Hown.
  - exists hx. split; [done|]. split; [done|].
    intros r c. by destruct (candEntry hx copy r c).
  - destruct (deleteAt_owned h copy (val a) (cond a) (row a) (col a) hx Hown)
      as (hx1 & Hdel & Hown1 & Hent1).
    destruct (IH hx1 Hown1) as (hx' & Hfold & Hown' & Hent').
    exists hx'. split; [|split; [done|]].
    + cbn [foldl mbind option_bind]. by rewrite Hdel.
    + intros r c. rewrite Hent', Hent1.
      destruct (candEntry hx copy r c) as [s|]; [|done].
      unfold deletedBy. cbn [foldl fmap option_fmap option_map].
      by destruct (cond a && bool_decide (row a = r ∧ col a = c)).
Qed.

Lemma deletedBy_eliminations (eliminations : list Elimination) (r c : nat)
    (s : CandidateSet) :
  deletedBy (fun _ => true) e_row e_col e_value eliminations r c s
  = filter (fun x => x ∉ eliminatedAt eliminations r c) s.
Proof.
  unfold deletedBy, eliminatedAt.
  revert s. induction eliminations as [|e es IH]; intros s.
  - simpl. induction s as [|x s IHs]; [done|].
    rewrite filter_cons_True by apply not_elem_of_nil. by f_equal.
  - cbn [foldl]. rewrite IH. rewrite filter_cons.
    destruct (bool_decide_reflect (e_row e = r ∧ e_col e = c)) as [He|He].
    + rewrite decide_True by done. cbn [andb fmap list_fmap].
      unfold setDelete. rewrite list_filter_filter.
      apply list_filter_iff. intros x. rewrite not_elem_of_cons. tauto.
    + by rewrite decide_False by done.
Qed.

(** After [deepCopyCandidates] the copy owns its sets, and they hold what
    the input held. *)
Lemma copy_owns_sets (h : heap) (candidates : loc) (h1 : heap) :
  copyInv h candidates h1 6 →
  setsApart h h1 (length h) →
  ownsSets h h1 (length h)
  ∧ ∀ r c, (r < 6)%nat → (c < 6)%nat →
      candEntry h1 (length h) r c = Some (candDefault h candidates r c).
Proof.
  intros (Hle & cf & Hcf & Hrows & Hkeys & Hinj) Hap.
  split; [split; [done|split; [|done]]|].
  - intros r c. unfold candRef. rewrite Hcf. simpl.
    destruct (cf !! r) as [ro'|] eqn:Hr; [|by eexists].
    destruct (Hrows r (Hkeys r ro' Hr)) as (ro'' & rf' & Hro'' & _ & Hrf' & _).
    assert (ro'' = ro') as -> by congruence.
    rewrite Hrf'. by eexists.
  - intros r c Hr Hc.
    destruct (Hrows r Hr) as (ro' & rf' & Hro' & _ & Hrf' & Hsets').
    destruct (Hsets' c Hc) as (so & Hso & Hs).
    unfold candEntry, candRef. rewrite Hcf. simpl. rewrite Hro', Hrf'. simpl.
    by rewrite Hso.
Qed.

(** *** The store of a candidate map *)

Lemma storeOfCandidates_holds (g : Grid) :
  holdsCandidatesOf (storeOfCandidates (calculateAllCandidates g)) 0 g.
Proof.
  intros r c Hr Hc. rewrite storeOfCandidates_entry by done.
  rewrite candAt_calculateAllCandidates by done. by eexists _, _.
Qed.

(** *** [eliminateCandidates] *)

(** X28. [eliminateCandidates] returns a new map in which every cell of the
    board holds the elements of the input's entry (none where the input
    has no entry) except the values that [eliminations] names for that
    cell; eliminations addressed to cells outside the map are skipped, and
    every object that existed before the call, the input map included, is
    unchanged. *)
Theorem eliminateCandidates_removes_exactly (h : heap) (candidates : loc)
    (eliminations : list Elimination) :
  wfCand h candidates →
  ∃ (h' : heap) (newCandidates : loc),
    eliminateCandidates h candidates eliminations = Some (h', newCandidates)
    ∧ (∀ r c, (r < 6)%nat → (c < 6)%nat →
              candEntry h' newCandidates r c
              = Some (filter (fun x => x ∉ eliminatedAt eliminations r c)
                             (default [] (candEntry h candidates r c))))
    ∧ (∀ l o, h !! l = Some o → h' !! l = Some o).
Proof.
  intros Hwf.
  destruct (deepCopyCandidates_apart h candidates Hwf)
    as (h1 & Hcopy & Hinv & Hap).
  destruct (copy_owns_sets h candidates h1 Hinv Hap) as [Hown Hent].
  destruct (delete_loop h (length h) (fun _ => true) e_row e_col e_value
              eliminations h1 Hown) as (h2 & Hloop & Hown2 & Hent2).
  exists h2, (length h). unfold eliminateCandidates.
  rewrite Hcopy. cbn [mbind option_bind]. rewrite Hloop.
  split; [done|]. split; [|apply Hown2].
  intros r c Hr Hc. rewrite Hent2, Hent by done.
  cbn [fmap option_fmap option_map].
  by rewrite deletedBy_eliminations.
Qed.

Lemma eliminateCandidates_removes_exactly_witness :
  wfCand (storeOfCandidates (calculateAllCandidates scenarioE)) 0
  ∧ ∃ (h' : heap) (newCandidates : loc),
      eliminateCandidates
        (storeOfCandidates (calculateAllCandidates scenarioE)) 0
        [mkElimination 0 4 5; mkElimination 9 9 1; mkElimination 0 4 6]
      = Some (h', newCandidates)
      ∧ (∀ r c, (r < 6)%nat → (c < 6)%nat →
                candEntry h' newCandidates r c
                = Some (filter
                          (fun x =>
                             x ∉ eliminatedAt
                                   [mkElimination 0 4 5; mkElimination 9 9 1;
                                    mkElimination 0 4 6] r c)
                          (default []
                             (candEntry
                                (storeOfCandidates
                                   (calculateAllCandidates scenarioE))
                                0 r c))))
      ∧ (∀ l o,
           storeOfCandidates (calculateAllCandidates scenarioE) !! l = Some o →
           h' !! l = Some o).
Proof.
  split; [apply storeOfCandidates_wf|].
  apply (eliminateCandidates_removes_exactly
           (storeOfCandidates (calculateAllCandidates scenarioE)) 0
           [mkElimination 0 4 5; mkElimination 9 9 1; mkElimination 0 4 6]).
  apply storeOfCandidates_wf.
Defined.

(** *** [updateCandidatesAfterMove] for a placed value *)

(** Deleting one value [v]: each loop either leaves a set as it is or
    deletes [v] from it, and it deletes [v] if it visits the cell. *)
Lemma deletedBy_cases {A} (cond : A → bool) (row col : A → nat) (v : Z)
    (xs : list A) (r c : nat) (s : CandidateSet) :
  deletedBy cond row col (fun _ => v) xs r c s = s
  ∨ ((∃ x, x ∈ xs ∧ cond x = true ∧ row x = r ∧ col x = c)
     ∧ deletedBy cond row col (fun _ => v) xs r c s = setDelete v s).
Proof.
  unfold deletedBy. revert s. induction xs as [|a xs IH]; intros s.
  - by left.
  - cbn [foldl].
    destruct (cond a) eqn:Hcond;
      [destruct (bool_decide_reflect (row a = r ∧ col a = c)) as [[Hr Hc]|Hne]|];
      cbn [andb].
    + right. split; [exists a; split; [left|done]|].
      destruct (IH (setDelete v s)) as [->|[_ ->]]; [done|].
      apply setDelete_idemp.
    + destruct (IH s) as [->|[(x & Hx & Hvis) ->]]; [by left|].
      right. split; [|done]. exists x. split; [by right|done].
    + destruct (IH s) as [->|[(x & Hx & Hvis) ->]]; [by left|].
      right. split; [|done]. exists x. split; [by right|done].
Qed.

Lemma deletedBy_visited {A} (cond : A → bool) (row col : A → nat) (v : Z)
    (xs : list A) (r c : nat) (s : CandidateSet) :
  (∃ x, x ∈ xs ∧ cond x = true ∧ row x = r ∧ col x = c) →
  deletedBy cond row col (fun _ => v) xs r c s = setDelete v s.
Proof.
  revert s. induction xs as [|a xs IH]; intros s (x & Hx & Hcond & Hr & Hc).
  - by apply elem_of_nil in Hx.
  - unfold deletedBy. cbn [foldl].
    destruct (cond a && bool_decide (row a = r ∧ col a = c)) eqn:Hhit.
    + change (deletedBy cond row col (fun _ => v) xs r c (setDelete v s)
              = setDelete v s).
      destruct (deletedBy_cases cond row col v xs r c (setDelete v s))
        as [->|[_ ->]]; [done|]. apply setDelete_idemp.
    + change (deletedBy cond row col (fun _ => v) xs r c s = setDelete v s).
      apply IH. exists x. split; [|done].
      apply elem_of_cons in Hx as [->|Hx]; [|done].
      rewrite Hcond in Hhit. cbn [andb] in Hhit.
      apply bool_decide_eq_false in Hhit. by destruct Hhit.
Qed.

(** The three loops of the placement path together: the cells that share
    a row, a column or a box with the move, other than its own cell, lose
    the value, and no other cell does. *)
Lemma place_deletions (v : Z) (r0 c0 r c : nat) (s : CandidateSet) :
  (r0 < 6)%nat → (c0 < 6)%nat → (r < 6)%nat → (c < 6)%nat →
  let startRow := (r0 / BOX_HEIGHT * BOX_HEIGHT)%nat in
  let startCol := (c0 / BOX_WIDTH * BOX_WIDTH)%nat in
  let box rr :=
    deletedBy
      (fun cc => negb (Nat.eqb rr r0) || negb (Nat.eqb cc c0))
      (fun _ => rr) (fun cc => cc) (fun _ => v) (seq startCol BOX_WIDTH) r c in
  box (S startRow)
    (box startRow
       (deletedBy (fun row => negb (Nat.eqb row r0)) (fun row => row)
          (fun _ => c0) (fun _ => v) (seq 0 GRID_SIZE) r c
          (deletedBy (fun col => negb (Nat.eqb col c0)) (fun _ => r0)
             (fun col => col) (fun _ => v) (seq 0 GRID_SIZE) r c s)))
  = if decide ((r ≠ r0 ∨ c ≠ c0)
               ∧ (r = r0 ∨ c = c0
                  ∨ ((r / 2 = r0 / 2)%nat ∧ (c / 3 = c0 / 3)%nat)))
    then setDelete v s else s.
Proof.
  intros Hr0 Hc0 Hr Hc startRow startCol box.
  unfold BOX_HEIGHT, BOX_WIDTH, GRID_SIZE in *.
  nat_div r0 2%nat. nat_div c0 3%nat. nat_div r 2%nat. nat_div c 3%nat.
  set (s1 := deletedBy (fun col => negb (Nat.eqb col c0)) _ _ _ _ r c s).
  set (s2 := deletedBy (fun row => negb (Nat.eqb row r0)) _ _ _ _ r c s1).
  set (s3 := box startRow s2).
  set (s4 := box (S startRow) s3).
  pose proof (deletedBy_cases (fun col => negb (Nat.eqb col c0))
                (fun _ => r0) (fun col => col) v (seq 0 6) r c s) as K1.
  pose proof (deletedBy_cases (fun row => negb (Nat.eqb row r0))
                (fun row => row) (fun _ => c0) v (seq 0 6) r c s1) as K2.
  pose proof (deletedBy_cases
                (fun cc => negb (Nat.eqb startRow r0) || negb (Nat.eqb cc c0))
                (fun _ => startRow) (fun cc => cc) v (seq startCol 3) r c s2)
    as K3.
  pose proof (deletedBy_cases
                (fun cc => negb (Nat.eqb (S startRow) r0)
                           || negb (Nat.eqb cc c0))
                (fun _ => S startRow) (fun cc => cc) v (seq startCol 3) r c s3)
    as K4.
  fold s1 in K1. fold s2 in K2.
  change (deletedBy _ _ _ _ _ r c s2) with s3 in K3.
  change (deletedBy _ _ _ _ _ r c s3) with s4 in K4.
  assert (∀ t, t = s ∨ t = setDelete v s →
               setDelete v t = setDelete v s) as Hdel.
  { intros t [->| ->]; [done|apply setDelete_idemp]. }
  destruct (decide ((r ≠ r0 ∨ c ≠ c0)
                    ∧ (r = r0 ∨ c = c0
                       ∨ ((r / 2 = r0 / 2)%nat ∧ (c / 3 = c0 / 3)%nat))))
    as [[Hne Hpeer]|Hnot].
  - assert (s1 = s ∨ s1 = setDelete v s) as K1'
      by (destruct K1 as [?|[_ ?]]; auto).
    assert (s2 = s1 ∨ s2 = setDelete v s1) as K2'
      by (destruct K2 as [?|[_ ?]]; auto).
    assert (s3 = s2 ∨ s3 = setDelete v s2) as K3'
      by (destruct K3 as [?|[_ ?]]; auto).
    assert (s4 = s3 ∨ s4 = setDelete v s3) as K4'
      by (destruct K4 as [?|[_ ?]]; auto).
    assert (s1 = setDelete v s ∨ s2 = setDelete v s1
            ∨ s3 = setDelete v s2 ∨ s4 = setDelete v s3) as Hvis.
    { destruct (decide (r = r0)) as [->|Hrne].
      { left. apply deletedBy_visited. exists c.
        split; [apply list_elem_of_In, in_seq; lia|].
        split; [|done]. apply negb_true_iff, Nat.eqb_neq.
        destruct Hne; [done|lia]. }
      destruct (decide (c = c0)) as [->|Hcne].
      { right. left. apply deletedBy_visited. exists r.
        split; [apply list_elem_of_In, in_seq; lia|].
        split; [|done]. by apply negb_true_iff, Nat.eqb_neq. }
      destruct Hpeer as [?|[?|[Hbr Hbc]]]; [done|done|].
      right. right.
      assert (r = startRow ∨ r = S startRow) as [Hrs|Hrs]
        by (unfold startRow; lia).
      - left. apply deletedBy_visited. exists c.
        split; [apply list_elem_of_In, in_seq; unfold startCol; lia|].
        split; [|done]. apply orb_true_iff. right.
        by apply negb_true_iff, Nat.eqb_neq.
      - right. apply deletedBy_visited. exists c.
        split; [apply list_elem_of_In, in_seq; unfold startCol; lia|].
        split; [|done]. apply orb_true_iff. right.
        by apply negb_true_iff, Nat.eqb_neq. }
    assert (s2 = s ∨ s2 = setDelete v s) as K2s.
    { destruct K2' as [->| ->]; [done|]. right. by apply Hdel. }
    assert (s3 = s ∨ s3 = setDelete v s) as K3s.
    { destruct K3' as [->| ->]; [done|]. right. by apply Hdel. }
    destruct Hvis as [E1|[E2|[E3|E4]]].
    + assert (s2 = setDelete v s) as E2.
      { destruct K2' as [->| ->]; [done|]. rewrite E1. apply setDelete_idemp. }
      assert (s3 = setDelete v s) as E3.
      { destruct K3' as [->| ->]; [done|]. rewrite E2. apply setDelete_idemp. }
      destruct K4' as [->| ->]; [done|]. rewrite E3. apply setDelete_idemp.
    + assert (s2 = setDelete v s) as E2' by (rewrite E2; by apply Hdel).
      assert (s3 = setDelete v s) as E3.
      { destruct K3' as [->| ->]; [done|]. rewrite E2'. apply setDelete_idemp. }
      destruct K4' as [->| ->]; [done|]. rewrite E3. apply setDelete_idemp.
    + assert (s3 = setDelete v s) as E3' by (rewrite E3; by apply Hdel).
      destruct K4' as [->| ->]; [done|]. rewrite E3'. apply setDelete_idemp.
    + rewrite E4. by apply Hdel.
  - assert (s1 = s) as E1.
    { destruct K1 as [?|[(x & Hx & Hcond & Hxr & Hxc) _]]; [done|].
      exfalso. apply Hnot. apply negb_true_iff, Nat.eqb_neq in Hcond.
      split; [right; lia|left; lia]. }
    assert (s2 = s1) as E2.
    { destruct K2 as [?|[(x & Hx & Hcond & Hxr & Hxc) _]]; [done|].
      exfalso. apply Hnot. apply negb_true_iff, Nat.eqb_neq in Hcond.
      split; [left; lia|right; left; lia]. }
    assert (s3 = s2) as E3.
    { destruct K3 as [?|[(x & Hx & Hcond & Hxr & Hxc) _]]; [done|].
      exfalso. apply Hnot.
      apply list_elem_of_In, in_seq in Hx. unfold startCol in Hx.
      apply orb_true_iff in Hcond.
      rewrite !negb_true_iff, !Nat.eqb_neq in Hcond.
      unfold startRow in *. split; [lia|].
      right. right. lia. }
    assert (s4 = s3) as E4.
    { destruct K4 as [?|[(x & Hx & Hcond & Hxr & Hxc) _]]; [done|].
      exfalso. apply Hnot.
      apply list_elem_of_In, in_seq in Hx. unfold startCol in Hx.
      apply orb_true_iff in Hcond.
      rewrite !negb_true_iff, !Nat.eqb_neq in Hcond.
      unfold startRow in *. split; [lia|].
      right. right. lia. }
    by rewrite E4, E3, E2, E1.
Qed.

Lemma shares_unit_iff (r0 c0 r c : nat) :
  (r0 < 6)%nat → (c0 < 6)%nat →
  (∃ unit, unit ∈ unitsOf r c ∧ (r0, c0) ∈ unit)
  ↔ r = r0 ∨ c = c0 ∨ ((r / 2 = r0 / 2)%nat ∧ (c / 3 = c0 / 3)%nat).
Proof.
  intros Hr0 Hc0. unfold unitsOf. split.
  - intros (unit & Hunit & Hin).
    rewrite !elem_of_cons, elem_of_nil in Hunit.
    destruct Hunit as [->|[->|[->|[]]]].
    + apply elem_of_rowPositions_iff in Hin as [Hin _]. by left.
    + apply elem_of_colPositions_iff in Hin as [Hin _]. right. by left.
    + apply elem_of_boxPositions_iff in Hin as [Hbr Hbc]. right. by right.
  - intros [->|[->|[Hbr Hbc]]].
    + exists (rowPositions r0). split; [left|].
      by apply elem_of_rowPositions_iff.
    + exists (colPositions c0). split; [right; left|].
      by apply elem_of_colPositions_iff.
    + exists (boxPositions (r / 2) (c / 3)). split; [right; right; left|].
      by apply elem_of_boxPositions_iff.
Qed.

(** What a cell sees after a value is placed in an empty cell. *)
Lemma seenFrom_setCell (g : Grid) (r0 c0 r c : nat) (v x : Z) :
  shape66 g → (r0 < 6)%nat → (c0 < 6)%nat →
  cellAt g r0 c0 = Some None →
  seenFrom (setCell g r0 c0 (Some v)) r c x
  ↔ seenFrom g r c x
    ∨ (x = v ∧ ∃ unit, unit ∈ unitsOf r c ∧ (r0, c0) ∈ unit).
Proof.
  intros Hs Hr0 Hc0 Hempty. unfold seenFrom. split.
  - intros (unit & q & Hunit & Hq & Hcell).
    rewrite cellAt_setCell in Hcell by done.
    destruct (decide ((q.1, q.2) = (r0, c0))) as [Heq|Hne].
    + right. split; [congruence|]. exists unit. split; [done|].
      rewrite <- Heq. by destruct q.
    + left. by exists unit, q.
  - intros [(unit & q & Hunit & Hq & Hcell)|[-> (unit & Hunit & Hin)]].
    + exists unit, q. split; [done|]. split; [done|].
      rewrite cellAt_setCell by done.
      rewrite decide_False; [done|]. intros [= Hq1 Hq2].
      rewrite Hq1, Hq2 in Hcell. congruence.
    + exists unit, (r0, c0). split; [done|]. split; [done|].
      cbn [fst snd]. rewrite cellAt_setCell by done.
      by rewrite decide_True.
Qed.

(** The candidates of another empty cell after a value is placed in an
    empty cell. *)
Lemma candidates_after_place (g : Grid) (r0 c0 r c : nat) (v : Z) :
  shape66 g → (r0 < 6)%nat → (c0 < 6)%nat →
  cellAt g r0 c0 = Some None →
  cellAt g r c = Some None →
  (r ≠ r0 ∨ c ≠ c0) →
  calculateCellCandidates (setCell g r0 c0 (Some v)) r c
  ≡ₚ if decide ((r ≠ r0 ∨ c ≠ c0)
                ∧ (r = r0 ∨ c = c0
                   ∨ ((r / 2 = r0 / 2)%nat ∧ (c / 3 = c0 / 3)%nat)))
     then setDelete v (calculateCellCandidates g r c)
     else calculateCellCandidates g r c.
Proof.
  intros Hs Hr0 Hc0 Hempty Hcell Hne.
  assert (shape66 (setCell g r0 c0 (Some v))) as Hs'
    by (by apply shape66_setCell).
  assert (cellAt (setCell g r0 c0 (Some v)) r c = Some None) as Hcell'.
  { rewrite cellAt_setCell by done. rewrite decide_False; [done|].
    intros [= -> ->]. by destruct Hne. }
  assert (∀ x, x ∈ calculateCellCandidates (setCell g r0 c0 (Some v)) r c
               ↔ x ∈ calculateCellCandidates g r c
                 ∧ ¬ (x = v
                      ∧ (r = r0 ∨ c = c0
                         ∨ ((r / 2 = r0 / 2)%nat ∧ (c / 3 = c0 / 3)%nat))))
    as Hmem.
  { intros x. rewrite !candidates_iff_unseen by done.
    rewrite seenFrom_setCell by done.
    rewrite shares_unit_iff by done. tauto. }
  apply NoDup_Permutation.
  - apply NoDup_calculateCellCandidates.
  - destruct (decide _); [apply NoDup_filter|];
      apply NoDup_calculateCellCandidates.
  - intros x. rewrite Hmem.
    destruct (decide _) as [[_ Hpeer]|Hnot].
    + unfold setDelete. rewrite list_elem_of_filter. tauto.
    + tauto.
Qed.

(** X29. Placing a value in an empty cell of a board whose candidates the
    input map holds: [updateCandidatesAfterMove] returns a new map that
    holds, for every cell, the set that [calculateAllCandidates] gives it
    on the board with the value placed; every object that existed before
    the call, the input map included, is unchanged. *)
Theorem updateCandidatesAfterMove_place (g : Grid) (h : heap)
    (candidates : loc) (mv : PlayerMove) (v : Z) :
  shape66 g →
  wfCand h candidates →
  holdsCandidatesOf h candidates g →
  pm_value mv = Some v →
  (pm_row mv < 6)%nat → (pm_col mv < 6)%nat →
  cellAt g (pm_row mv) (pm_col mv) = Some None →
  ∃ (h' : heap) (newCandidates : loc),
    updateCandidatesAfterMove g h candidates mv = Some (h', newCandidates)
    ∧ holdsCandidatesOf h' newCandidates
        (setCell g (pm_row mv) (pm_col mv) (Some v))
    ∧ (∀ l o, h !! l = Some o → h' !! l = Some o).
Proof.
  intros Hs Hwf Hholds Hval Hr0 Hc0 Hempty.
  destruct mv as [r0 c0 value isUndo]. cbn [pm_row pm_col pm_value] in *.
  subst value.
  destruct (deepCopyCandidates_apart h candidates Hwf)
    as (h1 & Hcopy & Hinv & Hap).
  destruct (store_fresh_entry h candidates h1 r0 c0 [] Hinv Hap Hr0)
    as (h3 & Hset & Hown3 & Hent3).
  destruct (delete_loop h (length h) (fun col => negb (Nat.eqb col c0))
              (fun _ => r0) (fun col => col) (fun _ => v)
              (seq 0 GRID_SIZE) h3 Hown3) as (h4 & Hloop4 & Hown4 & Hent4).
  destruct (delete_loop h (length h) (fun row => negb (Nat.eqb row r0))
              (fun row => row) (fun _ => c0) (fun _ => v)
              (seq 0 GRID_SIZE) h4 Hown4) as (h5 & Hloop5 & Hown5 & Hent5).
  set (startRow := (r0 / BOX_HEIGHT * BOX_HEIGHT)%nat).
  set (startCol := (c0 / BOX_WIDTH * BOX_WIDTH)%nat).
  destruct (delete_loop h (length h)
              (fun cc => negb (Nat.eqb startRow r0) || negb (Nat.eqb cc c0))
              (fun _ => startRow) (fun cc => cc) (fun _ => v)
              (seq startCol BOX_WIDTH) h5 Hown5)
    as (h6 & Hloop6 & Hown6 & Hent6).
  destruct (delete_loop h (length h)
              (fun cc => negb (Nat.eqb (S startRow) r0)
                         || negb (Nat.eqb cc c0))
              (fun _ => S startRow) (fun cc => cc) (fun _ => v)
              (seq startCol BOX_WIDTH) h6 Hown6)
    as (h7 & Hloop7 & Hown7 & Hent7).
  exists h7, (length h). split; [|split; [|apply Hown7]].
  - unfold updateCandidatesAfterMove. rewrite Hcopy.
    cbn [mbind option_bind pm_row pm_col pm_value alloc].
    rewrite Hset. cbn [mbind option_bind].
    rewrite Hloop4. cbn [mbind option_bind].
    rewrite Hloop5. cbn [mbind option_bind].
    fold startRow startCol.
    change (seq startRow BOX_HEIGHT) with [startRow; S startRow].
    cbn [foldl]. rewrite Hloop6, Hloop7. done.
  - intros r c Hr Hc.
    rewrite Hent7, Hent6, Hent5, Hent4, Hent3 by done.
    cbn [fmap option_fmap option_map].
    pose proof (place_deletions v r0 c0 r c
                  (if decide (r = r0 ∧ c = c0) then []
                   else candDefault h candidates r c) Hr0 Hc0 Hr Hc) as Hdel.
    cbv zeta in Hdel. fold startRow startCol in Hdel. rewrite Hdel.
    rewrite candAt_calculateAllCandidates by done.
    rewrite cellAt_setCell by done.
    eexists _, _. split; [done|]. split; [done|].
    destruct (decide (r = r0 ∧ c = c0)) as [[-> ->]|Hne].
    + destruct (decide (_ ∧ _)) as [[[?|?] _]|_]; [done|done|].
      by rewrite decide_True.
    + assert (r ≠ r0 ∨ c ≠ c0) as Hne'.
      { destruct (decide (r = r0)) as [->|?]; [|by left].
        right. intros ->. by apply Hne. }
      destruct (decide ((r, c) = (r0, c0))) as [[= -> ->]|_];
        [by destruct Hne|].
      destruct (Hholds r c Hr Hc) as (sIn & tIn & HsIn & HtIn & Hperm).
      rewrite candAt_calculateAllCandidates in HtIn by done.
      injection HtIn as <-.
      unfold candDefault. rewrite HsIn. cbn [default].
      destruct (cellAt g r c) as [[w|]|] eqn:Hcell.
      * apply Permutation_nil_r in Hperm as ->.
        by destruct (decide _).
      * rewrite candidates_after_place by done.
        destruct (decide _); [unfold setDelete|]; by rewrite Hperm.
      * apply Permutation_nil_r in Hperm as ->.
        by destruct (decide _).
Qed.

Lemma updateCandidatesAfterMove_place_witness :
  shape66 scenarioE
  ∧ wfCand (storeOfCandidates (calculateAllCandidates scenarioE)) 0
  ∧ holdsCandidatesOf
      (storeOfCandidates (calculateAllCandidates scenarioE)) 0 scenarioE
  ∧ cellAt scenarioE 0 4 = Some None
  ∧ ∃ (h' : heap) (newCandidates : loc),
      updateCandidatesAfterMove scenarioE
        (storeOfCandidates (calculateAllCandidates scenarioE)) 0
        (mkMove 0 4 (Some 4) None)
      = Some (h', newCandidates)
      ∧ holdsCandidatesOf h' newCandidates (setCell scenarioE 0 4 (Some 4))
      ∧ (∀ l o,
           storeOfCandidates (calculateAllCandidates scenarioE) !! l = Some o →
           h' !! l = Some o).
Proof.
  assert (shape66 scenarioE) as Hs.
  { split; [reflexivity|]. by repeat constructor. }
  split; [exact Hs|].
  split; [apply storeOfCandidates_wf|].
  split; [apply storeOfCandidates_holds|].
  split; [reflexivity|].
  apply (updateCandidatesAfterMove_place scenarioE
           (storeOfCandidates (calculateAllCandidates scenarioE)) 0
           (mkMove 0 4 (Some 4) None) 4 Hs
           (storeOfCandidates_wf _) (storeOfCandidates_holds _) eq_refl).
  - simpl. lia.
  - simpl. lia.
  - reflexivity.
Defined.

End CandidateStoreFacts.

(** ** The move history: adding and undoing *)

Module HistoryFacts.

Import Store StoreFacts.

(** What [addMove] leaves in the history: the new entry after the earlier
    ones, without the oldest once a hundred are kept. *)
Lemma addMove_history (h : heap) (mgr : MoveHistoryManager)
    (mv : PlayerMove) (board : loc) (g : Grid) (hintUsed : bool)
    (tech : option SolvingTechnique) (now : Z) :
  loadGrid h board = Some g →
  addMove h mgr mv board hintUsed tech now
  = Some (h ++ (ORow <$> g) ++ [OGrid (seq (length h) (length g))],
          mkManager
            (drop (S (length (history mgr)) - maxHistorySize) (history mgr)
             ++ [mkEntry mv now (length h + length g) hintUsed tech])).
Proof.
  intros Hg. unfold addMove, deepCopyGrid.
  rewrite (copyGrid_spec h board g Hg). cbn [mbind option_bind].
  do 2 f_equal. rewrite length_app. cbn [length].
  replace (length (history mgr) + 1)%nat with (S (length (history mgr)))
    by lia.
  destruct (Nat.ltb_spec maxHistorySize (S (length (history mgr))))
    as [Hlong|Hshort].
  - unfold maxHistorySize in *. by rewrite drop_app_le by lia.
  - by replace (S (length (history mgr)) - maxHistorySize)%nat with 0%nat
      by lia.
Qed.

(** X30. [addMove] followed by [removeLastMove]: the entry removed is the
    one just added, with the move, the flag and the time it was given and
    a snapshot denoting the board; the history is back to the earlier
    entries, less the oldest one if a hundred were already kept; in
    between, the history holds at most a hundred entries. *)
Theorem addMove_then_removeLastMove (h : heap) (mgr : MoveHistoryManager)
    (mv : PlayerMove) (board : loc) (g : Grid) (hintUsed : bool)
    (tech : option SolvingTechnique) (now : Z) :
  loadGrid h board = Some g →
  ∃ (h1 : heap) (mgr1 : MoveHistoryManager) (entry : MoveHistoryEntry),
    addMove h mgr mv board hintUsed tech now = Some (h1, mgr1)
    ∧ length (history mgr1)
      = Nat.min maxHistorySize (S (length (history mgr)))
    ∧ removeLastMove mgr1
      = (Some entry,
         mkManager
           (drop (S (length (history mgr)) - maxHistorySize) (history mgr)))
    ∧ move entry = mv
    ∧ wasHintUsed entry = hintUsed
    ∧ timestamp entry = now
    ∧ loadGrid h1 (boardStateBefore entry) = Some g.
Proof.
  intros Hg. rewrite (addMove_history h mgr mv board g hintUsed tech now Hg).
  eexists _, _, (mkEntry mv now (length h + length g) hintUsed tech).
  split; [done|]. cbn [history].
  split; [|split; [|split; [done|split; [done|split; [done|]]]]].
  - rewrite length_app, length_drop. cbn [length]. unfold maxHistorySize. lia.
  - unfold removeLastMove. cbn [history].
    rewrite last_snoc. do 2 f_equal.
    rewrite length_app. cbn [length].
    rewrite Nat.add_sub. apply take_app_length.
  - apply loadGrid_copy.
Qed.

Lemma addMove_then_removeLastMove_witness :
  loadGrid (storeOf scenarioC) 6 = Some scenarioC
  ∧ ∃ (h1 : heap) (mgr1 : MoveHistoryManager) (entry : MoveHistoryEntry),
      addMove (storeOf scenarioC) newManager (mkMove 2 4 (Some 6) None) 6
        true (Some NAKED_SINGLE) 1700000000000
      = Some (h1, mgr1)
      ∧ length (history mgr1)
        = Nat.min maxHistorySize (S (length (history newManager)))
      ∧ removeLastMove mgr1
        = (Some entry,
           mkManager
             (drop (S (length (history newManager)) - maxHistorySize)
                   (history newManager)))
      ∧ move entry = mkMove 2 4 (Some 6) None
      ∧ wasHintUsed entry = true
      ∧ timestamp entry = 1700000000000
      ∧ loadGrid h1 (boardStateBefore entry) = Some scenarioC.
Proof.
  split; [reflexivity|].
  apply (addMove_then_removeLastMove (storeOf scenarioC) newManager
           (mkMove 2 4 (Some 6) None) 6 scenarioC true (Some NAKED_SINGLE)
           1700000000000).
  reflexivity.
Defined.

End HistoryFacts.
